(** * Heap graph walker: retained and unique retained sizes

    A shallow embedding of
    [src/trace_processor/importers/proto/heap_graph_walker.cc]
    and the properties of its fraction arithmetic, graph store and
    strongly-connected-component walker. *)

From Stdlib Require Import ZArith Lia Bool.
From stdpp Require Import list sorting.

Local Open Scope Z_scope.

(** ** Machine integers *)

(** [uint64_t] arithmetic is arithmetic modulo [2^64]. *)
Definition wrap64 (z : Z) : Z := z mod 2 ^ 64.

(** [static_cast<int64_t>] of a 64-bit pattern, and [int64_t] arithmetic. *)
Definition to_int64 (z : Z) : Z := (z + 2 ^ 63) mod 2 ^ 64 - 2 ^ 63.

(** [a - b] on [size_t], for the counters of the walker: they count
    elements of its containers, so that they are below [2^64] and their
    increments never wrap; their difference wraps when [b] exceeds [a]
    (lemma [size_sub_wrap]). *)
Definition size_sub (a b : Z) : Z :=
  if b <=? a then a - b else a - b + 2 ^ 64.

(** ** Fatal outcomes

    A [PERFETTO_CHECK] that fails aborts the process; so does (in this model)
    an access outside a container.  [DanglingPointer] is where the
    behaviour of the program stops being defined: [AddNode] resizes
    [nodes_] while a node holds a [Node*] into it.  [OutOfFuel] is an
    artefact of the embedding of the two recursive traversals; it is shown
    unreachable. *)
Inductive fatal : Type :=
  | CheckDenominator      (* PERFETTO_CHECK(denominator_ > 0) *)
  | CheckChildAssigned    (* PERFETTO_CHECK(child->component != -1) *)
  | CheckUnassigned       (* PERFETTO_CHECK(stack_elem->component == -1) *)
  | CheckOtherComponent   (* PERFETTO_CHECK(child_component_id != component_id) *)
  | CheckChildResolved    (* PERFETTO_CHECK(child_component.incoming_edges == 0), FoundSCC *)
  | CheckIncomingEdges    (* PERFETTO_CHECK(c.incoming_edges == 0), CalculateRetained *)
  | DivisionByZero        (* unsigned division by zero *)
  | OutOfBounds           (* vector index out of range, back() of an empty vector *)
  | DanglingPointer       (* nodes_.resize() while a std::set<Node*> points into nodes_ *)
  | OutOfFuel.

Inductive result (A : Type) : Type :=
  | Ok (a : A)
  | Err (e : fatal).
Arguments Ok {A} a.
Arguments Err {A} e.

Definition bind {A B} (r : result A) (k : A -> result B) : result B :=
  match r with
  | Ok a => k a
  | Err e => Err e
  end.

Notation "'let*' x ':=' r 'in' k" := (bind r (fun x => k))
  (at level 10, x name, r at level 100, k at level 200).
Notation "'let*' ' p ':=' r 'in' k" := (bind r (fun x => let 'p := x in k))
  (at level 10, p pattern, r at level 100, k at level 200).

Definition check (b : bool) (e : fatal) : result unit :=
  if b then Ok tt else Err e.

Fixpoint foldM {A S} (f : S -> A -> result S) (l : list A) (s : S) : result S :=
  match l with
  | [] => Ok s
  | a :: l' => let* s' := f s a in foldM f l' s'
  end.

(** [a / b] on [uint64_t]. *)
Definition udiv (a b : Z) : result Z :=
  if b =? 0 then Err DivisionByZero else Ok (a / b).

(** ** [std::map<int64_t, V>]

    An ordered map, iterated by ascending key: an association list kept
    sorted by key. *)
Definition omap (V : Type) : Type := list (Z * V).

Fixpoint om_find {V} (k : Z) (m : omap V) : option V :=
  match m with
  | [] => None
  | (k', v) :: m' => if k' =? k then Some v else om_find k m'
  end.

(** [m[k] = v]. *)
Fixpoint om_set {V} (k : Z) (v : V) (m : omap V) : omap V :=
  match m with
  | [] => [(k, v)]
  | (k', v') :: m' =>
      if k <? k' then (k, v) :: m
      else if k =? k' then (k, v) :: m'
      else (k', v') :: om_set k v m'
  end.

(** [m.erase(k)]. *)
Fixpoint om_erase {V} (k : Z) (m : omap V) : omap V :=
  match m with
  | [] => []
  | (k', v) :: m' => if k' =? k then m' else (k', v) :: om_erase k m'
  end.

(** ** Gcd and Lcm *)

(** The [while (other != 0)] loop of [Gcd].  Two iterations at least halve
    [other], so 130 iterations are enough for 64-bit operands
    (lemma [Gcd_loop_enough]). *)
Fixpoint Gcd_loop (fuel : nat) (one other : Z) : Z :=
  match fuel with
  | O => one
  | S fuel' =>
      if other =? 0 then one
      else Gcd_loop fuel' other (one mod other)
  end.

Definition Gcd (one other : Z) : Z :=
  if one =? 1 then 1
  else if other =? 1 then 1
  else Gcd_loop 130 one other.

Definition Lcm (one other : Z) : result Z :=
  if one >? other then
    let* q := udiv one (Gcd one other) in Ok (wrap64 (other * q))
  else
    let* q := udiv other (Gcd one other) in Ok (wrap64 (one * q)).

(** ** Fraction *)

Record Fraction : Type := mkFraction {
  numerator_ : Z;
  denominator_ : Z
}.

Module Fraction.

Definition Reduce (f : Fraction) : result Fraction :=
  if numerator_ f =? 0 then Ok (mkFraction (numerator_ f) 1)
  else if numerator_ f =? 1 then Ok f
  else
    let new_gcd := Gcd (numerator_ f) (denominator_ f) in
    let* n := udiv (numerator_ f) new_gcd in
    let* d := udiv (denominator_ f) new_gcd in
    let* _ := check (d >? 0) CheckDenominator in
    Ok (mkFraction n d).

(** [Fraction::Fraction(uint64_t numerator, uint64_t denominator)] *)
Definition make (numerator denominator : Z) : result Fraction :=
  let* _ := check (denominator >? 0) CheckDenominator in
  Reduce (mkFraction numerator denominator).

(** Modelled from the spec: the default constructor [Fraction()] of the
    header, which is not among the sources. It is what
    [std::map::operator[]] stores for a key that is not yet present;
    "numerator 0 forces denominator to 1". *)
Definition zero : Fraction := mkFraction 0 1.

(** [operator+=] *)
Definition add (self other : Fraction) : result Fraction :=
  let* new_denominator := Lcm (denominator_ self) (denominator_ other) in
  let* q1 := udiv new_denominator (denominator_ self) in
  let* q2 := udiv new_denominator (denominator_ other) in
  let new_numerator :=
    wrap64 (wrap64 (numerator_ self * q1) + wrap64 (numerator_ other * q2)) in
  Reduce (mkFraction new_numerator new_denominator).

(** [operator*] *)
Definition mul (self other : Fraction) : result Fraction :=
  make (wrap64 (numerator_ self * numerator_ other))
       (wrap64 (denominator_ self * denominator_ other)).

(** [operator==(uint64_t)] *)
Definition eq_int (self : Fraction) (other : Z) : bool :=
  numerator_ self =? wrap64 (denominator_ self * other).

End Fraction.

(** ** AddChild and IsUniqueOwner *)

Definition AddChild (component_to_node : omap Z) (count : Z)
    (child_component_id last_node_row : Z) : omap Z :=
  if count >? 1 then om_set child_component_id (-1) component_to_node
  else
    match om_find child_component_id component_to_node with
    | None => om_set child_component_id last_node_row component_to_node
    | Some node =>
        if negb (node =? last_node_row)
        then om_set child_component_id (-1) component_to_node
        else component_to_node
    end.

Definition IsUniqueOwner (component_to_node : omap Z) (count : Z)
    (child_component_id last_node_row : Z) : bool :=
  if count >? 1 then false
  else
    match om_find child_component_id component_to_node with
    | None => true
    | Some node => node =? last_node_row
    end.

(** ** The graph store

    Modelled from the spec: the declarations of [Node], [Component], the
    walker's members and [GetNode] are in the header
    [heap_graph_walker.h], which is not among the sources. A node carries
    its "row identifier (external key, also array index), self size, sets
    of child nodes and parent nodes, a reachability flag, and Tarjan
    bookkeeping (discovery index, low-link value, on-stack flag, resolved
    component id or unassigned)"; the code tests [node_index == 0] for
    "not yet visited" and [component == -1] for "unassigned", which fixes
    the initial values below.

    A [Node*] is the position of the node in [nodes_]; a [std::set<Node*>]
    is iterated by ascending address, that is by ascending position, and is
    a strictly ascending list of positions here.  A position stands for
    the address only as long as [nodes_] is not resized
    ([nodes_.resize] may move the nodes and leaves every [Node*]
    dangling): [AddNode] below stops with [DanglingPointer] when it would
    resize a table of which some node holds such a pointer. *)
Record Node : Type := mkNode {
  children : list nat;
  parents : list nat;
  self_size : Z;
  row : Z;
  node_index : Z;
  lowlink : Z;
  component : Z;
  on_stack : bool;
  reachable : bool
}.

Definition default_node : Node := mkNode [] [] 0 0 0 0 (-1) false false.

(** Modelled from the spec: a component carries its "low-link value
    (diagnostic), unique retained size accumulated so far, count of
    incoming edges from outside the component ([orig_incoming_edges]) and a
    live count, and a mapping from child-component-id to the fraction of
    that child's incoming edges contributed by this component". *)
Record Component : Type := mkComponent {
  comp_lowlink : Z;
  unique_retained_size : Z;
  incoming_edges : Z;
  orig_incoming_edges : Z;
  children_components : omap Fraction
}.

Definition default_component : Component := mkComponent 0 0 0 0 [].

(** The calls received by the delegate. *)
Inductive Event : Type :=
  | MarkReachable (row : Z)
  | SetRetained (row retained unique_retained : Z).

(** The walker. [node_stack_] has its back (the top of the stack) at the
    head of the list; [delegate_] is the sequence of calls the delegate
    has received so far, oldest first. *)
Record Walker : Type := mkWalker {
  nodes_ : list Node;
  node_stack_ : list nat;
  components_ : list Component;
  next_node_index_ : Z;
  delegate_ : list Event
}.

(** Modelled from the spec: a freshly constructed walker; the discovery
    counter starts at 1, 0 being the mark of a node not yet visited. *)
Definition empty_walker : Walker := mkWalker [] [] [] 1 [].

Definition set_nodes (nodes : list Node) (st : Walker) : Walker :=
  mkWalker nodes (node_stack_ st) (components_ st) (next_node_index_ st)
           (delegate_ st).
Definition set_node_stack (stack : list nat) (st : Walker) : Walker :=
  mkWalker (nodes_ st) stack (components_ st) (next_node_index_ st)
           (delegate_ st).
Definition set_components (components : list Component) (st : Walker) : Walker :=
  mkWalker (nodes_ st) (node_stack_ st) components (next_node_index_ st)
           (delegate_ st).
Definition set_next_node_index (i : Z) (st : Walker) : Walker :=
  mkWalker (nodes_ st) (node_stack_ st) (components_ st) i (delegate_ st).
Definition emit (e : Event) (st : Walker) : Walker :=
  mkWalker (nodes_ st) (node_stack_ st) (components_ st) (next_node_index_ st)
           (delegate_ st ++ [e]).

Definition set_children (l : list nat) (n : Node) : Node :=
  mkNode l (parents n) (self_size n) (row n) (node_index n) (lowlink n)
         (component n) (on_stack n) (reachable n).
Definition set_parents (l : list nat) (n : Node) : Node :=
  mkNode (children n) l (self_size n) (row n) (node_index n) (lowlink n)
         (component n) (on_stack n) (reachable n).
Definition set_size_row (size r : Z) (n : Node) : Node :=
  mkNode (children n) (parents n) size r (node_index n) (lowlink n)
         (component n) (on_stack n) (reachable n).
Definition set_node_index (i : Z) (n : Node) : Node :=
  mkNode (children n) (parents n) (self_size n) (row n) i (lowlink n)
         (component n) (on_stack n) (reachable n).
Definition set_lowlink (l : Z) (n : Node) : Node :=
  mkNode (children n) (parents n) (self_size n) (row n) (node_index n) l
         (component n) (on_stack n) (reachable n).
Definition set_component (c : Z) (n : Node) : Node :=
  mkNode (children n) (parents n) (self_size n) (row n) (node_index n)
         (lowlink n) c (on_stack n) (reachable n).
Definition set_on_stack (b : bool) (n : Node) : Node :=
  mkNode (children n) (parents n) (self_size n) (row n) (node_index n)
         (lowlink n) (component n) b (reachable n).
Definition set_reachable (b : bool) (n : Node) : Node :=
  mkNode (children n) (parents n) (self_size n) (row n) (node_index n)
         (lowlink n) (component n) (on_stack n) b.

Definition set_unique_retained_size (z : Z) (c : Component) : Component :=
  mkComponent (comp_lowlink c) z (incoming_edges c) (orig_incoming_edges c)
              (children_components c).
Definition set_incoming_edges (z : Z) (c : Component) : Component :=
  mkComponent (comp_lowlink c) (unique_retained_size c) z
              (orig_incoming_edges c) (children_components c).
Definition set_orig_incoming_edges (z : Z) (c : Component) : Component :=
  mkComponent (comp_lowlink c) (unique_retained_size c) (incoming_edges c) z
              (children_components c).
Definition set_children_components (m : omap Fraction) (c : Component)
    : Component :=
  mkComponent (comp_lowlink c) (unique_retained_size c) (incoming_edges c)
              (orig_incoming_edges c) m.

(** [nodes[i]], [components_[static_cast<size_t>(id)]]. *)
Definition get_node (nodes : list Node) (i : nat) : result Node :=
  match nodes !! i with
  | Some n => Ok n
  | None => Err OutOfBounds
  end.

Definition get_component (components : list Component) (id : Z)
    : result Component :=
  if id <? 0 then Err OutOfBounds
  else match components !! Z.to_nat id with
       | Some c => Ok c
       | None => Err OutOfBounds
       end.

(** An assignment through a reference to [components_[id]]. *)
Definition upd_component (components : list Component) (id : Z)
    (f : Component -> Component) : result (list Component) :=
  let* c := get_component components id in
  Ok (<[Z.to_nat id := f c]> components).

(** The position of [GetNode(row)] in [nodes_]. *)
Definition node_of_row (st : Walker) (r : Z) : result nat :=
  if r <? 0 then Err OutOfBounds
  else if (Z.to_nat r <? length (nodes_ st))%nat then Ok (Z.to_nat r)
  else Err OutOfBounds.

(** [std::set<Node*>::emplace]. *)
Fixpoint set_emplace (x : nat) (s : list nat) : list nat :=
  match s with
  | [] => [x]
  | y :: s' =>
      if (x <? y)%nat then x :: s
      else if (x =? y)%nat then s
      else y :: set_emplace x s'
  end.

(** Some [children] or [parents] set holds a [Node*]: an edge has been
    added. *)
Definition holds_pointers (nodes : list Node) : bool :=
  existsb (fun n => match children n, parents n with
                    | [], [] => false
                    | _, _ => true
                    end) nodes.

(** [AddNode].  [nodes_.resize(row + 1)] invalidates the [Node*] that the
    [children] and [parents] sets hold: when there are some, what the
    program does with them afterwards is undefined, and the model stops
    ([DanglingPointer]). *)
Definition AddNode (st : Walker) (r size : Z) : result Walker :=
  let* _ := check (0 <=? r) OutOfBounds in
  let* nodes :=
    if (length (nodes_ st) <=? Z.to_nat r)%nat
    then
      let* _ := check (negb (holds_pointers (nodes_ st))) DanglingPointer in
      Ok (nodes_ st
            ++ replicate (S (Z.to_nat r) - length (nodes_ st)) default_node)
    else Ok (nodes_ st) in
  let* node := get_node nodes (Z.to_nat r) in
  Ok (set_nodes (<[Z.to_nat r := set_size_row size r node]> nodes) st).

(** [AddEdge].  The two sets receive [&GetNode(owned_row)] and
    [&GetNode(owner_row)], addresses into [nodes_]: the positions of the
    two nodes, which [AddNode] keeps valid by not resizing the table from
    here on. *)
Definition AddEdge (st : Walker) (owner_row owned_row : Z) : result Walker :=
  let* owner := node_of_row st owner_row in
  let* owned := node_of_row st owned_row in
  let* n := get_node (nodes_ st) owner in
  let nodes := <[owner := set_children (set_emplace owned (children n)) n]> (nodes_ st) in
  let* m := get_node nodes owned in
  Ok (set_nodes (<[owned := set_parents (set_emplace owner (parents m)) m]> nodes) st).

(** [ReachableNode]; the recursion is as deep as the longest path of nodes
    not yet reachable, [fuel] bounds it. *)
Fixpoint ReachableNode (fuel : nat) (st : Walker) (node : nat) : result Walker :=
  match fuel with
  | O => Err OutOfFuel
  | S fuel' =>
      let* n := get_node (nodes_ st) node in
      if reachable n then Ok st
      else
        let st := emit (MarkReachable (row n)) st in
        let st := set_nodes (<[node := set_reachable true n]> (nodes_ st)) st in
        foldM (ReachableNode fuel') (children n) st
  end.

(** ** Finalizing a component *)

Record DirectChild : Type := mkDirectChild {
  edges_from_current_component : Z;
  last_node_row : Z
}.

(** The loop over [stack_elem->children] in [FoundSCC]. *)
Fixpoint scan_children (nodes : list Node) (component_id owner_row : Z)
    (l : list nat) (direct_children_rows : omap DirectChild)
    : result (omap DirectChild) :=
  match l with
  | [] => Ok direct_children_rows
  | child :: l' =>
      let* c := get_node nodes child in
      if on_stack c then
        scan_children nodes component_id owner_row l' direct_children_rows
      else
        let* _ := check (negb (component c =? -1)) CheckChildAssigned in
        if negb (component c =? component_id) then
          let dc := default (mkDirectChild 0 0)
                            (om_find (component c) direct_children_rows) in
          scan_children nodes component_id owner_row l'
            (om_set (component c)
               (mkDirectChild (edges_from_current_component dc + 1) owner_row)
               direct_children_rows)
        else
          scan_children nodes component_id owner_row l' direct_children_rows
  end.

(** The [do ... while (stack_elem != node)] loop of [FoundSCC]: returns the
    remaining stack, the nodes, [component_nodes] and
    [direct_children_rows]. *)
Fixpoint pop_component (stack : list nat) (nodes : list Node)
    (component_id : Z) (node : nat) (component_nodes : list nat)
    (direct_children_rows : omap DirectChild)
    : result (list nat * list Node * list nat * omap DirectChild) :=
  match stack with
  | [] => Err OutOfBounds
  | stack_elem :: stack' =>
      let* e := get_node nodes stack_elem in
      let component_nodes := component_nodes ++ [stack_elem] in
      let* direct_children_rows :=
        scan_children nodes component_id (row e) (children e)
                      direct_children_rows in
      let* _ := check (component e =? -1) CheckUnassigned in
      let nodes :=
        <[stack_elem := set_component component_id (set_on_stack false e)]> nodes in
      if (stack_elem =? node)%nat
      then Ok (stack', nodes, component_nodes, direct_children_rows)
      else pop_component stack' nodes component_id node component_nodes
                         direct_children_rows
  end.

(** The loop over [elem->parents]. *)
Definition count_incoming (nodes : list Node) (component_id : Z)
    (c : Component) (parent : nat) : result Component :=
  let* p := get_node nodes parent in
  if negb (component p =? component_id)
  then Ok (set_incoming_edges (incoming_edges c + 1) c)
  else Ok c.

(** The body of the loop over [component_nodes] that sums the self sizes
    and counts the incoming edges. *)
Definition account_node (nodes : list Node) (component_id : Z)
    (c : Component) (elem : nat) : result Component :=
  let* e := get_node nodes elem in
  let c := set_unique_retained_size
             (wrap64 (unique_retained_size c + self_size e)) c in
  let* c := foldM (count_incoming nodes component_id) (parents e) c in
  Ok (set_orig_incoming_edges (incoming_edges c) c).

(** [m[k] += v] on a [std::map<int64_t, int64_t>]. *)
Definition om_add (k v : Z) (m : omap Z) : omap Z :=
  om_set k (to_int64 (default 0 (om_find k m) + v)) m.

(** [component.children_components[id] += f], then the test
    [component.children_components[id] == 1] and what follows it when it
    holds and [unique] is the outcome of [IsUniqueOwner]. *)
Definition ledger_add (components : list Component) (component_id id : Z)
    (f : Fraction) : result (list Component) :=
  let* component := get_component components component_id in
  let* sum := Fraction.add
                (default Fraction.zero (om_find id (children_components component)))
                f in
  upd_component components component_id
    (fun c => set_children_components (om_set id sum (children_components c)) c).

Definition ledger_is_one (components : list Component) (component_id id : Z)
    : result bool :=
  let* component := get_component components component_id in
  Ok (Fraction.eq_int
        (default Fraction.zero (om_find id (children_components component))) 1).

Definition absorb (components : list Component) (component_id id : Z)
    : result (list Component) :=
  let* other := get_component components id in
  upd_component components component_id
    (fun c => set_unique_retained_size
                (wrap64 (unique_retained_size c + unique_retained_size other)) c).

Definition credit (components : list Component) (id : Z) (node_row : Z)
    (unique_retained_by_node : omap Z) : result (omap Z) :=
  let* other := get_component components id in
  Ok (om_add node_row (unique_retained_size other) unique_retained_by_node).

Definition ledger_erase (components : list Component) (component_id id : Z)
    : result (list Component) :=
  upd_component components component_id
    (fun c => set_children_components (om_erase id (children_components c)) c).

(** The state of the loop over [direct_children_rows]: [components_],
    [component_to_node] and [unique_retained_by_node]. *)
Definition resolve_state : Type := (list Component * omap Z * omap Z)%type.

(** The body of the loop over [child_component.children_components]. *)
Definition absorb_grand (component_id child_component_id : Z)
    (dc : DirectChild) (s : resolve_state) (comp_p : Z * Fraction)
    : result resolve_state :=
  let '(components, component_to_node, unique_retained_by_node) := s in
  let '(grand_component_id, child_ownership_fraction) := comp_p in
  let count := edges_from_current_component dc in
  let* _ := get_component components grand_component_id in
  let component_to_node :=
    AddChild component_to_node count child_component_id (last_node_row dc) in
  let* child_component := get_component components child_component_id in
  let* multiplier := Fraction.make count (orig_incoming_edges child_component) in
  let* product := Fraction.mul multiplier child_ownership_fraction in
  let* components :=
    ledger_add components component_id grand_component_id product in
  let* one := ledger_is_one components component_id grand_component_id in
  if one then
    let* components := absorb components component_id grand_component_id in
    let* unique_retained_by_node :=
      if IsUniqueOwner component_to_node count grand_component_id
                       (last_node_row dc)
      then credit components grand_component_id (last_node_row dc)
                  unique_retained_by_node
      else Ok unique_retained_by_node in
    let* components :=
      ledger_erase components component_id grand_component_id in
    Ok (components, component_to_node, unique_retained_by_node)
  else Ok (components, component_to_node, unique_retained_by_node).

(** The body of the loop over [direct_children_rows]. *)
Definition resolve_child (component_id : Z) (s : resolve_state)
    (p : Z * DirectChild) : result resolve_state :=
  let '(components, component_to_node, unique_retained_by_node) := s in
  let '(child_component_id, dc) := p in
  let count := edges_from_current_component dc in
  let* _ := check (negb (child_component_id =? component_id))
                  CheckOtherComponent in
  let component_to_node :=
    AddChild component_to_node count child_component_id (last_node_row dc) in
  let* components :=
    upd_component components child_component_id
      (fun c => set_incoming_edges (size_sub (incoming_edges c) count) c) in
  let* child_component := get_component components child_component_id in
  let* '(components, component_to_node, unique_retained_by_node) :=
    foldM (absorb_grand component_id child_component_id dc)
          (children_components child_component)
          (components, component_to_node, unique_retained_by_node) in
  let* child_component := get_component components child_component_id in
  let* '(components, unique_retained_by_node) :=
    if orig_incoming_edges child_component =? count then
      let* _ := check (incoming_edges child_component =? 0)
                      CheckChildResolved in
      let* components := absorb components component_id child_component_id in
      let* unique_retained_by_node :=
        if count =? 1
        then credit components child_component_id (last_node_row dc)
                    unique_retained_by_node
        else Ok unique_retained_by_node in
      Ok (components, unique_retained_by_node)
    else
      let* f := Fraction.make count (orig_incoming_edges child_component) in
      let* components :=
        ledger_add components component_id child_component_id f in
      let* one := ledger_is_one components component_id child_component_id in
      if one then
        let* components := absorb components component_id child_component_id in
        let* unique_retained_by_node :=
          if IsUniqueOwner component_to_node count (last_node_row dc)
                           child_component_id
          then credit components child_component_id (last_node_row dc)
                      unique_retained_by_node
          else Ok unique_retained_by_node in
        let* components :=
          ledger_erase components component_id child_component_id in
        Ok (components, unique_retained_by_node)
      else Ok (components, unique_retained_by_node) in
  let* child_component := get_component components child_component_id in
  let* components :=
    if incoming_edges child_component =? 0
    then upd_component components child_component_id
           (set_children_components [])
    else Ok components in
  Ok (components, component_to_node, unique_retained_by_node).

Definition RetainedSize (components : list Component) (c : Component)
    : result Z :=
  foldM (fun retained_size (p : Z * Fraction) =>
           let* child_component := get_component components (fst p) in
           Ok (to_int64 (retained_size + unique_retained_size child_component)))
        (children_components c)
        (to_int64 (unique_retained_size c)).

(** The final loop of [FoundSCC], which reports every node of the
    component to the delegate. *)
Definition report_node (retained_size : Z) (unique_retained_by_node : omap Z)
    (st : Walker) (n : nat) : result Walker :=
  let* e := get_node (nodes_ st) n in
  let unique_retained_size :=
    default 0 (om_find (row e) unique_retained_by_node) in
  Ok (emit (SetRetained (row e) retained_size
              (to_int64 (to_int64 (self_size e) + unique_retained_size)))
           st).

Definition FoundSCC (st : Walker) (node : nat) : result Walker :=
  let component_id := Z.of_nat (length (components_ st)) in
  let* n := get_node (nodes_ st) node in
  let components :=
    components_ st
      ++ [mkComponent (lowlink n) 0 0 0 []] in
  let* '(stack, nodes, component_nodes, direct_children_rows) :=
    pop_component (node_stack_ st) (nodes_ st) component_id node [] [] in
  let* component := get_component components component_id in
  let* component :=
    foldM (account_node nodes component_id) component_nodes component in
  let* components := upd_component components component_id (fun _ => component) in
  let* '(components, _, unique_retained_by_node) :=
    foldM (resolve_child component_id) direct_children_rows
          (components, [], []) in
  let* component := get_component components component_id in
  let* retained_size := RetainedSize components component in
  let st := set_components components
              (set_node_stack stack (set_nodes nodes st)) in
  foldM (report_node retained_size unique_retained_by_node) component_nodes st.

(** ** The low-link search *)

(** The body of the loop over [node->children], given the embedding
    [find] of the recursive call. *)
Definition visit_child (find : Walker -> nat -> result Walker) (node : nat)
    (st : Walker) (child : nat) : result Walker :=
  let* c := get_node (nodes_ st) child in
  if node_index c =? 0 then
    let* st := find st child in
    let* c := get_node (nodes_ st) child in
    let* n := get_node (nodes_ st) node in
    if lowlink c <? lowlink n
    then Ok (set_nodes (<[node := set_lowlink (lowlink c) n]> (nodes_ st)) st)
    else Ok st
  else if on_stack c then
    let* n := get_node (nodes_ st) node in
    if node_index c <? lowlink n
    then Ok (set_nodes (<[node := set_lowlink (node_index c) n]> (nodes_ st)) st)
    else Ok st
  else Ok st.

(** The first three statements of [FindSCC]. *)
Definition enter_node (st : Walker) (node : nat) : result Walker :=
  let* n := get_node (nodes_ st) node in
  let i := next_node_index_ st in
  let n := set_on_stack true (set_lowlink i (set_node_index i n)) in
  Ok (set_next_node_index (i + 1)
        (set_node_stack (node :: node_stack_ st)
           (set_nodes (<[node := n]> (nodes_ st)) st))).

(** [FindSCC]; the recursion is as deep as the longest path of nodes not
    yet visited, [fuel] bounds it. *)
Fixpoint FindSCC (fuel : nat) (st : Walker) (node : nat) : result Walker :=
  match fuel with
  | O => Err OutOfFuel
  | S fuel' =>
      let* n := get_node (nodes_ st) node in
      let* st := enter_node st node in
      let* st := foldM (visit_child (FindSCC fuel') node) (children n) st in
      let* n := get_node (nodes_ st) node in
      if lowlink n =? node_index n then FoundSCC st node else Ok st
  end.

(** ** Entry points

    Neither recursion can be deeper than the number of nodes. *)
Definition depth_bound (st : Walker) : nat := S (length (nodes_ st)).

Definition MarkRoot (st : Walker) (r : Z) : result Walker :=
  let* node := node_of_row st r in
  let* st := ReachableNode (depth_bound st) st node in
  let* n := get_node (nodes_ st) node in
  if node_index n =? 0 then FindSCC (depth_bound st) st node else Ok st.

Definition sweep_node (st : Walker) (node : nat) : result Walker :=
  let* n := get_node (nodes_ st) node in
  if node_index n =? 0 then FindSCC (depth_bound st) st node else Ok st.

Definition CalculateRetained (st : Walker) : result Walker :=
  let* st := foldM sweep_node (seq 0 (length (nodes_ st))) st in
  let* _ := foldM (fun (_ : unit) c =>
                     check (incoming_edges c =? 0) CheckIncomingEdges)
                  (components_ st) tt in
  Ok st.

(** A call of the walker's interface, and a sequence of calls on a fresh
    walker. *)
Inductive call : Type :=
  | CallAddNode (r size : Z)
  | CallAddEdge (owner_row owned_row : Z)
  | CallMarkRoot (r : Z)
  | CallCalculateRetained.

Definition do_call (st : Walker) (c : call) : result Walker :=
  match c with
  | CallAddNode r size => AddNode st r size
  | CallAddEdge owner_row owned_row => AddEdge st owner_row owned_row
  | CallMarkRoot r => MarkRoot st r
  | CallCalculateRetained => CalculateRetained st
  end.

Definition run (calls : list call) : result Walker :=
  foldM do_call calls empty_walker.

(** ** What the delegate has received *)

(** The [(retained_size, unique_size)] pairs of the [SetRetained] calls for
    the row [r], oldest first. *)
Fixpoint retained_calls (r : Z) (log : list Event) : list (Z * Z) :=
  match log with
  | [] => []
  | SetRetained r' retained unique_retained :: log' =>
      if r' =? r then (retained, unique_retained) :: retained_calls r log'
      else retained_calls r log'
  | MarkReachable _ :: log' => retained_calls r log'
  end.

(** The rows of the [MarkReachable] calls, oldest first. *)
Fixpoint reachable_calls (log : list Event) : list Z :=
  match log with
  | [] => []
  | MarkReachable r :: log' => r :: reachable_calls log'
  | SetRetained _ _ _ :: log' => reachable_calls log'
  end.

(** ** The scenarios of the specification *)

(** Diamond: R -> A, R -> B, A -> S, B -> S, sizes 1, 10, 20 and 100,
    R marked as root. *)
Definition diamond (r a b s : Z) : list call :=
  [ CallAddNode r 1; CallAddNode a 10; CallAddNode b 20; CallAddNode s 100;
    CallAddEdge r a; CallAddEdge r b; CallAddEdge a s; CallAddEdge b s;
    CallMarkRoot r; CallCalculateRetained ].

(** Chain: A -> B -> C, sizes 10, 20 and 30, A marked as root. *)
Definition chain (a b c : Z) : list call :=
  [ CallAddNode a 10; CallAddNode b 20; CallAddNode c 30;
    CallAddEdge a b; CallAddEdge b c;
    CallMarkRoot a; CallCalculateRetained ].

(** Cycle: A -> B -> C -> A, sizes 10, 20 and 30, and nothing else;
    [roots] are the rows marked as roots. *)
Definition cycle (a b c : Z) (roots : list Z) : list call :=
  [ CallAddNode a 10; CallAddNode b 20; CallAddNode c 30;
    CallAddEdge a b; CallAddEdge b c; CallAddEdge c a ]
  ++ map CallMarkRoot roots ++ [ CallCalculateRetained ].

(** What the specification says of the chain: retained sizes 60, 50 and 30,
    and the unique size of every node equal to its self size. *)
Definition chain_as_specified (a b c : Z) (log : list Event) : Prop :=
  retained_calls a log = [(60, 10)]
  /\ retained_calls b log = [(50, 20)]
  /\ retained_calls c log = [(30, 30)].


(** Two owners in one component: M1 <-> M2, M1 -> A, M2 -> B, A -> S and
    B -> S, on the rows 0 to 4 with sizes 1, 2, 10, 20 and 100. *)
Definition two_owners : list call :=
  [ CallAddNode 0 1; CallAddNode 1 2; CallAddNode 2 10; CallAddNode 3 20;
    CallAddNode 4 100;
    CallAddEdge 0 1; CallAddEdge 1 0; CallAddEdge 0 2; CallAddEdge 1 3;
    CallAddEdge 2 4; CallAddEdge 3 4;
    CallCalculateRetained ].

(** One owner with two edges into one component: A -> B1, A -> B2 and
    B1 <-> B2, on the rows 0 to 2 with sizes 1, 10 and 20. *)
Definition double_edge : list call :=
  [ CallAddNode 0 1; CallAddNode 1 10; CallAddNode 2 20;
    CallAddEdge 0 1; CallAddEdge 0 2; CallAddEdge 1 2; CallAddEdge 2 1 ].

(** ** Counting edges between components *)

Definition component_of (nodes : list Node) (i : nat) : Z :=
  match nodes !! i with
  | Some n => component n
  | None => -1
  end.

Definition children_of (nodes : list Node) (i : nat) : list nat :=
  match nodes !! i with
  | Some n => children n
  | None => []
  end.

(** The number of elements of [l] that satisfy [p]. *)
Definition count {A} (p : A -> bool) (l : list A) : Z :=
  Z.of_nat (length (filter (fun a => p a = true) l)).

(** The children of the node [m] that are in the component [b]. *)
Definition children_in (nodes : list Node) (b : Z) (m : nat) : Z :=
  count (fun child => component_of nodes child =? b) (children_of nodes m).

(** The number of edges from the nodes [members] to nodes of the
    component [b]. *)
Fixpoint edges_into (nodes : list Node) (b : Z) (members : list nat) : Z :=
  match members with
  | [] => 0
  | m :: members' => children_in nodes b m + edges_into nodes b members'
  end.

(** The number of nodes among [members] with at least one child in the
    component [b]. *)
Definition members_with_child_in (nodes : list Node) (b : Z)
    (members : list nat) : Z :=
  count (fun m => 0 <? children_in nodes b m) members.

(** [edge_count] of the child component [b] in [direct_children_rows]. *)
Definition edge_count (direct_children_rows : omap DirectChild) (b : Z) : Z :=
  match om_find b direct_children_rows with
  | Some dc => edges_from_current_component dc
  | None => 0
  end.

(** The nodes on the stack are in no component but, while the new
    component [component_id] is popped, this one. *)
Definition stack_unassigned (component_id : Z) (nodes : list Node) : Prop :=
  forall i n, nodes !! i = Some n -> on_stack n = true ->
    component n = -1 \/ component n = component_id.

(** ** Invariants of the walker *)

Definition index_of (nodes : list Node) (i : nat) : Z :=
  match nodes !! i with
  | Some n => node_index n
  | None => 0
  end.

(** The order of the stack: a node nearer to the top was discovered
    later. *)
Definition stack_order (nodes : list Node) (i j : nat) : Prop :=
  index_of nodes j < index_of nodes i.

(** The state of one node: on the stack (discovered, in no component yet,
    with a low-link between the index of some stacked node and its own),
    not yet discovered, or resolved into a component that exists. *)
Definition node_ok (st : Walker) (i : nat) (n : Node) : Prop :=
  0 <= node_index n < next_node_index_ st
  /\ if on_stack n then
       i ∈ node_stack_ st /\ node_index n <> 0 /\ component n = -1
       /\ lowlink n <= node_index n
       /\ exists t, t ∈ node_stack_ st /\ index_of (nodes_ st) t <= lowlink n
     else if node_index n =? 0 then component n = -1
     else 0 <= component n < Z.of_nat (length (components_ st)).

Record walker_ok (st : Walker) : Prop := {
  ok_next : 1 <= next_node_index_ st;
  ok_sorted : StronglySorted (stack_order (nodes_ st)) (node_stack_ st);
  ok_stack : forall i, i ∈ node_stack_ st ->
             exists n, nodes_ st !! i = Some n /\ on_stack n = true;
  ok_node : forall i n, nodes_ st !! i = Some n -> node_ok st i n;
  ok_inhabited : forall c, (c < length (components_ st))%nat ->
                 exists i n, nodes_ st !! i = Some n /\ component n = Z.of_nat c
}.

(** What the search never changes in a node. *)
Definition same_static (n n' : Node) : Prop :=
  children n' = children n /\ parents n' = parents n
  /\ self_size n' = self_size n /\ row n' = row n
  /\ reachable n' = reachable n.

(** What a complete call of [FindSCC] may do to a node: nothing if it was
    discovered before the call. *)
Definition node_step (n n' : Node) : Prop :=
  same_static n n' /\ (node_index n <> 0 -> n' = n).

(** The effect of a call [FindSCC(node)] that returns. *)
Record search_post (st : Walker) (node : nat) (st' : Walker) : Prop := {
  sp_ok : walker_ok st';
  sp_nodes : Forall2 node_step (nodes_ st) (nodes_ st');
  sp_stack : exists new,
      node_stack_ st' = new ++ node_stack_ st
      /\ (forall m, m ∈ new -> index_of (nodes_ st) m = 0)
      /\ (new = [] \/ last new = Some node);
  sp_node : exists n', nodes_ st' !! node = Some n'
      /\ node_index n' = next_node_index_ st
      /\ if on_stack n' then lowlink n' < node_index n'
         else lowlink n' = node_index n';
  sp_next : next_node_index_ st < next_node_index_ st';
  sp_components : (length (components_ st) <= length (components_ st'))%nat;
  sp_log : reachable_calls (delegate_ st') = reachable_calls (delegate_ st)
}.

Definition popped_node (cid : Z) (e : Node) : Node :=
  set_component cid (set_on_stack false e).

Definition entered_node (i : Z) (n : Node) : Node :=
  set_on_stack true (set_lowlink i (set_node_index i n)).

(** The state of the search while the children of [node] are visited,
    [st0] being the state in which [FindSCC(node)] was called. *)
Record loop_inv (st0 : Walker) (node : nat) (st : Walker) : Prop := {
  li_ok : walker_ok st;
  li_nodes : Forall2 node_step (nodes_ st0) (nodes_ st);
  li_fresh : index_of (nodes_ st0) node = 0;
  li_stack : exists new,
      node_stack_ st = new ++ node :: node_stack_ st0
      /\ (forall m, m ∈ new -> index_of (nodes_ st0) m = 0);
  li_node : exists n, nodes_ st !! node = Some n
      /\ node_index n = next_node_index_ st0 /\ on_stack n = true;
  li_next : next_node_index_ st0 < next_node_index_ st;
  li_components : (length (components_ st0) <= length (components_ st))%nat;
  li_log : reachable_calls (delegate_ st) = reachable_calls (delegate_ st0)
}.

(** What the loop assumes of the recursive call. *)
Definition search_correct (find : Walker -> nat -> result Walker) : Prop :=
  forall st child st',
    walker_ok st ->
    (exists c, nodes_ st !! child = Some c /\ node_index c = 0) ->
    find st child = Ok st' -> search_post st child st'.

(** ** Invariants of the reachability marker and of the calls *)

(** What the graph store and the reachability marker leave alone. *)
Definition same_search (n n' : Node) : Prop :=
  node_index n' = node_index n /\ lowlink n' = lowlink n
  /\ component n' = component n /\ on_stack n' = on_stack n.

(** A node that is as before, or newly marked reachable. *)
Definition only_reachable (n n' : Node) : Prop :=
  n' = n \/ (reachable n = false /\ n' = set_reachable true n).

(** What [ReachableNode] leaves alone. *)
Record reach_frame (st st' : Walker) : Prop := {
  rf_nodes : Forall2 only_reachable (nodes_ st) (nodes_ st');
  rf_stack : node_stack_ st' = node_stack_ st;
  rf_components : components_ st' = components_ st;
  rf_next : next_node_index_ st' = next_node_index_ st
}.

(** Every node of [st] is a node of [st'], in the same component if it
    had one. *)
Definition assigned_kept (st st' : Walker) : Prop :=
  forall i n, nodes_ st !! i = Some n ->
    exists n', nodes_ st' !! i = Some n'
      /\ (component n <> -1 -> component n' = component n).

(** The state between two calls of the interface. *)
Definition idle (st : Walker) : Prop := walker_ok st /\ node_stack_ st = [].

(** The node at position [i] is marked reachable. *)
Definition flagged (nodes : list Node) (i : nat) : Prop :=
  exists n, nodes !! i = Some n /\ reachable n = true.

(** The node at position [i] has been registered by [AddNode]: its row
    field is its position. *)
Definition registered (nodes : list Node) (i : nat) : Prop :=
  exists n, nodes !! i = Some n /\ row n = Z.of_nat i.

(** The children of a marked node are marked, but for the nodes of [G]
    (those whose children are still being visited). *)
Definition closed_except (G : nat -> Prop) (nodes : list Node) : Prop :=
  forall i n, nodes !! i = Some n -> reachable n = true -> ~ G i ->
    forall child, child ∈ children n -> flagged nodes child.

(** The delegate has been told once about each marked node, and about
    nothing else. *)
Record reach_inv (st : Walker) : Prop := {
  ri_children : forall i n, nodes_ st !! i = Some n ->
      forall child, child ∈ children n -> registered (nodes_ st) child;
  ri_flagged : forall i n, nodes_ st !! i = Some n -> reachable n = true ->
      row n = Z.of_nat i;
  ri_nodup : NoDup (reachable_calls (delegate_ st));
  ri_log : forall z, z ∈ reachable_calls (delegate_ st) <->
      exists i, z = Z.of_nat i /\ flagged (nodes_ st) i
}.

(** The rows [seen] have been registered. *)
Definition seen_ok (seen : list Z) (st : Walker) : Prop :=
  forall r, r ∈ seen -> 0 <= r /\ registered (nodes_ st) (Z.to_nat r).

Definition mem_row (r : Z) (seen : list Z) : bool := existsb (Z.eqb r) seen.

(** The rows registered once the call [c] is done. *)
Definition seen_after (seen : list Z) (c : call) : list Z :=
  match c with
  | CallAddNode r _ => r :: seen
  | _ => seen
  end.

(** The call [c] respects the interface: a row to register is not
    negative, the rows that an edge or a root refers to have been
    registered. *)
Definition call_registered (seen : list Z) (c : call) : bool :=
  match c with
  | CallAddNode r _ => 0 <=? r
  | CallAddEdge owner_row owned_row =>
      mem_row owner_row seen && mem_row owned_row seen
  | CallMarkRoot r => mem_row r seen
  | CallCalculateRetained => true
  end.

(** Every row given to [AddEdge] or [MarkRoot] has been given to
    [AddNode] before; [seen] are the rows registered so far. *)
Fixpoint rows_registered (seen : list Z) (calls : list call) : bool :=
  match calls with
  | [] => true
  | c :: calls' =>
      call_registered seen c && rows_registered (seen_after seen c) calls'
  end.

(** No [AddNode] resizes the node table once an edge has been added, so
    that every [Node*] stays valid; [size] is the size of the table and
    [edges] tells whether an edge has been added, before [calls]. *)
Fixpoint table_stable (size : nat) (edges : bool) (calls : list call) : bool :=
  match calls with
  | [] => true
  | CallAddNode r _ :: calls' =>
      (negb edges || (Z.to_nat r <? size)%nat)
      && table_stable (Nat.max size (S (Z.to_nat r))) edges calls'
  | CallAddEdge _ _ :: calls' => table_stable size true calls'
  | _ :: calls' => table_stable size edges calls'
  end.

Definition is_edge (c : call) : bool :=
  match c with CallAddEdge _ _ => true | _ => false end.

Definition is_root (c : call) : bool :=
  match c with CallMarkRoot _ => true | _ => false end.

(** No edge is added once a root has been marked. *)
Fixpoint edges_before_roots (calls : list call) : bool :=
  match calls with
  | [] => true
  | c :: calls' =>
      if is_root c then forallb (fun c' => negb (is_edge c')) calls'
      else edges_before_roots calls'
  end.

(** [j] can be reached from [i] along owner-to-owned edges. *)
Inductive reaches (nodes : list Node) : nat -> nat -> Prop :=
  | reaches_here (i : nat) : reaches nodes i i
  | reaches_child (i j k : nat) :
      j ∈ children_of nodes i -> reaches nodes j k -> reaches nodes i k.

Definition no_flags (nodes : list Node) : Prop := forall i, ~ flagged nodes i.

Definition closed (nodes : list Node) : Prop :=
  closed_except (fun _ => False) nodes.

(** The nodes of [l'] are those of [l], possibly followed by new ones,
    with the same reachability flags. *)
Definition flags_kept (l l' : list Node) : Prop :=
  forall i, flagged l i -> flagged l' i.

(** The state between two calls, [seen] being the rows registered so
    far. *)
Record reach_state (seen : list Z) (st : Walker) : Prop := {
  rs_idle : idle st;
  rs_inv : reach_inv st;
  rs_seen : seen_ok seen st
}.

(** ** Counting the edges that are still to be resolved *)

Definition ind (b : bool) : Z := if b then 1 else 0.

Fixpoint zsum (f : nat -> Z) (l : list nat) : Z :=
  match l with
  | [] => 0
  | i :: l' => f i + zsum f l'
  end.

Definition parents_of (nodes : list Node) (i : nat) : list nat :=
  match nodes !! i with
  | Some n => parents n
  | None => []
  end.

(** The edges are between nodes of the table, the two adjacency sets of
    every node are strictly ascending, and they agree: [j] is a child of
    [i] exactly when [i] is a parent of [j]. *)
Record graph_ok (nodes : list Node) : Prop := {
  go_children : forall i j, j ∈ children_of nodes i -> (j < length nodes)%nat;
  go_parents : forall i j, i ∈ parents_of nodes j -> (i < length nodes)%nat;
  go_children_sorted : forall i, StronglySorted lt (children_of nodes i);
  go_parents_sorted : forall j, StronglySorted lt (parents_of nodes j);
  go_symmetric : forall i j, j ∈ children_of nodes i <-> i ∈ parents_of nodes j
}.

(** [r] returns a result that satisfies [Q], or fails on the check of a
    fraction's denominator. *)
Definition safe {A} (r : result A) (Q : A -> Prop) : Prop :=
  match r with
  | Ok a => Q a
  | Err e => e = CheckDenominator
  end.

Definition fraction_ok (f : Fraction) : Prop :=
  0 <= numerator_ f /\ 0 < denominator_ f.

(** The keys of a ledger are component ids, its fractions are well
    formed. *)
Definition ledger_ok (n : nat) (m : omap Fraction) : Prop :=
  forall k f, (k, f) ∈ m -> 0 <= k < Z.of_nat n /\ fraction_ok f.

Definition ledgers_ok (cs : list Component) : Prop :=
  forall k c, cs !! k = Some c -> ledger_ok (length cs) (children_components c).

(** From [cs] to [cs'] the counter of live incoming edges of the
    component [b] has decreased by [d], and no other counter has
    changed. *)
Definition counters_step (b : nat) (d : Z) (cs cs' : list Component) : Prop :=
  length cs' = length cs
  /\ forall k c, cs !! k = Some c ->
       exists c', cs' !! k = Some c'
         /\ orig_incoming_edges c' = orig_incoming_edges c
         /\ incoming_edges c'
            = if decide (k = b) then incoming_edges c - d else incoming_edges c.

Definition key_order {V} (x y : Z * V) : Prop := fst x < fst y.

(** The children recorded for a new component [cid]: distinct, older
    components. *)
Definition direct_children_ok (cid : Z) (dcr : omap DirectChild) : Prop :=
  StronglySorted key_order dcr
  /\ forall b dc, (b, dc) ∈ dcr ->
       0 <= b < cid /\ 0 <= edges_from_current_component dc.

(** The node [child] is on the stack or in a component. *)
Definition child_ready (nodes : list Node) (cid : Z) (child : nat) : Prop :=
  exists c, nodes !! child = Some c
    /\ (on_stack c = true \/ 0 <= component c <= cid).

(** The nodes [l] are ready to be popped into the new component [cid]. *)
Definition pop_ready (nodes : list Node) (cid : Z) (l : list nat) : Prop :=
  forall m, m ∈ l ->
    exists e, nodes !! m = Some e /\ component e = -1
      /\ forall child, child ∈ children e -> child_ready nodes cid child.

Definition unassigned (nodes : list Node) (i : nat) : bool :=
  component_of nodes i =? -1.

(** The number of edges from nodes that are in no component yet to nodes
    of the component [b]. *)
Definition pending (nodes : list Node) (b : Z) : Z :=
  zsum (fun i => ind (unassigned nodes i) * children_in nodes b i)
       (seq 0 (length nodes)).

(** [nodes'] is [nodes] once the nodes [M], which were in no component,
    have been popped into the component [cid]. *)
Record popped (cid : Z) (M : list nat) (nodes nodes' : list Node) : Prop := {
  pp_nodup : NoDup M;
  pp_length : length nodes' = length nodes;
  pp_out : forall i, i ∉ M -> nodes' !! i = nodes !! i;
  pp_in : forall i, i ∈ M ->
      exists e, nodes !! i = Some e /\ component e = -1
        /\ nodes' !! i = Some (popped_node cid e)
}.

(** The counters of live incoming edges are exact: each is the number of
    edges into its component from nodes that are in no component yet. *)
Record counts_ok (st : Walker) : Prop := {
  co_graph : graph_ok (nodes_ st);
  co_assigned : forall i j,
      component_of (nodes_ st) i <> -1 -> j ∈ children_of (nodes_ st) i ->
      component_of (nodes_ st) j <> -1;
  co_ledgers : ledgers_ok (components_ st);
  co_counters : forall k c, components_ st !! k = Some c ->
      incoming_edges c = pending (nodes_ st) (Z.of_nat k)
      /\ incoming_edges c <= orig_incoming_edges c
}.

(** ** Invariants of the search for the counters *)

Definition lowlink_of (nodes : list Node) (i : nat) : Z :=
  match nodes !! i with
  | Some n => lowlink n
  | None => 0
  end.

(** The number of nodes that the search has not discovered yet. *)
Definition unvisited (nodes : list Node) : Z :=
  count (fun n => node_index n =? 0) nodes.

(** The loop over the children of [m] is over: they are all discovered,
    and the low-link of [m] is at most the index of each one that is on
    the stack. *)
Definition node_done (st : Walker) (m : nat) : Prop :=
  forall child, child ∈ children_of (nodes_ st) m ->
    index_of (nodes_ st) child <> 0
    /\ (child ∈ node_stack_ st ->
        lowlink_of (nodes_ st) m <= index_of (nodes_ st) child).

(** The nodes [seg] of the stack are done and none has a low-link
    under [L]. *)
Definition seg_inv (st : Walker) (L : Z) (seg : list nat) : Prop :=
  forall m, m ∈ seg -> node_done st m /\ L <= lowlink_of (nodes_ st) m.

(** The children [processed] are discovered, and none that is on the
    stack has an index under [L]. *)
Definition proc_inv (st : Walker) (L : Z) (processed : list nat) : Prop :=
  forall child, child ∈ processed ->
    index_of (nodes_ st) child <> 0
    /\ (child ∈ node_stack_ st -> L <= index_of (nodes_ st) child).

(** The state of the search while the children of [node] are visited,
    [processed] being those that have been. *)
Record loop_inv2 (st0 : Walker) (node : nat) (processed : list nat)
    (st : Walker) : Prop := {
  l2_inv : loop_inv st0 node st;
  l2_counts : counts_ok st;
  l2_seg : exists seg,
      node_stack_ st = seg ++ node :: node_stack_ st0
      /\ seg_inv st (lowlink_of (nodes_ st) node) seg;
  l2_proc : proc_inv st (lowlink_of (nodes_ st) node) processed
}.

(** The effect of a call [FindSCC(node)] on the counters. *)
Record search_post2 (st : Walker) (node : nat) (st' : Walker) : Prop := {
  s2_post : search_post st node st';
  s2_counts : counts_ok st';
  s2_seg : exists new,
      node_stack_ st' = new ++ node_stack_ st
      /\ seg_inv st' (lowlink_of (nodes_ st') node) new
}.

(** The computation [r] returns a value that satisfies [Q]. *)
Definition returns {A} (r : result A) (Q : A -> Prop) : Prop :=
  match r with
  | Ok a => Q a
  | Err _ => False
  end.

(** The number of nodes that are not marked reachable. *)
Definition unreached (nodes : list Node) : Z :=
  count (fun n => negb (reachable n)) nodes.

(** Every child is a node of the table. *)
Definition links_ok (nodes : list Node) : Prop :=
  forall i j, j ∈ children_of nodes i -> (j < length nodes)%nat.

(** What the counters depend on in a node. *)
Definition same_graph (n n' : Node) : Prop :=
  component n' = component n /\ children n' = children n
  /\ parents n' = parents n.

(** The state between two calls during the search. *)
Definition settled (st : Walker) : Prop := idle st /\ counts_ok st.

(** The two adjacency sets of a node. *)
Definition same_edges (n n' : Node) : Prop :=
  children n' = children n /\ parents n' = parents n.

(** No search has run yet: there is no component. *)
Definition fresh (st : Walker) : Prop :=
  components_ st = [] /\ forall i, component_of (nodes_ st) i = -1.

(** ** Sequences of calls *)

Definition is_search (c : call) : bool :=
  match c with
  | CallMarkRoot _ | CallCalculateRetained => true
  | _ => false
  end.

Definition no_edges (calls : list call) : bool :=
  forallb (fun c => negb (is_edge c)) calls.

(** No edge is added once the search has run. *)
Fixpoint edges_before_search (calls : list call) : bool :=
  match calls with
  | [] => true
  | c :: calls' =>
      if is_search c then no_edges calls' else edges_before_search calls'
  end.

(** The rows [seen] are positions of the table. *)
Definition rows_in (seen : list Z) (st : Walker) : Prop :=
  forall r, r ∈ seen -> 0 <= r < Z.of_nat (length (nodes_ st)).

(** No live counter is negative or above the count at finalization. *)
Definition counters_ok (st : Walker) : Prop :=
  forall c, c ∈ components_ st ->
    0 <= incoming_edges c <= orig_incoming_edges c.

(** Every live counter is zero. *)
Definition counters_zero (st : Walker) : Prop :=
  forall c, c ∈ components_ st -> incoming_edges c = 0.

(** An edge added after a root has been marked: the component of node 0
    is finalized with two incoming edges, the third one is resolved
    later. *)
Definition late_edge : list call :=
  [CallAddNode 0 1; CallAddNode 1 1; CallAddNode 2 1; CallAddNode 3 1;
   CallAddEdge 1 0; CallAddEdge 2 0; CallMarkRoot 0; CallAddEdge 3 0;
   CallCalculateRetained].

(** A chain of [K] nodes under the node 0, each with a second owner that
    no root reaches; the root is the top of the chain. The share of the
    root in node 0 is 1 / 2^K. *)
Definition halving (K : nat) : list call :=
  map (fun i => CallAddNode (Z.of_nat i) 1) (seq 0 (2 * K + 1))
  ++ map (fun k => CallAddEdge (Z.of_nat (S k)) (Z.of_nat k)) (seq 0 K)
  ++ map (fun k => CallAddEdge (Z.of_nat (K + 1 + k)) (Z.of_nat k)) (seq 0 K)
  ++ [CallMarkRoot (Z.of_nat K)].



(** Every marked node is reached by one of the roots [R]. *)
Definition rooted (R : nat -> Prop) (nodes : list Node) : Prop :=
  forall i, flagged nodes i -> exists r, R r /\ reaches nodes r i.

(** [MarkRoot] has been called on the node at position [i]. *)
Definition marked_root (calls : list call) (i : nat) : Prop :=
  exists r, CallMarkRoot r ∈ calls /\ Z.to_nat r = i.



(** The batches of edges recorded for the component [id], one after the
    other: the counts and the rows of their owners. *)
Definition AddChildren (m : omap Z) (id : Z) (batches : list (Z * Z)) : omap Z :=
  fold_left (fun m b => AddChild m (fst b) id (snd b)) batches m.

(** A walker with the two nodes 0 and 1 and no edge. *)
Definition two_nodes : Walker :=
  set_nodes [set_size_row 1 0 default_node; set_size_row 1 1 default_node]
            empty_walker.

(** The edges of the table are the pairs of [E]: both adjacency sets
    hold them, in strictly ascending order, and their ends are in the
    table. *)
Record edges_inv (E : nat -> nat -> Prop) (nodes : list Node) : Prop := {
  ei_children : forall i j, j ∈ children_of nodes i <-> E i j;
  ei_parents : forall i j, i ∈ parents_of nodes j <-> E i j;
  ei_children_sorted : forall i, StronglySorted lt (children_of nodes i);
  ei_parents_sorted : forall j, StronglySorted lt (parents_of nodes j);
  ei_bound : forall i j, E i j -> (i < length nodes)%nat /\ (j < length nodes)%nat
}.

(** [AddEdge(i, j)] is one of [calls]. *)
Definition added (calls : list call) (i j : nat) : Prop :=
  CallAddEdge (Z.of_nat i) (Z.of_nat j) ∈ calls.

(** The size of the table after [calls], from the size [size]: each
    [AddNode] makes room up to its row. *)
Fixpoint table_size (calls : list call) (size : nat) : nat :=
  match calls with
  | [] => size
  | CallAddNode r _ :: calls' => table_size calls' (Nat.max size (S (Z.to_nat r)))
  | _ :: calls' => table_size calls' size
  end.

(** When a search starts every node of the table has been registered;
    [seen] are the rows registered and [size] is the size of the table
    before [calls]. *)
Fixpoint table_registered (seen : list Z) (size : nat) (calls : list call) : bool :=
  match calls with
  | [] => true
  | c :: calls' =>
      (negb (is_search c)
       || forallb (fun i => mem_row (Z.of_nat i) seen) (seq 0 size))
      && table_registered (seen_after seen c) (table_size [c] size) calls'
  end.

(** The row of every node is its position. *)
Definition all_registered (nodes : list Node) : Prop :=
  forall i n, nodes !! i = Some n -> row n = Z.of_nat i.

(** The delegate has been given the sizes of the nodes that are in a
    component and of no other, once each, with one retained size for
    the nodes of one component. *)
Record report_inv (nodes : list Node) (log : list Event) : Prop := {
  rp_rows : forall i n, nodes !! i = Some n -> component n <> -1 ->
      row n = Z.of_nat i;
  rp_none : forall r, (forall i, r = Z.of_nat i -> component_of nodes i = -1) ->
      retained_calls r log = [];
  rp_one : forall i, component_of nodes i <> -1 ->
      exists v u, retained_calls (Z.of_nat i) log = [(v, u)];
  rp_same : forall i j, component_of nodes i <> -1 ->
      component_of nodes i = component_of nodes j ->
      (retained_calls (Z.of_nat i) log).*1 = (retained_calls (Z.of_nat j) log).*1
}.

(** The rows [seen] have been registered, and the nodes that are in a
    component. *)
Definition report_state (seen : list Z) (st : Walker) : Prop :=
  idle st /\ seen_ok seen st /\ report_inv (nodes_ st) (delegate_ st).

(** The components made so far: an edge out of a component leads into
    the same or an older component, and the nodes of one component
    reach each other. *)
Record scc_inv (nodes : list Node) : Prop := {
  sc_order : forall i j, component_of nodes i <> -1 -> j ∈ children_of nodes i ->
      component_of nodes j <> -1 /\ component_of nodes j <= component_of nodes i;
  sc_sound : forall i j, component_of nodes i <> -1 ->
      component_of nodes j = component_of nodes i -> reaches nodes i j
}.

(** The state of the search while the children of [node] are visited,
    [st0] being the state in which [FindSCC(node)] was called: every
    node of the stack reaches [node], [node] reaches the nodes pushed
    above it, and its low-link is at least the index of a node of the
    stack that it reaches. *)
Record scc_loop (st0 : Walker) (node : nat) (st : Walker) : Prop := {
  sl_inv : scc_inv (nodes_ st);
  sl_up : forall a, a ∈ node_stack_ st -> reaches (nodes_ st) a node;
  sl_down : forall seg, node_stack_ st = seg ++ node :: node_stack_ st0 ->
      forall m, m ∈ seg -> reaches (nodes_ st) node m;
  sl_low : exists z, z ∈ node_stack_ st
      /\ index_of (nodes_ st) z <= lowlink_of (nodes_ st) node
      /\ reaches (nodes_ st) node z
}.

(** The effect of a call [FindSCC(node)] that returns: the nodes it has
    left on the stack are on a cycle with [node], and if [node] is one
    of them its low-link is at least the index of an older node of the
    stack that it reaches. *)
Record scc_post (st : Walker) (node : nat) (st' : Walker) : Prop := {
  sq_inv : scc_inv (nodes_ st');
  sq_new : forall new, node_stack_ st' = new ++ node_stack_ st ->
      forall m, m ∈ new ->
        reaches (nodes_ st') node m /\ reaches (nodes_ st') m node;
  sq_low : node ∈ node_stack_ st' ->
      exists z, z ∈ node_stack_ st
        /\ index_of (nodes_ st') z <= lowlink_of (nodes_ st') node
        /\ reaches (nodes_ st') node z
}.

(** Equal as 64-bit patterns. *)
Definition eqm (a b : Z) : Prop := a mod 2 ^ 64 = b mod 2 ^ 64.

Definition self_size_of (nodes : list Node) (i : nat) : Z :=
  match nodes !! i with
  | Some n => self_size n
  | None => 0
  end.

(** The unique retained size of the component [k]. *)
Definition unique_at (cs : list Component) (k : Z) : Z :=
  match cs !! Z.to_nat k with
  | Some c => unique_retained_size c
  | None => 0
  end.

(** The unique retained size of the component of the node [i]. *)
Definition unique_of (nodes : list Node) (cs : list Component) (i : nat) : Z :=
  unique_at cs (component_of nodes i).

(** The retained size that the delegate has been given for the node
    [i]. *)
Definition reported (log : list Event) (i : nat) : Z :=
  match retained_calls (Z.of_nat i) log with
  | (v, _) :: _ => v
  | [] => 0
  end.

(** What the search keeps of a component that it does not finalize. *)
Definition kept (c0 c1 : Component) : Prop :=
  unique_retained_size c1 = unique_retained_size c0
  /\ orig_incoming_edges c1 = orig_incoming_edges c0
  /\ (children_components c0 = [] -> children_components c1 = []).

(** The sum of the unique retained sizes of the components [keys]. *)
Fixpoint unique_sum (cs : list Component) (keys : list Z) : Z :=
  match keys with
  | [] => 0
  | k :: keys' => unique_at cs k + unique_sum cs keys'
  end.

(** Every edge leads to a higher position, no node has two owners, and
    every node has been registered. *)
Record forest_graph (nodes : list Node) : Prop := {
  fg_up : forall i j, j ∈ children_of nodes i -> (i < j)%nat;
  fg_single : forall i i' j,
      j ∈ children_of nodes i -> j ∈ children_of nodes i' -> i = i';
  fg_rows : forall i n, nodes !! i = Some n -> row n = Z.of_nat i
}.

(** The sizes in a forest: the ledgers are empty, the unique retained
    size of the component of a node is its self size plus the unique
    retained sizes of the components of its children, and it is what the
    delegate has been given for the node, as retained and as unique
    size. *)
Record tree_inv (nodes : list Node) (cs : list Component) (log : list Event)
    : Prop := {
  tr_none : forall i, component_of nodes i = -1 ->
      retained_calls (Z.of_nat i) log = [];
  tr_comp : forall i, component_of nodes i <> -1 ->
      exists c, cs !! Z.to_nat (component_of nodes i) = Some c
        /\ children_components c = []
        /\ orig_incoming_edges c = Z.of_nat (length (parents_of nodes i))
        /\ unique_retained_size c
           = wrap64 (self_size_of nodes i
                     + zsum (unique_of nodes cs) (children_of nodes i));
  tr_log : forall i, component_of nodes i <> -1 ->
      retained_calls (Z.of_nat i) log
      = [(to_int64 (unique_of nodes cs i), to_int64 (unique_of nodes cs i))]
}.

(** What the sizes depend on in a node. *)
Definition same_sizes (n n' : Node) : Prop :=
  children n' = children n /\ parents n' = parents n
  /\ self_size n' = self_size n /\ row n' = row n
  /\ component n' = component n.

(** The state between two calls once the forest is built. *)
Record forest_state (st : Walker) : Prop := {
  fs_settled : settled st;
  fs_scc : scc_inv (nodes_ st);
  fs_graph : forest_graph (nodes_ st);
  fs_tree : tree_inv (nodes_ st) (components_ st) (delegate_ st)
}.

(** The edge added by [c] leads to a higher row, and no call of [calls]
    gives its owned row another owner. *)
Definition edge_ok (calls : list call) (c : call) : bool :=
  match c with
  | CallAddEdge a b =>
      (a <? b)
      && forallb (fun c' => match c' with
                            | CallAddEdge a' b' => negb (b' =? b) || (a' =? a)
                            | _ => true
                            end) calls
  | _ => true
  end.

(** The edges of [calls] make a forest. *)
Definition forest_edges (calls : list call) : bool :=
  forallb (edge_ok calls) calls.

(** Every node that the search has discovered is reached by one of the
    roots [R]. *)
Definition visited_rooted (R : nat -> Prop) (nodes : list Node) : Prop :=
  forall i, index_of nodes i <> 0 -> exists r, R r /\ reaches nodes r i.

(** The call is [CalculateRetained]. *)
Definition is_calculate (c : call) : bool :=
  match c with CallCalculateRetained => true | _ => false end.
(** * Properties *)

(** ** Machine integers *)

Lemma size_sub_wrap (a b : Z) :
  0 <= a < 2 ^ 64 -> 0 <= b < 2 ^ 64 -> size_sub a b = wrap64 (a - b).
Proof.
  intros Ha Hb. unfold size_sub, wrap64.
  destruct (b <=? a) eqn:E.
  - apply Z.leb_le in E. symmetry. apply Z.mod_small. lia.
  - apply Z.leb_gt in E. apply Z.mod_unique with (-1); lia.
Qed.

(** ** Fraction arithmetic *)


(** C9: [Fraction(2,4) + Fraction(1,4)] is stored as 3/4, the same value as
    [Fraction(3,4)]; [Fraction(1,3) * Fraction(3,1)] is stored as 1/1 and
    compares equal to the integer 1. *)
Theorem fraction_examples :
  (let* a := Fraction.make 2 4 in let* b := Fraction.make 1 4 in Fraction.add a b)
    = Ok (mkFraction 3 4)
  /\ Fraction.make 3 4 = Ok (mkFraction 3 4)
  /\ (let* a := Fraction.make 1 3 in let* b := Fraction.make 3 1 in Fraction.mul a b)
    = Ok (mkFraction 1 1)
  /\ Fraction.eq_int (mkFraction 1 1) 1 = true.
Proof. repeat split; vm_compute; reflexivity. Qed.

(** ** Scenarios *)

Ltac split_row H :=
  match type of H with
  | (0 <= ?x < _) =>
      let H' := fresh in
      assert (H' : x = 0 \/ x = 1 \/ x = 2 \/ x = 3) by lia;
      clear H; destruct H' as [-> | [-> | [-> | ->]]]
  end.

(** C1: in the diamond, whatever the rows of the four nodes are, the
    delegate is told once about each node: retained size 131 for R and 110
    for A (its 10 and the 100 of S, of which its ledger holds one half);
    the unique sizes of A and B are their self sizes 10 and 20, so the
    size of S is credited to neither. *)
Theorem diamond_sizes (r a b s : Z) :
  0 <= r < 4 -> 0 <= a < 4 -> 0 <= b < 4 -> 0 <= s < 4 ->
  r <> a -> r <> b -> r <> s -> a <> b -> a <> s -> b <> s ->
  exists st, run (diamond r a b s) = Ok st
    /\ retained_calls r (delegate_ st) = [(131, 131)]
    /\ retained_calls a (delegate_ st) = [(110, 10)]
    /\ retained_calls b (delegate_ st) = [(120, 20)]
    /\ retained_calls s (delegate_ st) = [(100, 100)].
Proof.
  intros Hr Ha Hb Hs; split_row Hr; split_row Ha; split_row Hb; split_row Hs;
    intros; try lia;
    (eexists; split; [vm_compute; reflexivity |]);
    vm_compute; repeat split; reflexivity.
Qed.

Lemma diamond_sizes_witness :
  exists st, run (diamond 0 1 2 3) = Ok st
    /\ retained_calls 0 (delegate_ st) = [(131, 131)]
    /\ retained_calls 1 (delegate_ st) = [(110, 10)]
    /\ retained_calls 2 (delegate_ st) = [(120, 20)]
    /\ retained_calls 3 (delegate_ st) = [(100, 100)].
Proof. apply (diamond_sizes 0 1 2 3); lia. Defined.

(** C2, as specified, fails: the unique size reported for B is 50. *)
Lemma chain_unique_size_counterexample :
  exists st, run (chain 0 1 2) = Ok st
    /\ retained_calls 1 (delegate_ st) = [(50, 50)]
    /\ ~ chain_as_specified 0 1 2 (delegate_ st).
Proof.
  eexists; split; [vm_compute; reflexivity |].
  split; [reflexivity |].
  intros (_ & H & _); vm_compute in H; discriminate H.
Qed.

(** C2, amended: in the chain, whatever the rows of the three nodes are,
    the retained sizes reported for A, B and C are 60, 50 and 30, and the
    unique size reported for each node equals its retained size: a node
    that is the only owner of its successor is credited with all the
    successor retains. *)
Theorem chain_sizes (a b c : Z) :
  0 <= a < 3 -> 0 <= b < 3 -> 0 <= c < 3 -> a <> b -> a <> c -> b <> c ->
  exists st, run (chain a b c) = Ok st
    /\ retained_calls a (delegate_ st) = [(60, 60)]
    /\ retained_calls b (delegate_ st) = [(50, 50)]
    /\ retained_calls c (delegate_ st) = [(30, 30)].
Proof.
  intros Ha Hb Hc;
    assert (Ha' : 0 <= a < 4) by lia; assert (Hb' : 0 <= b < 4) by lia;
    assert (Hc' : 0 <= c < 4) by lia;
    split_row Ha'; split_row Hb'; split_row Hc'; intros; try lia;
    (eexists; split; [vm_compute; reflexivity |]);
    vm_compute; repeat split; reflexivity.
Qed.

Lemma chain_sizes_witness :
  exists st, run (chain 0 1 2) = Ok st
    /\ retained_calls 0 (delegate_ st) = [(60, 60)]
    /\ retained_calls 1 (delegate_ st) = [(50, 50)]
    /\ retained_calls 2 (delegate_ st) = [(30, 30)].
Proof. apply (chain_sizes 0 1 2); lia. Defined.

(** C7: in the cycle, whatever the rows of the three nodes are and
    whether no node or any one node is marked as root, every node is
    reported with retained size 60 and with its self size as unique
    size. *)
Theorem cycle_sizes (a b c : Z) (roots : list Z) :
  0 <= a < 3 -> 0 <= b < 3 -> 0 <= c < 3 -> a <> b -> a <> c -> b <> c ->
  roots = [] \/ roots = [a] \/ roots = [b] \/ roots = [c] ->
  exists st, run (cycle a b c roots) = Ok st
    /\ retained_calls a (delegate_ st) = [(60, 10)]
    /\ retained_calls b (delegate_ st) = [(60, 20)]
    /\ retained_calls c (delegate_ st) = [(60, 30)].
Proof.
  intros Ha Hb Hc;
    assert (Ha' : 0 <= a < 4) by lia; assert (Hb' : 0 <= b < 4) by lia;
    assert (Hc' : 0 <= c < 4) by lia;
    split_row Ha'; split_row Hb'; split_row Hc'; intros ? ? ? Hroots;
    try lia; destruct Hroots as [-> | [-> | [-> | ->]]];
    (eexists; split; [vm_compute; reflexivity |]);
    vm_compute; repeat split; reflexivity.
Qed.

Lemma cycle_sizes_witness :
  exists st, run (cycle 0 1 2 []) = Ok st
    /\ retained_calls 0 (delegate_ st) = [(60, 10)]
    /\ retained_calls 1 (delegate_ st) = [(60, 20)]
    /\ retained_calls 2 (delegate_ st) = [(60, 30)].
Proof. apply (cycle_sizes 0 1 2 []); [lia .. | left; reflexivity]. Defined.

(** C5 fails on the code at [two_owners]: the new component {M1, M2}
    reaches S through A (owned by M1) and through B (owned by M2); its
    ledger entry for S reaches exactly 1 while A is processed, and M1 is
    credited with the 100 bytes of S (unique size 1 + 10 + 100), although
    M2 contributed the other half of the ownership. *)
Theorem shared_grandchild_credited_to_last_owner :
  exists st, run two_owners = Ok st
    /\ retained_calls 0 (delegate_ st) = [(133, 111)]
    /\ retained_calls 1 (delegate_ st) = [(133, 22)].
Proof. eexists; split; [vm_compute; reflexivity |]; split; reflexivity. Qed.

(** ** The graph store *)

(** C10: [AddNode] on a row that is already in the node table replaces the
    self size and the row field of that node and nothing else: the child
    and parent sets, the reachability flag and the Tarjan bookkeeping of
    the node, every other node, the stack, the components, the counter and
    what the delegate has received are as before. *)
Theorem AddNode_again_frame (st : Walker) (r size : Z) (n : Node) :
  0 <= r ->
  nodes_ st !! Z.to_nat r = Some n ->
  exists st' n',
    AddNode st r size = Ok st'
    /\ nodes_ st' !! Z.to_nat r = Some n'
    /\ self_size n' = size /\ row n' = r
    /\ children n' = children n /\ parents n' = parents n
    /\ reachable n' = reachable n
    /\ node_index n' = node_index n /\ lowlink n' = lowlink n
    /\ component n' = component n /\ on_stack n' = on_stack n
    /\ length (nodes_ st') = length (nodes_ st)
    /\ (forall j, j <> Z.to_nat r -> nodes_ st' !! j = nodes_ st !! j)
    /\ node_stack_ st' = node_stack_ st
    /\ components_ st' = components_ st
    /\ next_node_index_ st' = next_node_index_ st
    /\ delegate_ st' = delegate_ st.
Proof.
  intros Hr Hn.
  pose proof (lookup_lt_Some _ _ _ Hn) as Hlt.
  exists (set_nodes (<[Z.to_nat r := set_size_row size r n]> (nodes_ st)) st),
         (set_size_row size r n).
  split.
  - unfold AddNode, check.
    destruct (0 <=? r) eqn:E; [| lia]. cbn [bind].
    destruct (length (nodes_ st) <=? Z.to_nat r)%nat eqn:E'.
    + apply Nat.leb_le in E'. lia.
    + cbn [bind]. unfold get_node. rewrite Hn. reflexivity.
  - cbn. rewrite list_lookup_insert_eq by exact Hlt.
    rewrite length_insert.
    repeat split; try reflexivity.
    intros j Hj. apply list_lookup_insert_ne. congruence.
Qed.

Lemma AddNode_again_frame_witness :
  exists st' n',
    AddNode (mkWalker [mkNode [0%nat] [0%nat] 7 0 1 1 0 false true] [] [] 2 []) 0 9
      = Ok st'
    /\ nodes_ st' !! Z.to_nat 0 = Some n'
    /\ self_size n' = 9 /\ row n' = 0
    /\ children n' = [0%nat] /\ parents n' = [0%nat]
    /\ reachable n' = true
    /\ node_index n' = 1 /\ lowlink n' = 1
    /\ component n' = 0 /\ on_stack n' = false
    /\ length (nodes_ st') = 1%nat
    /\ (forall j, j <> Z.to_nat 0 -> nodes_ st' !! j
          = [mkNode [0%nat] [0%nat] 7 0 1 1 0 false true] !! j)
    /\ node_stack_ st' = []
    /\ components_ st' = []
    /\ next_node_index_ st' = 2
    /\ delegate_ st' = [].
Proof.
  apply (AddNode_again_frame
           (mkWalker [mkNode [0%nat] [0%nat] 7 0 1 1 0 false true] [] [] 2 [])
           0 9 (mkNode [0%nat] [0%nat] 7 0 1 1 0 false true));
    [lia | reflexivity].
Defined.

(** ** The edge count of a child component *)

(** C6, as specified, fails at [double_edge]: when the component of A is
    finalized, the edge count recorded for the component {B1, B2} is 2,
    while one member node, A, has a child in it. *)
Lemma edge_count_counterexample :
  exists st st1 st2 stack nodes members direct_children_rows,
    run double_edge = Ok st
    /\ enter_node st 0%nat = Ok st1
    /\ foldM (visit_child (FindSCC 3) 0%nat) [1%nat; 2%nat] st1 = Ok st2
    /\ pop_component (node_stack_ st2) (nodes_ st2) 1 0%nat [] []
       = Ok (stack, nodes, members, direct_children_rows)
    /\ edge_count direct_children_rows 0 = 2
    /\ members_with_child_in nodes 0 members = 1.
Proof.
  do 7 eexists.
  split; [vm_compute; reflexivity |].
  split; [vm_compute; reflexivity |].
  split; [vm_compute; reflexivity |].
  split; [vm_compute; reflexivity |].
  split; reflexivity.
Qed.

Lemma om_find_set_eq {V} (k : Z) (v : V) (m : omap V) :
  om_find k (om_set k v m) = Some v.
Proof.
  induction m as [| [k' v'] m IH]; cbn.
  - rewrite Z.eqb_refl. reflexivity.
  - destruct (k <? k') eqn:E1; cbn.
    + rewrite Z.eqb_refl. reflexivity.
    + destruct (k =? k') eqn:E2; cbn.
      * rewrite Z.eqb_refl. reflexivity.
      * rewrite Z.eqb_sym, E2. exact IH.
Qed.

Lemma om_find_set_ne {V} (k k0 : Z) (v : V) (m : omap V) :
  k <> k0 -> om_find k0 (om_set k v m) = om_find k0 m.
Proof.
  intros Hne. induction m as [| [k' v'] m IH]; cbn.
  - destruct (k =? k0) eqn:E; [lia | reflexivity].
  - destruct (k <? k') eqn:E1; cbn.
    + destruct (k =? k0) eqn:E; [lia | reflexivity].
    + destruct (k =? k') eqn:E2; cbn.
      * apply Z.eqb_eq in E2. subst k'.
        destruct (k =? k0) eqn:E; [lia | reflexivity].
      * destruct (k' =? k0); [reflexivity | exact IH].
Qed.

Lemma count_cons {A} (p : A -> bool) (a : A) (l : list A) :
  count p (a :: l) = (if p a then 1 else 0) + count p l.
Proof.
  unfold count. rewrite filter_cons.
  destruct (decide (p a = true)) as [-> | Hn].
  - cbn [length]. lia.
  - destruct (p a); [congruence | lia].
Qed.

Lemma count_ext {A} (p q : A -> bool) (l : list A) :
  (forall a, a ∈ l -> p a = q a) -> count p l = count q l.
Proof.
  induction l as [| a l IH]; intros H; [reflexivity |].
  rewrite !count_cons, (H a) by (left || constructor).
  rewrite IH; [reflexivity |]. intros a' Ha'. apply H. now right.
Qed.

Lemma count_nonneg {A} (p : A -> bool) (l : list A) : 0 <= count p l.
Proof. unfold count. lia. Qed.

Lemma bind_Ok {A B} (r : result A) (k : A -> result B) (b : B) :
  bind r k = Ok b -> exists a, r = Ok a /\ k a = Ok b.
Proof. destruct r as [a | e]; cbn; [eauto | discriminate]. Qed.

Lemma check_Ok (c : bool) (e : fatal) (u : unit) : check c e = Ok u -> c = true.
Proof. destruct c; [reflexivity | discriminate]. Qed.

Lemma get_node_Ok (nodes : list Node) (i : nat) (n : Node) :
  get_node nodes i = Ok n <-> nodes !! i = Some n.
Proof.
  unfold get_node. destruct (nodes !! i); split; intros H; congruence.
Qed.

(** Inversion of a successful monadic computation, one bind at a time. *)
Ltac inv_bind H :=
  let x := fresh "x" in
  let Hx := fresh "Hx" in
  apply bind_Ok in H; destruct H as (x & Hx & H).

Section EdgeCount.

Variables (component_id b : Z).
Hypothesis b_other : b <> component_id.
Hypothesis b_assigned : b <> -1.

Lemma scan_children_count (nodes : list Node) (owner_row : Z) (l : list nat)
    (dcr dcr' : omap DirectChild) :
  stack_unassigned component_id nodes ->
  scan_children nodes component_id owner_row l dcr = Ok dcr' ->
  edge_count dcr' b
  = edge_count dcr b + count (fun child => component_of nodes child =? b) l.
Proof.
  intros Hst. revert dcr.
  induction l as [| child l IH]; intros dcr H; cbn in H.
  - injection H as <-. unfold count. cbn. lia.
  - inv_bind H. apply get_node_Ok in Hx.
    rewrite count_cons. unfold component_of at 1. rewrite Hx.
    destruct (on_stack x) eqn:Eon.
    + apply IH in H. rewrite H.
      destruct (Hst _ _ Hx Eon) as [-> | ->];
        (destruct (_ =? b) eqn:E; [lia |]); lia.
    + inv_bind H. apply check_Ok in Hx0.
      destruct (component x =? component_id) eqn:Ec; cbn in H.
      * apply IH in H. rewrite H.
        destruct (component x =? b) eqn:E; lia.
      * apply IH in H. rewrite H. unfold edge_count.
        destruct (component x =? b) eqn:E.
        -- apply Z.eqb_eq in E. rewrite E, om_find_set_eq. cbn.
           destruct (om_find b dcr); cbn; lia.
        -- rewrite om_find_set_ne by lia. lia.
Qed.

Lemma component_of_insert (nodes : list Node) (i j : nat) (e : Node) :
  nodes !! i = Some e -> component e = -1 ->
  (component_of (<[i := set_component component_id (set_on_stack false e)]> nodes) j =? b)
  = (component_of nodes j =? b).
Proof.
  intros Hi He. unfold component_of.
  destruct (decide (i = j)) as [<- | Hne].
  - rewrite list_lookup_insert_eq by (eapply lookup_lt_Some; eassumption).
    rewrite Hi, He. cbn [component set_component].
    destruct (Z.eqb_spec component_id b), (Z.eqb_spec (-1) b); congruence.
  - rewrite list_lookup_insert_ne by assumption. reflexivity.
Qed.

Lemma children_of_insert (nodes : list Node) (i j : nat) (e : Node) :
  nodes !! i = Some e ->
  children_of (<[i := set_component component_id (set_on_stack false e)]> nodes) j
  = children_of nodes j.
Proof.
  intros Hi. unfold children_of.
  destruct (decide (i = j)) as [<- | Hne].
  - rewrite list_lookup_insert_eq by (eapply lookup_lt_Some; eassumption).
    rewrite Hi. reflexivity.
  - rewrite list_lookup_insert_ne by assumption. reflexivity.
Qed.

Lemma stack_unassigned_insert (nodes : list Node) (i : nat) (e : Node) :
  stack_unassigned component_id nodes ->
  stack_unassigned component_id (<[i := set_component component_id (set_on_stack false e)]> nodes).
Proof.
  intros Hst j n Hj Hon.
  destruct (decide (i = j)) as [<- | Hne].
  - apply list_lookup_insert_Some in Hj as [(_ & <- & _) | (? & _)];
      [discriminate Hon | congruence].
  - rewrite list_lookup_insert_ne in Hj by assumption. eauto.
Qed.

Lemma pop_component_count (stack : list nat) :
  forall (nodes : list Node) (node : nat) (members0 : list nat)
         (dcr0 : omap DirectChild) stack' nodes' members dcr,
  stack_unassigned component_id nodes ->
  pop_component stack nodes component_id node members0 dcr0
    = Ok (stack', nodes', members, dcr) ->
  exists popped,
    members = members0 ++ popped
    /\ edge_count dcr b = edge_count dcr0 b + edges_into nodes' b popped
    /\ (forall j, (component_of nodes' j =? b) = (component_of nodes j =? b))
    /\ (forall j, children_of nodes' j = children_of nodes j).
Proof.
  induction stack as [| stack_elem stack IH];
    intros nodes node members0 dcr0 stack' nodes' members dcr Hst H;
    cbn in H; [discriminate |].
  inv_bind H. inv_bind H. inv_bind H.
  apply get_node_Ok in Hx. apply check_Ok, Z.eqb_eq in Hx1.
  pose proof (scan_children_count _ _ _ _ _ Hst Hx0) as Hscan.
  assert (Hhere : forall nodes2,
            (forall j, (component_of nodes2 j =? b) = (component_of nodes j =? b)) ->
            (forall j, children_of nodes2 j = children_of nodes j) ->
            children_in nodes2 b stack_elem
            = count (fun child => component_of nodes child =? b) (children x)).
  { intros nodes2 Hc Hch. unfold children_in. rewrite Hch.
    unfold children_of at 1. rewrite Hx. apply count_ext. intros; apply Hc. }
  destruct (stack_elem =? node)%nat eqn:E.
  - injection H as <- <- <- <-. exists [stack_elem].
    split; [reflexivity |].
    assert (Hc := fun j => component_of_insert nodes stack_elem j x Hx Hx1).
    assert (Hch := fun j => children_of_insert nodes stack_elem j x Hx).
    split; [| split; assumption].
    cbn [edges_into]. rewrite (Hhere _ Hc Hch), Hscan. lia.
  - apply IH in H; [| apply stack_unassigned_insert; exact Hst].
    destruct H as (popped & -> & Hcount & Hc & Hch).
    exists (stack_elem :: popped).
    split; [rewrite <- app_assoc; reflexivity |].
    assert (Hc' : forall j, (component_of nodes' j =? b) = (component_of nodes j =? b)).
    { intros j. rewrite Hc. apply component_of_insert; assumption. }
    assert (Hch' : forall j, children_of nodes' j = children_of nodes j).
    { intros j. rewrite Hch. apply children_of_insert; assumption. }
    split; [| split; assumption].
    cbn [edges_into]. rewrite (Hhere _ Hc' Hch'), Hcount, Hscan. lia.
Qed.

End EdgeCount.

(** C6, amended: when a component is finalized in a state whose stacked
    nodes are in no component, the edge count recorded for a child
    component [b] is the number of edges from member nodes of the new
    component to nodes of [b]: a member with two children in [b] counts
    twice. *)
Theorem edge_count_is_number_of_edges (stack : list nat) (nodes : list Node)
    (component_id : Z) (node : nat) (b : Z) stack' nodes' members
    direct_children_rows :
  Forall (fun n => on_stack n = true -> component n = -1) nodes ->
  b <> component_id -> b <> -1 ->
  pop_component stack nodes component_id node [] []
    = Ok (stack', nodes', members, direct_children_rows) ->
  edge_count direct_children_rows b = edges_into nodes' b members.
Proof.
  intros Hst Hb Hb' H.
  eapply pop_component_count in H as (popped & -> & Hcount & _); eauto.
  - rewrite Hcount. reflexivity.
  - intros i n Hi Hon. left.
    rewrite Forall_lookup in Hst. eapply Hst; eassumption.
Qed.

Lemma edge_count_is_number_of_edges_witness :
  edge_count [(0, mkDirectChild 2 0)] 0
  = edges_into
      [ mkNode [1%nat; 2%nat] [] 1 0 1 1 1 false false;
        mkNode [2%nat] [0%nat; 2%nat] 10 1 2 2 0 false false;
        mkNode [1%nat] [0%nat; 1%nat] 20 2 3 2 0 false false ]
      0 [0%nat].
Proof.
  apply (edge_count_is_number_of_edges
           [0%nat]
           [ mkNode [1%nat; 2%nat] [] 1 0 1 1 (-1) true false;
             mkNode [2%nat] [0%nat; 2%nat] 10 1 2 2 0 false false;
             mkNode [1%nat] [0%nat; 1%nat] 20 2 3 2 0 false false ]
           1 0%nat 0 []).
  - repeat constructor; cbn; congruence.
  - lia.
  - lia.
  - reflexivity.
Defined.

(** ** Loops *)

Lemma foldM_Ok_inv {A S} (f : S -> A -> result S) (P : S -> Prop) (l : list A) :
  (forall s a s', a ∈ l -> P s -> f s a = Ok s' -> P s') ->
  forall s s', P s -> foldM f l s = Ok s' -> P s'.
Proof.
  induction l as [| a l IH]; intros Hf s s' Hs H; cbn in H.
  - injection H as <-. exact Hs.
  - inv_bind H. eapply IH; [| | exact H].
    + intros s0 a0 s0' Ha0. apply Hf. now right.
    + eapply Hf; [left | exact Hs | exact Hx].
Qed.

Lemma foldM_app {A S} (f : S -> A -> result S) (l1 l2 : list A) (s : S) :
  foldM f (l1 ++ l2) s = let* s' := foldM f l1 s in foldM f l2 s'.
Proof.
  revert s. induction l1 as [| a l1 IH]; intros s; cbn; [reflexivity |].
  destruct (f s a); cbn; [apply IH | reflexivity].
Qed.

(** ** Nodes *)

Lemma index_of_lookup (nodes : list Node) (i : nat) (n : Node) :
  nodes !! i = Some n -> index_of nodes i = node_index n.
Proof. unfold index_of. now intros ->. Qed.

Lemma same_static_refl (n : Node) : same_static n n.
Proof. repeat split. Qed.

Lemma same_static_trans (n1 n2 n3 : Node) :
  same_static n1 n2 -> same_static n2 n3 -> same_static n1 n3.
Proof. unfold same_static. intuition congruence. Qed.

Lemma node_step_refl (n : Node) : node_step n n.
Proof. split; [apply same_static_refl | reflexivity]. Qed.

Lemma node_step_trans (n1 n2 n3 : Node) :
  node_step n1 n2 -> node_step n2 n3 -> node_step n1 n3.
Proof.
  intros [Hs1 Hv1] [Hs2 Hv2]. split.
  - eapply same_static_trans; eassumption.
  - intros Hn. rewrite (Hv1 Hn) in *. auto.
Qed.

Lemma nodes_step_refl (nodes : list Node) : Forall2 node_step nodes nodes.
Proof. apply Forall_Forall2_diag, Forall_forall. intros; apply node_step_refl. Qed.

Lemma nodes_step_trans (l1 l2 l3 : list Node) :
  Forall2 node_step l1 l2 -> Forall2 node_step l2 l3 -> Forall2 node_step l1 l3.
Proof.
  intros H12. revert l3. induction H12; intros l3 H23; inversion H23; subst;
    constructor; eauto using node_step_trans.
Qed.

(** Replacing an undiscovered node by one with the same static part. *)
Lemma nodes_step_insert (l1 l2 : list Node) (i : nat) (n1 n2 n2' : Node) :
  Forall2 node_step l1 l2 ->
  l1 !! i = Some n1 -> node_index n1 = 0 ->
  l2 !! i = Some n2 -> same_static n2 n2' ->
  Forall2 node_step l1 (<[i := n2']> l2).
Proof.
  intros H H1 Hn1 H2 Hs.
  apply Forall2_same_length_lookup. split.
  - rewrite length_insert. eapply Forall2_length; eassumption.
  - intros j x y Hx Hy.
    destruct (decide (i = j)) as [<- | Hne].
    + rewrite list_lookup_insert_eq in Hy by (eapply lookup_lt_Some; eassumption).
      injection Hy as <-. rewrite H1 in Hx. injection Hx as <-.
      pose proof (Forall2_lookup_lr _ _ _ _ _ _ H H1 H2) as [Hs12 _].
      split; [eapply same_static_trans; eassumption | congruence].
    + rewrite list_lookup_insert_ne in Hy by assumption.
      eapply Forall2_lookup_lr; eassumption.
Qed.

(** ** Popping a component *)

Lemma pop_component_spec (cid : Z) (node : nat) (stack : list nat) :
  cid <> -1 ->
  forall nodes members0 dcr0 stack' nodes' members dcr,
  pop_component stack nodes cid node members0 dcr0
    = Ok (stack', nodes', members, dcr) ->
  exists front,
    stack = front ++ node :: stack'
    /\ members = members0 ++ front ++ [node]
    /\ NoDup (front ++ [node])
    /\ length nodes' = length nodes
    /\ (forall i, i ∉ front ++ [node] -> nodes' !! i = nodes !! i)
    /\ (forall i, i ∈ front ++ [node] ->
        exists e, nodes !! i = Some e /\ component e = -1
          /\ nodes' !! i = Some (set_component cid (set_on_stack false e))).
Proof.
  intros Hcid.
  induction stack as [| stack_elem stack IH];
    intros nodes members0 dcr0 stack' nodes' members dcr H; cbn in H;
    [discriminate |].
  inv_bind H. inv_bind H. inv_bind H.
  apply get_node_Ok in Hx. apply check_Ok, Z.eqb_eq in Hx1.
  pose proof (lookup_lt_Some _ _ _ Hx) as Hlt.
  destruct (stack_elem =? node)%nat eqn:E.
  - apply Nat.eqb_eq in E. subst stack_elem.
    injection H as <- <- <- <-. exists [].
    repeat split.
    + apply NoDup_singleton.
    + apply length_insert.
    + intros i Hi. apply list_lookup_insert_ne. intros ->. apply Hi. left.
    + intros i Hi. apply list_elem_of_singleton in Hi as ->.
      exists x. rewrite list_lookup_insert_eq by assumption. auto.
  - apply Nat.eqb_neq in E.
    apply IH in H as (front & -> & -> & Hnd & Hlen & Hout & Hin).
    assert (Hfresh : stack_elem ∉ front ++ [node]).
    { intros Hm. destruct (Hin _ Hm) as (e & He & Hc & _).
      rewrite list_lookup_insert_eq in He by assumption.
      injection He as <-. cbn in Hc. congruence. }
    exists (stack_elem :: front). repeat split.
    + now rewrite <- !app_assoc.
    + cbn. now constructor.
    + now rewrite Hlen, length_insert.
    + intros i Hi. rewrite Hout by (intros Hm; apply Hi; now right).
      apply list_lookup_insert_ne. intros ->. apply Hi. left.
    + intros i Hi. cbn in Hi. apply elem_of_cons in Hi as [-> | Hi].
      * exists x. rewrite Hout by assumption.
        rewrite list_lookup_insert_eq by assumption. auto.
      * destruct (Hin _ Hi) as (e & He & Hc & Hn').
        rewrite list_lookup_insert_ne in He by (intros ->; contradiction).
        eauto.
Qed.

(** ** The component table keeps its length *)

Lemma upd_component_length cs id f cs' :
  upd_component cs id f = Ok cs' -> length cs' = length cs.
Proof.
  unfold upd_component. intros H. inv_bind H. injection H as <-.
  apply length_insert.
Qed.

Lemma ledger_add_length cs cid id f cs' :
  ledger_add cs cid id f = Ok cs' -> length cs' = length cs.
Proof.
  unfold ledger_add. intros H. inv_bind H. inv_bind H.
  eapply upd_component_length; eassumption.
Qed.

Lemma absorb_length cs cid id cs' :
  absorb cs cid id = Ok cs' -> length cs' = length cs.
Proof.
  unfold absorb. intros H. inv_bind H.
  eapply upd_component_length; eassumption.
Qed.

Lemma ledger_erase_length cs cid id cs' :
  ledger_erase cs cid id = Ok cs' -> length cs' = length cs.
Proof. apply upd_component_length. Qed.

(** Inversion of all the binds of a successful computation. *)
Ltac inv_binds H :=
  repeat (
    match type of H with
    | bind _ _ = Ok _ =>
        let x := fresh "x" in
        let Hx := fresh "Hx" in
        apply bind_Ok in H; destruct H as (x & Hx & H)
    | (let '(_, _) := ?p in _) = Ok _ => destruct p
    | (if ?c then _ else _) = Ok _ => fail 1
    end).

Ltac use_length :=
  repeat match goal with
  | H : upd_component _ _ _ = Ok _ |- _ => apply upd_component_length in H
  | H : ledger_add _ _ _ _ = Ok _ |- _ => apply ledger_add_length in H
  | H : absorb _ _ _ = Ok _ |- _ => apply absorb_length in H
  | H : ledger_erase _ _ _ = Ok _ |- _ => apply ledger_erase_length in H
  | H : Ok _ = Ok _ |- _ => injection H as H; try subst
  end.

Lemma absorb_grand_length cid child dc cs c2n ubn p cs' c2n' ubn' :
  absorb_grand cid child dc (cs, c2n, ubn) p = Ok (cs', c2n', ubn') ->
  length cs' = length cs.
Proof.
  unfold absorb_grand. destruct p as [g f]. intros H.
  inv_binds H.
  match type of H with (if ?c then _ else _) = _ => destruct c end;
    inv_binds H; injection H as <- _ _; use_length; congruence.
Qed.

Lemma resolve_state_length_foldM {A} (f : resolve_state -> A -> result resolve_state)
    (l : list A) :
  (forall cs c2n ubn a cs' c2n' ubn',
     f (cs, c2n, ubn) a = Ok (cs', c2n', ubn') -> length cs' = length cs) ->
  forall s s', foldM f l s = Ok s' -> length (fst (fst s')) = length (fst (fst s)).
Proof.
  intros Hf s s' H.
  apply (foldM_Ok_inv f (fun s0 => length (fst (fst s0)) = length (fst (fst s))) l)
    in H; [exact H | | reflexivity].
  intros [[cs c2n] ubn] a [[cs' c2n'] ubn'] _ Hs Hfa. cbn in *.
  rewrite <- Hs. eapply Hf; eassumption.
Qed.

Lemma resolve_child_length cid cs c2n ubn p cs' c2n' ubn' :
  resolve_child cid (cs, c2n, ubn) p = Ok (cs', c2n', ubn') ->
  length cs' = length cs.
Proof.
  unfold resolve_child. destruct p as [child dc]. intros H.
  inv_binds H. injection H as <- _ _.
  match goal with
  | H : foldM _ _ _ = Ok _ |- _ =>
      apply resolve_state_length_foldM in H;
        [cbn in H | intros; eapply absorb_grand_length; eassumption]
  end.
  repeat match goal with
  | H : (if ?c then _ else _) = Ok _ |- _ => destruct c; inv_binds H
  end; use_length; congruence.
Qed.

(** ** Finalizing a component: the effect on nodes, stack and log *)

Lemma report_nodes_frame retained ubn (l : list nat) (st st' : Walker) :
  foldM (report_node retained ubn) l st = Ok st' ->
  nodes_ st' = nodes_ st /\ node_stack_ st' = node_stack_ st
  /\ components_ st' = components_ st
  /\ next_node_index_ st' = next_node_index_ st
  /\ reachable_calls (delegate_ st') = reachable_calls (delegate_ st).
Proof.
  apply (foldM_Ok_inv _ (fun s =>
    nodes_ s = nodes_ st /\ node_stack_ s = node_stack_ st
    /\ components_ s = components_ st
    /\ next_node_index_ s = next_node_index_ st
    /\ reachable_calls (delegate_ s) = reachable_calls (delegate_ st))).
  - intros s a s' _ (H1 & H2 & H3 & H4 & H5) H. unfold report_node in H.
    inv_binds H. injection H as <-. cbn. repeat split; try assumption.
    rewrite <- H5. clear. induction (delegate_ s) as [| [] l IH]; cbn; congruence.
  - repeat split.
Qed.

Lemma FoundSCC_spec (st : Walker) (node : nat) (st' : Walker) :
  FoundSCC st node = Ok st' ->
  exists front,
    node_stack_ st = front ++ node :: node_stack_ st'
    /\ NoDup (front ++ [node])
    /\ length (nodes_ st') = length (nodes_ st)
    /\ (forall i, i ∉ front ++ [node] -> nodes_ st' !! i = nodes_ st !! i)
    /\ (forall i, i ∈ front ++ [node] ->
        exists e, nodes_ st !! i = Some e /\ component e = -1
          /\ nodes_ st' !! i
             = Some (popped_node (Z.of_nat (length (components_ st))) e))
    /\ length (components_ st') = S (length (components_ st))
    /\ next_node_index_ st' = next_node_index_ st
    /\ reachable_calls (delegate_ st') = reachable_calls (delegate_ st).
Proof.
  unfold FoundSCC. intros H. inv_binds H.
  match goal with
  | H : pop_component _ _ _ _ _ _ = Ok _ |- _ =>
      apply pop_component_spec in H as (front & Hst & _ & Hnd & Hlen & Hout & Hin);
        [| lia]
  end.
  apply report_nodes_frame in H as (Hn & Hs & Hc & Hi & Hl). cbn in *.
  exists front. rewrite Hn, Hs, Hc, Hi, Hl.
  repeat split; try assumption.
  match goal with
  | H : foldM (resolve_child _) _ _ = Ok _ |- _ =>
      apply resolve_state_length_foldM in H;
        [cbn in H | intros; eapply resolve_child_length; eassumption]
  end.
  use_length.
  match goal with H : length _ = length _ |- _ => rewrite H end.
  match goal with H : length _ = length (_ ++ _) |- _ => rewrite H end.
  rewrite length_app. cbn. lia.
Qed.

Lemma stack_order_ext_in (nodes nodes' : list Node) (l : list nat) :
  (forall i, i ∈ l -> index_of nodes' i = index_of nodes i) ->
  StronglySorted (stack_order nodes) l -> StronglySorted (stack_order nodes') l.
Proof.
  intros Hidx Hs. induction Hs as [| a l Hs IH Ha]; constructor.
  - apply IH. intros i Hi. apply Hidx. now right.
  - apply Forall_forall. intros j Hj.
    rewrite Forall_forall in Ha. specialize (Ha j Hj).
    unfold stack_order in *.
    rewrite !Hidx by (try (now right); left). exact Ha.
Qed.

Lemma stack_order_ext (nodes nodes' : list Node) (l : list nat) :
  (forall i, index_of nodes' i = index_of nodes i) ->
  StronglySorted (stack_order nodes) l -> StronglySorted (stack_order nodes') l.
Proof. intros Hidx. apply stack_order_ext_in. auto. Qed.

Lemma node_ok_on_stack (st : Walker) (i : nat) :
  walker_ok st -> i ∈ node_stack_ st ->
  exists n, nodes_ st !! i = Some n /\ on_stack n = true
    /\ node_index n <> 0 /\ component n = -1.
Proof.
  intros Hok Hi. destruct (ok_stack _ Hok _ Hi) as (n & Hn & Hon).
  pose proof (ok_node _ Hok _ _ Hn) as [_ H]. rewrite Hon in H.
  exists n. tauto.
Qed.

Lemma FoundSCC_ok (st : Walker) (node : nat) (st' : Walker) :
  walker_ok st -> FoundSCC st node = Ok st' -> walker_ok st'.
Proof.
  intros Hok H.
  apply FoundSCC_spec in H
    as (front & Hst & Hnd & Hlen & Hout & Hin & Hcomp & Hnext & _).
  set (cid := Z.of_nat (length (components_ st))) in *.
  pose proof (ok_sorted _ Hok) as Hsorted. rewrite Hst in Hsorted.
  assert (Hsplit : front ++ node :: node_stack_ st'
                   = (front ++ [node]) ++ node_stack_ st')
    by now rewrite <- app_assoc.
  rewrite Hsplit in Hsorted, Hst.
  apply StronglySorted_app in Hsorted as (Hcross & _ & Hsorted').
  assert (Hidx : forall i, index_of (nodes_ st') i = index_of (nodes_ st) i).
  { intros i. unfold index_of.
    destruct (decide (i ∈ front ++ [node])) as [Hi | Hi].
    - destruct (Hin _ Hi) as (e & -> & _ & ->). reflexivity.
    - now rewrite Hout. }
  assert (Hdisj : forall i, i ∈ node_stack_ st' -> i ∉ front ++ [node]).
  { intros i Hi Hp. specialize (Hcross _ _ Hp Hi).
    unfold stack_order in Hcross. lia. }
  assert (Hon : forall i, i ∈ front ++ [node] ->
            exists e, nodes_ st !! i = Some e /\ on_stack e = true
              /\ node_index e <> 0 /\ component e = -1).
  { intros i Hi. apply node_ok_on_stack; [assumption |].
    rewrite Hst. apply elem_of_app. now left. }
  split.
  - rewrite Hnext. apply (ok_next _ Hok).
  - eapply stack_order_ext; eassumption.
  - intros i Hi. rewrite Hout by auto.
    apply (ok_stack _ Hok). rewrite Hst. apply elem_of_app. now right.
  - intros i n' Hn'.
    destruct (decide (i ∈ front ++ [node])) as [Hi | Hi].
    + destruct (Hon _ Hi) as (e & He & Heon & Hev & Hec).
      destruct (Hin _ Hi) as (e' & He' & _ & Hn'').
      assert (e' = e) as -> by congruence.
      assert (n' = popped_node cid e) as -> by congruence.
      pose proof (ok_node _ Hok _ _ He) as [Hb _].
      split; [cbn; rewrite Hnext; exact Hb |]. cbn.
      destruct (node_index e =? 0) eqn:E; [lia |].
      rewrite Hcomp. lia.
    + rewrite Hout in Hn' by assumption.
      pose proof (ok_node _ Hok _ _ Hn') as [Hb Hn].
      split; [rewrite Hnext; exact Hb |].
      destruct (on_stack n') eqn:Eon.
      * destruct Hn as (Hmem & Hv & Hc & Hll & t & Ht & Htl).
        assert (Hmem' : i ∈ node_stack_ st').
        { rewrite Hst in Hmem. apply elem_of_app in Hmem as [? | ?];
            [contradiction | assumption]. }
        repeat split; try assumption.
        exists t. rewrite Hidx. split; [| assumption].
        rewrite Hst in Ht. apply elem_of_app in Ht as [Ht | Ht];
          [| assumption].
        specialize (Hcross _ _ Ht Hmem'). unfold stack_order in Hcross.
        rewrite (index_of_lookup _ _ _ Hn') in Hcross. lia.
      * destruct (node_index n' =? 0); [assumption |].
        rewrite Hcomp. lia.
  - intros c Hc. rewrite Hcomp in Hc.
    destruct (decide (c = length (components_ st))) as [-> | Hne].
    + assert (Hnode : node ∈ front ++ [node])
        by (apply elem_of_app; right; constructor).
      destruct (Hin _ Hnode) as (e & _ & _ & Hn').
      exists node, (popped_node cid e). split; [assumption | reflexivity].
    + destruct (ok_inhabited _ Hok c) as (i & n & Hn & Hcn); [lia |].
      exists i, n. split; [| assumption].
      rewrite Hout; [assumption |].
      intros Hi. destruct (Hin _ Hi) as (e & He & Hec & _).
      assert (e = n) by congruence. subst e. lia.
Qed.

(** ** Entering a node and updating its low-link *)

Lemma index_of_insert_same (nodes : list Node) (i : nat) (n n' : Node) :
  nodes !! i = Some n -> node_index n' = node_index n ->
  forall j, index_of (<[i := n']> nodes) j = index_of nodes j.
Proof.
  intros Hi Hidx j. unfold index_of.
  destruct (decide (i = j)) as [<- | Hne].
  - rewrite list_lookup_insert_eq by (eapply lookup_lt_Some; eassumption).
    now rewrite Hi.
  - now rewrite list_lookup_insert_ne.
Qed.

Lemma lowlink_update_ok (st : Walker) (node : nat) (n : Node) (l : Z) :
  walker_ok st ->
  nodes_ st !! node = Some n -> on_stack n = true ->
  l <= lowlink n ->
  (exists t, t ∈ node_stack_ st /\ index_of (nodes_ st) t <= l) ->
  walker_ok (set_nodes (<[node := set_lowlink l n]> (nodes_ st)) st).
Proof.
  intros Hok Hn Hon Hl (t & Ht & Htl).
  pose proof (lookup_lt_Some _ _ _ Hn) as Hlt.
  assert (Hidx := index_of_insert_same (nodes_ st) node n (set_lowlink l n)
                    Hn eq_refl).
  split; cbn.
  - apply (ok_next _ Hok).
  - eapply stack_order_ext; [exact Hidx | apply (ok_sorted _ Hok)].
  - intros i Hi. destruct (decide (node = i)) as [<- | Hne].
    + rewrite list_lookup_insert_eq by assumption. eauto.
    + rewrite list_lookup_insert_ne by assumption. apply (ok_stack _ Hok _ Hi).
  - intros i n' Hn'. destruct (decide (node = i)) as [<- | Hne].
    + rewrite list_lookup_insert_eq in Hn' by assumption. injection Hn' as <-.
      pose proof (ok_node _ Hok _ _ Hn) as [Hb H]. rewrite Hon in H.
      destruct H as (Hmem & Hv & Hc & Hll & _).
      split; [exact Hb |]. cbn. rewrite Hon.
      repeat split; try assumption; [lia |].
      exists t. rewrite Hidx. auto.
    + rewrite list_lookup_insert_ne in Hn' by assumption.
      pose proof (ok_node _ Hok _ _ Hn') as [Hb H].
      split; [exact Hb |]. cbn.
      destruct (on_stack n'); [| exact H].
      destruct H as (Hmem & Hv & Hc & Hll & t' & Ht' & Htl').
      repeat split; try assumption. exists t'. rewrite Hidx. auto.
  - intros c Hc. destruct (ok_inhabited _ Hok c Hc) as (i & n' & Hn' & Hcn).
    destruct (decide (node = i)) as [<- | Hne].
    + exists node, (set_lowlink l n).
      rewrite list_lookup_insert_eq by assumption.
      split; [reflexivity |]. cbn. congruence.
    + exists i, n'. now rewrite list_lookup_insert_ne.
Qed.

Lemma enter_node_spec (st : Walker) (node : nat) (st1 : Walker) :
  enter_node st node = Ok st1 ->
  exists n, nodes_ st !! node = Some n
    /\ st1 = set_next_node_index (next_node_index_ st + 1)
               (set_node_stack (node :: node_stack_ st)
                  (set_nodes (<[node := entered_node (next_node_index_ st) n]>
                                (nodes_ st)) st)).
Proof.
  unfold enter_node. intros H. inv_binds H.
  match goal with H : get_node _ _ = Ok _ |- _ => apply get_node_Ok in H end.
  injection H as <-. eauto.
Qed.

Lemma enter_node_ok (st : Walker) (node : nat) (n : Node) :
  walker_ok st -> nodes_ st !! node = Some n -> node_index n = 0 ->
  walker_ok (set_next_node_index (next_node_index_ st + 1)
               (set_node_stack (node :: node_stack_ st)
                  (set_nodes (<[node := entered_node (next_node_index_ st) n]>
                                (nodes_ st)) st))).
Proof.
  intros Hok Hn Hfresh.
  pose proof (lookup_lt_Some _ _ _ Hn) as Hlt.
  pose proof (ok_next _ Hok) as Hnext.
  assert (Hoff : node ∉ node_stack_ st).
  { intros Hi. apply node_ok_on_stack in Hi as (n' & Hn' & _ & Hv & _);
      [| assumption]. congruence. }
  assert (Hidx : forall j, j <> node ->
            index_of (<[node := entered_node (next_node_index_ st) n]> (nodes_ st)) j
            = index_of (nodes_ st) j).
  { intros j Hj. unfold index_of. now rewrite list_lookup_insert_ne. }
  assert (Hidx' : index_of (<[node := entered_node (next_node_index_ st) n]> (nodes_ st)) node
                  = next_node_index_ st).
  { unfold index_of. now rewrite list_lookup_insert_eq. }
  assert (Hbound : forall j, index_of (nodes_ st) j < next_node_index_ st).
  { intros j. unfold index_of. destruct (nodes_ st !! j) as [m |] eqn:E; [| lia].
    apply (ok_node _ Hok) in E as [? _]. lia. }
  split; cbn.
  - lia.
  - constructor.
    + eapply stack_order_ext_in; [| apply (ok_sorted _ Hok)].
      intros i Hi. apply Hidx. intros ->. contradiction.
    + apply Forall_forall. intros j Hj. unfold stack_order.
      rewrite Hidx', Hidx by (intros ->; contradiction). apply Hbound.
  - intros i Hi. apply elem_of_cons in Hi as [-> | Hi].
    + rewrite list_lookup_insert_eq by assumption. eauto.
    + rewrite list_lookup_insert_ne by (intros ->; contradiction).
      apply (ok_stack _ Hok _ Hi).
  - intros i n' Hn'. destruct (decide (node = i)) as [<- | Hne].
    + rewrite list_lookup_insert_eq in Hn' by assumption. injection Hn' as <-.
      pose proof (ok_node _ Hok _ _ Hn) as [_ H].
      assert (Hc : component n = -1).
      { destruct (on_stack n); [tauto |].
        rewrite Hfresh in H. exact H. }
      split; [cbn; lia |]. cbn.
      repeat split; try (assumption || lia); [left |].
      exists node. split; [left |]. rewrite Hidx'. lia.
    + rewrite list_lookup_insert_ne in Hn' by assumption.
      pose proof (ok_node _ Hok _ _ Hn') as [Hb H].
      split; [cbn; lia |]. cbn.
      destruct (on_stack n'); [| exact H].
      destruct H as (Hmem & Hv & Hc & Hll & t & Ht & Htl).
      repeat split; try assumption; [now right |].
      exists t. split; [now right |].
      rewrite Hidx by (intros ->; contradiction). exact Htl.
  - intros c Hc. destruct (ok_inhabited _ Hok c Hc) as (i & n' & Hn' & Hcn).
    destruct (decide (node = i)) as [<- | Hne].
    + exists node, (entered_node (next_node_index_ st) n).
      rewrite list_lookup_insert_eq by assumption.
      split; [reflexivity |]. cbn. congruence.
    + exists i, n'. now rewrite list_lookup_insert_ne.
Qed.

(** ** The loop over the children of a node *)

Lemma nodes_step_index (l1 l2 : list Node) (i : nat) :
  Forall2 node_step l1 l2 -> index_of l2 i = 0 -> index_of l1 i = 0.
Proof.
  intros H. unfold index_of.
  destruct (l1 !! i) as [n1 |] eqn:E1; [| reflexivity].
  destruct (Forall2_lookup_l _ _ _ _ _ H E1) as (n2 & -> & _ & Hv).
  intros H2. destruct (decide (node_index n1 = 0)) as [? | Hne]; [assumption |].
  rewrite (Hv Hne) in H2. exact H2.
Qed.

Lemma loop_inv_lowlink (st0 : Walker) (node : nat) (st : Walker) (n : Node) (l : Z) :
  loop_inv st0 node st ->
  nodes_ st !! node = Some n ->
  l <= lowlink n ->
  (exists t, t ∈ node_stack_ st /\ index_of (nodes_ st) t <= l) ->
  loop_inv st0 node (set_nodes (<[node := set_lowlink l n]> (nodes_ st)) st).
Proof.
  intros [Hok Hnodes Hfresh Hstack (n' & Hn' & Hidx & Hon) Hnext Hcomp Hlog] Hn Hl Ht.
  assert (n' = n) as -> by congruence.
  split; cbn; try assumption.
  - apply lowlink_update_ok; assumption.
  - unfold index_of in Hfresh.
    destruct (nodes_ st0 !! node) as [n0 |] eqn:E0.
    + eapply nodes_step_insert; try eassumption. repeat split.
    + apply Forall2_length in Hnodes.
      apply lookup_ge_None in E0. apply lookup_lt_Some in Hn. lia.
  - exists (set_lowlink l n).
    rewrite list_lookup_insert_eq by (eapply lookup_lt_Some; eassumption).
    auto.
Qed.

Lemma visit_child_inv (find : Walker -> nat -> result Walker)
    (st0 : Walker) (node : nat) (st : Walker) (child : nat) (st' : Walker) :
  search_correct find ->
  loop_inv st0 node st ->
  visit_child find node st child = Ok st' ->
  loop_inv st0 node st'.
Proof.
  intros Hfind Hinv H. unfold visit_child in H.
  inv_binds H.
  match goal with H : get_node _ _ = Ok _ |- _ => apply get_node_Ok in H end.
  rename x into c, Hx into Hc.
  destruct (node_index c =? 0) eqn:Ec.
  - (* the child is discovered now *)
    apply Z.eqb_eq in Ec. inv_binds H.
    rename x into sta, Hx into Hcall, x0 into c', Hx0 into Hc', x1 into n, Hx1 into Hn.
    apply get_node_Ok in Hc', Hn.
    destruct Hinv as [Hok Hnodes Hfresh (new & Hstack & Hnew)
                        (n1 & Hn1 & Hidx & Hon) Hnext Hcomp Hlog].
    apply Hfind in Hcall as [Hok' Hnodes' (new' & Hstack' & Hnew' & _)
                               (c'' & Hc'' & Hcidx & Hcll) Hnext' Hcomp' Hlog'];
      [| assumption | eauto].
    assert (c'' = c') as -> by congruence.
    assert (Hn_same : n = n1).
    { destruct (Forall2_lookup_l _ _ _ _ _ Hnodes' Hn1) as (n2 & Hn2 & _ & Hv).
      pose proof (ok_node _ Hok _ _ Hn1) as [_ Hk]. rewrite Hon in Hk.
      rewrite Hv in Hn2 by tauto. congruence. }
    subst n1.
    assert (Hinv' : loop_inv st0 node sta).
    { split; try assumption.
      - eapply nodes_step_trans; eassumption.
      - exists (new' ++ new). split.
        + now rewrite Hstack', Hstack, app_assoc.
        + intros m Hm. apply elem_of_app in Hm as [Hm | Hm]; [| auto].
          eapply nodes_step_index; [exact Hnodes | auto].
      - eauto.
      - lia.
      - lia.
      - congruence. }
    destruct (lowlink c' <? lowlink n) eqn:El; [| injection H as <-; exact Hinv'].
    injection H as <-. apply Z.ltb_lt in El.
    apply loop_inv_lowlink; [assumption .. | lia |].
    pose proof (ok_node _ Hok' _ _ Hc') as [_ Hck].
    destruct (on_stack c') eqn:Econ.
    + destruct Hck as (_ & _ & _ & _ & t & Ht & Htl). eauto.
    + (* a child that was popped has a larger low-link *)
      pose proof (ok_node _ Hok _ _ Hn1) as [Hb Hnk]. rewrite Hon in Hnk.
      lia.
  - destruct (on_stack c) eqn:Econ; [| injection H as <-; exact Hinv].
    inv_binds H. rename x into n, Hx into Hn. apply get_node_Ok in Hn.
    destruct (node_index c <? lowlink n) eqn:El; [| injection H as <-; exact Hinv].
    injection H as <-. apply Z.ltb_lt in El.
    apply loop_inv_lowlink; [assumption .. | lia |].
    pose proof (ok_node _ (li_ok _ _ _ Hinv) _ _ Hc) as [_ Hck].
    rewrite Econ in Hck. destruct Hck as (Hmem & _).
    exists child. split; [assumption |].
    rewrite (index_of_lookup _ _ _ Hc). lia.
Qed.

(** ** The search *)

Lemma stack_NoDup (nodes : list Node) (l : list nat) :
  StronglySorted (stack_order nodes) l -> NoDup l.
Proof.
  induction 1 as [| a l Hs IH Ha]; constructor; [| assumption].
  intros Hin. rewrite Forall_forall in Ha. specialize (Ha _ Hin).
  unfold stack_order in Ha. lia.
Qed.

Lemma pivot_unique {A} (x : A) (a a' b b' : list A) :
  NoDup (a ++ x :: b) -> a ++ x :: b = a' ++ x :: b' -> a = a' /\ b = b'.
Proof.
  revert a'. induction a as [| y a IH]; intros a' Hnd Heq.
  - destruct a' as [| y' a']; cbn in *.
    + split; congruence.
    + injection Heq as <- ->. apply NoDup_cons in Hnd as [Hx _].
      exfalso. apply Hx. apply elem_of_app. right. left.
  - destruct a' as [| y' a']; cbn in *.
    + injection Heq as -> <-. apply NoDup_cons in Hnd as [Hx _].
      exfalso. apply Hx. apply elem_of_app. right. left.
    + injection Heq as <- Heq. apply NoDup_cons in Hnd as [_ Hnd].
      destruct (IH _ Hnd Heq) as [-> ->]. split; reflexivity.
Qed.

Lemma FindSCC_spec (fuel : nat) : search_correct (FindSCC fuel).
Proof.
  induction fuel as [| fuel IH]; intros st node st' Hok (n0 & Hn0 & Hfresh) H;
    cbn in H; [discriminate |].
  inv_binds H.
  rename x0 into st1, Hx0 into Henter, x1 into st2, Hx1 into Hloop,
         x2 into n2, Hx2 into Hn2.
  apply get_node_Ok in Hn2. clear Hx.
  apply enter_node_spec in Henter as (n0' & Hn0' & ->).
  assert (n0' = n0) as -> by congruence.
  pose proof (lookup_lt_Some _ _ _ Hn0) as Hlt.
  (* the invariant holds when the loop starts *)
  assert (Hinv1 : loop_inv st node
            (set_next_node_index (next_node_index_ st + 1)
               (set_node_stack (node :: node_stack_ st)
                  (set_nodes (<[node := entered_node (next_node_index_ st) n0]>
                                (nodes_ st)) st)))).
  { split; cbn.
    - apply enter_node_ok; assumption.
    - eapply nodes_step_insert; [apply nodes_step_refl | eassumption ..|].
      repeat split.
    - now rewrite (index_of_lookup _ _ _ Hn0).
    - exists []. split; [reflexivity |]. intros m Hm. inversion Hm.
    - exists (entered_node (next_node_index_ st) n0).
      now rewrite list_lookup_insert_eq.
    - lia.
    - lia.
    - reflexivity. }
  (* and after it *)
  assert (Hinv2 : loop_inv st node st2).
  { revert Hloop. apply foldM_Ok_inv; [| exact Hinv1].
    intros s a s' _. apply visit_child_inv. exact IH. }
  destruct Hinv2 as [Hok2 Hnodes2 _ (new & Hstack & Hnew)
                       (n2' & Hn2' & Hidx & Hon) Hnext Hcomp Hlog].
  assert (n2' = n2) as -> by congruence.
  pose proof (ok_node _ Hok2 _ _ Hn2) as [_ Hk2]. rewrite Hon in Hk2.
  destruct Hk2 as (_ & _ & _ & Hll & _).
  destruct (lowlink n2 =? node_index n2) eqn:Eroot.
  - (* [node] is the root of a component *)
    apply Z.eqb_eq in Eroot.
    pose proof (FoundSCC_ok _ _ _ Hok2 H) as Hok'.
    apply FoundSCC_spec in H
      as (front & Hst & Hnd & Hlen & Hout & Hin & Hcomp' & Hnext' & Hlog').
    assert (front = new /\ node_stack_ st' = node_stack_ st) as [-> Hstack'].
    { apply (pivot_unique node); [| congruence].
      rewrite <- Hst. eapply stack_NoDup, (ok_sorted _ Hok2). }
    split; try assumption.
    + apply Forall2_same_length_lookup. split.
      * rewrite Hlen. eapply Forall2_length; eassumption.
      * intros i nx ny Hx Hy.
        destruct (Forall2_lookup_l _ _ _ _ _ Hnodes2 Hx) as (y2 & Hy2 & Hstep).
        destruct (decide (i ∈ new ++ [node])) as [Hi | Hi].
        -- destruct (Hin _ Hi) as (e & He & _ & Hy').
           assert (e = y2) as -> by congruence.
           assert (ny = popped_node (Z.of_nat (length (components_ st2))) y2)
             as -> by congruence.
           assert (Hx0 : node_index nx = 0).
           { rewrite <- (index_of_lookup _ _ _ Hx).
             apply elem_of_app in Hi as [Hi | Hi]; [auto |].
             apply list_elem_of_singleton in Hi as ->.
             now rewrite (index_of_lookup _ _ _ Hn0). }
           destruct Hstep as [Hs _]. split; [| congruence].
           eapply same_static_trans; [exact Hs | repeat split].
        -- rewrite Hout in Hy by assumption. congruence.
    + exists []. split; [exact Hstack' |]. split; [| now left].
      intros m Hm. inversion Hm.
    + assert (Hnode : node ∈ new ++ [node])
        by (apply elem_of_app; right; constructor).
      destruct (Hin _ Hnode) as (e & He & _ & Hn').
      assert (e = n2) as -> by congruence.
      eexists. split; [exact Hn' |]. cbn. auto.
    + lia.
    + lia.
    + congruence.
  - (* [node] stays on the stack *)
    apply Z.eqb_neq in Eroot. injection H as <-.
    split; try assumption.
    + exists (new ++ [node]). split; [now rewrite Hstack, <- app_assoc |].
      split; [| right; apply last_snoc].
      intros m Hm. apply elem_of_app in Hm as [Hm | Hm]; [auto |].
      apply list_elem_of_singleton in Hm as ->.
      now rewrite (index_of_lookup _ _ _ Hn0).
    + exists n2. rewrite Hon. repeat split; [assumption .. | lia].
Qed.

(** ** The search from an empty stack *)

Lemma FindSCC_top (fuel : nat) (st : Walker) (node : nat) (st' : Walker) :
  walker_ok st -> node_stack_ st = [] ->
  (exists n, nodes_ st !! node = Some n /\ node_index n = 0) ->
  FindSCC fuel st node = Ok st' ->
  search_post st node st' /\ node_stack_ st' = [].
Proof.
  intros Hok Hempty Hfresh H.
  pose proof (FindSCC_spec fuel _ _ _ Hok Hfresh H) as Hpost.
  split; [exact Hpost |].
  destruct Hpost as [Hok' _ (new & Hstack & _ & Hlast) (n' & Hn' & Hidx & Hll) _ _ _].
  rewrite Hempty, app_nil_r in Hstack. subst new.
  destruct Hlast as [? | Hlast]; [assumption | exfalso].
  apply last_Some in Hlast as (front & Hfront).
  assert (Hmem : node ∈ node_stack_ st')
    by (rewrite Hfront; apply elem_of_app; right; left).
  destruct (ok_stack _ Hok' _ Hmem) as (n & Hn & Hon).
  assert (n = n') as -> by congruence.
  rewrite Hon in Hll.
  pose proof (ok_node _ Hok' _ _ Hn') as [_ Hk]. rewrite Hon in Hk.
  destruct Hk as (_ & _ & _ & _ & t & Ht & Htl).
  pose proof (ok_sorted _ Hok') as Hs. rewrite Hfront in Hs, Ht.
  apply StronglySorted_app in Hs as (Hcross & _ & _).
  apply elem_of_app in Ht as [Ht | Ht].
  - specialize (Hcross t node Ht ltac:(left)). unfold stack_order in Hcross.
    rewrite (index_of_lookup _ _ _ Hn') in Hcross. lia.
  - apply list_elem_of_singleton in Ht as ->.
    rewrite (index_of_lookup _ _ _ Hn') in Htl. lia.
Qed.

(** ** The entry points keep the invariant *)

Lemma same_search_refl (n : Node) : same_search n n.
Proof. repeat split. Qed.

Lemma same_search_index (l l' : list Node) :
  Forall2 same_search l l' -> forall i, index_of l' i = index_of l i.
Proof.
  intros H i. unfold index_of.
  destruct (l !! i) as [n |] eqn:E.
  - destruct (Forall2_lookup_l _ _ _ _ _ H E) as (n' & -> & Hs & _). exact Hs.
  - apply lookup_ge_None in E. apply Forall2_length in H.
    rewrite lookup_ge_None_2 by lia. reflexivity.
Qed.

Lemma walker_ok_same_search (st : Walker) (nodes' : list Node) :
  walker_ok st -> Forall2 same_search (nodes_ st) nodes' ->
  walker_ok (set_nodes nodes' st).
Proof.
  intros Hok Hsame. pose proof (same_search_index _ _ Hsame) as Hidx.
  split; cbn.
  - apply (ok_next _ Hok).
  - eapply stack_order_ext; [exact Hidx | apply (ok_sorted _ Hok)].
  - intros i Hi. destruct (ok_stack _ Hok _ Hi) as (n & Hn & Hon).
    destruct (Forall2_lookup_l _ _ _ _ _ Hsame Hn) as (n' & Hn' & _ & _ & _ & Hon').
    exists n'. split; [assumption | congruence].
  - intros i n' Hn'.
    destruct (Forall2_lookup_r _ _ _ _ _ Hsame Hn') as (n & Hn & Hi & Hl & Hc & Ho).
    pose proof (ok_node _ Hok _ _ Hn) as Hk. unfold node_ok in *. cbn.
    rewrite Hi, Hl, Hc, Ho.
    destruct Hk as [Hb Hk]. split; [exact Hb |].
    destruct (on_stack n); [| exact Hk].
    destruct Hk as (? & ? & ? & ? & t & Ht & Htl).
    repeat split; try assumption. exists t. now rewrite Hidx.
  - intros c Hc. destruct (ok_inhabited _ Hok c Hc) as (i & n & Hn & Hcn).
    destruct (Forall2_lookup_l _ _ _ _ _ Hsame Hn) as (n' & Hn' & _ & _ & Hc' & _).
    exists i, n'. split; [assumption | congruence].
Qed.

Lemma walker_ok_extend (st : Walker) (k : nat) :
  walker_ok st ->
  walker_ok (set_nodes (nodes_ st ++ replicate k default_node) st).
Proof.
  intros Hok.
  assert (Hidx : forall i, index_of (nodes_ st ++ replicate k default_node) i
                           = index_of (nodes_ st) i).
  { intros i. unfold index_of.
    destruct (nodes_ st !! i) as [n |] eqn:E.
    - now rewrite (lookup_app_l_Some _ _ _ _ E).
    - apply lookup_ge_None in E. rewrite lookup_app_r by assumption.
      destruct (replicate k default_node !! _) as [d |] eqn:Ed; [| reflexivity].
      apply lookup_replicate in Ed as [-> _]. reflexivity. }
  split; cbn.
  - apply (ok_next _ Hok).
  - eapply stack_order_ext; [exact Hidx | apply (ok_sorted _ Hok)].
  - intros i Hi. destruct (ok_stack _ Hok _ Hi) as (n & Hn & Hon).
    exists n. split; [now apply lookup_app_l_Some | assumption].
  - intros i n Hn. apply lookup_app_Some in Hn as [Hn | [_ Hn]].
    + pose proof (ok_node _ Hok _ _ Hn) as [Hb Hk].
      split; [exact Hb |]. cbn. destruct (on_stack n); [| exact Hk].
      destruct Hk as (? & ? & ? & ? & t & Ht & Htl).
      repeat split; try assumption. exists t. now rewrite Hidx.
    + apply lookup_replicate in Hn as [-> _].
      pose proof (ok_next _ Hok). split; cbn; [lia | reflexivity].
  - intros c Hc. destruct (ok_inhabited _ Hok c Hc) as (i & n & Hn & Hcn).
    exists i, n. split; [now apply lookup_app_l_Some | assumption].
Qed.

Lemma nodes_same_search_insert (nodes : list Node) (i : nat) (n n' : Node) :
  nodes !! i = Some n -> same_search n n' ->
  Forall2 same_search nodes (<[i := n']> nodes).
Proof.
  intros Hn Hs. apply Forall2_same_length_lookup. split.
  - now rewrite length_insert.
  - intros j x y Hx Hy. destruct (decide (i = j)) as [<- | Hne].
    + rewrite list_lookup_insert_eq in Hy by (eapply lookup_lt_Some; eassumption).
      congruence.
    + rewrite list_lookup_insert_ne in Hy by assumption.
      assert (x = y) as -> by congruence. apply same_search_refl.
Qed.

Lemma same_search_trans_list (l1 l2 l3 : list Node) :
  Forall2 same_search l1 l2 -> Forall2 same_search l2 l3 ->
  Forall2 same_search l1 l3.
Proof.
  intros H12. revert l3. induction H12; intros l3 H23; inversion H23; subst;
    constructor; auto.
  unfold same_search in *. intuition congruence.
Qed.

Lemma AddNode_spec (st : Walker) (r size : Z) (st' : Walker) :
  AddNode st r size = Ok st' ->
  exists k n,
    0 <= r
    /\ (nodes_ st ++ replicate k default_node) !! Z.to_nat r = Some n
    /\ st' = set_nodes (<[Z.to_nat r := set_size_row size r n]>
                          (nodes_ st ++ replicate k default_node)) st.
Proof.
  unfold AddNode. intros H.
  apply bind_Ok in H as (u & Hr & H). apply check_Ok, Z.leb_le in Hr.
  apply bind_Ok in H as (nodes & Hnodes & H).
  apply bind_Ok in H as (n & Hn & H). apply get_node_Ok in Hn.
  injection H as <-.
  destruct (length (nodes_ st) <=? Z.to_nat r)%nat.
  - apply bind_Ok in Hnodes as (u' & _ & Hnodes). injection Hnodes as <-. eauto.
  - injection Hnodes as <-. exists 0%nat, n. cbn [replicate].
    rewrite app_nil_r. auto.
Qed.

(** [AddNode] returns only when it leaves every [Node*] valid: the table
    keeps its size, or no node holds a pointer. *)
Lemma AddNode_no_dangling (st : Walker) (r size : Z) (st' : Walker) :
  AddNode st r size = Ok st' ->
  length (nodes_ st') = length (nodes_ st)
  \/ holds_pointers (nodes_ st) = false.
Proof.
  unfold AddNode. intros H.
  apply bind_Ok in H as (u & Hr & H).
  apply bind_Ok in H as (nodes & Hnodes & H).
  apply bind_Ok in H as (n & Hn & H). injection H as <-.
  destruct (length (nodes_ st) <=? Z.to_nat r)%nat.
  - apply bind_Ok in Hnodes as (u' & Hc & _). apply check_Ok in Hc.
    right. now destruct (holds_pointers (nodes_ st)).
  - injection Hnodes as <-. left. cbn. now rewrite length_insert.
Qed.

Lemma AddNode_ok (st : Walker) (r size : Z) (st' : Walker) :
  walker_ok st -> AddNode st r size = Ok st' ->
  walker_ok st' /\ node_stack_ st' = node_stack_ st.
Proof.
  intros Hok H. apply AddNode_spec in H as (k & n & _ & Hn & ->).
  split; [| reflexivity].
  apply (walker_ok_same_search
           (set_nodes (nodes_ st ++ replicate k default_node) st)).
  - now apply walker_ok_extend.
  - cbn. eapply nodes_same_search_insert; [eassumption | repeat split].
Qed.

Lemma AddEdge_spec (st : Walker) (owner_row owned_row : Z) (st' : Walker) :
  AddEdge st owner_row owned_row = Ok st' ->
  exists owner owned n m,
    node_of_row st owner_row = Ok owner
    /\ node_of_row st owned_row = Ok owned
    /\ nodes_ st !! owner = Some n
    /\ <[owner := set_children (set_emplace owned (children n)) n]> (nodes_ st)
         !! owned = Some m
    /\ st' = set_nodes
               (<[owned := set_parents (set_emplace owner (parents m)) m]>
                  (<[owner := set_children (set_emplace owned (children n)) n]>
                     (nodes_ st))) st.
Proof.
  unfold AddEdge. intros H. inv_binds H.
  repeat match goal with H : get_node _ _ = Ok _ |- _ => apply get_node_Ok in H end.
  injection H as <-. eauto 10.
Qed.

Lemma AddEdge_ok (st : Walker) (owner_row owned_row : Z) (st' : Walker) :
  walker_ok st -> AddEdge st owner_row owned_row = Ok st' ->
  walker_ok st' /\ node_stack_ st' = node_stack_ st.
Proof.
  intros Hok H.
  apply AddEdge_spec in H as (owner & owned & n & m & _ & _ & Hn & Hm & ->).
  split; [| reflexivity].
  apply walker_ok_same_search; [assumption |]. cbn.
  apply (same_search_trans_list _
           (<[owner := set_children (set_emplace owned (children n)) n]> (nodes_ st))).
  - apply nodes_same_search_insert with n; [exact Hn | repeat split].
  - apply nodes_same_search_insert with m; [exact Hm | repeat split].
Qed.

(** ** The reachability marker *)

Lemma only_reachable_refl (n : Node) : only_reachable n n.
Proof. now left. Qed.

Lemma only_reachable_trans (n1 n2 n3 : Node) :
  only_reachable n1 n2 -> only_reachable n2 n3 -> only_reachable n1 n3.
Proof.
  intros [-> | [H1 ->]] [-> | [H2 ->]];
    [now left | now right | now right | discriminate H2].
Qed.

Lemma reach_frame_refl (st : Walker) : reach_frame st st.
Proof.
  split; try reflexivity.
  apply Forall_Forall2_diag, Forall_forall. intros; apply only_reachable_refl.
Qed.

Lemma reach_frame_trans (st1 st2 st3 : Walker) :
  reach_frame st1 st2 -> reach_frame st2 st3 -> reach_frame st1 st3.
Proof.
  intros [Hn1 Hs1 Hc1 Hx1] [Hn2 Hs2 Hc2 Hx2]. split; try congruence.
  clear -Hn1 Hn2. revert Hn2. generalize (nodes_ st3).
  induction Hn1; intros l3 H23; inversion H23; subst; constructor;
    eauto using only_reachable_trans.
Qed.

Lemma ReachableNode_frame (fuel : nat) :
  forall st node st', ReachableNode fuel st node = Ok st' -> reach_frame st st'.
Proof.
  induction fuel as [| fuel IH]; intros st node st' H; cbn in H;
    [discriminate |].
  inv_binds H. rename x into n, Hx into Hn. apply get_node_Ok in Hn.
  destruct (reachable n) eqn:Ereach; [injection H as <-; apply reach_frame_refl |].
  revert H. apply (foldM_Ok_inv _ (reach_frame st)).
  - intros s a s' _ Hs Hcall. eapply reach_frame_trans; eauto.
  - split; try reflexivity. cbn.
    apply Forall2_same_length_lookup. split; [now rewrite length_insert |].
    intros j x y Hx Hy. destruct (decide (node = j)) as [<- | Hne].
    + rewrite list_lookup_insert_eq in Hy by (eapply lookup_lt_Some; eassumption).
      assert (x = n) as -> by congruence. injection Hy as <-. now right.
    + rewrite list_lookup_insert_ne in Hy by assumption.
      assert (x = y) as -> by congruence. apply only_reachable_refl.
Qed.

Lemma only_reachable_same_search (l l' : list Node) :
  Forall2 only_reachable l l' -> Forall2 same_search l l'.
Proof.
  intros H. eapply Forall2_impl; [exact H |].
  intros n n' [-> | [_ ->]]; repeat split.
Qed.

Lemma walker_ok_delegate nodes stack components next log log' :
  walker_ok (mkWalker nodes stack components next log) ->
  walker_ok (mkWalker nodes stack components next log').
Proof. intros [H1 H2 H3 H4 H5]. split; assumption. Qed.

Lemma reach_frame_ok (st st' : Walker) :
  walker_ok st -> reach_frame st st' -> walker_ok st'.
Proof.
  intros Hok [Hn Hs Hc Hx]. apply only_reachable_same_search in Hn.
  apply (walker_ok_same_search _ _ Hok) in Hn.
  destruct st' as [nodes' stack' comps' next' log']. cbn in *. subst.
  eapply walker_ok_delegate. exact Hn.
Qed.

(** ** Component assignments are kept *)

Lemma assigned_kept_refl (st : Walker) : assigned_kept st st.
Proof. intros i n Hn. eauto. Qed.

Lemma assigned_kept_trans (st1 st2 st3 : Walker) :
  assigned_kept st1 st2 -> assigned_kept st2 st3 -> assigned_kept st1 st3.
Proof.
  intros H12 H23 i n Hn. destruct (H12 _ _ Hn) as (n2 & Hn2 & Hc2).
  destruct (H23 _ _ Hn2) as (n3 & Hn3 & Hc3).
  exists n3. split; [assumption |]. intros Hc.
  rewrite <- (Hc2 Hc). apply Hc3. rewrite (Hc2 Hc). exact Hc.
Qed.

Lemma same_search_assigned_kept (st st' : Walker) :
  Forall2 same_search (nodes_ st) (nodes_ st') -> assigned_kept st st'.
Proof.
  intros H i n Hn.
  destruct (Forall2_lookup_l _ _ _ _ _ H Hn) as (n' & Hn' & _ & _ & Hc & _).
  eauto.
Qed.

Lemma node_step_assigned_kept (st st' : Walker) :
  walker_ok st -> Forall2 node_step (nodes_ st) (nodes_ st') ->
  assigned_kept st st'.
Proof.
  intros Hok H i n Hn.
  destruct (Forall2_lookup_l _ _ _ _ _ H Hn) as (n' & Hn' & _ & Hv).
  exists n'. split; [assumption |]. intros Hc.
  pose proof (ok_node _ Hok _ _ Hn) as [_ Hk].
  destruct (on_stack n); [tauto |].
  destruct (node_index n =? 0) eqn:E; [congruence |].
  apply Z.eqb_neq in E. now rewrite (Hv E).
Qed.

Lemma search_from_idle (fuel : nat) (st : Walker) (node : nat) (n : Node)
    (st' : Walker) :
  idle st -> nodes_ st !! node = Some n ->
  (if node_index n =? 0 then FindSCC fuel st node else Ok st) = Ok st' ->
  idle st' /\ Forall2 node_step (nodes_ st) (nodes_ st')
  /\ index_of (nodes_ st') node <> 0
  /\ reachable_calls (delegate_ st') = reachable_calls (delegate_ st).
Proof.
  intros [Hok Hempty] Hn H.
  destruct (node_index n =? 0) eqn:E.
  - apply Z.eqb_eq in E.
    apply FindSCC_top in H as [[Hok' Hnodes _ (n' & Hn' & Hidx & _) _ _ Hlog] Hstack];
      [| assumption | assumption | eauto].
    refine (conj (conj Hok' Hstack) (conj Hnodes (conj _ Hlog))).
    rewrite (index_of_lookup _ _ _ Hn'), Hidx.
    pose proof (ok_next _ Hok). lia.
  - injection H as <-. apply Z.eqb_neq in E.
    refine (conj (conj Hok Hempty) (conj (nodes_step_refl _) (conj _ eq_refl))).
    now rewrite (index_of_lookup _ _ _ Hn).
Qed.

Lemma MarkRoot_idle (st : Walker) (r : Z) (st' : Walker) :
  idle st -> MarkRoot st r = Ok st' -> idle st' /\ assigned_kept st st'.
Proof.
  intros [Hok Hempty] H. unfold MarkRoot in H. inv_binds H.
  rename x0 into sa, Hx0 into Hreach, x1 into n, Hx1 into Hn.
  apply get_node_Ok in Hn. apply ReachableNode_frame in Hreach.
  assert (Hidle : idle sa).
  { split; [eapply reach_frame_ok; eassumption |].
    now rewrite (rf_stack _ _ Hreach). }
  apply (search_from_idle _ _ _ _ _ Hidle Hn) in H as (Hidle' & Hstep & _).
  split; [assumption |].
  eapply assigned_kept_trans.
  - apply same_search_assigned_kept, only_reachable_same_search,
      (rf_nodes _ _ Hreach).
  - apply node_step_assigned_kept; [apply Hidle | assumption].
Qed.

Lemma nodes_step_visited (l l' : list Node) (i : nat) :
  Forall2 node_step l l' -> index_of l i <> 0 -> index_of l' i <> 0.
Proof. intros H Hi Hi'. apply Hi. eapply nodes_step_index; eassumption. Qed.

Lemma sweep_idle (l : list nat) :
  forall st st', idle st -> foldM sweep_node l st = Ok st' ->
    idle st' /\ Forall2 node_step (nodes_ st) (nodes_ st')
    /\ (forall i, i ∈ l -> index_of (nodes_ st') i <> 0)
    /\ reachable_calls (delegate_ st') = reachable_calls (delegate_ st).
Proof.
  induction l as [| a l IH]; intros st st' Hidle H; cbn in H.
  - injection H as <-.
    refine (conj Hidle (conj (nodes_step_refl _) (conj _ eq_refl))).
    intros i Hi. inversion Hi.
  - inv_binds H. rename x into s1, Hx into Hsweep.
    unfold sweep_node in Hsweep. inv_binds Hsweep.
    rename x into n, Hx into Hn. apply get_node_Ok in Hn.
    apply (search_from_idle _ _ _ _ _ Hidle Hn) in Hsweep
      as (Hidle1 & Hstep1 & Hvis1 & Hlog1).
    apply (IH _ _ Hidle1) in H as (Hidle' & Hstep' & Hvis' & Hlog').
    refine (conj Hidle' (conj _ (conj _ _))).
    + eapply nodes_step_trans; eassumption.
    + intros i Hi. apply elem_of_cons in Hi as [-> | Hi]; [| auto].
      eapply nodes_step_visited; eassumption.
    + congruence.
Qed.

Lemma CalculateRetained_spec (st st' : Walker) :
  CalculateRetained st = Ok st' ->
  foldM sweep_node (seq 0 (length (nodes_ st))) st = Ok st'
  /\ Forall (fun c => incoming_edges c = 0) (components_ st').
Proof.
  unfold CalculateRetained. intros H. inv_binds H. injection H as <-.
  split; [assumption |].
  match goal with H : foldM _ (components_ _) _ = Ok _ |- _ => revert H end.
  generalize tt. induction (components_ x) as [| c l IH]; intros u H; cbn in H.
  - constructor.
  - inv_binds H. constructor; [| eauto].
    match goal with H : check _ _ = Ok _ |- _ =>
      now apply check_Ok, Z.eqb_eq in H end.
Qed.

Lemma CalculateRetained_idle (st st' : Walker) :
  idle st -> CalculateRetained st = Ok st' ->
  idle st' /\ assigned_kept st st'
  /\ forall i n, nodes_ st' !! i = Some n ->
       0 <= component n < Z.of_nat (length (components_ st')).
Proof.
  intros Hidle H. apply CalculateRetained_spec in H as [H _].
  apply (sweep_idle _ _ _ Hidle) in H as (Hidle' & Hstep & Hvis & _).
  split; [assumption |]. split.
  - apply node_step_assigned_kept; [apply Hidle | assumption].
  - intros i n Hn. destruct Hidle' as [Hok' Hempty'].
    pose proof (ok_node _ Hok' _ _ Hn) as [_ Hk].
    destruct (on_stack n).
    + destruct Hk as (Hmem & _). rewrite Hempty' in Hmem. inversion Hmem.
    + assert (Hi : i ∈ seq 0 (length (nodes_ st))).
      { apply elem_of_seq. apply lookup_lt_Some in Hn.
        apply Forall2_length in Hstep. lia. }
      specialize (Hvis _ Hi). rewrite (index_of_lookup _ _ _ Hn) in Hvis.
      destruct (node_index n =? 0) eqn:E; [apply Z.eqb_eq in E; contradiction |].
      exact Hk.
Qed.

Lemma empty_walker_idle : idle empty_walker.
Proof.
  split; [| reflexivity]. split; cbn.
  - lia.
  - constructor.
  - intros i Hi. inversion Hi.
  - intros i n Hn. rewrite lookup_nil in Hn. discriminate.
  - intros c Hc. lia.
Qed.

Lemma do_call_idle (st : Walker) (c : call) (st' : Walker) :
  idle st -> do_call st c = Ok st' -> idle st' /\ assigned_kept st st'.
Proof.
  intros Hidle H. destruct c as [r size | owner owned | r |]; cbn in H.
  - pose proof (AddNode_ok _ _ _ _ (proj1 Hidle) H) as [Hok Hst].
    split; [split; [assumption | rewrite Hst; apply Hidle] |].
    apply AddNode_spec in H as (k & n & _ & Hn & ->).
    intros i m Hm. cbn.
    assert (Hm' : (nodes_ st ++ replicate k default_node) !! i = Some m)
      by now apply lookup_app_l_Some.
    destruct (decide (Z.to_nat r = i)) as [<- | Hne].
    + rewrite list_lookup_insert_eq by (eapply lookup_lt_Some; eassumption).
      assert (m = n) as -> by congruence. eauto.
    + rewrite list_lookup_insert_ne by assumption. eauto.
  - pose proof (AddEdge_ok _ _ _ _ (proj1 Hidle) H) as [Hok Hst].
    split; [split; [assumption | rewrite Hst; apply Hidle] |].
    apply AddEdge_spec in H as (a & b & n & m & _ & _ & Hn & Hm & ->).
    apply same_search_assigned_kept. cbn.
    apply (same_search_trans_list _
             (<[a := set_children (set_emplace b (children n)) n]> (nodes_ st))).
    + apply nodes_same_search_insert with n; [exact Hn | repeat split].
    + apply nodes_same_search_insert with m; [exact Hm | repeat split].
  - now apply MarkRoot_idle in H.
  - apply CalculateRetained_idle in H as (? & ? & _); auto.
Qed.

Lemma calls_idle (calls : list call) :
  forall st st', idle st -> foldM do_call calls st = Ok st' ->
    idle st' /\ assigned_kept st st'.
Proof.
  induction calls as [| c calls IH]; intros st st' Hidle H; cbn in H.
  - injection H as <-. split; [assumption | apply assigned_kept_refl].
  - inv_binds H. apply (do_call_idle _ _ _ Hidle) in Hx as [Hidle1 Hk1].
    apply (IH _ _ Hidle1) in H as [Hidle' Hk']. split; [assumption |].
    eapply assigned_kept_trans; eassumption.
Qed.

(** ** Every node ends in one component *)

(** A stacked node that is already in a component makes the finalization
    fail: a second assignment is fatal. *)
Lemma second_assignment_is_fatal (stack : list nat) (nodes : list Node)
    (component_id : Z) (node stack_elem : nat) (e : Node)
    (members : list nat) (dcr dcr' : omap DirectChild) :
  nodes !! stack_elem = Some e -> component e <> -1 ->
  scan_children nodes component_id (row e) (children e) dcr = Ok dcr' ->
  pop_component (stack_elem :: stack) nodes component_id node members dcr
  = Err CheckUnassigned.
Proof.
  intros He Hc Hscan. cbn. unfold get_node. rewrite He. cbn. rewrite Hscan. cbn.
  destruct (component e =? -1) eqn:E; [lia | reflexivity].
Qed.

(** C3: in every run of the interface in which no [AddNode] resizes the
    node table once an edge has been added (the [Node*] of the edges stay
    valid), from any state [st1] it goes through to any later state
    [st2], a node that is in a component stays in that component; and when
    the last call is [CalculateRetained], every node of the table is in
    exactly one component of the component table, and every component has
    a member: the components partition the nodes. *)
Theorem components_partition (calls1 calls2 : list call) (st1 st2 : Walker) :
  table_stable 0 false (calls1 ++ calls2) = true ->
  run calls1 = Ok st1 ->
  foldM do_call calls2 st1 = Ok st2 ->
  (forall i n1, nodes_ st1 !! i = Some n1 -> component n1 <> -1 ->
     exists n2, nodes_ st2 !! i = Some n2 /\ component n2 = component n1)
  /\ (last calls2 = Some CallCalculateRetained ->
      (forall i n, nodes_ st2 !! i = Some n ->
         0 <= component n < Z.of_nat (length (components_ st2)))
      /\ (forall c, (c < length (components_ st2))%nat ->
            exists i n, nodes_ st2 !! i = Some n /\ component n = Z.of_nat c)).
Proof.
  intros _ H1 H2.
  apply (calls_idle _ _ _ empty_walker_idle) in H1 as [Hidle1 _].
  split.
  - apply (calls_idle _ _ _ Hidle1) in H2 as [_ Hkept].
    intros i n1 Hn1 Hc. destruct (Hkept _ _ Hn1) as (n2 & Hn2 & Hc2). eauto.
  - intros Hlast. apply last_Some in Hlast as (front & ->).
    rewrite foldM_app in H2. inv_binds H2. cbn in H2. inv_binds H2.
    injection H2 as <-.
    apply (calls_idle _ _ _ Hidle1) in Hx as [Hidle _].
    apply (CalculateRetained_idle _ _ Hidle) in Hx0 as ([Hok _] & _ & Hall).
    split; [exact Hall | apply (ok_inhabited _ Hok)].
Qed.

Lemma components_partition_witness :
  exists st1 st2,
    table_stable 0 false
      ([CallAddNode 0 1; CallAddNode 1 2; CallAddNode 2 4; CallAddEdge 0 1;
        CallMarkRoot 1] ++ [CallAddNode 2 8; CallCalculateRetained]) = true
    /\ run [CallAddNode 0 1; CallAddNode 1 2; CallAddNode 2 4; CallAddEdge 0 1;
            CallMarkRoot 1] = Ok st1
    /\ foldM do_call [CallAddNode 2 8; CallCalculateRetained] st1 = Ok st2
    /\ (forall i n1, nodes_ st1 !! i = Some n1 -> component n1 <> -1 ->
          exists n2, nodes_ st2 !! i = Some n2 /\ component n2 = component n1)
    /\ (forall i n, nodes_ st2 !! i = Some n ->
          0 <= component n < Z.of_nat (length (components_ st2)))
    /\ (forall c, (c < length (components_ st2))%nat ->
          exists i n, nodes_ st2 !! i = Some n /\ component n = Z.of_nat c).
Proof.
  destruct (run [CallAddNode 0 1; CallAddNode 1 2; CallAddNode 2 4;
                 CallAddEdge 0 1; CallMarkRoot 1])
    as [st1 |] eqn:E1; [| vm_compute in E1; discriminate E1].
  destruct (foldM do_call [CallAddNode 2 8; CallCalculateRetained] st1)
    as [st2 |] eqn:E2;
    [| vm_compute in E1; injection E1 as <-; vm_compute in E2; discriminate E2].
  exists st1, st2. split; [reflexivity |]. split; [reflexivity |].
  split; [exact E2 |].
  destruct (components_partition
              [CallAddNode 0 1; CallAddNode 1 2; CallAddNode 2 4;
               CallAddEdge 0 1; CallMarkRoot 1]
              [CallAddNode 2 8; CallCalculateRetained] _ _ eq_refl E1 E2)
    as [Hkept Hpart].
  split; [exact Hkept |]. apply Hpart. reflexivity.
Defined.

(** ** Reachability *)

Lemma reachable_calls_app (l1 l2 : list Event) :
  reachable_calls (l1 ++ l2) = reachable_calls l1 ++ reachable_calls l2.
Proof.
  induction l1 as [| [r | r a b] l1 IH]; cbn; [reflexivity | now rewrite IH | exact IH].
Qed.

Lemma only_reachable_flagged (l l' : list Node) (i : nat) :
  Forall2 only_reachable l l' -> flagged l i -> flagged l' i.
Proof.
  intros H (n & Hn & Hr).
  destruct (Forall2_lookup_l _ _ _ _ _ H Hn) as (n' & Hn' & [Heq | [_ Heq]]);
    exists n'; subst n'; auto.
Qed.

Lemma only_reachable_registered (l l' : list Node) (i : nat) :
  Forall2 only_reachable l l' -> registered l i -> registered l' i.
Proof.
  intros H (n & Hn & Hr).
  destruct (Forall2_lookup_l _ _ _ _ _ H Hn) as (n' & Hn' & [-> | [_ ->]]);
    eexists; split; eauto.
Qed.

Lemma only_reachable_children (l l' : list Node) (i : nat) (n' : Node) :
  Forall2 only_reachable l l' -> l' !! i = Some n' ->
  exists n, l !! i = Some n /\ children n' = children n.
Proof.
  intros H Hn'.
  destruct (Forall2_lookup_r _ _ _ _ _ H Hn') as (n & Hn & [-> | [_ ->]]);
    eauto.
Qed.

Lemma mark_reachable_inv (st : Walker) (node : nat) (n : Node) :
  reach_inv st ->
  nodes_ st !! node = Some n -> row n = Z.of_nat node -> reachable n = false ->
  reach_inv (set_nodes (<[node := set_reachable true n]> (nodes_ st))
               (emit (MarkReachable (row n)) st)).
Proof.
  intros [Hch Hfl Hnd Hlog] Hn Hrow Hun.
  pose proof (lookup_lt_Some _ _ _ Hn) as Hlt.
  assert (Hflag : forall i,
            flagged (<[node := set_reachable true n]> (nodes_ st)) i
            <-> i = node \/ flagged (nodes_ st) i).
  { intros i. unfold flagged. destruct (decide (node = i)) as [<- | Hne].
    - rewrite list_lookup_insert_eq by assumption. split; [auto |].
      intros _. eauto.
    - rewrite list_lookup_insert_ne by assumption. split; [auto |].
      intros [-> | H]; [contradiction | assumption]. }
  split; cbn.
  - intros i m Hm child Hc.
    assert (Hreg : registered (nodes_ st) child).
    { destruct (decide (node = i)) as [<- | Hne].
      - rewrite list_lookup_insert_eq in Hm by assumption. injection Hm as <-.
        eapply Hch; eassumption.
      - rewrite list_lookup_insert_ne in Hm by assumption.
        eapply Hch; eassumption. }
    destruct Hreg as (c & Hc' & Hcr). unfold registered.
    destruct (decide (node = child)) as [<- | Hne].
    + rewrite list_lookup_insert_eq by assumption.
      eexists; split; [reflexivity |]. cbn. congruence.
    + rewrite list_lookup_insert_ne by assumption. eauto.
  - intros i m Hm Hr. destruct (decide (node = i)) as [<- | Hne].
    + rewrite list_lookup_insert_eq in Hm by assumption. injection Hm as <-.
      exact Hrow.
    + rewrite list_lookup_insert_ne in Hm by assumption. eauto.
  - rewrite reachable_calls_app. cbn. apply NoDup_app. split; [assumption |].
    split; [| apply NoDup_singleton].
    intros z Hz Hz'. apply list_elem_of_singleton in Hz'. subst z.
    apply Hlog in Hz as (i & Hi & m & Hm & Hr).
    assert (i = node) as -> by lia. congruence.
  - intros z. rewrite reachable_calls_app. cbn.
    rewrite elem_of_app, list_elem_of_singleton, Hlog. split.
    + intros [(i & -> & Hi) | ->].
      * exists i. split; [reflexivity |]. apply Hflag. now right.
      * exists node. split; [assumption |]. apply Hflag. now left.
    + intros (i & -> & Hi). apply Hflag in Hi as [-> | Hi]; [now right |].
      left. eauto.
Qed.

Lemma ReachableNode_loop_frame (fuel : nat) (l : list nat) (s s' : Walker) :
  foldM (ReachableNode fuel) l s = Ok s' -> reach_frame s s'.
Proof.
  apply (foldM_Ok_inv _ (reach_frame s)); [| apply reach_frame_refl].
  intros s0 a s0' _ Hs0 Hcall.
  eapply reach_frame_trans; [exact Hs0 |].
  eapply ReachableNode_frame; eassumption.
Qed.

Lemma ReachableNode_inv (fuel : nat) :
  forall (G : nat -> Prop) st node st',
    reach_inv st -> closed_except G (nodes_ st) ->
    registered (nodes_ st) node ->
    ReachableNode fuel st node = Ok st' ->
    reach_inv st' /\ closed_except G (nodes_ st')
    /\ flagged (nodes_ st') node.
Proof.
  induction fuel as [| fuel IH]; intros G st node st' Hinv Hcl Hreg H;
    [discriminate |].
  cbn in H. inv_binds H. rename x into n, Hx into Hn. apply get_node_Ok in Hn.
  destruct (reachable n) eqn:Er.
  - injection H as <-. refine (conj Hinv (conj Hcl _)). exists n. auto.
  - destruct Hreg as (n' & Hn' & Hrow). assert (n' = n) as -> by congruence.
    pose proof (lookup_lt_Some _ _ _ Hn) as Hlt.
    pose proof (mark_reachable_inv _ _ _ Hinv Hn Hrow Er) as Hinv1.
    set (st1 := set_nodes (<[node := set_reachable true n]> (nodes_ st))
                  (emit (MarkReachable (row n)) st)) in *.
    assert (Hn1 : nodes_ st1 !! node = Some (set_reachable true n))
      by (cbn; now rewrite list_lookup_insert_eq).
    assert (Hmono1 : Forall2 only_reachable (nodes_ st) (nodes_ st1)).
    { cbn. apply Forall2_same_length_lookup. split; [now rewrite length_insert |].
      intros j x y Hx Hy. destruct (decide (node = j)) as [<- | Hne].
      - rewrite list_lookup_insert_eq in Hy by assumption.
        assert (x = n) as -> by congruence. injection Hy as <-. now right.
      - rewrite list_lookup_insert_ne in Hy by assumption.
        assert (x = y) as -> by congruence. now left. }
    assert (Hcl1 : closed_except (fun i => G i \/ i = node) (nodes_ st1)).
    { intros i m Hm Hr HG child Hc. cbn in Hm.
      rewrite list_lookup_insert_ne in Hm by (intros ->; apply HG; now right).
      eapply only_reachable_flagged; [exact Hmono1 |].
      eapply Hcl; eauto. }
    pose proof (ReachableNode_loop_frame _ _ _ _ H) as [Hframe _ _ _].
    (* the loop over the children *)
    assert (Hloop : forall l s s',
              reach_inv s -> closed_except (fun i => G i \/ i = node) (nodes_ s) ->
              (forall child, child ∈ l -> registered (nodes_ s) child) ->
              foldM (ReachableNode fuel) l s = Ok s' ->
              reach_inv s' /\ closed_except (fun i => G i \/ i = node) (nodes_ s')
              /\ forall child, child ∈ l -> flagged (nodes_ s') child).
    { clear -IH. induction l as [| a l IHl]; intros s s' Hs Hc Hr H; cbn in H.
      - injection H as <-. refine (conj Hs (conj Hc _)).
        intros child Hin. inversion Hin.
      - inv_binds H. rename x into s1, Hx into Hcall.
        pose proof (ReachableNode_frame _ _ _ _ Hcall) as [Hf1 _ _ _].
        pose proof (ReachableNode_loop_frame _ _ _ _ H) as [Hf2 _ _ _].
        apply (IH _ _ _ _ Hs Hc) in Hcall as (Hs1 & Hc1 & Ha);
          [| apply Hr; left].
        apply IHl in H as (Hs' & Hc' & Hl); try assumption.
        + refine (conj Hs' (conj Hc' _)).
          intros child Hin. apply elem_of_cons in Hin as [-> | Hin]; [| auto].
          eapply only_reachable_flagged; eassumption.
        + intros child Hin. eapply only_reachable_registered; [exact Hf1 |].
          apply Hr. now right. }
    apply Hloop in H as (Hinv' & Hcl' & Hall); try assumption.
    + split; [assumption |]. split.
      * intros i m Hm Hr HG child Hc.
        destruct (decide (i = node)) as [-> | Hne].
        -- apply Hall.
           destruct (only_reachable_children _ _ _ _ Hframe Hm)
             as (n1 & Hn1' & Hch).
           assert (n1 = set_reachable true n) as -> by congruence.
           rewrite Hch in Hc. exact Hc.
        -- eapply Hcl'; eauto. intros [? | ?]; auto.
      * eapply only_reachable_flagged; [exact Hframe |].
        eexists; split; [exact Hn1 | reflexivity].
    + intros child Hc. eapply only_reachable_registered; [exact Hmono1 |].
      eapply (ri_children _ Hinv); eassumption.
Qed.

(** ** Reachability invariants across the calls of the interface *)

Lemma mem_row_elem (r : Z) (seen : list Z) : mem_row r seen = true -> r ∈ seen.
Proof.
  unfold mem_row. rewrite existsb_exists. intros (x & Hx & Heq).
  apply Z.eqb_eq in Heq as ->. now apply list_elem_of_In.
Qed.

Lemma set_emplace_elem (x y : nat) (s : list nat) :
  x ∈ set_emplace y s <-> x = y \/ x ∈ s.
Proof.
  induction s as [| z s IH]; cbn [set_emplace].
  - rewrite list_elem_of_singleton. split; [auto |]. intros [? | H]; [auto | inversion H].
  - destruct (y <? z)%nat eqn:E1; [| destruct (y =? z)%nat eqn:E2].
    + rewrite elem_of_cons. reflexivity.
    + apply Nat.eqb_eq in E2. subst z. rewrite elem_of_cons. tauto.
    + rewrite !elem_of_cons, IH. tauto.
Qed.

(** The in-place updates of the graph store. *)
Lemma reach_inv_update (st : Walker) (i : nat) (n n' : Node) :
  reach_inv st -> nodes_ st !! i = Some n ->
  reachable n' = reachable n ->
  (row n' = row n \/ row n' = Z.of_nat i) ->
  (forall child, child ∈ children n' ->
     child ∈ children n \/ registered (nodes_ st) child) ->
  reach_inv (set_nodes (<[i := n']> (nodes_ st)) st)
  /\ (forall j, flagged (<[i := n']> (nodes_ st)) j <-> flagged (nodes_ st) j)
  /\ (forall j, registered (nodes_ st) j -> registered (<[i := n']> (nodes_ st)) j).
Proof.
  intros [Hch Hfl Hnd Hlog] Hn Hr Hrow Hchild.
  pose proof (lookup_lt_Some _ _ _ Hn) as Hlt.
  assert (Hflag : forall j, flagged (<[i := n']> (nodes_ st)) j
                            <-> flagged (nodes_ st) j).
  { intros j. unfold flagged. destruct (decide (i = j)) as [<- | Hne].
    - rewrite list_lookup_insert_eq by assumption. split.
      + intros (m & [= <-] & Hm). exists n. split; [assumption | congruence].
      + intros (m & Hm & Hmr). assert (m = n) as -> by congruence.
        exists n'. split; [reflexivity | congruence].
    - now rewrite list_lookup_insert_ne. }
  assert (Hreg : forall j, registered (nodes_ st) j
                           -> registered (<[i := n']> (nodes_ st)) j).
  { intros j (m & Hm & Hmr). unfold registered.
    destruct (decide (i = j)) as [<- | Hne].
    - rewrite list_lookup_insert_eq by assumption. exists n'.
      split; [reflexivity |]. assert (m = n) as -> by congruence.
      destruct Hrow; congruence.
    - rewrite list_lookup_insert_ne by assumption. eauto. }
  split; [| split; assumption].
  split; cbn.
  - intros j m Hm child Hc. apply Hreg.
    destruct (decide (i = j)) as [<- | Hne].
    + rewrite list_lookup_insert_eq in Hm by assumption. injection Hm as <-.
      destruct (Hchild _ Hc) as [Hc' | ?]; [eapply Hch; eassumption | assumption].
    + rewrite list_lookup_insert_ne in Hm by assumption. eapply Hch; eassumption.
  - intros j m Hm Hmr. destruct (decide (i = j)) as [<- | Hne].
    + rewrite list_lookup_insert_eq in Hm by assumption. injection Hm as <-.
      destruct Hrow as [Hrow | Hrow]; [| assumption].
      rewrite Hrow. apply (Hfl _ _ Hn). congruence.
    + rewrite list_lookup_insert_ne in Hm by assumption. eauto.
  - assumption.
  - intros z. rewrite Hlog. split; intros (j & -> & Hj); exists j;
      (split; [reflexivity | now apply Hflag]).
Qed.

Lemma reach_inv_extend (st : Walker) (k : nat) :
  reach_inv st ->
  reach_inv (set_nodes (nodes_ st ++ replicate k default_node) st)
  /\ (forall j, flagged (nodes_ st ++ replicate k default_node) j
                <-> flagged (nodes_ st) j)
  /\ (forall j, registered (nodes_ st) j
                -> registered (nodes_ st ++ replicate k default_node) j).
Proof.
  intros [Hch Hfl Hnd Hlog].
  assert (Hflag : forall j, flagged (nodes_ st ++ replicate k default_node) j
                            <-> flagged (nodes_ st) j).
  { intros j. unfold flagged. split.
    - intros (m & Hm & Hmr). apply lookup_app_Some in Hm as [Hm | [_ Hm]]; [eauto |].
      apply lookup_replicate in Hm as [-> _]. discriminate Hmr.
    - intros (m & Hm & Hmr). exists m. split; [now apply lookup_app_l_Some | assumption]. }
  assert (Hreg : forall j, registered (nodes_ st) j
                           -> registered (nodes_ st ++ replicate k default_node) j).
  { intros j (m & Hm & Hmr). exists m. split; [now apply lookup_app_l_Some | assumption]. }
  split; [| split; assumption].
  split; cbn.
  - intros j m Hm child Hc. apply lookup_app_Some in Hm as [Hm | [_ Hm]].
    + apply Hreg. eapply Hch; eassumption.
    + apply lookup_replicate in Hm as [-> _]. inversion Hc.
  - intros j m Hm Hmr. apply lookup_app_Some in Hm as [Hm | [_ Hm]]; [eauto |].
    apply lookup_replicate in Hm as [-> _]. discriminate Hmr.
  - assumption.
  - intros z. rewrite Hlog. split; intros (j & -> & Hj); exists j;
      (split; [reflexivity | now apply Hflag]).
Qed.

(** What the search leaves alone. *)
Lemma reach_inv_static (st st' : Walker) :
  reach_inv st ->
  Forall2 same_static (nodes_ st) (nodes_ st') ->
  reachable_calls (delegate_ st') = reachable_calls (delegate_ st) ->
  reach_inv st'
  /\ (forall j, flagged (nodes_ st') j <-> flagged (nodes_ st) j)
  /\ (forall j, registered (nodes_ st) j -> registered (nodes_ st') j)
  /\ (forall j, children_of (nodes_ st') j = children_of (nodes_ st) j).
Proof.
  intros [Hch Hfl Hnd Hlog] Hs Hl.
  assert (Hflag : forall j, flagged (nodes_ st') j <-> flagged (nodes_ st) j).
  { intros j. unfold flagged. split; intros (m & Hm & Hmr).
    - destruct (Forall2_lookup_r _ _ _ _ _ Hs Hm) as (m0 & Hm0 & _ & _ & _ & _ & Hr).
      exists m0. split; [assumption | congruence].
    - destruct (Forall2_lookup_l _ _ _ _ _ Hs Hm) as (m' & Hm' & _ & _ & _ & _ & Hr).
      exists m'. split; [assumption | congruence]. }
  assert (Hreg : forall j, registered (nodes_ st) j -> registered (nodes_ st') j).
  { intros j (m & Hm & Hmr).
    destruct (Forall2_lookup_l _ _ _ _ _ Hs Hm) as (m' & Hm' & _ & _ & _ & Hr & _).
    exists m'. split; [assumption | congruence]. }
  assert (Hchildren : forall j, children_of (nodes_ st') j = children_of (nodes_ st) j).
  { intros j. unfold children_of. destruct (nodes_ st !! j) as [m |] eqn:E.
    - destruct (Forall2_lookup_l _ _ _ _ _ Hs E) as (m' & -> & Hc & _). exact Hc.
    - apply lookup_ge_None in E. apply Forall2_length in Hs.
      rewrite lookup_ge_None_2 by lia. reflexivity. }
  split; [| repeat split; assumption || apply Hflag].
  split.
  - intros j m' Hm' child Hc. apply Hreg.
    destruct (Forall2_lookup_r _ _ _ _ _ Hs Hm') as (m & Hm & Hcm & _).
    eapply Hch; [exact Hm | congruence].
  - intros j m' Hm' Hmr.
    destruct (Forall2_lookup_r _ _ _ _ _ Hs Hm') as (m & Hm & _ & _ & _ & Hr & Hre).
    rewrite Hr. apply (Hfl _ _ Hm). congruence.
  - now rewrite Hl.
  - intros z. rewrite Hl, Hlog. split; intros (j & -> & Hj); exists j;
      (split; [reflexivity | now apply Hflag]).
Qed.

Lemma node_step_static (l l' : list Node) :
  Forall2 node_step l l' -> Forall2 same_static l l'.
Proof. intros H. eapply Forall2_impl; [exact H |]. now intros n n' [? _]. Qed.

Lemma closed_update (G : nat -> Prop) (nodes : list Node) (i : nat) (n n' : Node) :
  nodes !! i = Some n -> reachable n' = reachable n ->
  children n' = children n ->
  closed_except G nodes -> closed_except G (<[i := n']> nodes).
Proof.
  intros Hn Hr Hc Hcl j m Hm Hmr HG child Hchild.
  pose proof (lookup_lt_Some _ _ _ Hn) as Hlt.
  assert (Hflag : flagged nodes child).
  { destruct (decide (i = j)) as [<- | Hne].
    - rewrite list_lookup_insert_eq in Hm by assumption. injection Hm as <-.
      eapply Hcl; [exact Hn | congruence | exact HG | congruence].
    - rewrite list_lookup_insert_ne in Hm by assumption. eapply Hcl; eassumption. }
  destruct Hflag as (c & Hc' & Hcr). unfold flagged.
  destruct (decide (i = child)) as [<- | Hne].
  - rewrite list_lookup_insert_eq by assumption.
    exists n'. split; [reflexivity | congruence].
  - rewrite list_lookup_insert_ne by assumption. eauto.
Qed.

Lemma closed_extend (G : nat -> Prop) (nodes : list Node) (k : nat) :
  closed_except G nodes -> closed_except G (nodes ++ replicate k default_node).
Proof.
  intros Hcl j m Hm Hmr HG child Hchild.
  apply lookup_app_Some in Hm as [Hm | [_ Hm]].
  - destruct (Hcl _ _ Hm Hmr HG _ Hchild) as (c & Hc & Hcr).
    exists c. split; [now apply lookup_app_l_Some | assumption].
  - apply lookup_replicate in Hm as [-> _]. discriminate Hmr.
Qed.

Lemma closed_static (G : nat -> Prop) (l l' : list Node) :
  Forall2 same_static l l' -> closed_except G l -> closed_except G l'.
Proof.
  intros Hs Hcl j m' Hm' Hmr HG child Hchild.
  destruct (Forall2_lookup_r _ _ _ _ _ Hs Hm') as (m & Hm & Hc & _ & _ & _ & Hr).
  destruct (Hcl j m Hm ltac:(congruence) HG child ltac:(congruence))
    as (c & Hc' & Hcr).
  destruct (Forall2_lookup_l _ _ _ _ _ Hs Hc') as (c' & Hc'' & _ & _ & _ & _ & Hr').
  exists c'. split; [assumption | congruence].
Qed.

Lemma node_of_row_Ok (st : Walker) (r : Z) (node : nat) :
  node_of_row st r = Ok node ->
  0 <= r /\ node = Z.to_nat r /\ (node < length (nodes_ st))%nat.
Proof.
  unfold node_of_row. destruct (r <? 0) eqn:E; [discriminate |].
  destruct (Z.to_nat r <? length (nodes_ st))%nat eqn:E'; [| discriminate].
  intros [= <-]. apply Nat.ltb_lt in E'. lia.
Qed.

Lemma seen_ok_kept (seen : list Z) (st st' : Walker) :
  (forall j, registered (nodes_ st) j -> registered (nodes_ st') j) ->
  seen_ok seen st -> seen_ok seen st'.
Proof. intros Hreg Hseen r Hr. destruct (Hseen r Hr). auto. Qed.

Lemma do_call_reach (seen : list Z) (st : Walker) (c : call) (st' : Walker) :
  reach_state seen st -> call_registered seen c = true ->
  do_call st c = Ok st' ->
  reach_state (seen_after seen c) st'
  /\ flags_kept (nodes_ st) (nodes_ st')
  /\ (is_edge c = false -> closed (nodes_ st) -> closed (nodes_ st'))
  /\ (is_root c = false -> no_flags (nodes_ st) -> no_flags (nodes_ st'))
  /\ (forall r, c = CallMarkRoot r -> closed (nodes_ st) ->
        flagged (nodes_ st') (Z.to_nat r)).
Proof.
  intros [Hidle Hinv Hseen] Hcall H.
  pose proof (do_call_idle _ _ _ Hidle H) as [Hidle' _].
  destruct c as [r size | owner_row owned_row | r |]; cbn in H, Hcall.
  - (* AddNode *)
    apply AddNode_spec in H as (k & n & Hr & Hn & ->).
    destruct (reach_inv_extend _ k Hinv) as (Hinv1 & Hflag1 & Hreg1).
    destruct (reach_inv_update _ (Z.to_nat r) n (set_size_row size r n) Hinv1 Hn)
      as (Hinv2 & Hflag2 & Hreg2);
      [reflexivity | right; cbn; lia | intros child Hc; now left |].
    cbn in Hflag2, Hreg2.
    split; [split |]; [assumption | exact Hinv2 | |].
    + intros r' Hr'. cbn in Hr'. apply elem_of_cons in Hr' as [-> | Hr'].
      * split; [assumption |]. unfold registered. cbn.
        rewrite list_lookup_insert_eq by (eapply lookup_lt_Some; eassumption).
        eexists; split; [reflexivity |]. cbn. lia.
      * destruct (Hseen _ Hr'). split; [assumption |]. cbn. auto.
    + repeat split.
      * intros j Hj. cbn. apply Hflag2, Hflag1, Hj.
      * intros _ Hcl. cbn.
        eapply closed_update; [exact Hn | reflexivity | reflexivity |].
        now apply closed_extend.
      * intros _ Hno j Hj. cbn in Hj. apply Hflag2, Hflag1 in Hj.
        exact (Hno j Hj).
      * intros r' [=].
  - (* AddEdge *)
    apply andb_prop in Hcall as [Ha Hb].
    apply mem_row_elem, Hseen in Ha as [Ha0 Hareg].
    apply mem_row_elem, Hseen in Hb as [Hb0 Hbreg].
    apply AddEdge_spec in H as (a & b & n & m & Hra & Hrb & Hn & Hm & ->).
    apply node_of_row_Ok in Hra as (_ & -> & _).
    apply node_of_row_Ok in Hrb as (_ & -> & _).
    destruct (reach_inv_update _ _ n
                (set_children (set_emplace (Z.to_nat owned_row) (children n)) n)
                Hinv Hn) as (Hinv1 & Hflag1 & Hreg1);
      [reflexivity | now left | |].
    { intros child Hc. cbn in Hc. apply set_emplace_elem in Hc as [-> | Hc]; auto. }
    destruct (reach_inv_update _ _ m
                (set_parents (set_emplace (Z.to_nat owner_row) (parents m)) m)
                Hinv1 Hm) as (Hinv2 & Hflag2 & Hreg2);
      [reflexivity | now left | intros child Hc; now left |].
    cbn in Hflag2, Hreg2.
    split; [split |]; [assumption | exact Hinv2 | |].
    + eapply seen_ok_kept; [| exact Hseen]. cbn. auto.
    + repeat split.
      * intros j Hj. cbn. apply Hflag2, Hflag1, Hj.
      * intros [=].
      * intros _ Hno j Hj. cbn in Hj. apply Hflag2, Hflag1 in Hj.
        exact (Hno j Hj).
      * intros r' [=].
  - (* MarkRoot *)
    apply mem_row_elem, Hseen in Hcall as [Hr0 Hreg].
    unfold MarkRoot in H. inv_binds H.
    rename x into node, Hx into Hnode, x0 into sa, Hx0 into Hreach,
           x1 into n, Hx1 into Hn.
    apply node_of_row_Ok in Hnode as (_ & -> & _). apply get_node_Ok in Hn.
    pose proof (ReachableNode_frame _ _ _ _ Hreach) as Hframe.
    assert (Hidle_a : idle sa).
    { destruct Hidle. split; [eapply reach_frame_ok; eassumption |].
      now rewrite (rf_stack _ _ Hframe). }
    destruct (ReachableNode_inv _ (fun _ => True) _ _ _ Hinv
                ltac:(intros ? ? ? ? HG; exfalso; now apply HG) Hreg Hreach)
      as (Hinv_a & _ & Hflag_a).
    apply (search_from_idle _ _ _ _ _ Hidle_a Hn) in H as (_ & Hstep & _ & Hlog).
    apply node_step_static in Hstep.
    destruct (reach_inv_static _ _ Hinv_a Hstep Hlog) as (Hinv' & Hflag' & Hreg' & _).
    split; [split |]; [assumption | exact Hinv' | |].
    + eapply seen_ok_kept; [| exact Hseen]. intros j Hj. apply Hreg'.
      eapply only_reachable_registered; [apply (rf_nodes _ _ Hframe) | exact Hj].
    + repeat split.
      * intros j Hj. apply Hflag'.
        eapply only_reachable_flagged; [apply (rf_nodes _ _ Hframe) | exact Hj].
      * intros _ Hcl. eapply closed_static; [exact Hstep |].
        eapply ReachableNode_inv; [exact Hinv | exact Hcl | exact Hreg | exact Hreach].
      * intros [=].
      * intros r' [= <-] _. now apply Hflag'.
  - (* CalculateRetained *)
    apply CalculateRetained_spec in H as [H _].
    apply (sweep_idle _ _ _ Hidle) in H as (_ & Hstep & _ & Hlog).
    apply node_step_static in Hstep.
    destruct (reach_inv_static _ _ Hinv Hstep Hlog) as (Hinv' & Hflag' & Hreg' & _).
    split; [split |]; [assumption | exact Hinv' | |].
    + eapply seen_ok_kept; [exact Hreg' | exact Hseen].
    + repeat split.
      * intros j Hj. now apply Hflag'.
      * intros _ Hcl. eapply closed_static; eassumption.
      * intros _ Hno j Hj. apply Hflag' in Hj. exact (Hno j Hj).
      * intros r' [=].
Qed.

Lemma flags_kept_trans (l1 l2 l3 : list Node) :
  flags_kept l1 l2 -> flags_kept l2 l3 -> flags_kept l1 l3.
Proof. unfold flags_kept. auto. Qed.

Lemma calls_reach (calls : list call) :
  forall seen st st',
    reach_state seen st -> rows_registered seen calls = true ->
    foldM do_call calls st = Ok st' ->
    reach_inv st' /\ flags_kept (nodes_ st) (nodes_ st').
Proof.
  induction calls as [| c calls IH]; intros seen st st' Hst Hreg H; cbn in H.
  - injection H as <-. split; [apply Hst | intros j Hj; exact Hj].
  - inv_binds H. cbn in Hreg. apply andb_prop in Hreg as [Hc Hreg].
    destruct (do_call_reach _ _ _ _ Hst Hc Hx) as (Hst1 & Hk1 & _).
    destruct (IH _ _ _ Hst1 Hreg H) as (Hinv' & Hk').
    split; [assumption | eapply flags_kept_trans; eassumption].
Qed.

(** Once the roots are being marked and no edge is added any more. *)
Lemma calls_closed (calls : list call) :
  forall seen st st',
    reach_state seen st -> rows_registered seen calls = true ->
    forallb (fun c => negb (is_edge c)) calls = true ->
    closed (nodes_ st) ->
    foldM do_call calls st = Ok st' ->
    closed (nodes_ st')
    /\ forall r, CallMarkRoot r ∈ calls -> flagged (nodes_ st') (Z.to_nat r).
Proof.
  induction calls as [| c calls IH]; intros seen st st' Hst Hreg Hne Hcl H;
    cbn in H.
  - injection H as <-. split; [assumption |]. intros r Hr. inversion Hr.
  - inv_binds H. cbn in Hreg, Hne.
    apply andb_prop in Hreg as [Hc Hreg]. apply andb_prop in Hne as [Hce Hne].
    apply negb_true_iff in Hce.
    destruct (do_call_reach _ _ _ _ Hst Hc Hx) as (Hst1 & _ & Hcl1 & _ & Hroot).
    specialize (Hcl1 Hce Hcl).
    destruct (calls_reach _ _ _ _ Hst1 Hreg H) as (_ & Hk').
    destruct (IH _ _ _ Hst1 Hreg Hne Hcl1 H) as (Hcl' & Hroots').
    split; [assumption |]. intros r Hr.
    apply elem_of_cons in Hr as [<- | Hr]; [| auto].
    apply Hk'. now apply Hroot.
Qed.

(** While the graph is being built and no root has been marked. *)
Lemma calls_edges_first (calls : list call) :
  forall seen st st',
    reach_state seen st -> rows_registered seen calls = true ->
    edges_before_roots calls = true ->
    no_flags (nodes_ st) ->
    foldM do_call calls st = Ok st' ->
    closed (nodes_ st')
    /\ forall r, CallMarkRoot r ∈ calls -> flagged (nodes_ st') (Z.to_nat r).
Proof.
  induction calls as [| c calls IH]; intros seen st st' Hst Hreg Hef Hno H.
  - cbn in H. injection H as <-. split.
    + intros i n Hn Hr. exfalso. apply (Hno i). exists n. auto.
    + intros r Hr. inversion Hr.
  - cbn in Hef. destruct (is_root c) eqn:Eroot.
    + apply (calls_closed (c :: calls) _ _ _ Hst Hreg); [| | exact H].
      * cbn. rewrite Hef. destruct c; try discriminate Eroot. reflexivity.
      * intros i n Hn Hr. exfalso. apply (Hno i). exists n. auto.
    + cbn in H. inv_binds H. cbn in Hreg. apply andb_prop in Hreg as [Hc Hreg].
      destruct (do_call_reach _ _ _ _ Hst Hc Hx) as (Hst1 & _ & _ & Hno1 & _).
      destruct (IH _ _ _ Hst1 Hreg Hef (Hno1 Eroot Hno) H) as (Hcl' & Hroots').
      split; [assumption |]. intros r Hr.
      apply elem_of_cons in Hr as [<- | Hr]; [discriminate Eroot | auto].
Qed.

Lemma empty_walker_reach_state : reach_state [] empty_walker.
Proof.
  split.
  - apply empty_walker_idle.
  - split; cbn.
    + intros i n Hn. rewrite lookup_nil in Hn. discriminate.
    + intros i n Hn. rewrite lookup_nil in Hn. discriminate.
    + constructor.
    + intros z. split; [intros Hz; inversion Hz |].
      intros (i & _ & n & Hn & _). rewrite lookup_nil in Hn. discriminate.
  - intros r Hr. inversion Hr.
Qed.

Lemma closed_reaches (nodes : list Node) (i j : nat) :
  closed nodes -> reaches nodes i j -> flagged nodes i -> flagged nodes j.
Proof.
  intros Hcl. induction 1 as [i | i j k Hij _ IH]; [auto |].
  intros (n & Hn & Hr). apply IH.
  unfold children_of in Hij. rewrite Hn in Hij.
  eapply Hcl; eauto.
Qed.

(** C8, as specified, fails when an edge is added after a root has been
    marked: node 1 is reachable from the root 0, which is marked again
    once the edge is there, and the delegate is never told. *)
Lemma reachable_not_marked_counterexample :
  exists st,
    run [CallAddNode 0 1; CallAddNode 1 1; CallMarkRoot 0; CallAddEdge 0 1;
         CallMarkRoot 0] = Ok st
    /\ reaches (nodes_ st) 0 1
    /\ reachable_calls (delegate_ st) = [0].
Proof.
  eexists. split; [vm_compute; reflexivity |]. split; [| reflexivity].
  eapply reaches_child; [| apply reaches_here].
  apply list_elem_of_In. cbn. now left.
Qed.


(** ** Sums over node positions *)

Lemma zsum_ext (f g : nat -> Z) (l : list nat) :
  (forall i, i ∈ l -> f i = g i) -> zsum f l = zsum g l.
Proof.
  induction l as [| a l IH]; intros H; cbn; [reflexivity |].
  rewrite (H a) by left. rewrite IH; [reflexivity |].
  intros i Hi. apply H. now right.
Qed.

Lemma zsum_plus (f g : nat -> Z) (l : list nat) :
  zsum (fun i => f i + g i) l = zsum f l + zsum g l.
Proof. induction l as [| a l IH]; cbn; lia. Qed.

Lemma zsum_scale (c : Z) (f : nat -> Z) (l : list nat) :
  zsum (fun i => c * f i) l = c * zsum f l.
Proof. induction l as [| a l IH]; cbn; [lia | rewrite IH; ring]. Qed.

Lemma zsum_zero (f : nat -> Z) (l : list nat) :
  (forall i, i ∈ l -> f i = 0) -> zsum f l = 0.
Proof.
  intros H. rewrite (zsum_ext f (fun _ => 0)) by assumption.
  clear H. induction l; cbn; lia.
Qed.

Lemma zsum_nonneg (f : nat -> Z) (l : list nat) :
  (forall i, i ∈ l -> 0 <= f i) -> 0 <= zsum f l.
Proof.
  induction l as [| a l IH]; intros H; cbn; [lia |].
  specialize (H a ltac:(left)) as Ha.
  assert (0 <= zsum f l) by (apply IH; intros i Hi; apply H; now right). lia.
Qed.

Lemma zsum_swap (f : nat -> nat -> Z) (l1 l2 : list nat) :
  zsum (fun i => zsum (fun j => f i j) l2) l1
  = zsum (fun j => zsum (fun i => f i j) l1) l2.
Proof.
  induction l1 as [| a l1 IH]; cbn.
  - symmetry. now apply zsum_zero.
  - rewrite IH, <- zsum_plus. reflexivity.
Qed.

Lemma zsum_app (f : nat -> Z) (l1 l2 : list nat) :
  zsum f (l1 ++ l2) = zsum f l1 + zsum f l2.
Proof. induction l1 as [| a l1 IH]; cbn; lia. Qed.

(** The term of one position. *)
Lemma zsum_single (f : nat -> Z) (k : nat) (l : list nat) :
  NoDup l -> k ∈ l ->
  zsum (fun i => ind (bool_decide (i = k)) * f i) l = f k.
Proof.
  induction 1 as [| a l Ha Hnd IH]; intros Hk; [inversion Hk |].
  cbn. destruct (decide (a = k)) as [-> | Hne].
  - rewrite bool_decide_eq_true_2 by reflexivity.
    rewrite zsum_zero; [cbn; lia |].
    intros i Hi. rewrite bool_decide_eq_false_2; [reflexivity |].
    intros ->. contradiction.
  - rewrite bool_decide_eq_false_2 by assumption.
    apply elem_of_cons in Hk as [-> | Hk]; [contradiction |].
    rewrite IH by assumption. cbn. lia.
Qed.

(** A sum over some positions, as a sum over all of them. *)
Lemma zsum_sublist (f : nat -> Z) (N : nat) (l : list nat) :
  NoDup l -> (forall i, i ∈ l -> (i < N)%nat) ->
  zsum f l = zsum (fun i => ind (bool_decide (i ∈ l)) * f i) (seq 0 N).
Proof.
  induction 1 as [| a l Ha Hnd IH]; intros Hlt; cbn [zsum].
  - symmetry. apply zsum_zero. intros i _.
    rewrite bool_decide_eq_false_2; [reflexivity | apply not_elem_of_nil].
  - rewrite IH by (intros i Hi; apply Hlt; now right).
    rewrite <- (zsum_single f a (seq 0 N)).
    + rewrite <- zsum_plus. apply zsum_ext. intros i _.
      destruct (decide (i = a)) as [-> | Hne].
      * rewrite (bool_decide_eq_true_2 (a = a)) by reflexivity.
        rewrite (bool_decide_eq_true_2 (a ∈ a :: l)) by left.
        rewrite (bool_decide_eq_false_2 (a ∈ l)) by assumption. cbn. lia.
      * rewrite (bool_decide_eq_false_2 (i = a)) by assumption.
        destruct (decide (i ∈ l)) as [Hi | Hi].
        -- rewrite (bool_decide_eq_true_2 (i ∈ l)) by assumption.
           rewrite (bool_decide_eq_true_2 (i ∈ a :: l)) by now right.
           cbn. lia.
        -- rewrite (bool_decide_eq_false_2 (i ∈ l)) by assumption.
           rewrite (bool_decide_eq_false_2 (i ∈ a :: l)); [cbn; lia |].
           intros Hin. apply elem_of_cons in Hin as [? | ?]; contradiction.
    + apply NoDup_seq.
    + apply elem_of_seq. specialize (Hlt a ltac:(left)). lia.
Qed.

Lemma count_zsum (p : nat -> bool) (l : list nat) :
  count p l = zsum (fun i => ind (p i)) l.
Proof.
  induction l as [| a l IH]; [reflexivity |].
  rewrite count_cons, IH. cbn. reflexivity.
Qed.

Lemma sorted_lt_NoDup (l : list nat) : StronglySorted lt l -> NoDup l.
Proof.
  induction 1 as [| a l Hs IH Ha]; constructor; [| assumption].
  intros Hin. rewrite Forall_forall in Ha. specialize (Ha _ Hin). lia.
Qed.

(** Counting the edges from the sources [P] to the targets [Q], by
    target or by source. *)
Lemma double_counting (nodes : list Node) (P Q : nat -> bool) :
  graph_ok nodes ->
  zsum (fun j => ind (Q j) * count P (parents_of nodes j)) (seq 0 (length nodes))
  = zsum (fun i => ind (P i) * count Q (children_of nodes i)) (seq 0 (length nodes)).
Proof.
  intros [Hch Hpa Hcs Hps Hsym].
  set (N := length nodes).
  rewrite (zsum_ext _ (fun j => zsum (fun i =>
             ind (Q j) * ind (P i) * ind (bool_decide (i ∈ parents_of nodes j)))
             (seq 0 N))).
  2:{ intros j _. rewrite count_zsum.
      rewrite (zsum_sublist _ N) by (auto using sorted_lt_NoDup || eauto).
      rewrite <- zsum_scale. apply zsum_ext. intros; lia. }
  rewrite zsum_swap. apply zsum_ext. intros i _.
  rewrite count_zsum.
  rewrite (zsum_sublist _ N (children_of nodes i))
    by (auto using sorted_lt_NoDup || eauto).
  rewrite <- zsum_scale. apply zsum_ext. intros j _.
  rewrite (bool_decide_ext _ _ (Hsym i j)). lia.
Qed.

(** ** Computations that can only fail on a denominator *)

Lemma safe_bind {A B} (r : result A) (k : A -> result B) (Q : B -> Prop) :
  safe r (fun a => safe (k a) Q) -> safe (bind r k) Q.
Proof. destruct r; cbn; auto. Qed.

Lemma safe_mono {A} (r : result A) (Q Q' : A -> Prop) :
  (forall a, Q a -> Q' a) -> safe r Q -> safe r Q'.
Proof. destruct r; cbn; auto. Qed.

Lemma safe_Ok_inv {A} (r : result A) (Q : A -> Prop) (a : A) :
  safe r Q -> r = Ok a -> Q a.
Proof. intros H ->. exact H. Qed.

Lemma safe_with {A} (r : result A) (Q Q' : A -> Prop) :
  (forall a, r = Ok a -> Q' a) -> safe r Q -> safe r (fun a => Q a /\ Q' a).
Proof. destruct r; cbn; auto. Qed.

Lemma safe_foldM {A S} (f : S -> A -> result S) (P : S -> Prop) (l : list A) :
  (forall s a, a ∈ l -> P s -> safe (f s a) P) ->
  forall s, P s -> safe (foldM f l s) P.
Proof.
  induction l as [| a l IH]; intros Hf s Hs; cbn; [exact Hs |].
  apply safe_bind. eapply safe_mono; [| apply Hf; [left | exact Hs]].
  intros s' Hs'. apply IH; [| exact Hs'].
  intros s0 a0 Ha0. apply Hf. now right.
Qed.

(** ** Fractions stay well formed *)

Lemma Gcd_loop_pos (fuel : nat) :
  forall one other, 0 < one -> 0 <= other -> 0 < Gcd_loop fuel one other.
Proof.
  induction fuel as [| fuel IH]; intros one other H1 H2; cbn; [assumption |].
  destruct (other =? 0) eqn:E; [assumption |].
  apply Z.eqb_neq in E. apply IH; [lia |].
  apply Z.mod_pos_bound. lia.
Qed.

Lemma Gcd_pos (one other : Z) : 0 < one -> 0 <= other -> 0 < Gcd one other.
Proof.
  intros H1 H2. unfold Gcd.
  destruct (one =? 1); [lia |]. destruct (other =? 1); [lia |].
  now apply Gcd_loop_pos.
Qed.

Lemma udiv_Ok (a b : Z) : b <> 0 -> udiv a b = Ok (a / b).
Proof. intros Hb. unfold udiv. destruct (b =? 0) eqn:E; [lia | reflexivity]. Qed.

Lemma wrap64_nonneg (z : Z) : 0 <= wrap64 z.
Proof. unfold wrap64. apply Z.mod_pos_bound. lia. Qed.

Lemma Reduce_safe (n d : Z) :
  0 <= n -> 0 <= d -> (n = 1 -> 0 < d) ->
  safe (Fraction.Reduce (mkFraction n d)) fraction_ok.
Proof.
  intros Hn Hd H1. unfold Fraction.Reduce. cbn [numerator_ denominator_].
  destruct (n =? 0) eqn:E0; [cbn; unfold fraction_ok; cbn; lia |].
  destruct (n =? 1) eqn:E1.
  - apply Z.eqb_eq in E1. cbn. unfold fraction_ok. cbn. lia.
  - assert (Hg : 0 < Gcd n d) by (apply Gcd_pos; lia).
    rewrite !udiv_Ok by lia. cbn [bind]. unfold check.
    destruct (d / Gcd n d >? 0) eqn:E; cbn; [| reflexivity].
    unfold fraction_ok. cbn. split; [apply Z.div_pos; lia | lia].
Qed.

Lemma make_safe (n d : Z) : 0 <= n -> safe (Fraction.make n d) fraction_ok.
Proof.
  intros Hn. unfold Fraction.make, check.
  destruct (d >? 0) eqn:E; cbn [bind]; [| reflexivity].
  apply Reduce_safe; lia.
Qed.

Lemma mul_safe (a b : Fraction) : safe (Fraction.mul a b) fraction_ok.
Proof. apply make_safe, wrap64_nonneg. Qed.

Lemma add_safe (a b : Fraction) :
  fraction_ok a -> fraction_ok b -> safe (Fraction.add a b) fraction_ok.
Proof.
  intros [Ha1 Ha2] [Hb1 Hb2]. unfold Fraction.add, Lcm.
  assert (Hg : 0 < Gcd (denominator_ a) (denominator_ b))
    by (apply Gcd_pos; lia).
  set (L := if denominator_ a >? denominator_ b
            then wrap64 (denominator_ b * (denominator_ a / Gcd (denominator_ a) (denominator_ b)))
            else wrap64 (denominator_ a * (denominator_ b / Gcd (denominator_ a) (denominator_ b)))).
  assert (HL : (if denominator_ a >? denominator_ b
                then let* q := udiv (denominator_ a) (Gcd (denominator_ a) (denominator_ b)) in
                     Ok (wrap64 (denominator_ b * q))
                else let* q := udiv (denominator_ b) (Gcd (denominator_ a) (denominator_ b)) in
                     Ok (wrap64 (denominator_ a * q))) = Ok L).
  { unfold L. destruct (denominator_ a >? denominator_ b);
      rewrite udiv_Ok by lia; reflexivity. }
  rewrite HL. cbn [bind]. rewrite !udiv_Ok by lia. cbn [bind].
  assert (0 <= L) by (unfold L; destruct (_ >? _); apply wrap64_nonneg).
  apply Reduce_safe; [apply wrap64_nonneg | assumption |].
  intros Hone. destruct (decide (L = 0)) as [HL0 | ?]; [| lia].
  rewrite HL0 in Hone. rewrite !Z.div_0_l, !Z.mul_0_r in Hone by lia.
  vm_compute in Hone. discriminate Hone.
Qed.

(** ** The ledgers stay well formed, the counters are only decremented *)

Lemma counters_step_refl (b : nat) (cs : list Component) : counters_step b 0 cs cs.
Proof.
  split; [reflexivity |]. intros k c Hc. exists c.
  repeat split; [assumption |]. destruct (decide (k = b)); lia.
Qed.

Lemma counters_step_trans (b : nat) (d1 d2 : Z) (cs1 cs2 cs3 : list Component) :
  counters_step b d1 cs1 cs2 -> counters_step b d2 cs2 cs3 ->
  counters_step b (d1 + d2) cs1 cs3.
Proof.
  intros [Hl1 H1] [Hl2 H2]. split; [congruence |].
  intros k c Hc. destruct (H1 _ _ Hc) as (c2 & Hc2 & Ho2 & Hi2).
  destruct (H2 _ _ Hc2) as (c3 & Hc3 & Ho3 & Hi3).
  exists c3. repeat split; [assumption | congruence |].
  rewrite Hi3, Hi2. destruct (decide (k = b)); lia.
Qed.

Lemma counters_step_trans0 (b : nat) (d : Z) (cs1 cs2 cs3 : list Component) :
  counters_step b d cs1 cs2 -> counters_step b 0 cs2 cs3 ->
  counters_step b d cs1 cs3.
Proof.
  intros H1 H2. replace d with (d + 0) by lia.
  eapply counters_step_trans; eassumption.
Qed.

Lemma om_find_elem {V} (k : Z) (v : V) (m : omap V) :
  om_find k m = Some v -> (k, v) ∈ m.
Proof.
  induction m as [| [k' v'] m IH]; cbn; [discriminate |].
  destruct (k' =? k) eqn:E.
  - apply Z.eqb_eq in E. intros [= ->]. subst. left.
  - intros H. right. auto.
Qed.

Lemma om_set_elem {V} (k : Z) (v : V) (m : omap V) (p : Z * V) :
  p ∈ om_set k v m -> p = (k, v) \/ p ∈ m.
Proof.
  induction m as [| [k' v'] m IH]; cbn.
  - intros H. apply list_elem_of_singleton in H. now left.
  - destruct (k <? k'); [| destruct (k =? k')].
    + intros H. apply elem_of_cons in H. tauto.
    + intros H. apply elem_of_cons in H as [-> | H]; [now left |].
      right. now right.
    + intros H. apply elem_of_cons in H as [-> | H]; [right; left |].
      destruct (IH H) as [-> | H']; [now left | right; now right].
Qed.

Lemma om_erase_elem {V} (k : Z) (m : omap V) (p : Z * V) :
  p ∈ om_erase k m -> p ∈ m.
Proof.
  induction m as [| [k' v'] m IH]; cbn; [auto |].
  destruct (k' =? k).
  - intros H. now right.
  - intros H. apply elem_of_cons in H as [-> | H]; [left | right; auto].
Qed.

Lemma get_component_Ok (cs : list Component) (id : Z) :
  0 <= id < Z.of_nat (length cs) ->
  exists c, get_component cs id = Ok c /\ cs !! Z.to_nat id = Some c.
Proof.
  intros Hid. unfold get_component.
  destruct (id <? 0) eqn:E; [lia |].
  destruct (lookup_lt_is_Some_2 cs (Z.to_nat id) ltac:(lia)) as [c Hc].
  rewrite Hc. eauto.
Qed.

(** An assignment to a component that touches neither of its counters and
    keeps its ledger well formed. *)
Lemma upd_component_kept (cs : list Component) (id : Z) (f : Component -> Component) :
  0 <= id < Z.of_nat (length cs) ->
  ledgers_ok cs ->
  (forall c, cs !! Z.to_nat id = Some c ->
     incoming_edges (f c) = incoming_edges c
     /\ orig_incoming_edges (f c) = orig_incoming_edges c
     /\ ledger_ok (length cs) (children_components (f c))) ->
  exists cs', upd_component cs id f = Ok cs'
    /\ ledgers_ok cs' /\ forall b, counters_step b 0 cs cs'.
Proof.
  intros Hid Hok Hf. unfold upd_component.
  destruct (get_component_Ok _ _ Hid) as (c & -> & Hc). cbn [bind].
  destruct (Hf _ Hc) as (Hi & Ho & Hl).
  pose proof (lookup_lt_Some _ _ _ Hc) as Hlt.
  eexists. split; [reflexivity |]. split.
  - intros k c' Hc'. rewrite length_insert.
    destruct (decide (Z.to_nat id = k)) as [<- | Hne].
    + rewrite list_lookup_insert_eq in Hc' by assumption. now injection Hc' as <-.
    + rewrite list_lookup_insert_ne in Hc' by assumption. eauto.
  - intros b. split; [apply length_insert |].
    intros k c' Hc'. destruct (decide (Z.to_nat id = k)) as [<- | Hne].
    + rewrite list_lookup_insert_eq by assumption.
      assert (c' = c) as -> by congruence.
      eexists. repeat split; [assumption |].
      rewrite Hi. destruct (decide _); lia.
    + rewrite list_lookup_insert_ne by assumption.
      exists c'. repeat split; [assumption |]. destruct (decide _); lia.
Qed.

Lemma ledger_add_safe (cs : list Component) (cid id : Z) (f : Fraction) :
  ledgers_ok cs ->
  0 <= cid < Z.of_nat (length cs) -> 0 <= id < Z.of_nat (length cs) ->
  fraction_ok f ->
  safe (ledger_add cs cid id f)
       (fun cs' => ledgers_ok cs' /\ forall b, counters_step b 0 cs cs').
Proof.
  intros Hok Hcid Hid Hf. unfold ledger_add.
  destruct (get_component_Ok _ _ Hcid) as (c & -> & Hc). cbn [bind].
  apply safe_bind.
  assert (Hcur : fraction_ok (default Fraction.zero
                                (om_find id (children_components c)))).
  { destruct (om_find id (children_components c)) as [g |] eqn:E; cbn.
    - apply om_find_elem in E. apply (Hok _ _ Hc) in E. tauto.
    - unfold fraction_ok. cbn. lia. }
  eapply safe_mono; [| apply add_safe; eassumption].
  intros sum Hsum.
  destruct (upd_component_kept cs cid
              (fun c0 => set_children_components
                           (om_set id sum (children_components c0)) c0))
    as (cs' & -> & Hres); [assumption .. | | exact Hres].
  intros c0 Hc0. split; [reflexivity | split; [reflexivity |]]. cbn.
  intros k' g Hkg. apply om_set_elem in Hkg as [[= -> ->] | Hkg]; [auto |].
  apply (Hok _ _ Hc0). exact Hkg.
Qed.

Lemma absorb_Ok (cs : list Component) (cid id : Z) :
  ledgers_ok cs ->
  0 <= cid < Z.of_nat (length cs) -> 0 <= id < Z.of_nat (length cs) ->
  exists cs', absorb cs cid id = Ok cs'
    /\ ledgers_ok cs' /\ forall b, counters_step b 0 cs cs'.
Proof.
  intros Hok Hcid Hid. unfold absorb.
  destruct (get_component_Ok _ _ Hid) as (other & -> & _). cbn [bind].
  apply upd_component_kept; [assumption .. |].
  intros c Hc. split; [reflexivity | split; [reflexivity |]]. cbn.
  apply (Hok _ _ Hc).
Qed.

Lemma ledger_erase_Ok (cs : list Component) (cid id : Z) :
  ledgers_ok cs -> 0 <= cid < Z.of_nat (length cs) ->
  exists cs', ledger_erase cs cid id = Ok cs'
    /\ ledgers_ok cs' /\ forall b, counters_step b 0 cs cs'.
Proof.
  intros Hok Hcid. unfold ledger_erase.
  apply upd_component_kept; [assumption .. |].
  intros c Hc. split; [reflexivity | split; [reflexivity |]]. cbn.
  intros k' g Hkg. apply om_erase_elem in Hkg. apply (Hok _ _ Hc). exact Hkg.
Qed.

Lemma ledger_is_one_Ok (cs : list Component) (cid id : Z) :
  0 <= cid < Z.of_nat (length cs) ->
  exists one, ledger_is_one cs cid id = Ok one.
Proof.
  intros Hcid. unfold ledger_is_one.
  destruct (get_component_Ok _ _ Hcid) as (c & -> & _). cbn. eauto.
Qed.

Lemma credit_Ok (cs : list Component) (id node_row : Z) (ubn : omap Z) :
  0 <= id < Z.of_nat (length cs) ->
  exists ubn', credit cs id node_row ubn = Ok ubn'.
Proof.
  intros Hid. unfold credit.
  destruct (get_component_Ok _ _ Hid) as (c & -> & _). cbn. eauto.
Qed.

(** What follows, in both loops, the test that a ledger entry has
    reached one. *)
Lemma total_ownership_Ok (cs : list Component) (cid id node_row : Z)
    (unique : bool) (ubn : omap Z) :
  ledgers_ok cs ->
  0 <= cid < Z.of_nat (length cs) -> 0 <= id < Z.of_nat (length cs) ->
  exists cs1 ubn' cs2,
    absorb cs cid id = Ok cs1
    /\ (if unique then credit cs1 id node_row ubn else Ok ubn) = Ok ubn'
    /\ ledger_erase cs1 cid id = Ok cs2
    /\ ledgers_ok cs2 /\ forall b, counters_step b 0 cs cs2.
Proof.
  intros Hok Hcid Hid.
  destruct (absorb_Ok _ _ _ Hok Hcid Hid) as (cs1 & Habs & Hok1 & Hstep1).
  pose proof (proj1 (Hstep1 0%nat)) as Hlen1.
  assert (Hcredit : exists ubn', (if unique then credit cs1 id node_row ubn else Ok ubn)
                                 = Ok ubn').
  { destruct unique; [apply credit_Ok; lia | eauto]. }
  destruct Hcredit as (ubn' & Hcredit).
  destruct (ledger_erase_Ok cs1 cid id Hok1 ltac:(lia)) as (cs2 & Her & Hok2 & Hstep2).
  exists cs1, ubn', cs2.
  refine (conj Habs (conj Hcredit (conj Her (conj Hok2 _)))).
  intros b. eapply counters_step_trans0; eauto.
Qed.

Lemma absorb_grand_safe (cs : list Component) (cid child : Z) (dc : DirectChild)
    (c2n ubn : omap Z) (g : Z) (f : Fraction) :
  ledgers_ok cs ->
  0 <= cid < Z.of_nat (length cs) -> 0 <= child < Z.of_nat (length cs) ->
  0 <= g < Z.of_nat (length cs) -> fraction_ok f ->
  0 <= edges_from_current_component dc ->
  safe (absorb_grand cid child dc (cs, c2n, ubn) (g, f))
       (fun s => ledgers_ok (fst (fst s))
                 /\ forall b, counters_step b 0 cs (fst (fst s))).
Proof.
  intros Hok Hcid Hchild Hg Hf Hcount. unfold absorb_grand.
  destruct (get_component_Ok _ _ Hg) as (gc & -> & _). cbn [bind].
  destruct (get_component_Ok _ _ Hchild) as (cb & -> & _). cbn [bind].
  apply safe_bind. eapply safe_mono; [| apply make_safe; assumption].
  intros multiplier Hm.
  apply safe_bind. eapply safe_mono; [| apply mul_safe].
  intros product Hp.
  apply safe_bind. eapply safe_mono; [| apply ledger_add_safe; eassumption].
  intros cs1 [Hok1 Hstep1]. pose proof (proj1 (Hstep1 0%nat)) as Hlen1.
  destruct (ledger_is_one_Ok cs1 cid g ltac:(lia)) as (one & ->). cbn [bind].
  destruct one; [| cbn; auto].
  destruct (total_ownership_Ok cs1 cid g (last_node_row dc)
              (IsUniqueOwner
                 (AddChild c2n (edges_from_current_component dc) child (last_node_row dc))
                 (edges_from_current_component dc) g (last_node_row dc))
              ubn Hok1 ltac:(lia) ltac:(lia))
    as (cs2 & ubn' & cs3 & -> & Hcr & Her & Hok3 & Hstep3).
  cbn [bind]. rewrite Hcr. cbn [bind]. rewrite Her. cbn.
  split; [assumption |]. intros b. eapply counters_step_trans0; eauto.
Qed.

Lemma decrement_Ok (cs : list Component) (b count : Z) (cb : Component) :
  ledgers_ok cs -> 0 <= b -> cs !! Z.to_nat b = Some cb ->
  count <= incoming_edges cb ->
  exists cs1,
    upd_component cs b
      (fun c => set_incoming_edges (size_sub (incoming_edges c) count) c) = Ok cs1
    /\ ledgers_ok cs1 /\ counters_step (Z.to_nat b) count cs cs1.
Proof.
  intros Hok Hb Hcb Hcount.
  pose proof (lookup_lt_Some _ _ _ Hcb) as Hlt.
  unfold upd_component.
  destruct (get_component_Ok cs b ltac:(lia)) as (c & -> & Hc). cbn [bind].
  assert (c = cb) as -> by congruence.
  assert (Hsub : size_sub (incoming_edges cb) count = incoming_edges cb - count).
  { unfold size_sub. destruct (count <=? incoming_edges cb) eqn:E; [reflexivity | lia]. }
  rewrite Hsub. eexists. split; [reflexivity |]. split.
  - intros k c' Hc'. rewrite length_insert.
    destruct (decide (Z.to_nat b = k)) as [<- | Hne].
    + rewrite list_lookup_insert_eq in Hc' by assumption. injection Hc' as <-.
      cbn. eauto.
    + rewrite list_lookup_insert_ne in Hc' by assumption. eauto.
  - split; [apply length_insert |].
    intros k c' Hc'. destruct (decide (Z.to_nat b = k)) as [<- | Hne].
    + rewrite list_lookup_insert_eq by assumption.
      assert (c' = cb) as -> by congruence.
      eexists. split; [reflexivity |]. split; [reflexivity |]. cbn.
      rewrite decide_True by reflexivity. reflexivity.
    + rewrite list_lookup_insert_ne by assumption.
      exists c'. split; [assumption |]. split; [reflexivity |].
      rewrite decide_False by congruence. reflexivity.
Qed.

Lemma resolve_child_safe (cs : list Component) (cid b : Z) (dc : DirectChild)
    (c2n ubn : omap Z) (cb : Component) :
  ledgers_ok cs ->
  0 <= cid < Z.of_nat (length cs) -> 0 <= b -> b <> cid ->
  cs !! Z.to_nat b = Some cb ->
  0 <= edges_from_current_component dc <= incoming_edges cb ->
  (orig_incoming_edges cb = edges_from_current_component dc ->
   incoming_edges cb = edges_from_current_component dc) ->
  safe (resolve_child cid (cs, c2n, ubn) (b, dc))
       (fun s => ledgers_ok (fst (fst s))
                 /\ counters_step (Z.to_nat b) (edges_from_current_component dc)
                      cs (fst (fst s))).
Proof.
  intros Hok Hcid Hb Hne Hcb [Hcount0 Hcount] Hall.
  pose proof (lookup_lt_Some _ _ _ Hcb) as Hlt.
  set (count := edges_from_current_component dc) in *.
  unfold resolve_child. fold count.
  assert (Echeck : check (negb (b =? cid)) CheckOtherComponent = Ok tt).
  { destruct (b =? cid) eqn:E; [lia | reflexivity]. }
  rewrite Echeck. cbn [bind].
  destruct (decrement_Ok cs b count cb Hok Hb Hcb Hcount)
    as (cs1 & -> & Hok1 & Hstep1). cbn [bind].
  pose proof (proj1 Hstep1) as Hlen1.
  destruct (get_component_Ok cs1 b ltac:(lia)) as (cb1 & -> & Hcb1). cbn [bind].
  (* the ledger of the child *)
  apply safe_bind.
  eapply safe_mono;
    [| apply (safe_foldM _ (fun s => ledgers_ok (fst (fst s))
                                     /\ forall b', counters_step b' 0 cs1 (fst (fst s))))].
  2:{ intros [[cs' c2n'] ubn'] [g f] Hgf [Hok' Hstep']. cbn in Hok', Hstep'.
      pose proof (proj1 (Hstep' 0%nat)) as Hlen'.
      destruct (Hok1 _ _ Hcb1 _ _ Hgf) as [Hg Hf].
      eapply safe_mono; [| apply absorb_grand_safe; try assumption; lia].
      intros s [Hoks Hsteps]. split; [assumption |].
      intros b'. replace 0 with (0 + 0) by lia.
      eapply counters_step_trans; eauto. }
  2:{ cbn. split; [assumption |]. intros b'. apply counters_step_refl. }
  intros [[cs2 c2n2] ubn2] [Hok2 Hstep2]. cbn in Hok2, Hstep2.
  pose proof (proj1 (Hstep2 0%nat)) as Hlen2.
  pose proof (counters_step_trans0 _ _ _ _ _ Hstep1 (Hstep2 (Z.to_nat b))) as Hstep12.
  destruct (proj2 Hstep12 _ _ Hcb) as (cb2 & Hcb2 & Ho2 & Hi2).
  rewrite decide_True in Hi2 by reflexivity.
  assert (Hget2 : get_component cs2 b = Ok cb2).
  { destruct (get_component_Ok cs2 b ltac:(lia)) as (c & Hc & Hc'). congruence. }
  rewrite Hget2. cbn [bind].
  (* the child itself *)
  assert (Hmid : safe
    (if orig_incoming_edges cb2 =? count
     then
      let* _ := check (incoming_edges cb2 =? 0) CheckChildResolved in
      let* components := absorb cs2 cid b in
      let* unique_retained_by_node :=
        if count =? 1 then credit components b (last_node_row dc) ubn2 else Ok ubn2 in
      Ok (components, unique_retained_by_node)
     else
      let* f := Fraction.make count (orig_incoming_edges cb2) in
      let* components := ledger_add cs2 cid b f in
      let* one := ledger_is_one components cid b in
      if one
      then
       let* components0 := absorb components cid b in
       let* unique_retained_by_node :=
         if IsUniqueOwner c2n2 count (last_node_row dc) b
         then credit components0 b (last_node_row dc) ubn2
         else Ok ubn2 in
       let* components1 := ledger_erase components0 cid b in
       Ok (components1, unique_retained_by_node)
      else Ok (components, ubn2))
    (fun p => ledgers_ok (fst p) /\ forall b', counters_step b' 0 cs2 (fst p))).
  { destruct (orig_incoming_edges cb2 =? count) eqn:Eorig.
    - apply Z.eqb_eq in Eorig.
      assert (Echeck' : check (incoming_edges cb2 =? 0) CheckChildResolved = Ok tt).
      { rewrite Hi2, Hall by congruence. unfold count. rewrite Z.sub_diag. reflexivity. }
      rewrite Echeck'. cbn [bind].
      destruct (absorb_Ok cs2 cid b Hok2 ltac:(lia) ltac:(lia))
        as (cs3 & -> & Hok3 & Hstep3). cbn [bind].
      pose proof (proj1 (Hstep3 0%nat)) as Hlen3.
      destruct (count =? 1).
      + destruct (credit_Ok cs3 b (last_node_row dc) ubn2 ltac:(lia)) as (u & ->).
        cbn. auto.
      + cbn. auto.
    - apply safe_bind. eapply safe_mono; [| apply make_safe; assumption].
      intros f Hf.
      apply safe_bind.
      eapply safe_mono; [| apply ledger_add_safe; try assumption; lia].
      intros cs3 [Hok3 Hstep3]. pose proof (proj1 (Hstep3 0%nat)) as Hlen3.
      destruct (ledger_is_one_Ok cs3 cid b ltac:(lia)) as (one & ->). cbn [bind].
      destruct one; [| cbn; auto].
      destruct (total_ownership_Ok cs3 cid b (last_node_row dc)
                  (IsUniqueOwner c2n2 count (last_node_row dc) b)
                  ubn2 Hok3 ltac:(lia) ltac:(lia))
        as (cs4 & u & cs5 & -> & Hcr & Her & Hok5 & Hstep5).
      cbn [bind]. rewrite Hcr. cbn [bind]. rewrite Her. cbn.
      split; [assumption |]. intros b'. eapply counters_step_trans0; eauto. }
  apply safe_bind. eapply safe_mono; [| exact Hmid].
  intros [cs3 ubn3] [Hok3 Hstep3]. cbn in Hok3, Hstep3.
  pose proof (proj1 (Hstep3 0%nat)) as Hlen3.
  pose proof (counters_step_trans0 _ _ _ _ _ Hstep12 (Hstep3 (Z.to_nat b))) as Hstep13.
  destruct (get_component_Ok cs3 b ltac:(lia)) as (cb3 & -> & Hcb3). cbn [bind].
  destruct (incoming_edges cb3 =? 0).
  - destruct (upd_component_kept cs3 b (set_children_components [])
                ltac:(lia) Hok3) as (cs4 & -> & Hok4 & Hstep4).
    + intros c Hc. split; [reflexivity | split; [reflexivity |]]. cbn.
      intros k f Hkf. inversion Hkf.
    + cbn. split; [assumption |]. eapply counters_step_trans0; eauto.
  - cbn. auto.
Qed.

(** ** Resolving all the children of a new component *)

Lemma om_find_None_keys {V} (k : Z) (m : omap V) :
  k ∉ map fst m -> om_find k m = None.
Proof.
  induction m as [| [k' v'] m IH]; cbn; [reflexivity |].
  intros H. apply not_elem_of_cons in H as [Hne H].
  destruct (k' =? k) eqn:E; [lia | auto].
Qed.

Lemma resolve_children_safe (cid : Z) (dcr : omap DirectChild) :
  forall (cs : list Component) (c2n ubn : omap Z),
  NoDup (map fst dcr) ->
  ledgers_ok cs -> 0 <= cid < Z.of_nat (length cs) ->
  (forall b dc, (b, dc) ∈ dcr ->
     0 <= b /\ b <> cid
     /\ exists cb, cs !! Z.to_nat b = Some cb
          /\ 0 <= edges_from_current_component dc <= incoming_edges cb
          /\ (orig_incoming_edges cb = edges_from_current_component dc ->
              incoming_edges cb = edges_from_current_component dc)) ->
  safe (foldM (resolve_child cid) dcr (cs, c2n, ubn))
       (fun s =>
          ledgers_ok (fst (fst s))
          /\ length (fst (fst s)) = length cs
          /\ forall k c, cs !! k = Some c ->
               exists c', fst (fst s) !! k = Some c'
                 /\ orig_incoming_edges c' = orig_incoming_edges c
                 /\ incoming_edges c'
                    = incoming_edges c - edge_count dcr (Z.of_nat k)).
Proof.
  induction dcr as [| [b dc] dcr IH]; intros cs c2n ubn Hnd Hok Hcid Hall; cbn [foldM].
  - cbn. split; [assumption |]. split; [reflexivity |].
    intros k c Hc. exists c. unfold edge_count. cbn. repeat split; [assumption | lia].
  - cbn [map fst] in Hnd. apply NoDup_cons in Hnd as [Hb Hnd].
    destruct (Hall b dc ltac:(left)) as (Hb0 & Hbne & cb & Hcb & Hcount & Hfull).
    apply safe_bind.
    eapply safe_mono; [| eapply resolve_child_safe; eassumption].
    intros [[cs1 c2n1] ubn1] [Hok1 [Hlen1 Hstep1]]. cbn in Hok1, Hlen1, Hstep1.
    eapply safe_mono; [| apply IH; try assumption; try lia].
    + intros s (Hoks & Hlens & Hs). split; [assumption |]. split; [congruence |].
      intros k c Hc. destruct (Hstep1 _ _ Hc) as (c1 & Hc1 & Ho1 & Hi1).
      destruct (Hs _ _ Hc1) as (c' & Hc' & Ho' & Hi').
      exists c'. split; [assumption |]. split; [congruence |].
      rewrite Hi', Hi1. unfold edge_count. cbn [om_find].
      destruct (decide (k = Z.to_nat b)) as [-> | Hk].
      * rewrite Z2Nat.id by assumption. rewrite Z.eqb_refl.
        rewrite (om_find_None_keys b dcr) by assumption. lia.
      * destruct (b =? Z.of_nat k) eqn:E; [lia | reflexivity].
    + intros b' dc' Hin.
      destruct (Hall b' dc' ltac:(now right)) as (Hb0' & Hbne' & cb' & Hcb' & Hc' & Hf').
      split; [assumption |]. split; [assumption |].
      destruct (Hstep1 _ _ Hcb') as (c1 & Hc1 & Ho1 & Hi1).
      assert (Hdiff : Z.to_nat b' <> Z.to_nat b).
      { intros Heq. apply Hb. replace b with b' by lia.
        apply (list_elem_of_fmap_2 fst) in Hin. exact Hin. }
      rewrite decide_False in Hi1 by assumption.
      exists c1. rewrite Ho1, Hi1. auto.
Qed.

(** ** Summing the self sizes and counting the incoming edges *)

Lemma count_incoming_fold (nodes : list Node) (cid : Z) (l : list nat) :
  forall c, (forall p, p ∈ l -> (p < length nodes)%nat) ->
  exists c', foldM (count_incoming nodes cid) l c = Ok c'
    /\ incoming_edges c'
       = incoming_edges c + count (fun p => negb (component_of nodes p =? cid)) l
    /\ orig_incoming_edges c' = orig_incoming_edges c
    /\ children_components c' = children_components c.
Proof.
  induction l as [| p l IH]; intros c Hl; cbn [foldM].
  - exists c. unfold count. cbn. repeat split; lia.
  - destruct (lookup_lt_is_Some_2 nodes p (Hl p ltac:(left))) as [n Hn].
    unfold count_incoming at 1. unfold get_node. rewrite Hn. cbn [bind].
    rewrite count_cons. unfold component_of at 1. rewrite Hn.
    destruct (negb (component n =? cid)); cbn [bind];
      (edestruct IH as (c' & -> & Hi & Ho & Hc); [intros; apply Hl; now right |]);
      exists c'; cbn in *; repeat split; try assumption; lia.
Qed.

Lemma account_nodes (nodes : list Node) (cid : Z) (M : list nat) :
  forall c0,
  (forall m, m ∈ M -> (m < length nodes)%nat) ->
  (forall m p, m ∈ M -> p ∈ parents_of nodes m -> (p < length nodes)%nat) ->
  exists c, foldM (account_node nodes cid) M c0 = Ok c
    /\ incoming_edges c
       = incoming_edges c0
         + zsum (fun m => count (fun p => negb (component_of nodes p =? cid))
                               (parents_of nodes m)) M
    /\ (M <> [] \/ orig_incoming_edges c0 = incoming_edges c0 ->
        orig_incoming_edges c = incoming_edges c)
    /\ children_components c = children_components c0.
Proof.
  induction M as [| m M IH]; intros c0 HM Hp; cbn [foldM zsum].
  - exists c0. repeat split; [lia |]. intros [? | ?]; congruence.
  - destruct (lookup_lt_is_Some_2 nodes m (HM m ltac:(left))) as [e He].
    unfold account_node at 1. unfold get_node. rewrite He. cbn [bind].
    edestruct (count_incoming_fold nodes cid (parents e)) as (c1 & -> & Hi1 & Ho1 & Hc1).
    { intros p Hin. apply (Hp m p); [left |]. unfold parents_of. now rewrite He. }
    cbn [bind].
    edestruct IH as (c & -> & Hi & Ho & Hc);
      [intros; apply HM; now right | intros ? ? ?; apply Hp; now right |].
    exists c. split; [reflexivity |]. cbn in Hi, Hc, Hi1, Hc1, Ho.
    unfold parents_of at 1. rewrite He.
    split; [lia |]. split; [| congruence].
    intros _. apply Ho. now right.
Qed.

(** ** Popping a component never fails *)

Lemma om_set_sorted {V} (k : Z) (v : V) (m : omap V) :
  StronglySorted key_order m -> StronglySorted key_order (om_set k v m).
Proof.
  induction 1 as [| [k' v'] m Hs IH Hall]; cbn.
  - repeat constructor.
  - destruct (k <? k') eqn:E1; [| destruct (k =? k') eqn:E2].
    + apply Z.ltb_lt in E1. constructor; [now constructor |].
      constructor; [exact E1 |].
      eapply Forall_impl; [exact Hall |]. unfold key_order. cbn. intros; lia.
    + apply Z.eqb_eq in E2. subst k'. now constructor.
    + constructor; [exact IH |]. apply Forall_forall. intros p Hp.
      apply om_set_elem in Hp as [-> | Hp].
      * unfold key_order. cbn. lia.
      * rewrite Forall_forall in Hall. now apply Hall.
Qed.

Lemma key_order_NoDup {V} (m : omap V) :
  StronglySorted key_order m -> NoDup (map fst m).
Proof.
  induction 1 as [| [k v] m Hs IH Hall]; cbn; constructor; [| assumption].
  intros Hin. apply list_elem_of_fmap in Hin as ([k' v'] & Heq & Hin).
  cbn in Heq. subst k'. rewrite Forall_forall in Hall.
  specialize (Hall _ Hin). unfold key_order in Hall. cbn in Hall. lia.
Qed.

Lemma om_find_sorted {V} (k : Z) (v : V) (m : omap V) :
  StronglySorted key_order m -> (k, v) ∈ m -> om_find k m = Some v.
Proof.
  induction 1 as [| [k' v'] m Hs IH Hall]; intros Hin; [inversion Hin |].
  cbn. apply elem_of_cons in Hin as [[= -> ->] | Hin].
  - now rewrite Z.eqb_refl.
  - rewrite Forall_forall in Hall. specialize (Hall _ Hin) as Hlt.
    unfold key_order in Hlt. cbn in Hlt.
    destruct (k' =? k) eqn:E; [lia | auto].
Qed.

Lemma scan_children_safe (nodes : list Node) (cid owner_row : Z) (l : list nat) :
  forall dcr,
  (forall child, child ∈ l -> child_ready nodes cid child) ->
  direct_children_ok cid dcr ->
  exists dcr', scan_children nodes cid owner_row l dcr = Ok dcr'
    /\ direct_children_ok cid dcr'.
Proof.
  induction l as [| child l IH]; intros dcr Hl Hdcr; cbn [scan_children].
  - eauto.
  - destruct (Hl child ltac:(left)) as (c & Hc & Hstate).
    unfold get_node. rewrite Hc. cbn [bind].
    assert (Hl' : forall child', child' ∈ l -> child_ready nodes cid child')
      by (intros; apply Hl; now right).
    destruct (on_stack c) eqn:Eon; [apply IH; assumption |].
    destruct Hstate as [? | Hcomp]; [discriminate |].
    assert (Echeck : check (negb (component c =? -1)) CheckChildAssigned = Ok tt).
    { destruct (component c =? -1) eqn:E; [lia | reflexivity]. }
    rewrite Echeck. cbn [bind].
    destruct (component c =? cid) eqn:Ecid; cbn [negb]; [apply IH; assumption |].
    apply IH; [assumption |]. destruct Hdcr as [Hsorted Hentries].
    split; [now apply om_set_sorted |].
    intros b dc Hin. apply om_set_elem in Hin as [[= -> ->] | Hin]; [| auto].
    split; [lia |]. cbn.
    destruct (om_find (component c) dcr) as [dc0 |] eqn:E; cbn; [| lia].
    apply om_find_elem, Hentries in E. lia.
Qed.

Lemma pop_component_safe (cid : Z) (node : nat) (rest : list nat) (front : list nat) :
  0 <= cid ->
  forall (nodes : list Node) (members0 : list nat) (dcr0 : omap DirectChild),
  NoDup (front ++ [node]) ->
  pop_ready nodes cid (front ++ [node]) ->
  direct_children_ok cid dcr0 ->
  exists nodes' dcr,
    pop_component (front ++ node :: rest) nodes cid node members0 dcr0
    = Ok (rest, nodes', members0 ++ front ++ [node], dcr)
    /\ direct_children_ok cid dcr.
Proof.
  intros Hcid.
  induction front as [| a front IH]; intros nodes members0 dcr0 Hnd Hready Hdcr;
    cbn [app pop_component].
  - destruct (Hready node ltac:(left)) as (e & He & Hcomp & Hch).
    unfold get_node. rewrite He. cbn [bind].
    destruct (scan_children_safe nodes cid (row e) (children e) dcr0 Hch Hdcr)
      as (dcr1 & -> & Hdcr1). cbn [bind].
    rewrite Hcomp. cbn [Z.eqb check bind]. rewrite Nat.eqb_refl. eauto.
  - cbn in Hnd. apply NoDup_cons in Hnd as [Ha Hnd].
    destruct (Hready a ltac:(left)) as (e & He & Hcomp & Hch).
    unfold get_node. rewrite He. cbn [bind].
    destruct (scan_children_safe nodes cid (row e) (children e) dcr0 Hch Hdcr)
      as (dcr1 & -> & Hdcr1). cbn [bind].
    rewrite Hcomp. cbn [Z.eqb check bind].
    assert (Hne : a <> node).
    { intros ->. apply Ha. apply elem_of_app. right. left. }
    apply Nat.eqb_neq in Hne. rewrite Hne.
    pose proof (lookup_lt_Some _ _ _ He) as Hlt.
    edestruct (IH (<[a := set_component cid (set_on_stack false e)]> nodes)
                 (members0 ++ [a]) dcr1 Hnd) as (nodes' & dcr & -> & Hdcr');
      [| exact Hdcr1 |].
    + intros m Hm. destruct (Hready m ltac:(now right)) as (em & Hem & Hcm & Hchm).
      exists em. split; [| split; [assumption |]].
      * rewrite list_lookup_insert_ne; [assumption |]. intros ->. contradiction.
      * intros child Hchild. destruct (Hchm _ Hchild) as (c & Hc & Hstate).
        unfold child_ready. destruct (decide (a = child)) as [<- | Hneq].
        -- rewrite list_lookup_insert_eq by assumption.
           eexists. split; [reflexivity |]. right. cbn. lia.
        -- rewrite list_lookup_insert_ne by assumption. eauto.
    + exists nodes', dcr. split; [| assumption].
      now rewrite <- !app_assoc.
Qed.

(** ** The edges that are still to be resolved *)

Lemma zsum_minus (f g : nat -> Z) (l : list nat) :
  zsum (fun i => f i - g i) l = zsum f l - zsum g l.
Proof. induction l as [| a l IH]; cbn; lia. Qed.

Lemma edges_into_zsum (nodes : list Node) (b : Z) (M : list nat) :
  edges_into nodes b M = zsum (children_in nodes b) M.
Proof. induction M as [| m M IH]; cbn; [reflexivity | now rewrite IH]. Qed.

Lemma pending_nonneg (nodes : list Node) (b : Z) : 0 <= pending nodes b.
Proof.
  apply zsum_nonneg. intros i _.
  assert (0 <= children_in nodes b i) by apply count_nonneg.
  destruct (unassigned nodes i); cbn; lia.
Qed.

Section Popped.

Variables (cid : Z) (M : list nat) (nodes nodes' : list Node).
Hypothesis Hpop : popped cid M nodes nodes'.

Lemma popped_children_of (i : nat) : children_of nodes' i = children_of nodes i.
Proof.
  unfold children_of. destruct (decide (i ∈ M)) as [Hi | Hi].
  - destruct (pp_in _ _ _ _ Hpop _ Hi) as (e & -> & _ & ->). reflexivity.
  - now rewrite (pp_out _ _ _ _ Hpop).
Qed.

Lemma popped_parents_of (i : nat) : parents_of nodes' i = parents_of nodes i.
Proof.
  unfold parents_of. destruct (decide (i ∈ M)) as [Hi | Hi].
  - destruct (pp_in _ _ _ _ Hpop _ Hi) as (e & -> & _ & ->). reflexivity.
  - now rewrite (pp_out _ _ _ _ Hpop).
Qed.

Lemma popped_component_in (i : nat) : i ∈ M ->
  component_of nodes' i = cid /\ component_of nodes i = -1.
Proof.
  intros Hi. unfold component_of.
  destruct (pp_in _ _ _ _ Hpop _ Hi) as (e & -> & Hc & ->). auto.
Qed.

Lemma popped_component_out (i : nat) : i ∉ M ->
  component_of nodes' i = component_of nodes i.
Proof. intros Hi. unfold component_of. now rewrite (pp_out _ _ _ _ Hpop). Qed.

Lemma popped_members_lt (m : nat) : m ∈ M -> (m < length nodes)%nat.
Proof.
  intros Hm. destruct (pp_in _ _ _ _ Hpop _ Hm) as (e & He & _).
  eapply lookup_lt_Some; eassumption.
Qed.

Lemma popped_graph_ok : graph_ok nodes -> graph_ok nodes'.
Proof.
  intros [H1 H2 H3 H4 H5]. split.
  - intros i j. rewrite popped_children_of, (pp_length _ _ _ _ Hpop). apply H1.
  - intros i j. rewrite popped_parents_of, (pp_length _ _ _ _ Hpop). apply H2.
  - intros i. rewrite popped_children_of. apply H3.
  - intros j. rewrite popped_parents_of. apply H4.
  - intros i j. rewrite popped_children_of, popped_parents_of. apply H5.
Qed.

(** The edges into an older component that the new component resolves. *)
Lemma pending_old (b : Z) :
  cid <> -1 -> b <> cid -> b <> -1 ->
  pending nodes' b = pending nodes b - edges_into nodes' b M.
Proof.
  intros Hcid Hb Hb'. unfold pending. rewrite (pp_length _ _ _ _ Hpop).
  assert (Hci : forall i, children_in nodes' b i = children_in nodes b i).
  { intros i. unfold children_in. rewrite popped_children_of.
    apply count_ext. intros child _.
    destruct (decide (child ∈ M)) as [Hc | Hc].
    - destruct (popped_component_in _ Hc) as [-> ->].
      destruct (Z.eqb_spec cid b), (Z.eqb_spec (-1) b); congruence.
    - now rewrite popped_component_out. }
  rewrite edges_into_zsum.
  rewrite (zsum_sublist _ (length nodes) M);
    [| apply (pp_nodup _ _ _ _ Hpop) | apply popped_members_lt].
  rewrite <- zsum_minus. apply zsum_ext. intros i _.
  rewrite Hci. unfold unassigned.
  destruct (decide (i ∈ M)) as [Hi | Hi].
  - rewrite bool_decide_eq_true_2 by assumption.
    destruct (popped_component_in _ Hi) as [-> ->].
    destruct (Z.eqb_spec cid (-1)); [contradiction | cbn; lia].
  - rewrite bool_decide_eq_false_2 by assumption.
    rewrite popped_component_out by assumption. cbn. lia.
Qed.

(** The incoming edges of the new component, as they are counted when it
    is finalized. *)
Lemma pending_new :
  graph_ok nodes -> cid <> -1 ->
  (forall i, component_of nodes i <> cid) ->
  (forall i j, component_of nodes i <> -1 -> j ∈ children_of nodes i ->
     component_of nodes j <> -1) ->
  pending nodes' cid
  = zsum (fun m => count (fun p => negb (component_of nodes' p =? cid))
                        (parents_of nodes' m)) M.
Proof.
  intros Hgraph Hcid Hfresh Hassigned.
  pose proof (popped_graph_ok Hgraph) as Hgraph'.
  unfold pending.
  rewrite (zsum_ext _ (fun i => ind (unassigned nodes' i)
                               * count (fun j => bool_decide (j ∈ M))
                                       (children_of nodes' i))).
  2:{ intros i _. f_equal. unfold children_in. apply count_ext. intros child _.
      destruct (decide (child ∈ M)) as [Hc | Hc].
      - rewrite bool_decide_eq_true_2 by assumption.
        destruct (popped_component_in _ Hc) as [-> _]. apply Z.eqb_refl.
      - rewrite bool_decide_eq_false_2 by assumption.
        rewrite popped_component_out by assumption.
        apply Z.eqb_neq, Hfresh. }
  rewrite <- (double_counting nodes' (unassigned nodes')
                (fun j => bool_decide (j ∈ M)) Hgraph').
  rewrite (pp_length _ _ _ _ Hpop).
  rewrite <- (zsum_sublist _ (length nodes) M);
    [| apply (pp_nodup _ _ _ _ Hpop) | apply popped_members_lt].
  apply zsum_ext. intros m Hm. apply count_ext. intros p Hp.
  unfold unassigned. destruct (decide (p ∈ M)) as [Hin | Hout].
  - destruct (popped_component_in _ Hin) as [-> _].
    rewrite Z.eqb_refl. cbn. apply Z.eqb_neq. exact Hcid.
  - rewrite popped_component_out by assumption.
    destruct (Z.eqb_spec (component_of nodes p) cid) as [Heq | _];
      [exfalso; eapply Hfresh; eassumption |].
    cbn. apply Z.eqb_eq.
    destruct (decide (component_of nodes p = -1)) as [? | Hne]; [assumption |].
    exfalso. rewrite popped_parents_of in Hp.
    apply (go_symmetric _ Hgraph) in Hp.
    apply (Hassigned _ _ Hne Hp). apply popped_component_in. exact Hm.
Qed.

End Popped.

(** ** Finalizing a component keeps the counters exact *)

Lemma RetainedSize_Ok (cs : list Component) (c : Component) :
  ledger_ok (length cs) (children_components c) ->
  exists z, RetainedSize cs c = Ok z.
Proof.
  unfold RetainedSize. generalize (to_int64 (unique_retained_size c)).
  induction (children_components c) as [| [k f] m IH]; intros z Hok; cbn [foldM].
  - eauto.
  - destruct (Hok k f ltac:(left)) as [Hk _].
    destruct (get_component_Ok cs k Hk) as (ck & Hck & _).
    cbn [fst]. rewrite Hck. cbn [bind]. apply IH.
    intros k' f' Hin. apply Hok. now right.
Qed.

Lemma report_nodes_Ok retained ubn (l : list nat) :
  forall st, (forall m, m ∈ l -> (m < length (nodes_ st))%nat) ->
  exists st', foldM (report_node retained ubn) l st = Ok st'.
Proof.
  induction l as [| m l IH]; intros st Hl; cbn [foldM]; [eauto |].
  destruct (lookup_lt_is_Some_2 _ _ (Hl m ltac:(left))) as [e He].
  unfold report_node at 1. unfold get_node. rewrite He. cbn [bind].
  apply IH. intros m' Hm'. cbn. apply Hl. now right.
Qed.

Lemma om_find_below {V} (cid : Z) (dcr : omap V) :
  (forall b dc, (b, dc) ∈ dcr -> 0 <= b < cid) -> om_find cid dcr = None.
Proof.
  intros H. destruct (om_find cid dcr) as [dc |] eqn:E; [| reflexivity].
  apply om_find_elem, H in E. lia.
Qed.

Lemma edges_into_nonneg (nodes : list Node) (b : Z) (M : list nat) :
  0 <= edges_into nodes b M.
Proof.
  induction M as [| m M IH]; cbn; [lia |].
  assert (0 <= children_in nodes b m) by apply count_nonneg. lia.
Qed.

Lemma FoundSCC_safe (st : Walker) (node : nat) (front rest : list nat) :
  walker_ok st -> counts_ok st ->
  node_stack_ st = front ++ node :: rest ->
  (forall m child, m ∈ front ++ [node] -> child ∈ children_of (nodes_ st) m ->
     index_of (nodes_ st) child <> 0
     /\ (child ∈ node_stack_ st -> child ∈ front ++ [node])) ->
  safe (FoundSCC st node) counts_ok.
Proof.
  intros Hok Hco Hstack Hdone.
  set (cid := Z.of_nat (length (components_ st))).
  assert (Hcid : 0 <= cid) by (unfold cid; lia).
  assert (HinM : forall m, m ∈ front ++ [node] -> m ∈ node_stack_ st).
  { intros m Hm. rewrite Hstack. apply elem_of_app in Hm as [Hm | Hm].
    - apply elem_of_app. now left.
    - apply list_elem_of_singleton in Hm as ->. apply elem_of_app. right. left. }
  assert (Hnd : NoDup (front ++ [node])).
  { pose proof (stack_NoDup _ _ (ok_sorted _ Hok)) as Hnd. rewrite Hstack in Hnd.
    replace (front ++ node :: rest) with ((front ++ [node]) ++ rest) in Hnd
      by now rewrite <- app_assoc.
    now apply NoDup_app in Hnd as [Hnd _]. }
  assert (Hready : pop_ready (nodes_ st) cid (front ++ [node])).
  { intros m Hm.
    destruct (node_ok_on_stack _ _ Hok (HinM m Hm)) as (e & He & _ & _ & Hcomp).
    exists e. split; [exact He |]. split; [exact Hcomp |].
    intros child Hch.
    assert (Hch' : child ∈ children_of (nodes_ st) m)
      by (unfold children_of; now rewrite He).
    pose proof (go_children _ (co_graph _ Hco) _ _ Hch') as Hlt.
    destruct (lookup_lt_is_Some_2 _ _ Hlt) as [c Hc].
    exists c. split; [exact Hc |].
    destruct (Hdone m child Hm Hch') as [Hvis _].
    unfold index_of in Hvis. rewrite Hc in Hvis.
    pose proof (ok_node _ Hok _ _ Hc) as [_ Hn].
    destruct (on_stack c); [now left | right].
    destruct (Z.eqb_spec (node_index c) 0); [contradiction |]. fold cid in Hn. lia. }
  assert (Hdcr0 : direct_children_ok cid []).
  { split; [constructor |]. intros b dc Hin. inversion Hin. }
  destruct (pop_component_safe cid node rest front Hcid (nodes_ st) [] [] Hnd Hready Hdcr0)
    as (nodes' & dcr & Hpopeq & Hdcr).
  cbn [app] in Hpopeq.
  assert (Hpop : popped cid (front ++ [node]) (nodes_ st) nodes').
  { destruct (pop_component_spec cid node _ ltac:(lia) _ _ _ _ _ _ _ Hpopeq)
      as (front' & Hst' & Hmem & _ & Hlen & Hout & Hin).
    cbn [app] in Hmem. apply app_inv_tail in Hmem. subst front'.
    split; assumption. }
  assert (Hcount : forall b, b <> cid -> b <> -1 ->
            edge_count dcr b = edges_into nodes' b (front ++ [node])).
  { intros b Hb Hb'.
    assert (Hun : stack_unassigned cid (nodes_ st)).
    { intros i n Hn Hon. left.
      pose proof (ok_node _ Hok _ _ Hn) as [_ H]. rewrite Hon in H. tauto. }
    destruct (pop_component_count cid b Hb Hb' _ _ _ _ _ _ _ _ _ Hun Hpopeq)
      as (pp & Hpp & Hec & _).
    cbn [app] in Hpp. subst pp. rewrite Hec. unfold edge_count. cbn. lia. }
  assert (Hfresh : forall i, component_of (nodes_ st) i <> cid).
  { intros i. unfold component_of. destruct (nodes_ st !! i) as [n |] eqn:Hn; [| lia].
    pose proof (ok_node _ Hok _ _ Hn) as [_ H]. fold cid in H.
    destruct (on_stack n); [lia |].
    destruct (node_index n =? 0); lia. }
  (* the FoundSCC body *)
  unfold FoundSCC. fold cid.
  destruct (node_ok_on_stack _ _ Hok (HinM node ltac:(apply elem_of_app; right; left)))
    as (n & Hn & _).
  unfold get_node at 1. rewrite Hn. cbn [bind].
  rewrite Hstack, Hpopeq. cbn [bind].
  set (c0 := mkComponent (lowlink n) 0 0 0 []).
  assert (Hget0 : get_component (components_ st ++ [c0]) cid = Ok c0).
  { unfold get_component. destruct (cid <? 0) eqn:E; [lia |].
    unfold cid. rewrite Nat2Z.id.
    rewrite lookup_app_r by lia. now rewrite Nat.sub_diag. }
  rewrite Hget0. cbn [bind].
  pose proof (popped_graph_ok _ _ _ _ Hpop (co_graph _ Hco)) as Hgraph'.
  destruct (account_nodes nodes' cid (front ++ [node]) c0) as (c & -> & Hinc & Horig & Hled).
  { intros m Hm. rewrite (pp_length _ _ _ _ Hpop).
    eapply popped_members_lt; eassumption. }
  { intros m p _ Hp. eapply go_parents; eassumption. }
  cbn [bind].
  unfold upd_component. rewrite Hget0. cbn [bind].
  assert (Hcs1 : <[Z.to_nat cid := c]> (components_ st ++ [c0]) = components_ st ++ [c]).
  { unfold cid. rewrite Nat2Z.id.
    rewrite insert_app_r_alt by lia. now rewrite Nat.sub_diag. }
  rewrite Hcs1. clear Hcs1.
  assert (Hc0 : incoming_edges c0 = 0) by reflexivity.
  assert (Hl0 : children_components c0 = []) by reflexivity.
  assert (Ho0 : orig_incoming_edges c0 = incoming_edges c0) by reflexivity.
  clearbody c0.
  assert (Hlen1 : length (components_ st ++ [c]) = S (length (components_ st)))
    by (rewrite length_app; cbn; lia).
  assert (Hled1 : ledgers_ok (components_ st ++ [c])).
  { intros k ck Hk. apply lookup_app_Some in Hk as [Hk | [_ Hk]].
    - intros b f Hbf. destruct (co_ledgers _ Hco _ _ Hk b f Hbf) as [Hb Hf].
      split; [rewrite Hlen1; lia | exact Hf].
    - apply list_lookup_singleton_Some in Hk as [_ <-].
      rewrite Hled, Hl0. intros b f Hbf. inversion Hbf. }
  apply safe_bind.
  eapply safe_mono; [| apply (resolve_children_safe cid dcr (components_ st ++ [c]) [] [])].
  2: { apply key_order_NoDup, Hdcr. }
  2: { exact Hled1. }
  2: { rewrite Hlen1. unfold cid. lia. }
  2: { intros b dc Hin. destruct Hdcr as [Hsorted Hkeys].
       destruct (Hkeys b dc Hin) as [Hb He].
       split; [lia |]. split; [lia |].
       destruct (lookup_lt_is_Some_2 (components_ st) (Z.to_nat b) ltac:(unfold cid in Hb; lia))
         as [cb Hcb].
       exists cb. split; [apply lookup_app_l_Some; exact Hcb |].
       destruct (co_counters _ Hco _ _ Hcb) as [Hpend Hle].
       rewrite Z2Nat.id in Hpend by lia.
       assert (Hedge : edges_from_current_component dc
                       = edges_into nodes' b (front ++ [node])).
       { rewrite <- Hcount by lia. unfold edge_count.
         now rewrite (om_find_sorted _ _ _ Hsorted Hin). }
       pose proof (pending_old _ _ _ _ Hpop b ltac:(lia) ltac:(lia) ltac:(lia)) as Hold.
       pose proof (pending_nonneg nodes' b). lia. }
  intros [[cs' c2n] ubn] (Hled' & Hlen' & Hstep). cbn [fst] in Hled', Hlen', Hstep.
  destruct (get_component_Ok cs' cid ltac:(rewrite Hlen', Hlen1; unfold cid; lia))
    as (c' & -> & Hc'). cbn [bind].
  destruct (RetainedSize_Ok cs' c' (Hled' _ _ Hc')) as [z ->]. cbn [bind].
  match goal with |- safe (foldM ?f ?l ?s) _ =>
    destruct (report_nodes_Ok z ubn l s) as [st' Hrep] end.
  { intros m Hm. cbn. rewrite (pp_length _ _ _ _ Hpop).
    eapply popped_members_lt; eassumption. }
  rewrite Hrep. cbn [safe].
  apply report_nodes_frame in Hrep as (Hnodes & _ & Hcomps & _). cbn in Hnodes, Hcomps.
  assert (Hassigned' : forall i j, component_of nodes' i <> -1 ->
            j ∈ children_of nodes' i -> component_of nodes' j <> -1).
  { intros i j Hi Hj. rewrite (popped_children_of _ _ _ _ Hpop) in Hj.
    destruct (decide (j ∈ front ++ [node])) as [HjM | HjM].
    { destruct (popped_component_in _ _ _ _ Hpop _ HjM) as [-> _]. lia. }
    rewrite (popped_component_out _ _ _ _ Hpop _ HjM).
    destruct (decide (i ∈ front ++ [node])) as [HiM | HiM].
    - destruct (Hdone i j HiM Hj) as [Hvis Hst].
      unfold index_of in Hvis. unfold component_of.
      destruct (nodes_ st !! j) as [nj |] eqn:Hnj; [| contradiction].
      pose proof (ok_node _ Hok _ _ Hnj) as [_ H].
      destruct (on_stack nj); [destruct H as [H _]; tauto |].
      destruct (Z.eqb_spec (node_index nj) 0); [contradiction | lia].
    - rewrite (popped_component_out _ _ _ _ Hpop _ HiM) in Hi.
      eapply (co_assigned _ Hco); eassumption. }
  split; rewrite ?Hnodes, ?Hcomps.
  - exact Hgraph'.
  - exact Hassigned'.
  - exact Hled'.
  - intros k ck Hk.
    assert (Hklt : (k < S (length (components_ st)))%nat).
    { rewrite <- Hlen1, <- Hlen'. eapply lookup_lt_Some; eassumption. }
    destruct (decide (k = length (components_ st))) as [-> | Hne].
    + destruct (Hstep (length (components_ st)) c) as (c2 & Hc2 & Ho2 & Hi2).
      { rewrite lookup_app_r by lia. now rewrite Nat.sub_diag. }
      rewrite Hk in Hc2. injection Hc2 as <-.
      fold cid in Hi2. unfold edge_count in Hi2.
      rewrite (om_find_below cid dcr) in Hi2
        by (intros b dc Hin; apply (proj2 Hdcr b dc Hin)).
      fold cid.
      rewrite (pending_new _ _ _ _ Hpop (co_graph _ Hco) ltac:(lia) Hfresh (co_assigned _ Hco)).
      specialize (Horig (or_intror Ho0)).
      lia.
    + destruct (lookup_lt_is_Some_2 (components_ st) k ltac:(lia)) as [cb Hcb].
      destruct (Hstep k cb (lookup_app_l_Some _ _ _ _ Hcb)) as (c2 & Hc2 & Ho2 & Hi2).
      rewrite Hk in Hc2. injection Hc2 as <-.
      destruct (co_counters _ Hco _ _ Hcb) as [Hpend Hle].
      assert (Hkz : Z.of_nat k <> cid) by (unfold cid; lia).
      rewrite (Hcount _ Hkz ltac:(lia)) in Hi2.
      rewrite (pending_old _ _ _ _ Hpop _ ltac:(lia) Hkz ltac:(lia)).
      pose proof (edges_into_nonneg nodes' (Z.of_nat k) (front ++ [node])). lia.
Qed.

(** ** The search visits every edge before it closes a component *)

Lemma safe_foldM_prefix {A S} (f : S -> A -> result S)
    (P : list A -> S -> Prop) (l : list A) :
  (forall pre a post s, l = pre ++ a :: post -> P pre s ->
     safe (f s a) (P (pre ++ [a]))) ->
  forall s, P [] s -> safe (foldM f l s) (P l).
Proof.
  intros Hf.
  assert (H : forall post pre s, l = pre ++ post -> P pre s ->
            safe (foldM f post s) (P l)).
  { induction post as [| a post IH]; intros pre s Hl Hs; cbn [foldM].
    - rewrite app_nil_r in Hl. subst pre. exact Hs.
    - apply safe_bind. eapply safe_mono; [| eapply Hf; eassumption].
      intros s' Hs'. apply (IH (pre ++ [a])); [| exact Hs'].
      now rewrite <- app_assoc. }
  intros s Hs. now apply (H l []).
Qed.

Lemma pending_ext (nodes nodes' : list Node) (b : Z) :
  length nodes' = length nodes ->
  (forall i, component_of nodes' i = component_of nodes i) ->
  (forall i, children_of nodes' i = children_of nodes i) ->
  pending nodes' b = pending nodes b.
Proof.
  intros Hlen Hc Hch. unfold pending. rewrite Hlen.
  apply zsum_ext. intros i _. unfold unassigned, children_in.
  rewrite Hc, Hch. f_equal. apply count_ext. intros child _. now rewrite Hc.
Qed.

Lemma counts_ok_ext (st st' : Walker) :
  length (nodes_ st') = length (nodes_ st) ->
  (forall i, component_of (nodes_ st') i = component_of (nodes_ st) i) ->
  (forall i, children_of (nodes_ st') i = children_of (nodes_ st) i) ->
  (forall i, parents_of (nodes_ st') i = parents_of (nodes_ st) i) ->
  components_ st' = components_ st ->
  counts_ok st -> counts_ok st'.
Proof.
  intros Hlen Hc Hch Hp Hcs [[G1 G2 G3 G4 G5] Ha Hl Hk]. split.
  - split.
    + intros i j. rewrite Hch, Hlen. apply G1.
    + intros i j. rewrite Hp, Hlen. apply G2.
    + intros i. rewrite Hch. apply G3.
    + intros j. rewrite Hp. apply G4.
    + intros i j. rewrite Hch, Hp. apply G5.
  - intros i j. rewrite !Hc, Hch. apply Ha.
  - now rewrite Hcs.
  - intros k c. rewrite Hcs. intros Hkc.
    rewrite (pending_ext _ _ _ Hlen Hc Hch). now apply Hk.
Qed.

Lemma insert_same_graph (nodes : list Node) (i : nat) (n n' : Node) :
  nodes !! i = Some n ->
  component n' = component n -> children n' = children n ->
  parents n' = parents n ->
  (forall j, component_of (<[i := n']> nodes) j = component_of nodes j)
  /\ (forall j, children_of (<[i := n']> nodes) j = children_of nodes j)
  /\ (forall j, parents_of (<[i := n']> nodes) j = parents_of nodes j).
Proof.
  intros Hn Hc Hch Hp.
  pose proof (lookup_lt_Some _ _ _ Hn) as Hlt.
  unfold component_of, children_of, parents_of.
  refine (conj _ (conj _ _)); intros j; (destruct (decide (i = j)) as [<- | Hne];
    [rewrite list_lookup_insert_eq by assumption; now rewrite Hn
    | now rewrite list_lookup_insert_ne]).
Qed.

Lemma counts_ok_insert (st : Walker) (i : nat) (n n' : Node) (st' : Walker) :
  nodes_ st !! i = Some n ->
  component n' = component n -> children n' = children n ->
  parents n' = parents n ->
  nodes_ st' = <[i := n']> (nodes_ st) -> components_ st' = components_ st ->
  counts_ok st -> counts_ok st'.
Proof.
  intros Hn Hc Hch Hp Hnodes Hcs.
  destruct (insert_same_graph _ _ _ _ Hn Hc Hch Hp) as (H1 & H2 & H3).
  apply counts_ok_ext; rewrite ?Hnodes; auto using length_insert.
Qed.

Lemma unvisited_step (l l' : list Node) :
  Forall2 node_step l l' -> unvisited l' <= unvisited l.
Proof.
  unfold unvisited. induction 1 as [| n n' l l' [_ Hv] _ IH]; [lia |].
  rewrite !count_cons.
  destruct (Z.eqb_spec (node_index n) 0) as [E | E].
  - destruct (node_index n' =? 0); lia.
  - rewrite (Hv E). destruct (Z.eqb_spec (node_index n) 0); [contradiction | lia].
Qed.

Lemma unvisited_step_lt (l l' : list Node) :
  Forall2 node_step l l' ->
  forall i, index_of l i = 0 -> index_of l' i <> 0 ->
  unvisited l' < unvisited l.
Proof.
  induction 1 as [| n n' l l' Hstep Hrest IH]; intros i Hi Hi'.
  - now destruct i.
  - pose proof (unvisited_step _ _ Hrest) as Hle.
    unfold unvisited in *. rewrite !count_cons.
    destruct i as [| i].
    + unfold index_of in Hi, Hi'. cbn in Hi, Hi'. rewrite Hi.
      destruct (Z.eqb_spec (node_index n') 0); [contradiction | cbn; lia].
    + specialize (IH i Hi Hi'). destruct Hstep as [_ Hv].
      destruct (Z.eqb_spec (node_index n) 0) as [E | E].
      * destruct (node_index n' =? 0); lia.
      * rewrite (Hv E). destruct (Z.eqb_spec (node_index n) 0); [contradiction | lia].
Qed.

Lemma unvisited_le_length (l : list Node) : unvisited l <= Z.of_nat (length l).
Proof.
  unfold unvisited. induction l as [| n l IH]; [unfold count; cbn; lia |].
  rewrite count_cons. cbn [length]. destruct (node_index n =? 0); lia.
Qed.

Lemma nodes_step_lookup (l l' : list Node) (i : nat) :
  Forall2 node_step l l' -> index_of l i <> 0 -> l' !! i = l !! i.
Proof.
  intros H Hi. unfold index_of in Hi.
  destruct (l !! i) as [n |] eqn:E; [| contradiction].
  destruct (Forall2_lookup_l _ _ _ _ _ H E) as (n' & -> & _ & Hv).
  now rewrite (Hv Hi).
Qed.

Lemma nodes_step_children (l l' : list Node) (i : nat) :
  Forall2 node_step l l' -> children_of l' i = children_of l i.
Proof.
  intros H. unfold children_of.
  destruct (l !! i) as [n |] eqn:E.
  - destruct (Forall2_lookup_l _ _ _ _ _ H E) as (n' & -> & [Hs _] & _). exact Hs.
  - apply lookup_ge_None in E. rewrite (Forall2_length _ _ _ H) in E.
    apply lookup_ge_None in E. now rewrite E.
Qed.

Section SearchCall.

(** A recursive call from [st] to [st'] that pushed the nodes [new]. *)
Variables (st st' : Walker) (new : list nat).
Hypothesis Hnodes : Forall2 node_step (nodes_ st) (nodes_ st').
Hypothesis Hstack : node_stack_ st' = new ++ node_stack_ st.
Hypothesis Hnew : forall m, m ∈ new -> index_of (nodes_ st) m = 0.

Lemma call_index (i : nat) :
  index_of (nodes_ st) i <> 0 -> index_of (nodes_ st') i = index_of (nodes_ st) i.
Proof. intros Hi. unfold index_of. now rewrite (nodes_step_lookup _ _ _ Hnodes Hi). Qed.

Lemma call_lowlink (i : nat) :
  index_of (nodes_ st) i <> 0 -> lowlink_of (nodes_ st') i = lowlink_of (nodes_ st) i.
Proof. intros Hi. unfold lowlink_of. now rewrite (nodes_step_lookup _ _ _ Hnodes Hi). Qed.

Lemma call_stack (i : nat) :
  index_of (nodes_ st) i <> 0 -> i ∈ node_stack_ st' -> i ∈ node_stack_ st.
Proof.
  intros Hi Hin. rewrite Hstack in Hin.
  apply elem_of_app in Hin as [Hin | Hin]; [| exact Hin].
  now apply Hnew in Hin.
Qed.

Lemma node_done_call (m : nat) :
  index_of (nodes_ st) m <> 0 -> node_done st m -> node_done st' m.
Proof.
  intros Hm Hdone child Hchild.
  rewrite (nodes_step_children _ _ _ Hnodes) in Hchild.
  destruct (Hdone child Hchild) as [Hvis Hlow].
  rewrite (call_index _ Hvis), (call_lowlink _ Hm).
  split; [exact Hvis |]. intros Hin. apply Hlow. now apply call_stack.
Qed.

Lemma seg_inv_call (L : Z) (seg : list nat) :
  (forall m, m ∈ seg -> index_of (nodes_ st) m <> 0) ->
  seg_inv st L seg -> seg_inv st' L seg.
Proof.
  intros Hvis Hseg m Hm. destruct (Hseg m Hm) as [Hdone HL].
  split; [apply node_done_call; auto |]. rewrite call_lowlink; auto.
Qed.

Lemma proc_inv_call (L : Z) (processed : list nat) :
  proc_inv st L processed -> proc_inv st' L processed.
Proof.
  intros Hproc child Hchild. destruct (Hproc child Hchild) as [Hvis Hlow].
  rewrite (call_index _ Hvis). split; [exact Hvis |].
  intros Hin. apply Hlow. now apply call_stack.
Qed.

End SearchCall.

Section Lower.

(** The low-link of [node] is lowered to [l]. *)
Variables (st : Walker) (node : nat) (n : Node) (l : Z).
Hypothesis Hn : nodes_ st !! node = Some n.

Let st' := set_nodes (<[node := set_lowlink l n]> (nodes_ st)) st.

Lemma lower_index (i : nat) : index_of (nodes_ st') i = index_of (nodes_ st) i.
Proof. apply (index_of_insert_same _ _ n); [exact Hn | reflexivity]. Qed.

Lemma lower_children (i : nat) : children_of (nodes_ st') i = children_of (nodes_ st) i.
Proof. now apply (insert_same_graph _ _ n). Qed.

Lemma lower_lowlink_ne (i : nat) :
  i <> node -> lowlink_of (nodes_ st') i = lowlink_of (nodes_ st) i.
Proof. intros Hi. unfold lowlink_of, st'. cbn. now rewrite list_lookup_insert_ne. Qed.

Lemma lower_lowlink_eq : lowlink_of (nodes_ st') node = l.
Proof.
  unfold lowlink_of, st'. cbn.
  now rewrite list_lookup_insert_eq by (eapply lookup_lt_Some; eassumption).
Qed.

Lemma seg_inv_lower (L L' : Z) (seg : list nat) :
  node ∉ seg -> L' <= L -> seg_inv st L seg -> seg_inv st' L' seg.
Proof.
  intros Hnode HL Hseg m Hm. destruct (Hseg m Hm) as [Hdone HLm].
  assert (Hne : m <> node) by (intros ->; contradiction).
  rewrite (lower_lowlink_ne _ Hne). split; [| lia].
  intros child Hchild. rewrite lower_children in Hchild.
  rewrite lower_index, (lower_lowlink_ne _ Hne). now apply Hdone.
Qed.

Lemma proc_inv_lower (L L' : Z) (processed : list nat) :
  L' <= L -> proc_inv st L processed -> proc_inv st' L' processed.
Proof.
  intros HL Hproc child Hchild. destruct (Hproc child Hchild) as [Hvis Hlow].
  rewrite lower_index. split; [exact Hvis |].
  intros Hin. specialize (Hlow Hin). lia.
Qed.

Lemma counts_ok_lower : counts_ok st -> counts_ok st'.
Proof. now apply (counts_ok_insert st node n (set_lowlink l n)). Qed.

End Lower.

Lemma seg_inv_mono (st : Walker) (L L' : Z) (seg : list nat) :
  L' <= L -> seg_inv st L seg -> seg_inv st L' seg.
Proof. intros HL H m Hm. destruct (H m Hm). split; [assumption | lia]. Qed.

Lemma proc_inv_mono (st : Walker) (L L' : Z) (processed : list nat) :
  L' <= L -> proc_inv st L processed -> proc_inv st L' processed.
Proof.
  intros HL H child Hc. destruct (H child Hc) as [Hv Hl].
  split; [assumption |]. intros Hin. specialize (Hl Hin). lia.
Qed.

Lemma seg_inv_app (st : Walker) (L : Z) (seg1 seg2 : list nat) :
  seg_inv st L seg1 -> seg_inv st L seg2 -> seg_inv st L (seg1 ++ seg2).
Proof. intros H1 H2 m Hm. apply elem_of_app in Hm as [Hm | Hm]; auto. Qed.

Lemma proc_inv_snoc (st : Walker) (L : Z) (processed : list nat) (child : nat) :
  proc_inv st L processed ->
  index_of (nodes_ st) child <> 0 ->
  (child ∈ node_stack_ st -> L <= index_of (nodes_ st) child) ->
  proc_inv st L (processed ++ [child]).
Proof.
  intros H Hv Hl c Hc. apply elem_of_app in Hc as [Hc | Hc]; [auto |].
  apply list_elem_of_singleton in Hc as ->. auto.
Qed.

Lemma lowlink_of_lookup (nodes : list Node) (i : nat) (n : Node) :
  nodes !! i = Some n -> lowlink_of nodes i = lowlink n.
Proof. unfold lowlink_of. now intros ->. Qed.

(** The state in which the loop continues when the low-link of [node]
    is lowered to [l]. *)
Lemma loop_inv2_lower (st0 : Walker) (node : nat) (processed : list nat)
    (st : Walker) (n : Node) (l : Z) (seg : list nat) :
  nodes_ st !! node = Some n -> l <= lowlink n ->
  counts_ok st ->
  node_stack_ st = seg ++ node :: node_stack_ st0 ->
  node ∉ seg ->
  seg_inv st l seg -> proc_inv st l processed ->
  loop_inv st0 node (set_nodes (<[node := set_lowlink l n]> (nodes_ st)) st) ->
  loop_inv2 st0 node processed
    (set_nodes (<[node := set_lowlink l n]> (nodes_ st)) st).
Proof.
  intros Hn Hl Hco Hstack Hnode Hseg Hproc Hinv.
  pose proof (lower_lowlink_eq st node n l Hn) as Hlow. cbv zeta in Hlow.
  split; [exact Hinv | now apply counts_ok_lower | |].
  - exists seg. split; [exact Hstack |]. rewrite Hlow.
    apply (seg_inv_lower st node n l Hn l l seg Hnode ltac:(lia) Hseg).
  - rewrite Hlow. apply (proc_inv_lower st node n l Hn l l processed ltac:(lia) Hproc).
Qed.

Lemma visit_child_safe (find : Walker -> nat -> result Walker)
    (st0 : Walker) (node : nat) (pre : list nat) (st : Walker) (child : nat) :
  search_correct find ->
  (forall s c, walker_ok s -> counts_ok s ->
     (exists n, nodes_ s !! c = Some n /\ node_index n = 0) ->
     unvisited (nodes_ s) < unvisited (nodes_ st0) ->
     safe (find s c) (search_post2 s c)) ->
  child ∈ children_of (nodes_ st) node ->
  loop_inv2 st0 node pre st ->
  safe (visit_child find node st child) (loop_inv2 st0 node (pre ++ [child])).
Proof.
  intros Hfind Hfind2 Hchild [Hinv Hco (seg & Hstack & Hseg) Hproc].
  pose proof (li_ok _ _ _ Hinv) as Hok.
  destruct (li_node _ _ _ Hinv) as (n & Hn & Hidx & Hon).
  assert (Hnvis : index_of (nodes_ st) node <> 0).
  { rewrite (index_of_lookup _ _ _ Hn).
    pose proof (ok_node _ Hok _ _ Hn) as [_ H]. rewrite Hon in H. tauto. }
  assert (Hnseg : node ∉ seg).
  { pose proof (stack_NoDup _ _ (ok_sorted _ Hok)) as Hnd. rewrite Hstack in Hnd.
    apply NoDup_app in Hnd as (_ & Hnd & _). intros Hin. apply (Hnd _ Hin). left. }
  assert (Hsegvis : forall m, m ∈ seg -> index_of (nodes_ st) m <> 0).
  { intros m Hm.
    destruct (node_ok_on_stack st m Hok) as (e & He & _ & Hv & _).
    - rewrite Hstack. apply elem_of_app. now left.
    - now rewrite (index_of_lookup _ _ _ He). }
  pose proof (go_children _ (co_graph _ Hco) _ _ Hchild) as Hlt.
  destruct (lookup_lt_is_Some_2 _ _ Hlt) as [c Hc].
  assert (Hwhole : forall st', visit_child find node st child = Ok st' ->
            loop_inv st0 node st')
    by (intros st' Heq; eapply visit_child_inv; eassumption).
  unfold visit_child in *. unfold get_node at 1. unfold get_node at 1 in Hwhole.
  rewrite Hc in *. cbn [bind] in *.
  pose proof (lowlink_of_lookup _ _ _ Hn) as HL.
  destruct (Z.eqb_spec (node_index c) 0) as [Ec | Ec].
  - (* the child is discovered now *)
    assert (Hless : unvisited (nodes_ st) < unvisited (nodes_ st0)).
    { eapply unvisited_step_lt;
        [apply (li_nodes _ _ _ Hinv) | apply (li_fresh _ _ _ Hinv) | exact Hnvis]. }
    pose proof (Hfind2 st child Hok Hco (ex_intro _ c (conj Hc Ec)) Hless) as Hpost2.
    destruct (find st child) as [sta | e] eqn:Hcall; [| exact Hpost2].
    cbn [bind safe] in *.
    destruct Hpost2 as [Hpost Hcoa (new & Hstacka & Hsega)].
    destruct Hpost as [Hoka Hnodes (new0 & Hstack0 & Hnew & _) (c' & Hc' & Hidx' & _) _ _ _].
    assert (new0 = new) as ->
      by (rewrite Hstacka in Hstack0; now apply app_inv_tail in Hstack0).
    pose proof (nodes_step_lookup _ _ _ Hnodes Hnvis) as Hna. rewrite Hn in Hna.
    unfold get_node in *. rewrite Hc', Hna in *. cbn [bind] in *.
    assert (Hsegs : seg_inv sta (lowlink n) seg).
    { apply (seg_inv_call st sta new Hnodes Hstacka Hnew _ _ Hsegvis).
      now rewrite <- HL. }
    assert (Hprocs : proc_inv sta (lowlink n) pre).
    { apply (proc_inv_call st sta new Hnodes Hstacka Hnew). now rewrite <- HL. }
    rewrite (lowlink_of_lookup _ _ _ Hc') in Hsega.
    assert (Hnnew : node ∉ new) by (intros Hin; now apply Hnew in Hin).
    assert (Hcvis : index_of (nodes_ sta) child <> 0).
    { rewrite (index_of_lookup _ _ _ Hc'), Hidx'. pose proof (ok_next _ Hok). lia. }
    assert (Hclow : child ∈ node_stack_ sta ->
              lowlink c' <= index_of (nodes_ sta) child).
    { intros Hin. destruct (ok_stack _ Hoka _ Hin) as (c2 & Hc2 & Hon2).
      assert (c2 = c') as -> by congruence.
      pose proof (ok_node _ Hoka _ _ Hc') as [_ H]. rewrite Hon2 in H.
      rewrite (index_of_lookup _ _ _ Hc'). tauto. }
    assert (Hstack' : node_stack_ sta = (new ++ seg) ++ node :: node_stack_ st0)
      by (now rewrite Hstacka, Hstack, <- app_assoc).
    assert (Hnot : node ∉ new ++ seg).
    { intros Hin. apply elem_of_app in Hin as [? | ?]; contradiction. }
    destruct (Z.ltb_spec (lowlink c') (lowlink n)) as [Elt | Ege]; cbn [safe].
    + apply (loop_inv2_lower st0 node (pre ++ [child]) sta n _ (new ++ seg));
        auto; try lia.
      * apply seg_inv_app; [exact Hsega |].
        eapply seg_inv_mono; [| exact Hsegs]. lia.
      * apply proc_inv_snoc; [| exact Hcvis | exact Hclow].
        eapply proc_inv_mono; [| exact Hprocs]. lia.
    + rewrite <- (lowlink_of_lookup _ _ _ Hna) in *.
      split; [auto | exact Hcoa | |].
      * exists (new ++ seg). split; [exact Hstack' |].
        apply seg_inv_app; [| exact Hsegs].
        eapply seg_inv_mono; [| exact Hsega]. lia.
      * apply proc_inv_snoc; [exact Hprocs | exact Hcvis |].
        intros Hin. specialize (Hclow Hin). lia.
  - destruct (on_stack c) eqn:Hcon.
    + (* the child is on the stack *)
      unfold get_node in *. rewrite Hn in *. cbn [bind] in *.
      assert (Hcv : index_of (nodes_ st) child = node_index c)
        by apply (index_of_lookup _ _ _ Hc).
      destruct (Z.ltb_spec (node_index c) (lowlink n)) as [Elt | Ege]; cbn [safe].
      * apply (loop_inv2_lower st0 node (pre ++ [child]) st n _ seg); auto; try lia.
        -- eapply seg_inv_mono; [| exact Hseg]. lia.
        -- apply proc_inv_snoc; [| lia | lia].
           eapply proc_inv_mono; [| exact Hproc]. lia.
      * split; [auto | exact Hco | eauto |].
        apply proc_inv_snoc; [exact Hproc | lia | lia].
    + (* the child is in a component already *)
      cbn [safe]. split; [auto | exact Hco | eauto |].
      apply proc_inv_snoc; [exact Hproc | |].
      * now rewrite (index_of_lookup _ _ _ Hc).
      * intros Hin. destruct (ok_stack _ Hok _ Hin) as (c' & Hc' & Hon').
        congruence.
Qed.

Lemma unvisited_pos (nodes : list Node) (i : nat) :
  (i < length nodes)%nat -> index_of nodes i = 0 -> 0 < unvisited nodes.
Proof.
  unfold unvisited, index_of. revert i.
  induction nodes as [| n nodes IH]; intros i Hi Hidx; cbn in Hi; [lia |].
  rewrite count_cons. pose proof (count_nonneg (fun n => node_index n =? 0) nodes).
  destruct i as [| i]; cbn in Hidx.
  - rewrite Hidx. cbn. lia.
  - specialize (IH i ltac:(lia) Hidx). destruct (node_index n =? 0); lia.
Qed.

Lemma enter_node_inv (st : Walker) (node : nat) (n0 : Node) :
  walker_ok st -> nodes_ st !! node = Some n0 -> node_index n0 = 0 ->
  loop_inv st node
    (set_next_node_index (next_node_index_ st + 1)
       (set_node_stack (node :: node_stack_ st)
          (set_nodes (<[node := entered_node (next_node_index_ st) n0]>
                        (nodes_ st)) st))).
Proof.
  intros Hok Hn0 Hfresh.
  pose proof (lookup_lt_Some _ _ _ Hn0) as Hlt.
  split; cbn.
  - apply enter_node_ok; assumption.
  - eapply nodes_step_insert; [apply nodes_step_refl | eassumption ..|].
    repeat split.
  - now rewrite (index_of_lookup _ _ _ Hn0).
  - exists []. split; [reflexivity |]. intros m Hm. inversion Hm.
  - exists (entered_node (next_node_index_ st) n0).
    now rewrite list_lookup_insert_eq.
  - lia.
  - lia.
  - reflexivity.
Qed.

(** When the low-link of [node] is its index, the nodes above it on the
    stack and their children on the stack make up the component. *)
Lemma root_closes (st0 : Walker) (node : nat) (st : Walker) (n : Node)
    (seg : list nat) :
  walker_ok st ->
  node_stack_ st = seg ++ node :: node_stack_ st0 ->
  nodes_ st !! node = Some n -> lowlink n = node_index n ->
  seg_inv st (lowlink n) seg ->
  proc_inv st (lowlink n) (children n) ->
  forall m child, m ∈ seg ++ [node] -> child ∈ children_of (nodes_ st) m ->
    index_of (nodes_ st) child <> 0
    /\ (child ∈ node_stack_ st -> child ∈ seg ++ [node]).
Proof.
  intros Hok Hstack Hn Hroot Hseg Hproc m child Hm Hchild.
  assert (H : index_of (nodes_ st) child <> 0
              /\ (child ∈ node_stack_ st ->
                  index_of (nodes_ st) node <= index_of (nodes_ st) child)).
  { rewrite (index_of_lookup _ _ _ Hn), <- Hroot.
    apply elem_of_app in Hm as [Hm | Hm].
    - destruct (Hseg m Hm) as [Hdone HL]. destruct (Hdone child Hchild) as [Hv Hl].
      split; [exact Hv |]. intros Hin. specialize (Hl Hin). lia.
    - apply list_elem_of_singleton in Hm as ->.
      unfold children_of in Hchild. rewrite Hn in Hchild.
      now apply Hproc. }
  destruct H as [Hv Hl]. split; [exact Hv |]. intros Hin. specialize (Hl Hin).
  pose proof (ok_sorted _ Hok) as Hsorted.
  rewrite Hstack in Hin, Hsorted.
  replace (seg ++ node :: node_stack_ st0)
    with ((seg ++ [node]) ++ node_stack_ st0) in Hin, Hsorted
    by now rewrite <- app_assoc.
  apply elem_of_app in Hin as [Hin | Hin]; [exact Hin | exfalso].
  assert (Hnode : node ∈ seg ++ [node]) by (apply elem_of_app; right; left).
  pose proof (StronglySorted_app_1_elem_of _ _ _ _ _ Hsorted Hnode Hin) as Hord.
  unfold stack_order in Hord. lia.
Qed.

Lemma FindSCC_safe (fuel : nat) :
  forall st node,
    walker_ok st -> counts_ok st ->
    (exists n, nodes_ st !! node = Some n /\ node_index n = 0) ->
    unvisited (nodes_ st) <= Z.of_nat fuel ->
    safe (FindSCC fuel st node) (search_post2 st node).
Proof.
  induction fuel as [| fuel IH]; intros st node Hok Hco (n0 & Hn0 & Hfresh) Hfuel.
  { pose proof (unvisited_pos (nodes_ st) node (lookup_lt_Some _ _ _ Hn0)
                  ltac:(now rewrite (index_of_lookup _ _ _ Hn0))). lia. }
  pose proof (FindSCC_spec (S fuel) st node) as Hspec.
  specialize (fun st' => Hspec st' Hok (ex_intro _ n0 (conj Hn0 Hfresh))).
  cbn [FindSCC] in *. unfold enter_node in *.
  unfold get_node at 1 2 in Hspec. unfold get_node at 1 2.
  rewrite Hn0 in *. cbn [bind] in *.
  fold (entered_node (next_node_index_ st) n0) in *.
  set (st1 := set_next_node_index _ _) in *.
  pose proof (enter_node_inv st node n0 Hok Hn0 Hfresh) as Hinv1. fold st1 in Hinv1.
  assert (Hloop : safe (foldM (visit_child (FindSCC fuel) node) (children n0) st1)
                       (loop_inv2 st node (children n0))).
  { apply safe_foldM_prefix.
    - intros pre a post s Hl Hs. apply visit_child_safe; [apply FindSCC_spec | | | exact Hs].
      + intros s' c Hoks Hcos Hc Hless. apply IH; auto. lia.
      + rewrite (nodes_step_children _ _ _ (li_nodes _ _ _ (l2_inv _ _ _ _ Hs))).
        unfold children_of. rewrite Hn0, Hl. apply elem_of_app. right. left.
    - split.
      + exact Hinv1.
      + eapply (counts_ok_insert st node n0 (entered_node (next_node_index_ st) n0));
          try reflexivity; assumption.
      + exists []. split; [reflexivity |]. intros m Hm. inversion Hm.
      + intros c Hc. inversion Hc. }
  destruct (foldM (visit_child (FindSCC fuel) node) (children n0) st1)
    as [st2 | e] eqn:Eloop; [| exact Hloop].
  cbn [bind safe] in *.
  destruct Hloop as [Hinv2 Hco2 (seg & Hstack & Hseg) Hproc].
  pose proof (li_ok _ _ _ Hinv2) as Hok2.
  destruct (li_node _ _ _ Hinv2) as (n2 & Hn2 & Hidx & Hon).
  assert (Hch2 : children n2 = children n0).
  { pose proof (nodes_step_children _ _ node (li_nodes _ _ _ Hinv2)) as H.
    unfold children_of in H. now rewrite Hn2, Hn0 in H. }
  rewrite (lowlink_of_lookup _ _ _ Hn2), <- ?Hch2 in *.
  unfold get_node in *. rewrite Hn2 in *. cbn [bind] in *.
  destruct (Z.eqb_spec (lowlink n2) (node_index n2)) as [Eroot | Eroot].
  - (* [node] is the root of a component *)
    pose proof (FoundSCC_safe st2 node seg (node_stack_ st) Hok2 Hco2 Hstack
                  (root_closes st node st2 n2 seg Hok2 Hstack Hn2 Eroot Hseg Hproc))
      as Hfound.
    destruct (FoundSCC st2 node) as [st' | e] eqn:Efound; [| exact Hfound].
    cbn [safe] in *. split; [auto | exact Hfound |].
    exists []. split; [| intros m Hm; inversion Hm].
    apply FoundSCC_spec in Efound as (front & Hst & _).
    cbn [app]. symmetry. apply (pivot_unique node seg front); [| congruence].
    rewrite <- Hstack. eapply stack_NoDup, (ok_sorted _ Hok2).
  - (* [node] stays on the stack *)
    cbn [safe]. split; [auto | exact Hco2 |].
    exists (seg ++ [node]). split; [now rewrite Hstack, <- app_assoc |].
    rewrite (lowlink_of_lookup _ _ _ Hn2).
    apply seg_inv_app; [exact Hseg |].
    intros m Hm. apply list_elem_of_singleton in Hm as ->.
    rewrite (lowlink_of_lookup _ _ _ Hn2). split; [| lia].
    intros child Hchild. unfold children_of in Hchild. rewrite Hn2 in Hchild.
    rewrite (lowlink_of_lookup _ _ _ Hn2). now apply Hproc.
Qed.

(** ** The reachability marker returns *)

Lemma returns_bind {A B} (r : result A) (k : A -> result B) (Q : B -> Prop) :
  returns r (fun a => returns (k a) Q) -> returns (bind r k) Q.
Proof. destruct r; cbn; auto. Qed.

Lemma returns_mono {A} (r : result A) (Q Q' : A -> Prop) :
  (forall a, Q a -> Q' a) -> returns r Q -> returns r Q'.
Proof. destruct r; cbn; auto. Qed.

Lemma returns_safe {A} (r : result A) (Q : A -> Prop) : returns r Q -> safe r Q.
Proof. destruct r; cbn; [auto | contradiction]. Qed.

Lemma returns_Ok {A} (r : result A) (Q : A -> Prop) :
  returns r Q -> exists a, r = Ok a /\ Q a.
Proof. destruct r; cbn; [eauto | contradiction]. Qed.

Lemma returns_foldM {A S} (f : S -> A -> result S) (P : S -> Prop) (l : list A) :
  (forall s a, a ∈ l -> P s -> returns (f s a) P) ->
  forall s, P s -> returns (foldM f l s) P.
Proof.
  induction l as [| a l IH]; intros Hf s Hs; cbn; [exact Hs |].
  apply returns_bind. eapply returns_mono; [| apply Hf; [left | exact Hs]].
  intros s' Hs'. apply IH; [| exact Hs'].
  intros s0 a0 Ha0. apply Hf. now right.
Qed.

Lemma unreached_frame (l l' : list Node) :
  Forall2 only_reachable l l' -> unreached l' <= unreached l.
Proof.
  unfold unreached. induction 1 as [| n n' l l' Hn _ IH]; [lia |].
  rewrite !count_cons. destruct Hn as [-> | [Hr ->]].
  - lia.
  - rewrite Hr. cbn. lia.
Qed.

Lemma unreached_mark (nodes : list Node) (i : nat) (n : Node) :
  nodes !! i = Some n -> reachable n = false ->
  unreached (<[i := set_reachable true n]> nodes) = unreached nodes - 1.
Proof.
  unfold unreached. revert i.
  induction nodes as [| m nodes IH]; intros i Hi Hr; [discriminate |].
  destruct i as [| i]; cbn [lookup list_lookup] in Hi;
    change (<[0%nat := set_reachable true n]> (m :: nodes))
      with (set_reachable true n :: nodes)
    || change (<[S i := set_reachable true n]> (m :: nodes))
      with (m :: <[i := set_reachable true n]> nodes).
  - injection Hi as ->. rewrite !count_cons, Hr. cbn. lia.
  - rewrite !count_cons, (IH i Hi Hr). lia.
Qed.

Lemma only_reachable_children_of (l l' : list Node) (i : nat) :
  Forall2 only_reachable l l' -> children_of l' i = children_of l i.
Proof.
  intros H. unfold children_of.
  destruct (l !! i) as [n |] eqn:E.
  - destruct (Forall2_lookup_l _ _ _ _ _ H E) as (n' & -> & [-> | [_ ->]]); reflexivity.
  - apply lookup_ge_None in E. rewrite (Forall2_length _ _ _ H) in E.
    apply lookup_ge_None in E. now rewrite E.
Qed.

Lemma links_ok_frame (l l' : list Node) :
  Forall2 only_reachable l l' -> links_ok l -> links_ok l'.
Proof.
  intros H Hl i j. rewrite (only_reachable_children_of _ _ _ H).
  rewrite <- (Forall2_length _ _ _ H). apply Hl.
Qed.

Lemma mark_frame (st : Walker) (node : nat) (n : Node) (e : Event) :
  nodes_ st !! node = Some n -> reachable n = false ->
  reach_frame st (set_nodes (<[node := set_reachable true n]> (nodes_ st))
                            (emit e st)).
Proof.
  intros Hn Hr. split; try reflexivity. cbn.
  apply Forall2_same_length_lookup. split; [now rewrite length_insert |].
  intros j x y Hx Hy. destruct (decide (node = j)) as [<- | Hne].
  - rewrite list_lookup_insert_eq in Hy by (eapply lookup_lt_Some; eassumption).
    assert (x = n) as -> by congruence. injection Hy as <-. now right.
  - rewrite list_lookup_insert_ne in Hy by assumption.
    assert (x = y) as -> by congruence. now left.
Qed.

Lemma ReachableNode_returns (fuel : nat) :
  forall st node,
    (node < length (nodes_ st))%nat -> links_ok (nodes_ st) ->
    unreached (nodes_ st) < Z.of_nat fuel ->
    returns (ReachableNode fuel st node) (reach_frame st).
Proof.
  induction fuel as [| fuel IH]; intros st node Hlt Hlinks Hfuel.
  { pose proof (count_nonneg (fun n => negb (reachable n)) (nodes_ st)).
    unfold unreached in Hfuel. lia. }
  cbn [ReachableNode].
  destruct (lookup_lt_is_Some_2 _ _ Hlt) as [n Hn].
  unfold get_node. rewrite Hn. cbn [bind].
  destruct (reachable n) eqn:Hr; [apply reach_frame_refl |].
  pose proof (mark_frame st node n (MarkReachable (row n)) Hn Hr) as Hmark.
  set (st1 := set_nodes _ _) in *.
  assert (Hun : unreached (nodes_ st1) < Z.of_nat fuel).
  { unfold st1. cbn. rewrite (unreached_mark _ _ _ Hn Hr). lia. }
  eapply returns_mono;
    [| apply (returns_foldM _ (reach_frame st1) (children n)); [| apply reach_frame_refl]].
  - intros s Hs. eapply reach_frame_trans; eassumption.
  - intros s a Ha Hs.
    pose proof (reach_frame_trans _ _ _ Hmark Hs) as Hfr.
    eapply returns_mono; [| apply IH].
    + intros s' Hs'. eapply reach_frame_trans; eassumption.
    + rewrite <- (Forall2_length _ _ _ (rf_nodes _ _ Hfr)).
      apply (Hlinks node). unfold children_of. now rewrite Hn.
    + eapply links_ok_frame; [apply (rf_nodes _ _ Hfr) | exact Hlinks].
    + pose proof (unreached_frame _ _ (rf_nodes _ _ Hs)). lia.
Qed.

(** ** The calls of the interface keep the counters exact *)

Lemma same_graph_of (l l' : list Node) :
  Forall2 same_graph l l' ->
  (forall i, component_of l' i = component_of l i)
  /\ (forall i, children_of l' i = children_of l i)
  /\ (forall i, parents_of l' i = parents_of l i).
Proof.
  intros H.
  assert (Hi : forall i,
            match l !! i, l' !! i with
            | Some n, Some n' => same_graph n n'
            | None, None => True
            | _, _ => False
            end).
  { intros i. destruct (l !! i) as [n |] eqn:E.
    - destruct (Forall2_lookup_l _ _ _ _ _ H E) as (n' & -> & Hs). exact Hs.
    - apply lookup_ge_None in E. rewrite (Forall2_length _ _ _ H) in E.
      apply lookup_ge_None in E. now rewrite E. }
  unfold component_of, children_of, parents_of.
  refine (conj _ (conj _ _)); intros i; specialize (Hi i);
    destruct (l !! i), (l' !! i); try contradiction; try reflexivity;
    destruct Hi as (? & ? & ?); assumption.
Qed.

Lemma counts_ok_same_graph (st st' : Walker) :
  Forall2 same_graph (nodes_ st) (nodes_ st') ->
  components_ st' = components_ st ->
  counts_ok st -> counts_ok st'.
Proof.
  intros H Hcs. destruct (same_graph_of _ _ H) as (H1 & H2 & H3).
  apply counts_ok_ext; auto. symmetry. eapply Forall2_length; eassumption.
Qed.

Lemma counts_ok_frame (st st' : Walker) :
  reach_frame st st' -> counts_ok st -> counts_ok st'.
Proof.
  intros [Hn _ Hc _]. apply counts_ok_same_graph; [| exact Hc].
  eapply Forall2_impl; [exact Hn |].
  intros n n' [-> | [_ ->]]; repeat split.
Qed.

Lemma search_safe (st : Walker) (node : nat) (n : Node) :
  settled st -> nodes_ st !! node = Some n ->
  safe (if node_index n =? 0 then FindSCC (depth_bound st) st node else Ok st)
       (fun st' => settled st' /\ length (nodes_ st') = length (nodes_ st)).
Proof.
  intros [[Hok Hempty] Hco] Hn.
  destruct (Z.eqb_spec (node_index n) 0) as [E | E];
    [| cbn; split; [split; [split |] |]; auto].
  pose proof (FindSCC_safe (depth_bound st) st node Hok Hco
                (ex_intro _ n (conj Hn E))) as Hsafe.
  destruct (FindSCC (depth_bound st) st node) as [st' | e] eqn:Hcall.
  - destruct Hsafe as [Hpost Hco' _].
    { unfold depth_bound. pose proof (unvisited_le_length (nodes_ st)). lia. }
    apply FindSCC_top in Hcall as [_ Hstack]; eauto.
    cbn. split; [split; [split |] |].
    + apply (sp_ok _ _ _ Hpost).
    + exact Hstack.
    + exact Hco'.
    + symmetry. apply (Forall2_length _ _ _ (sp_nodes _ _ _ Hpost)).
  - apply Hsafe. unfold depth_bound. pose proof (unvisited_le_length (nodes_ st)). lia.
Qed.

Lemma MarkRoot_safe (st : Walker) (r : Z) :
  settled st -> 0 <= r < Z.of_nat (length (nodes_ st)) ->
  safe (MarkRoot st r)
       (fun st' => settled st' /\ length (nodes_ st') = length (nodes_ st)).
Proof.
  intros [[Hok Hempty] Hco] Hr. unfold MarkRoot, node_of_row.
  destruct (Z.ltb_spec r 0) as [? | _]; [lia |].
  destruct (Nat.ltb_spec (Z.to_nat r) (length (nodes_ st))) as [Hlt | ?]; [| lia].
  cbn [bind].
  pose proof (ReachableNode_returns (depth_bound st) st (Z.to_nat r) Hlt
                (go_children _ (co_graph _ Hco))) as Hreach.
  destruct (ReachableNode (depth_bound st) st (Z.to_nat r)) as [sa | e] eqn:Hcall.
  2: { exfalso. apply Hreach. unfold depth_bound, unreached.
       pose proof (unvisited_le_length (nodes_ st)).
       assert (forall l : list Node,
                 count (fun n => negb (reachable n)) l <= Z.of_nat (length l)) as Hc.
       { induction l as [| a l IH]; [unfold count; cbn; lia |].
         rewrite count_cons. cbn [length]. destruct (negb (reachable a)); lia. }
       specialize (Hc (nodes_ st)). lia. }
  clear Hreach. apply ReachableNode_frame in Hcall as Hframe.
  cbn [bind].
  pose proof (Forall2_length _ _ _ (rf_nodes _ _ Hframe)) as Hlen.
  destruct (lookup_lt_is_Some_2 (nodes_ sa) (Z.to_nat r) ltac:(lia)) as [n Hn].
  unfold get_node. rewrite Hn. cbn [bind].
  assert (Hsa : settled sa).
  { split; [split |].
    - eapply reach_frame_ok; eassumption.
    - now rewrite (rf_stack _ _ Hframe).
    - eapply counts_ok_frame; eassumption. }
  eapply safe_mono; [| apply (search_safe sa _ n Hsa Hn)].
  intros st' [Hs Hl]. split; [exact Hs | lia].
Qed.

Lemma sweep_safe (l : list nat) (st : Walker) :
  settled st -> (forall i, i ∈ l -> (i < length (nodes_ st))%nat) ->
  safe (foldM sweep_node l st)
       (fun st' => settled st' /\ length (nodes_ st') = length (nodes_ st)).
Proof.
  intros Hst Hl.
  apply (safe_foldM _ (fun s => settled s /\ length (nodes_ s) = length (nodes_ st)));
    [| now split].
  intros s a Ha [Hs Hlen]. unfold sweep_node.
  destruct (lookup_lt_is_Some_2 (nodes_ s) a ltac:(rewrite Hlen; auto)) as [n Hn].
  unfold get_node. rewrite Hn. cbn [bind].
  eapply safe_mono; [| apply (search_safe s a n Hs Hn)].
  intros s' [Hs' Hlen']. split; [exact Hs' | congruence].
Qed.

Lemma pending_zero (nodes : list Node) (b : Z) :
  (forall i, (i < length nodes)%nat -> component_of nodes i <> -1) ->
  pending nodes b = 0.
Proof.
  intros H. unfold pending. apply zsum_zero. intros i Hi.
  apply elem_of_seq in Hi. unfold unassigned.
  destruct (Z.eqb_spec (component_of nodes i) (-1)) as [E | _]; [| reflexivity].
  exfalso. apply (H i); [lia | exact E].
Qed.

Lemma check_incoming_Ok (cs : list Component) :
  (forall c, c ∈ cs -> incoming_edges c = 0) ->
  foldM (fun (_ : unit) c => check (incoming_edges c =? 0) CheckIncomingEdges) cs tt
  = Ok tt.
Proof.
  induction cs as [| c cs IH]; intros H; cbn [foldM]; [reflexivity |].
  rewrite (H c) by left. cbn. apply IH. intros c' Hc'. apply H. now right.
Qed.

Lemma CalculateRetained_safe (st : Walker) :
  settled st ->
  safe (CalculateRetained st)
       (fun st' => settled st' /\ length (nodes_ st') = length (nodes_ st)
                   /\ forall c, c ∈ components_ st' -> incoming_edges c = 0).
Proof.
  intros Hst. unfold CalculateRetained.
  pose proof (sweep_safe (seq 0 (length (nodes_ st))) st Hst) as Hsweep.
  destruct (foldM sweep_node (seq 0 (length (nodes_ st))) st) as [st' | e] eqn:E.
  2: { apply Hsweep. intros i Hi. apply elem_of_seq in Hi. lia. }
  destruct Hsweep as [Hst' Hlen]; [intros i Hi; apply elem_of_seq in Hi; lia |].
  apply (sweep_idle _ _ _ (proj1 Hst)) in E as (_ & _ & Hvis & _).
  cbn [bind].
  assert (Hzero : forall c, c ∈ components_ st' -> incoming_edges c = 0).
  { intros c Hc. apply list_elem_of_lookup in Hc as [k Hk].
    destruct (co_counters _ (proj2 Hst') _ _ Hk) as [-> _].
    apply pending_zero. intros i Hi. unfold component_of.
    destruct (lookup_lt_is_Some_2 _ _ Hi) as [n Hn]. rewrite Hn.
    destruct Hst' as [[Hok Hempty] _].
    pose proof (ok_node _ Hok _ _ Hn) as [_ Hk'].
    destruct (on_stack n).
    - destruct Hk' as (Hmem & _). rewrite Hempty in Hmem. inversion Hmem.
    - specialize (Hvis i ltac:(apply elem_of_seq; lia)).
      rewrite (index_of_lookup _ _ _ Hn) in Hvis.
      destruct (Z.eqb_spec (node_index n) 0); [contradiction | lia]. }
  rewrite (check_incoming_Ok _ Hzero). cbn. auto.
Qed.

Lemma fresh_counts_ok (st : Walker) :
  fresh st -> graph_ok (nodes_ st) -> counts_ok st.
Proof.
  intros [Hcs Hfresh] Hgraph. split.
  - exact Hgraph.
  - intros i j Hi. now specialize (Hfresh i).
  - rewrite Hcs. intros k c Hk. rewrite lookup_nil in Hk. discriminate.
  - rewrite Hcs. intros k c Hk. rewrite lookup_nil in Hk. discriminate.
Qed.

Lemma pending_longer (nodes nodes' : list Node) (b : Z) :
  (length nodes <= length nodes')%nat ->
  (forall i, component_of nodes' i = component_of nodes i) ->
  (forall i, children_of nodes' i = children_of nodes i) ->
  pending nodes' b = pending nodes b.
Proof.
  intros Hlen Hc Hch. unfold pending.
  replace (length nodes') with (length nodes + (length nodes' - length nodes))%nat
    by lia.
  rewrite seq_app, zsum_app. cbn [Nat.add].
  rewrite (zsum_zero _ (seq (length nodes) _)).
  - rewrite Z.add_0_r. apply zsum_ext. intros i _. unfold unassigned, children_in.
    rewrite Hc, Hch. f_equal. apply count_ext. intros child _. now rewrite Hc.
  - intros i Hi. apply elem_of_seq in Hi. unfold children_in. rewrite Hch.
    unfold children_of. rewrite (proj2 (lookup_ge_None nodes i)) by lia.
    unfold count. cbn. lia.
Qed.

Lemma counts_ok_longer (st st' : Walker) :
  (length (nodes_ st) <= length (nodes_ st'))%nat ->
  (forall i, component_of (nodes_ st') i = component_of (nodes_ st) i) ->
  (forall i, children_of (nodes_ st') i = children_of (nodes_ st) i) ->
  (forall i, parents_of (nodes_ st') i = parents_of (nodes_ st) i) ->
  components_ st' = components_ st ->
  counts_ok st -> counts_ok st'.
Proof.
  intros Hlen Hc Hch Hp Hcs [[G1 G2 G3 G4 G5] Ha Hl Hk]. split.
  - split.
    + intros i j. rewrite Hch. intros H. specialize (G1 i j H). lia.
    + intros i j. rewrite Hp. intros H. specialize (G2 i j H). lia.
    + intros i. rewrite Hch. apply G3.
    + intros j. rewrite Hp. apply G4.
    + intros i j. rewrite Hch, Hp. apply G5.
  - intros i j. rewrite !Hc, Hch. apply Ha.
  - now rewrite Hcs.
  - intros k c. rewrite Hcs. intros Hkc.
    rewrite (pending_longer _ _ _ Hlen Hc Hch). now apply Hk.
Qed.

Lemma extend_same_graph (nodes : list Node) (k : nat) :
  (forall i, component_of (nodes ++ replicate k default_node) i = component_of nodes i)
  /\ (forall i, children_of (nodes ++ replicate k default_node) i = children_of nodes i)
  /\ (forall i, parents_of (nodes ++ replicate k default_node) i = parents_of nodes i).
Proof.
  assert (H : forall i,
            (nodes ++ replicate k default_node) !! i = nodes !! i
            \/ (nodes !! i = None
                /\ ((nodes ++ replicate k default_node) !! i = Some default_node
                    \/ (nodes ++ replicate k default_node) !! i = None))).
  { intros i. destruct (nodes !! i) as [n |] eqn:E.
    - left. now apply lookup_app_l_Some.
    - right. split; [reflexivity |].
      destruct ((nodes ++ replicate k default_node) !! i) as [d |] eqn:E'; [| auto].
      left. apply lookup_app_Some in E' as [E' | [_ E']]; [congruence |].
      apply lookup_replicate in E' as [-> _]. reflexivity. }
  unfold component_of, children_of, parents_of.
  refine (conj _ (conj _ _)); intros i;
    (destruct (H i) as [-> | [-> [-> | ->]]]; reflexivity).
Qed.

Lemma holds_pointers_false (nodes : list Node) :
  holds_pointers nodes = false
  <-> forall i, children_of nodes i = [] /\ parents_of nodes i = [].
Proof.
  unfold holds_pointers, children_of, parents_of. split.
  - intros H i. destruct (nodes !! i) as [n |] eqn:E; [| auto].
    destruct (children n) eqn:Ec, (parents n) eqn:Ep; auto; exfalso;
      (assert (Ht : existsb (fun n => match children n, parents n with
                                      | [], [] => false
                                      | _, _ => true
                                      end) nodes = true);
       [| rewrite H in Ht; discriminate Ht]);
      apply existsb_exists; exists n;
      (split; [apply list_elem_of_In; eapply list_elem_of_lookup_2; exact E |]);
      rewrite Ec, ?Ep; reflexivity.
  - intros H. destruct (existsb _ nodes) eqn:Ee; [| reflexivity].
    apply existsb_exists in Ee as (n & Hin & Hn).
    apply list_elem_of_In, list_elem_of_lookup in Hin as [i Hi].
    destruct (H i) as [Hc Hp]. rewrite Hi in Hc, Hp.
    rewrite Hc, Hp in Hn. discriminate Hn.
Qed.

Lemma holds_pointers_same (l l' : list Node) :
  (forall i, children_of l' i = children_of l i) ->
  (forall i, parents_of l' i = parents_of l i) ->
  holds_pointers l = false -> holds_pointers l' = false.
Proof.
  intros Hc Hp. rewrite !holds_pointers_false. intros H i.
  rewrite Hc, Hp. apply H.
Qed.

Lemma AddNode_returns (st : Walker) (r size : Z) :
  settled st -> 0 <= r ->
  (Z.to_nat r < length (nodes_ st))%nat \/ holds_pointers (nodes_ st) = false ->
  returns (AddNode st r size)
    (fun st' => settled st'
       /\ length (nodes_ st') = Nat.max (length (nodes_ st)) (S (Z.to_nat r))
       /\ (holds_pointers (nodes_ st) = false ->
           holds_pointers (nodes_ st') = false)
       /\ (fresh st -> fresh st')).
Proof.
  intros [[Hok Hempty] Hco] Hr Hstable.
  destruct (AddNode st r size) as [st' | e] eqn:Hcall.
  2: { exfalso. unfold AddNode in Hcall.
       destruct (Z.leb_spec 0 r) as [_ | ?]; [| lia]. cbn [check bind] in Hcall.
       destruct (Nat.leb_spec (length (nodes_ st)) (Z.to_nat r)) as [Hle | Hgt].
       - destruct Hstable as [? | Hnone]; [lia |]. rewrite Hnone in Hcall.
         cbn [negb check bind] in Hcall. unfold get_node in Hcall.
         match type of Hcall with context [?l !! ?i] =>
           destruct (lookup_lt_is_Some_2 l i) as [n Hn]; [| rewrite Hn in Hcall] end.
         + rewrite length_app, length_replicate. lia.
         + discriminate.
       - cbn [bind] in Hcall. unfold get_node in Hcall.
         destruct (lookup_lt_is_Some_2 (nodes_ st) (Z.to_nat r) Hgt) as [n Hn].
         rewrite Hn in Hcall. discriminate. }
  cbn [returns].
  pose proof (AddNode_ok _ _ _ _ Hok Hcall) as [Hok' Hstack].
  assert (Hsize : length (nodes_ st')
                  = Nat.max (length (nodes_ st)) (S (Z.to_nat r))).
  { unfold AddNode in Hcall.
    apply bind_Ok in Hcall as (u & _ & H).
    apply bind_Ok in H as (nodes & Hnodes & H).
    apply bind_Ok in H as (n & Hn & H). injection H as <-.
    cbn. rewrite length_insert.
    destruct (Nat.leb_spec (length (nodes_ st)) (Z.to_nat r)).
    - apply bind_Ok in Hnodes as (u' & _ & Hnodes). injection Hnodes as <-.
      rewrite length_app, length_replicate. lia.
    - injection Hnodes as <-. lia. }
  apply AddNode_spec in Hcall as (k & n & _ & Hn & ->).
  pose proof (lookup_lt_Some _ _ _ Hn) as Hlt.
  destruct (extend_same_graph (nodes_ st) k) as (E1 & E2 & E3).
  destruct (insert_same_graph _ (Z.to_nat r) n (set_size_row size r n) Hn
              eq_refl eq_refl eq_refl) as (I1 & I2 & I3).
  assert (Hlen : (length (nodes_ st) <= length (nodes_ st ++ replicate k default_node))%nat)
    by (rewrite length_app; lia).
  split; [split; [split |] |]; [exact Hok' | now rewrite <- Hempty | |].
  - eapply (counts_ok_longer st); cbn; rewrite ?length_insert; auto.
    + intros i. now rewrite I1, E1.
    + intros i. now rewrite I2, E2.
    + intros i. now rewrite I3, E3.
  - split; [exact Hsize |]. split.
    + apply holds_pointers_same; cbn.
      * intros i. now rewrite I2, E2.
      * intros i. now rewrite I3, E3.
    + intros [Hcs Hfresh]. split; [exact Hcs |]. cbn.
      intros i. now rewrite I1, E1.
Qed.

Lemma set_emplace_sorted (x : nat) (s : list nat) :
  StronglySorted lt s -> StronglySorted lt (set_emplace x s).
Proof.
  induction 1 as [| y s Hs IH Hall]; cbn [set_emplace].
  - repeat constructor.
  - destruct (Nat.ltb_spec x y) as [E1 | E1];
      [| destruct (Nat.eqb_spec x y) as [E2 | E2]].
    + constructor; [now constructor |].
      constructor; [exact E1 |].
      eapply Forall_impl; [exact Hall |]. intros z Hz. cbn in *. lia.
    + now constructor.
    + constructor; [exact IH |].
      apply Forall_forall. intros z Hz. apply set_emplace_elem in Hz as [-> | Hz].
      * lia.
      * rewrite Forall_forall in Hall. now apply Hall.
Qed.

Lemma children_of_update (nodes : list Node) (i : nat) (n' : Node) (j : nat) :
  (i < length nodes)%nat ->
  children_of (<[i := n']> nodes) j
  = if decide (j = i) then children n' else children_of nodes j.
Proof.
  intros Hlt. unfold children_of. destruct (decide (j = i)) as [-> | Hne].
  - now rewrite list_lookup_insert_eq.
  - now rewrite list_lookup_insert_ne.
Qed.

Lemma parents_of_update (nodes : list Node) (i : nat) (n' : Node) (j : nat) :
  (i < length nodes)%nat ->
  parents_of (<[i := n']> nodes) j
  = if decide (j = i) then parents n' else parents_of nodes j.
Proof.
  intros Hlt. unfold parents_of. destruct (decide (j = i)) as [-> | Hne].
  - now rewrite list_lookup_insert_eq.
  - now rewrite list_lookup_insert_ne.
Qed.

Lemma component_of_update (nodes : list Node) (i : nat) (n n' : Node) :
  nodes !! i = Some n -> component n' = component n ->
  forall j, component_of (<[i := n']> nodes) j = component_of nodes j.
Proof.
  intros Hn Hc j. pose proof (lookup_lt_Some _ _ _ Hn) as Hlt.
  unfold component_of. destruct (decide (i = j)) as [<- | Hne].
  - rewrite list_lookup_insert_eq by assumption. now rewrite Hn.
  - now rewrite list_lookup_insert_ne.
Qed.

(** The two adjacency sets once the edge from [owner] to [owned] is
    stored. *)
Lemma AddEdge_graph (nodes : list Node) (owner owned : nat) (n m : Node) :
  nodes !! owner = Some n ->
  <[owner := set_children (set_emplace owned (children n)) n]> nodes !! owned
    = Some m ->
  let nodes' :=
    <[owned := set_parents (set_emplace owner (parents m)) m]>
      (<[owner := set_children (set_emplace owned (children n)) n]> nodes) in
  length nodes' = length nodes
  /\ (forall i, component_of nodes' i = component_of nodes i)
  /\ (forall i, children_of nodes' i
                = if decide (i = owner)
                  then set_emplace owned (children_of nodes owner)
                  else children_of nodes i)
  /\ (forall j, parents_of nodes' j
                = if decide (j = owned)
                  then set_emplace owner (parents_of nodes owned)
                  else parents_of nodes j).
Proof.
  intros Hn Hm nodes'.
  pose proof (lookup_lt_Some _ _ _ Hn) as Hlt.
  pose proof (lookup_lt_Some _ _ _ Hm) as Hlt'.
  set (nodes1 := <[owner := set_children (set_emplace owned (children n)) n]> nodes) in *.
  pose proof (component_of_update nodes owner n
                (set_children (set_emplace owned (children n)) n) Hn eq_refl) as A1.
  fold nodes1 in A1.
  assert (Hp1 : forall j, parents_of nodes1 j = parents_of nodes j).
  { intros j. unfold nodes1. rewrite parents_of_update by assumption.
    destruct (decide (j = owner)) as [-> |]; [| reflexivity].
    unfold parents_of. now rewrite Hn. }
  assert (Hc1 : forall i, children_of nodes1 i
                          = if decide (i = owner)
                            then set_emplace owned (children_of nodes owner)
                            else children_of nodes i).
  { intros i. unfold nodes1. rewrite children_of_update by assumption.
    destruct (decide (i = owner)); [| reflexivity].
    cbn. unfold children_of. now rewrite Hn. }
  refine (conj _ (conj _ (conj _ _))).
  - unfold nodes', nodes1. now rewrite !length_insert.
  - intros i. unfold nodes'.
    rewrite (component_of_update nodes1 owned m
               (set_parents (set_emplace owner (parents m)) m) Hm eq_refl).
    apply A1.
  - intros i. unfold nodes'. rewrite children_of_update by assumption.
    rewrite <- Hc1. destruct (decide (i = owned)) as [-> |]; [| reflexivity].
    cbn. unfold children_of. now rewrite Hm.
  - intros j. unfold nodes'. rewrite parents_of_update by assumption.
    destruct (decide (j = owned)); [| apply Hp1].
    cbn. rewrite <- Hp1. unfold parents_of. now rewrite Hm.
Qed.

Lemma AddEdge_returns (st : Walker) (owner_row owned_row : Z) :
  idle st -> fresh st -> graph_ok (nodes_ st) ->
  0 <= owner_row < Z.of_nat (length (nodes_ st)) ->
  0 <= owned_row < Z.of_nat (length (nodes_ st)) ->
  returns (AddEdge st owner_row owned_row)
    (fun st' => idle st' /\ fresh st' /\ graph_ok (nodes_ st')
                /\ length (nodes_ st') = length (nodes_ st)).
Proof.
  intros [Hok Hempty] [Hcs Hfresh] Hgraph Howner Howned.
  destruct (AddEdge st owner_row owned_row) as [st' | e] eqn:Hcall.
  2: { exfalso. unfold AddEdge, node_of_row in Hcall.
       destruct (Z.ltb_spec owner_row 0); [lia |].
       destruct (Nat.ltb_spec (Z.to_nat owner_row) (length (nodes_ st))) as [Hlt |]; [| lia].
       destruct (Z.ltb_spec owned_row 0); [lia |].
       destruct (Nat.ltb_spec (Z.to_nat owned_row) (length (nodes_ st))) as [Hlt' |]; [| lia].
       cbn [bind] in Hcall. unfold get_node in Hcall.
       destruct (lookup_lt_is_Some_2 _ _ Hlt) as [n Hn]. rewrite Hn in Hcall.
       cbn [bind] in Hcall.
       match type of Hcall with context [?l !! ?i] =>
         destruct (lookup_lt_is_Some_2 l i) as [m Hm];
           [now rewrite length_insert | rewrite Hm in Hcall] end.
       discriminate. }
  cbn [returns].
  pose proof (AddEdge_ok _ _ _ _ Hok Hcall) as [Hok' Hstack].
  apply AddEdge_spec in Hcall as (owner & owned & n & m & Ho & Ho' & Hn & Hm & ->).
  apply node_of_row_Ok in Ho as (_ & _ & Hlt), Ho' as (_ & _ & Hlt').
  destruct (AddEdge_graph _ _ _ _ _ Hn Hm) as (Hlen & Hc & Hch & Hp).
  cbn [nodes_ set_nodes components_] in *.
  destruct Hgraph as [G1 G2 G3 G4 G5].
  split; [split; [exact Hok' | now rewrite <- Hempty] |].
  split; [split; [exact Hcs | intros i; cbn; now rewrite Hc] |].
  split; [| exact Hlen]. split.
  - intros i j. rewrite Hch, Hlen. destruct (decide (i = owner)); [| apply G1].
    intros Hj. apply set_emplace_elem in Hj as [-> | Hj]; [exact Hlt' |].
    eapply G1; eassumption.
  - intros i j. rewrite Hp, Hlen. destruct (decide (j = owned)); [| apply G2].
    intros Hi. apply set_emplace_elem in Hi as [-> | Hi]; [exact Hlt |].
    eapply G2; eassumption.
  - intros i. rewrite Hch. destruct (decide (i = owner)); [| apply G3].
    apply set_emplace_sorted, G3.
  - intros j. rewrite Hp. destruct (decide (j = owned)); [| apply G4].
    apply set_emplace_sorted, G4.
  - intros i j. rewrite Hch, Hp.
    destruct (decide (i = owner)) as [-> |], (decide (j = owned)) as [-> |];
      rewrite ?set_emplace_elem, ?G5; tauto.
Qed.

(** ** The counters along a sequence of calls *)

Lemma counts_ok_counters (st : Walker) : counts_ok st -> counters_ok st.
Proof.
  intros Hco c Hc. apply list_elem_of_lookup in Hc as [k Hk].
  destruct (co_counters _ Hco _ _ Hk) as [Hp Hle].
  pose proof (pending_nonneg (nodes_ st) (Z.of_nat k)). lia.
Qed.

Lemma empty_walker_settled : settled empty_walker.
Proof.
  split; [apply empty_walker_idle |].
  apply fresh_counts_ok.
  - split; [reflexivity |]. intros i. unfold component_of. cbn.
    now rewrite lookup_nil.
  - assert (Hnil : forall j : nat, j ∉ @nil nat) by (intros j Hj; inversion Hj).
    split; cbn; unfold children_of, parents_of; intros *; rewrite ?lookup_nil;
      try constructor; intros H; exfalso; eapply Hnil; eassumption.
Qed.

Lemma rows_in_longer (seen : list Z) (st st' : Walker) :
  (length (nodes_ st) <= length (nodes_ st'))%nat ->
  rows_in seen st -> rows_in seen st'.
Proof. intros Hlen H r Hr. specialize (H r Hr). lia. Qed.

Lemma same_edges_of (l l' : list Node) :
  Forall2 same_edges l l' ->
  (forall i, children_of l' i = children_of l i)
  /\ (forall i, parents_of l' i = parents_of l i).
Proof.
  intros H.
  assert (Hi : forall i,
            match l !! i, l' !! i with
            | Some n, Some n' => same_edges n n'
            | None, None => True
            | _, _ => False
            end).
  { intros i. destruct (l !! i) as [n |] eqn:E.
    - destruct (Forall2_lookup_l _ _ _ _ _ H E) as (n' & -> & Hs). exact Hs.
    - apply lookup_ge_None in E. rewrite (Forall2_length _ _ _ H) in E.
      apply lookup_ge_None in E. now rewrite E. }
  unfold children_of, parents_of.
  split; intros i; specialize (Hi i);
    destruct (l !! i), (l' !! i); try contradiction; try reflexivity;
    destruct Hi as (? & ?); assumption.
Qed.

(** The searches add and remove no edge. *)
Lemma search_call_edges (st : Walker) (c : call) (st' : Walker) :
  idle st -> is_search c = true -> do_call st c = Ok st' ->
  Forall2 same_edges (nodes_ st) (nodes_ st').
Proof.
  intros Hidle Hc H.
  assert (Hstep : forall l l', Forall2 node_step l l' -> Forall2 same_edges l l').
  { intros l l' Hs. eapply Forall2_impl; [exact Hs |].
    intros n n' [(Hch & Hp & _) _]. now split. }
  destruct c as [r size | owner_row owned_row | r |]; try discriminate; cbn in H.
  - unfold MarkRoot in H. inv_binds H.
    rename x0 into sa, Hx0 into Hreach, x1 into n, Hx1 into Hn.
    apply get_node_Ok in Hn.
    pose proof (ReachableNode_frame _ _ _ _ Hreach) as Hframe.
    assert (Hidle_a : idle sa).
    { destruct Hidle. split; [eapply reach_frame_ok; eassumption |].
      now rewrite (rf_stack _ _ Hframe). }
    apply (search_from_idle _ _ _ _ _ Hidle_a Hn) in H as (_ & Hs & _).
    apply Hstep in Hs.
    assert (Hr : Forall2 same_edges (nodes_ st) (nodes_ sa)).
    { eapply Forall2_impl; [apply (rf_nodes _ _ Hframe) |].
      intros m m' [-> | [_ ->]]; now split. }
    clear -Hr Hs. revert Hs. generalize (nodes_ st').
    induction Hr as [| x y l1 l2 [Hxy1 Hxy2] _ IH]; intros l3 H23;
      inversion H23 as [| ? z ? ? [Hyz1 Hyz2] ?]; subst; constructor; auto.
    split; congruence.
  - apply CalculateRetained_spec in H as [H _].
    apply (sweep_idle _ _ _ Hidle) in H as (_ & Hs & _). now apply Hstep.
Qed.

Lemma search_call_pointers (st : Walker) (c : call) (st' : Walker) :
  idle st -> is_search c = true -> do_call st c = Ok st' ->
  holds_pointers (nodes_ st) = false -> holds_pointers (nodes_ st') = false.
Proof.
  intros Hidle Hc H.
  destruct (same_edges_of _ _ (search_call_edges _ _ _ Hidle Hc H)) as [H1 H2].
  now apply holds_pointers_same.
Qed.

Lemma calls_safe (calls : list call) :
  forall seen edges st,
    settled st -> rows_in seen st ->
    rows_registered seen calls = true ->
    table_stable (length (nodes_ st)) edges calls = true ->
    (edges = false -> holds_pointers (nodes_ st) = false) ->
    (fresh st /\ edges_before_search calls = true) \/ no_edges calls = true ->
    safe (foldM do_call calls st) settled.
Proof.
  induction calls as [| c calls IH];
    intros seen edges st Hst Hrows Hreg Hstable Hedges Hphase;
    cbn [foldM]; [exact Hst |].
  cbn [rows_registered] in Hreg. apply andb_true_iff in Hreg as [Hc Hreg].
  apply safe_bind.
  destruct c as [r size | owner_row owned_row | r |];
    cbn [do_call call_registered table_stable] in *.
  - (* AddNode *)
    apply Z.leb_le in Hc. apply andb_true_iff in Hstable as [Hhere Hstable].
    assert (Hok : (Z.to_nat r < length (nodes_ st))%nat
                  \/ holds_pointers (nodes_ st) = false).
    { apply orb_true_iff in Hhere as [Hhere | Hhere].
      - right. apply Hedges. now destruct edges.
      - left. now apply Nat.ltb_lt. }
    eapply safe_mono; [| apply returns_safe, (AddNode_returns st r size Hst Hc Hok)].
    intros st' (Hst' & Hlen & Hptr & Hfresh).
    apply (IH (r :: seen) edges); [exact Hst' | | exact Hreg | | |].
    + intros r' Hr'. apply elem_of_cons in Hr' as [-> | Hr'].
      * lia.
      * specialize (Hrows r' Hr'). lia.
    + now rewrite Hlen.
    + auto.
    + destruct Hphase as [[Hf He] | Hn]; [left; auto | right].
      cbn in Hn. exact Hn.
  - (* AddEdge *)
    destruct Hphase as [[Hf He] | Hn]; [| discriminate].
    apply andb_true_iff in Hc as [H1 H2].
    apply mem_row_elem, Hrows in H1. apply mem_row_elem, Hrows in H2.
    eapply safe_mono;
      [| apply returns_safe,
           (AddEdge_returns st owner_row owned_row (proj1 Hst) Hf
              (co_graph _ (proj2 Hst)) H1 H2)].
    intros st' (Hidle & Hf' & Hg & Hlen).
    apply (IH seen true); [| | exact Hreg | | discriminate | left; auto].
    + split; [exact Hidle | now apply fresh_counts_ok].
    + eapply rows_in_longer; [| exact Hrows]. lia.
    + now rewrite Hlen.
  - (* MarkRoot *)
    apply mem_row_elem, Hrows in Hc.
    eapply safe_mono;
      [| eapply (safe_with _ _ (fun st' => holds_pointers (nodes_ st) = false ->
                                            holds_pointers (nodes_ st') = false));
         [| apply (MarkRoot_safe st r Hst Hc)]].
    2: { intros st' H.
         apply (search_call_pointers st (CallMarkRoot r) st' (proj1 Hst) eq_refl H). }
    intros st' [[Hst' Hlen] Hptr].
    apply (IH seen edges); [exact Hst' | | exact Hreg | | auto |].
    + eapply rows_in_longer; [| exact Hrows]. lia.
    + now rewrite Hlen.
    + right. destruct Hphase as [[_ He] | Hn]; [exact He | exact Hn].
  - (* CalculateRetained *)
    eapply safe_mono;
      [| eapply (safe_with _ _ (fun st' => holds_pointers (nodes_ st) = false ->
                                            holds_pointers (nodes_ st') = false));
         [| apply (CalculateRetained_safe st Hst)]].
    2: { intros st' H.
         apply (search_call_pointers st CallCalculateRetained st' (proj1 Hst) eq_refl H). }
    intros st' [(Hst' & Hlen & _) Hptr].
    apply (IH seen edges); [exact Hst' | | exact Hreg | | auto |].
    + eapply rows_in_longer; [| exact Hrows]. lia.
    + now rewrite Hlen.
    + right. destruct Hphase as [[_ He] | Hn]; [exact He | exact Hn].
Qed.

(** C4, as specified, fails at [late_edge]: an edge added after a root
    was marked makes the check of [CalculateRetained] fire, although
    every row is registered before it is used. *)
Lemma late_edge_counterexample :
  rows_registered [] late_edge = true
  /\ last late_edge = Some CallCalculateRetained
  /\ run late_edge = Err CheckIncomingEdges.
Proof. vm_compute. auto. Qed.

(** On a graph whose edges are all added first, sixty-four halvings of a
    share overflow the denominator of a fraction, which its check
    catches. *)
Lemma halving_overflows :
  rows_registered [] (halving 64) = true
  /\ edges_before_search (halving 64) = true
  /\ (exists st, run (halving 63) = Ok st)
  /\ (match run (halving 64) with Ok _ => None | Err e => Some e end)
     = Some CheckDenominator.
Proof.
  split; [vm_compute; reflexivity |]. split; [vm_compute; reflexivity |].
  split; [| vm_compute; reflexivity].
  destruct (run (halving 63)) as [st | e] eqn:E; [eauto | exfalso].
  assert (H : (match run (halving 63) with Ok _ => true | Err _ => false end) = true)
    by (vm_compute; reflexivity).
  rewrite E in H. discriminate.
Qed.

(** C4, amended: when every row is registered before an edge or a root
    refers to it, no [AddNode] resizes the node table once an edge has
    been added, and every edge is added before the first search
    ([MarkRoot] or [CalculateRetained]), a sequence of calls either stops
    on the denominator check of a fraction or returns with every live
    counter of incoming edges between zero and the count taken at
    finalization; followed by [CalculateRetained] it either stops on that
    same check or returns with every live counter at zero, so that the
    check of the counters does not fire. *)
Theorem incoming_edges_resolved (calls : list call) :
  rows_registered [] calls = true ->
  table_stable 0 false calls = true ->
  edges_before_search calls = true ->
  safe (run calls) counters_ok
  /\ safe (run (calls ++ [CallCalculateRetained])) counters_zero.
Proof.
  intros Hreg Hstable Hedges.
  assert (Hsafe : safe (run calls) settled).
  { apply (calls_safe calls [] false empty_walker empty_walker_settled).
    - intros r Hr. inversion Hr.
    - exact Hreg.
    - exact Hstable.
    - reflexivity.
    - left. split; [| exact Hedges]. split; [reflexivity |].
      intros i. unfold component_of. cbn. now rewrite lookup_nil. }
  split.
  - eapply safe_mono; [| exact Hsafe]. intros st [_ Hco].
    now apply counts_ok_counters.
  - unfold run in *. rewrite foldM_app. apply safe_bind.
    eapply safe_mono; [| exact Hsafe]. intros st Hst. cbn [foldM do_call].
    apply safe_bind. eapply safe_mono; [| apply (CalculateRetained_safe st Hst)].
    intros st' (_ & _ & Hzero). exact Hzero.
Qed.

Lemma incoming_edges_resolved_witness :
  rows_registered [] (removelast (diamond 0 1 2 3)) = true
  /\ table_stable 0 false (removelast (diamond 0 1 2 3)) = true
  /\ edges_before_search (removelast (diamond 0 1 2 3)) = true
  /\ safe (run (removelast (diamond 0 1 2 3))) counters_ok
  /\ safe (run (removelast (diamond 0 1 2 3) ++ [CallCalculateRetained]))
          counters_zero.
Proof.
  split; [reflexivity |]. split; [reflexivity |]. split; [reflexivity |].
  apply (incoming_edges_resolved (removelast (diamond 0 1 2 3))); reflexivity.
Defined.

(** ** The loop of [Gcd] ends within its fuel *)

Lemma Gcd_loop_halves (fuel : nat) :
  forall one other,
    0 <= other < one -> one * other < 2 ^ Z.of_nat fuel ->
    Gcd_loop (S fuel) one other = Z.gcd one other.
Proof.
  induction fuel as [| fuel IH]; intros one other Hlt Hprod.
  - assert (other = 0) as -> by nia.
    cbn. rewrite Z.gcd_0_r. lia.
  - cbn [Gcd_loop]. destruct (Z.eqb_spec other 0) as [-> | Hne].
    + rewrite Z.gcd_0_r. lia.
    + pose proof (Z.mod_pos_bound one other ltac:(lia)) as Hmod.
      pose proof (Z.div_mod one other Hne) as Hdiv.
      assert (Hq : 1 <= one / other) by (apply Z.div_le_lower_bound; lia).
      assert (Htwice : 2 * (one mod other) <= one) by nia.
      change (Gcd_loop (S fuel) other (one mod other) = Z.gcd one other).
      rewrite IH.
      * rewrite Z.gcd_comm, Z.gcd_mod by assumption. apply Z.gcd_comm.
      * lia.
      * rewrite Nat2Z.inj_succ, Z.pow_succ_r in Hprod by lia. nia.
Qed.

Lemma Gcd_loop_S (fuel : nat) (one other : Z) :
  Gcd_loop (S fuel) one other
  = if other =? 0 then one else Gcd_loop fuel other (one mod other).
Proof. reflexivity. Qed.

Lemma Gcd_loop_enough (one other : Z) :
  0 <= one < 2 ^ 64 -> 0 <= other < 2 ^ 64 ->
  Gcd_loop 130 one other = Z.gcd one other.
Proof.
  intros Hone Hother.
  replace 130%nat with (S (S (Z.to_nat 128))) by reflexivity.
  rewrite Gcd_loop_S.
  destruct (Z.eqb_spec other 0) as [-> | Hne].
  - rewrite Z.gcd_0_r. lia.
  - pose proof (Z.mod_pos_bound one other ltac:(lia)) as Hmod.
    rewrite Gcd_loop_halves.
    + rewrite Z.gcd_comm, Z.gcd_mod by assumption. apply Z.gcd_comm.
    + lia.
    + rewrite Z2Nat.id by lia.
      replace (2 ^ 128) with (2 ^ 64 * 2 ^ 64) by reflexivity.
      generalize dependent (2 ^ 64). intros B Hone Hother. nia.
Qed.

(** On 64-bit operands [Gcd] is the greatest common divisor. *)
Lemma Gcd_is_gcd (one other : Z) :
  0 <= one < 2 ^ 64 -> 0 <= other < 2 ^ 64 ->
  Gcd one other = Z.gcd one other.
Proof.
  intros Hone Hother. unfold Gcd.
  destruct (Z.eqb_spec one 1) as [-> | _]; [now rewrite Z.gcd_1_l |].
  destruct (Z.eqb_spec other 1) as [-> | _]; [now rewrite Z.gcd_1_r |].
  now apply Gcd_loop_enough.
Qed.

(** ** When the delegate is told *)

Lemma run_split (pre post : list call) (st : Walker) :
  run (pre ++ post) = Ok st ->
  exists st0, run pre = Ok st0 /\ foldM do_call post st0 = Ok st.
Proof. unfold run. rewrite foldM_app. intros H. now apply bind_Ok in H. Qed.

Lemma rows_registered_app (pre post : list call) :
  forall seen, rows_registered seen (pre ++ post) = true ->
               rows_registered seen pre = true.
Proof.
  induction pre as [| c pre IH]; intros seen H; [reflexivity |].
  cbn in H |- *. apply andb_true_iff in H as [Hc H].
  rewrite Hc. cbn. now apply IH.
Qed.

Lemma reaches_mono (l l' : list Node) (a b : nat) :
  (forall i j, j ∈ children_of l i -> j ∈ children_of l' i) ->
  reaches l a b -> reaches l' a b.
Proof.
  intros H. induction 1 as [i | i j k Hij _ IH]; [apply reaches_here |].
  eapply reaches_child; [apply H; exact Hij | exact IH].
Qed.

Lemma reaches_trans (l : list Node) (a b c : nat) :
  reaches l a b -> reaches l b c -> reaches l a c.
Proof.
  induction 1 as [i | i j k Hij _ IH]; [auto |].
  intros Hc. eapply reaches_child; [exact Hij | auto].
Qed.

(** *** The log only grows *)

Lemma ReachableNode_log (fuel : nat) :
  forall st node st',
    ReachableNode fuel st node = Ok st' ->
    reachable_calls (delegate_ st) `prefix_of` reachable_calls (delegate_ st').
Proof.
  induction fuel as [| fuel IH]; intros st node st' H; cbn in H; [discriminate |].
  inv_binds H. rename x into n, Hx into Hn.
  destruct (reachable n); [injection H as <-; reflexivity |].
  revert H.
  apply (foldM_Ok_inv _ (fun s => reachable_calls (delegate_ st)
                                  `prefix_of` reachable_calls (delegate_ s))).
  - intros s a s' _ Hs Hcall. etransitivity; [exact Hs | eapply IH; exact Hcall].
  - cbn. rewrite reachable_calls_app. now apply prefix_app_r.
Qed.

Lemma do_call_log (st : Walker) (c : call) (st' : Walker) :
  idle st -> do_call st c = Ok st' ->
  reachable_calls (delegate_ st) `prefix_of` reachable_calls (delegate_ st').
Proof.
  intros Hidle H. destruct c as [r size | owner_row owned_row | r |]; cbn in H.
  - apply AddNode_spec in H as (k & n & _ & _ & ->). reflexivity.
  - apply AddEdge_spec in H as (a & b & n & m & _ & _ & _ & _ & ->). reflexivity.
  - unfold MarkRoot in H. inv_binds H.
    rename x0 into sa, Hx0 into Hreach, x1 into n, Hx1 into Hn.
    apply get_node_Ok in Hn.
    pose proof (ReachableNode_frame _ _ _ _ Hreach) as Hframe.
    assert (Hidle_a : idle sa).
    { destruct Hidle. split; [eapply reach_frame_ok; eassumption |].
      now rewrite (rf_stack _ _ Hframe). }
    apply (search_from_idle _ _ _ _ _ Hidle_a Hn) in H as (_ & _ & _ & Hlog).
    rewrite Hlog. eapply ReachableNode_log; exact Hreach.
  - apply CalculateRetained_spec in H as [H _].
    apply (sweep_idle _ _ _ Hidle) in H as (_ & _ & _ & Hlog). now rewrite Hlog.
Qed.

Lemma calls_log (calls : list call) :
  forall st st', idle st -> foldM do_call calls st = Ok st' ->
    reachable_calls (delegate_ st) `prefix_of` reachable_calls (delegate_ st').
Proof.
  induction calls as [| c calls IH]; intros st st' Hidle H; cbn in H.
  - injection H as <-. reflexivity.
  - inv_binds H. rename x into s1, Hx into Hcall.
    pose proof (do_call_idle _ _ _ Hidle Hcall) as [Hidle1 _].
    etransitivity; [eapply do_call_log; eassumption | eapply IH; eassumption].
Qed.

(** *** Only what a root reaches is marked *)

Lemma ReachableNode_sound (fuel : nat) :
  forall st node st',
    ReachableNode fuel st node = Ok st' ->
    forall i, flagged (nodes_ st') i ->
      flagged (nodes_ st) i \/ reaches (nodes_ st) node i.
Proof.
  induction fuel as [| fuel IH]; intros st node st' H; cbn in H; [discriminate |].
  inv_binds H. rename x into n, Hx into Hn. apply get_node_Ok in Hn.
  pose proof (lookup_lt_Some _ _ _ Hn) as Hlt.
  destruct (reachable n) eqn:Er; [injection H as <-; auto |].
  pose proof (mark_frame st node n (MarkReachable (row n)) Hn Er) as Hmark.
  set (st1 := set_nodes _ _) in *.
  assert (Hloop : forall i, flagged (nodes_ st') i ->
            flagged (nodes_ st1) i
            \/ exists c, c ∈ children n /\ reaches (nodes_ st) c i).
  { revert H.
    apply (foldM_Ok_inv _ (fun s =>
             reach_frame st1 s
             /\ forall i, flagged (nodes_ s) i ->
                  flagged (nodes_ st1) i
                  \/ exists c, c ∈ children n /\ reaches (nodes_ st) c i)).
    - intros s a s' Ha [Hfr Hs] Hcall. split.
      + eapply reach_frame_trans; [exact Hfr |].
        eapply ReachableNode_frame; exact Hcall.
      + intros i Hi. destruct (IH _ _ _ Hcall i Hi) as [Hold | Hnew]; [auto |].
        right. exists a. split; [exact Ha |].
        eapply reaches_mono; [| exact Hnew].
        intros x y.
        rewrite (only_reachable_children_of _ _ x
                   (rf_nodes _ _ (reach_frame_trans _ _ _ Hmark Hfr))).
        auto.
    - split; [apply reach_frame_refl | auto]. }
  intros i Hi. destruct (Hloop i Hi) as [(m & Hm & Hmr) | (c & Hc & Hreach)].
  - unfold st1 in Hm. cbn in Hm. destruct (decide (node = i)) as [<- | Hne].
    + right. apply reaches_here.
    + rewrite list_lookup_insert_ne in Hm by assumption. left. exists m. auto.
  - right. eapply reaches_child; [| exact Hreach].
    unfold children_of. now rewrite Hn.
Qed.

Lemma flagged_insert (nodes : list Node) (i : nat) (n n' : Node) (j : nat) :
  nodes !! i = Some n -> reachable n' = reachable n ->
  flagged (<[i := n']> nodes) j -> flagged nodes j.
Proof.
  intros Hn Hr (m & Hm & Hmr). destruct (decide (i = j)) as [<- | Hne].
  - rewrite list_lookup_insert_eq in Hm by (eapply lookup_lt_Some; eassumption).
    injection Hm as <-. exists n. split; [assumption | congruence].
  - rewrite list_lookup_insert_ne in Hm by assumption. exists m. auto.
Qed.

Lemma flagged_extend (nodes : list Node) (k : nat) (j : nat) :
  flagged (nodes ++ replicate k default_node) j -> flagged nodes j.
Proof.
  intros (m & Hm & Hmr). apply lookup_app_Some in Hm as [Hm | [_ Hm]].
  - exists m. auto.
  - apply lookup_replicate in Hm as [-> _]. discriminate Hmr.
Qed.

Lemma flagged_step (l l' : list Node) (j : nat) :
  Forall2 node_step l l' -> flagged l' j -> flagged l j.
Proof.
  intros Hs (m & Hm & Hmr).
  destruct (Forall2_lookup_r _ _ _ _ _ Hs Hm) as (m0 & Hm0 & (_ & _ & _ & _ & Hr) & _).
  exists m0. split; [assumption | congruence].
Qed.

(** What a call does to the edges and to the marks. *)
Lemma do_call_marks (st : Walker) (c : call) (st' : Walker) :
  idle st -> do_call st c = Ok st' ->
  (forall i j, j ∈ children_of (nodes_ st) i -> j ∈ children_of (nodes_ st') i)
  /\ forall i, flagged (nodes_ st') i ->
       flagged (nodes_ st) i
       \/ exists r, c = CallMarkRoot r /\ reaches (nodes_ st') (Z.to_nat r) i.
Proof.
  intros Hidle H.
  destruct c as [r size | owner_row owned_row | r |].
  - cbn in H. apply AddNode_spec in H as (k & n & _ & Hn & ->). cbn. split.
    + destruct (extend_same_graph (nodes_ st) k) as (_ & E2 & _).
      destruct (insert_same_graph _ (Z.to_nat r) n (set_size_row size r n) Hn
                  eq_refl eq_refl eq_refl) as (_ & I2 & _).
      intros i j. now rewrite I2, E2.
    + intros i Hi. left. eapply flagged_extend, flagged_insert; [exact Hn | | exact Hi].
      reflexivity.
  - cbn in H.
    apply AddEdge_spec in H as (owner & owned & n & m & _ & _ & Hn & Hm & ->).
    destruct (AddEdge_graph _ _ _ _ _ Hn Hm) as (_ & _ & Hch & _).
    cbn [nodes_ set_nodes]. split.
    + intros i j Hj. rewrite Hch. destruct (decide (i = owner)) as [-> |]; [| exact Hj].
      apply set_emplace_elem. now right.
    + intros i Hi. left.
      eapply flagged_insert in Hi; [| exact Hm | reflexivity].
      eapply flagged_insert in Hi; [exact Hi | exact Hn | reflexivity].
  - pose proof (search_call_edges st (CallMarkRoot r) st' Hidle eq_refl H) as Hedges.
    destruct (same_edges_of _ _ Hedges) as [Hch _].
    split; [intros i j; now rewrite Hch |].
    cbn in H. unfold MarkRoot in H. inv_binds H.
    rename x into node, Hx into Hnode, x0 into sa, Hx0 into Hreach,
           x1 into n, Hx1 into Hn.
    apply node_of_row_Ok in Hnode as (_ & -> & _). apply get_node_Ok in Hn.
    pose proof (ReachableNode_frame _ _ _ _ Hreach) as Hframe.
    assert (Hidle_a : idle sa).
    { destruct Hidle. split; [eapply reach_frame_ok; eassumption |].
      now rewrite (rf_stack _ _ Hframe). }
    apply (search_from_idle _ _ _ _ _ Hidle_a Hn) in H as (_ & Hs & _).
    intros i Hi. apply (flagged_step _ _ _ Hs) in Hi.
    destruct (ReachableNode_sound _ _ _ _ Hreach i Hi) as [Hold | Hnew]; [auto |].
    right. exists r. split; [reflexivity |].
    eapply reaches_mono; [| exact Hnew]. intros x y. now rewrite Hch.
  - pose proof (search_call_edges st CallCalculateRetained st' Hidle eq_refl H)
      as Hedges.
    destruct (same_edges_of _ _ Hedges) as [Hch _].
    split; [intros i j; now rewrite Hch |].
    cbn in H. apply CalculateRetained_spec in H as [H _].
    apply (sweep_idle _ _ _ Hidle) in H as (_ & Hs & _).
    intros i Hi. left. eapply flagged_step; eassumption.
Qed.

Lemma calls_rooted (calls : list call) :
  forall (R : nat -> Prop) st st',
    idle st -> foldM do_call calls st = Ok st' ->
    rooted R (nodes_ st) ->
    rooted (fun i => R i \/ marked_root calls i) (nodes_ st').
Proof.
  induction calls as [| c calls IH]; intros R st st' Hidle H Hroot; cbn in H.
  - injection H as <-. intros i Hi. destruct (Hroot i Hi) as (r & Hr & Hreach).
    exists r. auto.
  - inv_binds H. rename x into s1, Hx into Hcall.
    pose proof (do_call_idle _ _ _ Hidle Hcall) as [Hidle1 _].
    destruct (do_call_marks _ _ _ Hidle Hcall) as [Hmono Hmarks].
    assert (Hroot1 : rooted (fun i => R i \/ marked_root [c] i) (nodes_ s1)).
    { intros i Hi. destruct (Hmarks i Hi) as [Hold | (r & -> & Hreach)].
      - destruct (Hroot i Hold) as (r & Hr & Hreach). exists r.
        split; [now left | eapply reaches_mono; eassumption].
      - exists (Z.to_nat r). split; [| exact Hreach].
        right. exists r. split; [left | reflexivity]. }
    intros i Hi. destruct (IH _ _ _ Hidle1 H Hroot1 i Hi) as (r & Hr & Hreach).
    exists r. split; [| exact Hreach].
    destruct Hr as [[Hr | (r' & Hin & Heq)] | (r' & Hin & Heq)]; [now left | |];
      right; exists r'; (split; [| exact Heq]).
    + apply list_elem_of_singleton in Hin as ->. left.
    + now right.
Qed.

(** C8, amended: in every run in which the rows given to [AddEdge] and
    [MarkRoot] were registered by [AddNode] before and no [AddNode]
    resizes the node table once an edge has been added, the delegate's
    [MarkReachable] is called at most once per row, and only for the row
    of a node that a marked root reaches; and at every moment [pre] of the
    run before which no edge was added after a root had been marked, it
    has been called for the row of every node that a root marked so far
    reaches: each such node gets its one call while the first [MarkRoot]
    whose root reaches it runs, and the rest of the run, [post], only
    adds calls for other rows. *)
Theorem reachable_marked_once (pre post : list call) (st : Walker) :
  rows_registered [] (pre ++ post) = true ->
  table_stable 0 false (pre ++ post) = true ->
  run (pre ++ post) = Ok st ->
  NoDup (reachable_calls (delegate_ st))
  /\ exists st0,
       run pre = Ok st0
       /\ reachable_calls (delegate_ st0) `prefix_of` reachable_calls (delegate_ st)
       /\ (forall z, z ∈ reachable_calls (delegate_ st0) ->
             exists r, CallMarkRoot r ∈ pre
               /\ reaches (nodes_ st0) (Z.to_nat r) (Z.to_nat z))
       /\ (edges_before_roots pre = true ->
           forall r i n, CallMarkRoot r ∈ pre ->
             reaches (nodes_ st0) (Z.to_nat r) i -> nodes_ st0 !! i = Some n ->
             row n ∈ reachable_calls (delegate_ st0)).
Proof.
  intros Hreg _ H.
  destruct (calls_reach _ _ _ _ empty_walker_reach_state Hreg H) as (Hinv & _).
  split; [apply (ri_nodup _ Hinv) |].
  destruct (run_split _ _ _ H) as (st0 & Hpre & Hpost).
  pose proof (rows_registered_app _ _ _ Hreg) as Hreg0.
  destruct (calls_reach _ _ _ _ empty_walker_reach_state Hreg0 Hpre) as (Hinv0 & _).
  destruct (calls_idle _ _ _ empty_walker_idle Hpre) as [Hidle0 _].
  assert (Hno : no_flags (nodes_ empty_walker)).
  { intros j (m & Hm & _). cbn in Hm. rewrite lookup_nil in Hm. discriminate. }
  exists st0. split; [exact Hpre |]. split; [| split].
  - eapply calls_log; eassumption.
  - intros z Hz. apply (ri_log _ Hinv0) in Hz as (i & -> & Hi).
    assert (Hroot0 : rooted (fun _ => False) (nodes_ empty_walker)).
    { intros j Hj. exfalso. exact (Hno j Hj). }
    destruct (calls_rooted _ _ _ _ empty_walker_idle Hpre Hroot0 i Hi)
      as (r0 & [[] | (r & Hin & <-)] & Hreach).
    exists r. rewrite Nat2Z.id. auto.
  - intros Hef r i n Hr Hreach Hn.
    destruct (calls_edges_first _ _ _ _ empty_walker_reach_state Hreg0 Hef Hno Hpre)
      as (Hcl & Hroots).
    pose proof (closed_reaches _ _ _ Hcl Hreach (Hroots _ Hr)) as (m & Hm & Hmr).
    assert (m = n) as -> by congruence.
    apply (ri_log _ Hinv0). exists i. split; [apply (ri_flagged _ Hinv0); assumption |].
    exists n. auto.
Qed.

Lemma reachable_marked_once_witness :
  rows_registered []
    ([CallAddNode 0 1; CallAddNode 1 1; CallAddNode 2 1; CallAddEdge 0 1;
      CallAddEdge 2 1; CallMarkRoot 0] ++ [CallMarkRoot 2; CallMarkRoot 0]) = true
  /\ table_stable 0 false
       ([CallAddNode 0 1; CallAddNode 1 1; CallAddNode 2 1; CallAddEdge 0 1;
         CallAddEdge 2 1; CallMarkRoot 0] ++ [CallMarkRoot 2; CallMarkRoot 0]) = true
  /\ edges_before_roots
       [CallAddNode 0 1; CallAddNode 1 1; CallAddNode 2 1; CallAddEdge 0 1;
        CallAddEdge 2 1; CallMarkRoot 0] = true
  /\ exists st,
       run ([CallAddNode 0 1; CallAddNode 1 1; CallAddNode 2 1; CallAddEdge 0 1;
             CallAddEdge 2 1; CallMarkRoot 0] ++ [CallMarkRoot 2; CallMarkRoot 0])
       = Ok st
       /\ NoDup (reachable_calls (delegate_ st))
       /\ exists st0,
            run [CallAddNode 0 1; CallAddNode 1 1; CallAddNode 2 1; CallAddEdge 0 1;
                 CallAddEdge 2 1; CallMarkRoot 0] = Ok st0
            /\ reachable_calls (delegate_ st0)
               `prefix_of` reachable_calls (delegate_ st)
            /\ (forall z, z ∈ reachable_calls (delegate_ st0) ->
                  exists r,
                    CallMarkRoot r ∈ [CallAddNode 0 1; CallAddNode 1 1;
                                      CallAddNode 2 1; CallAddEdge 0 1;
                                      CallAddEdge 2 1; CallMarkRoot 0]
                    /\ reaches (nodes_ st0) (Z.to_nat r) (Z.to_nat z))
            /\ (edges_before_roots
                  [CallAddNode 0 1; CallAddNode 1 1; CallAddNode 2 1;
                   CallAddEdge 0 1; CallAddEdge 2 1; CallMarkRoot 0] = true ->
                forall r i n,
                  CallMarkRoot r ∈ [CallAddNode 0 1; CallAddNode 1 1;
                                    CallAddNode 2 1; CallAddEdge 0 1;
                                    CallAddEdge 2 1; CallMarkRoot 0] ->
                  reaches (nodes_ st0) (Z.to_nat r) i -> nodes_ st0 !! i = Some n ->
                  row n ∈ reachable_calls (delegate_ st0)).
Proof.
  split; [reflexivity |]. split; [reflexivity |]. split; [reflexivity |].
  set (pre := [CallAddNode 0 1; CallAddNode 1 1; CallAddNode 2 1; CallAddEdge 0 1;
               CallAddEdge 2 1; CallMarkRoot 0]).
  set (post := [CallMarkRoot 2; CallMarkRoot 0]).
  destruct (run (pre ++ post)) as [st |] eqn:E; [| vm_compute in E; discriminate E].
  exists st. split; [reflexivity |].
  exact (reachable_marked_once pre post st eq_refl eq_refl E).
Defined.

(** ** Resizing the table under the edges *)

(** Once an edge holds the address of a node, an [AddNode] that has to
    resize the table leaves that address dangling: the model stops
    there. *)
Lemma resize_after_edge_stops :
  run [CallAddNode 0 1; CallAddNode 1 1; CallAddEdge 0 1; CallAddNode 2 1]
  = Err DanglingPointer
  /\ table_stable 0 false
       [CallAddNode 0 1; CallAddNode 1 1; CallAddEdge 0 1; CallAddNode 2 1]
     = false.
Proof. split; reflexivity. Qed.


(** ** Gcd, Lcm and the fractions, without overflow *)

Lemma wrap64_small (z : Z) : 0 <= z < 2 ^ 64 -> wrap64 z = z.
Proof. intros H. unfold wrap64. now apply Z.mod_small. Qed.

(** X1: on 64-bit operands [Gcd] returns the greatest common divisor; in
    particular [Gcd 0 x] and [Gcd x 0] are [x], and the loop ends. *)
Theorem Gcd_correct (one other : Z) :
  0 <= one < 2 ^ 64 -> 0 <= other < 2 ^ 64 ->
  Gcd one other = Z.gcd one other
  /\ (Gcd one other | one) /\ (Gcd one other | other)
  /\ (forall c, (c | one) -> (c | other) -> (c | Gcd one other)).
Proof.
  intros Hone Hother. rewrite Gcd_is_gcd by assumption.
  split; [reflexivity |]. split; [apply Z.gcd_divide_l |].
  split; [apply Z.gcd_divide_r |]. intros c. apply Z.gcd_greatest.
Qed.

Lemma Gcd_correct_witness :
  Gcd 12 18 = Z.gcd 12 18
  /\ (Gcd 12 18 | 12) /\ (Gcd 12 18 | 18)
  /\ (forall c, (c | 12) -> (c | 18) -> (c | Gcd 12 18)).
Proof. apply (Gcd_correct 12 18); lia. Defined.

Lemma lcm_formula (a b : Z) :
  0 <= a -> 0 <= b -> a * (b / Z.gcd a b) = Z.lcm a b.
Proof.
  intros Ha Hb. unfold Z.lcm. rewrite Z.abs_eq; [reflexivity |].
  apply Z.mul_nonneg_nonneg; [assumption |].
  pose proof (Z.gcd_nonneg a b).
  destruct (Z.eq_dec (Z.gcd a b) 0) as [-> | Hne]; [now rewrite Z.div_0_r |].
  apply Z.div_pos; lia.
Qed.

Lemma Lcm_fits (one other : Z) :
  0 <= one < 2 ^ 64 -> 0 <= other < 2 ^ 64 ->
  one <> 0 \/ other <> 0 ->
  Z.lcm one other < 2 ^ 64 ->
  Lcm one other = Ok (Z.lcm one other).
Proof.
  intros Hone Hother Hnz Hfit. unfold Lcm. rewrite Gcd_is_gcd by assumption.
  assert (Hg : Z.gcd one other <> 0).
  { intros E. pose proof (Z.gcd_eq_0_l _ _ E). pose proof (Z.gcd_eq_0_r _ _ E). lia. }
  rewrite !udiv_Ok by assumption.
  pose proof (Z.lcm_nonneg one other).
  destruct (Z.gtb_spec one other); cbn [bind]; f_equal.
  - rewrite (Z.gcd_comm one other), lcm_formula, (Z.lcm_comm other one) by lia.
    apply wrap64_small. lia.
  - rewrite lcm_formula by lia. apply wrap64_small. lia.
Qed.

(** X2: on 64-bit operands that are not both zero and whose least
    common multiple fits in 64 bits, [Lcm] returns the least common
    multiple: a multiple of both that divides every common multiple. *)
Theorem Lcm_correct (one other : Z) :
  0 <= one < 2 ^ 64 -> 0 <= other < 2 ^ 64 ->
  one <> 0 \/ other <> 0 ->
  Z.lcm one other < 2 ^ 64 ->
  exists l, Lcm one other = Ok l
    /\ l = Z.lcm one other
    /\ (one | l) /\ (other | l)
    /\ (forall c, (one | c) -> (other | c) -> (l | c)).
Proof.
  intros Hone Hother Hnz Hfit. exists (Z.lcm one other).
  split; [now apply Lcm_fits |]. split; [reflexivity |].
  split; [apply Z.divide_lcm_l |]. split; [apply Z.divide_lcm_r |].
  intros c. apply Z.lcm_least.
Qed.

Lemma Lcm_correct_witness :
  exists l, Lcm 4 6 = Ok l
    /\ l = Z.lcm 4 6
    /\ (4 | l) /\ (6 | l)
    /\ (forall c, (4 | c) -> (6 | c) -> (l | c)).
Proof. apply (Lcm_correct 4 6); [lia | lia | lia | reflexivity]. Defined.

(** *** The constructor *)

Lemma Reduce_lowest (n d : Z) :
  0 <= n < 2 ^ 64 -> 0 < d < 2 ^ 64 ->
  Fraction.Reduce (mkFraction n d)
  = Ok (mkFraction (n / Z.gcd n d) (d / Z.gcd n d)).
Proof.
  intros Hn Hd. unfold Fraction.Reduce. cbn [numerator_ denominator_].
  destruct (Z.eqb_spec n 0) as [-> | H0].
  - rewrite Z.gcd_0_l, Z.abs_eq, Z.div_0_l, Z.div_same by lia. reflexivity.
  - destruct (Z.eqb_spec n 1) as [-> | H1].
    + rewrite Z.gcd_1_l, !Z.div_1_r. reflexivity.
    + rewrite Gcd_is_gcd by lia.
      pose proof (Z.gcd_nonneg n d) as Hg.
      assert (Hg' : Z.gcd n d <> 0)
        by (intros E; apply Z.gcd_eq_0_l in E; contradiction).
      rewrite !udiv_Ok by assumption. cbn [bind].
      assert (Hpos : 0 < d / Z.gcd n d).
      { apply Z.div_str_pos. split; [lia |].
        apply Z.divide_pos_le; [lia | apply Z.gcd_divide_r]. }
      destruct (Z.gtb_spec (d / Z.gcd n d) 0); [reflexivity | lia].
Qed.

Lemma make_Reduce (n d : Z) :
  0 < d -> Fraction.make n d = Fraction.Reduce (mkFraction n d).
Proof.
  intros Hd. unfold Fraction.make.
  destruct (Z.gtb_spec d 0); [reflexivity | lia].
Qed.

Lemma lowest_terms_form (x y : Z) :
  0 <= x -> 0 < y ->
  exists g a b, 0 < g /\ x = a * g /\ y = b * g /\ 0 <= a /\ 0 < b
    /\ Z.gcd a b = 1 /\ x / Z.gcd x y = a /\ y / Z.gcd x y = b.
Proof.
  intros Hx Hy.
  pose proof (Z.gcd_nonneg x y) as Hg.
  assert (Hg' : Z.gcd x y <> 0)
    by (intros E; apply Z.gcd_eq_0_r in E; lia).
  destruct (Z.gcd_divide_l x y) as [a Ha], (Z.gcd_divide_r x y) as [b Hb].
  exists (Z.gcd x y), a, b.
  assert (Hqa : x / Z.gcd x y = a) by (rewrite Ha at 1; now apply Z.div_mul).
  assert (Hqb : y / Z.gcd x y = b) by (rewrite Hb at 1; now apply Z.div_mul).
  repeat split; try assumption; try lia; try nia.
  rewrite <- Hqa, <- Hqb. apply Z.gcd_div_gcd; [assumption | reflexivity].
Qed.

(** Two fractions of the same value have the same lowest terms. *)
Lemma lowest_terms_unique (n d n' d' : Z) :
  0 <= n -> 0 < d -> 0 <= n' -> 0 < d' ->
  n * d' = n' * d ->
  n / Z.gcd n d = n' / Z.gcd n' d' /\ d / Z.gcd n d = d' / Z.gcd n' d'.
Proof.
  intros Hn Hd Hn' Hd' Hcross.
  destruct (lowest_terms_form n d Hn Hd)
    as (g & a & b & Hg & Ea & Eb & Ha & Hb & Hab & -> & ->).
  destruct (lowest_terms_form n' d' Hn' Hd')
    as (g' & a' & b' & Hg' & Ea' & Eb' & Ha' & Hb' & Hab' & -> & ->).
  assert (Hx : a * b' = a' * b).
  { subst n d n' d'.
    apply (Z.mul_cancel_r _ _ (g * g')); [nia |]. nia. }
  assert (Hbb : b = b').
  { apply Z.divide_antisym_nonneg; try lia.
    - apply (Z.gauss b a b'); [exists a'; lia | now rewrite Z.gcd_comm].
    - apply (Z.gauss b' a' b); [exists a; lia | now rewrite Z.gcd_comm]. }
  subst b'. split; [| reflexivity].
  apply (Z.mul_cancel_r _ _ b); lia.
Qed.

(** X3: the constructor stores the fraction in lowest terms (so [0/1]
    for a zero numerator), and two fractions are stored alike exactly
    when they have the same value. *)
Theorem make_lowest_terms (n d n' d' : Z) :
  0 <= n < 2 ^ 64 -> 0 < d < 2 ^ 64 ->
  0 <= n' < 2 ^ 64 -> 0 < d' < 2 ^ 64 ->
  Fraction.make n d = Ok (mkFraction (n / Z.gcd n d) (d / Z.gcd n d))
  /\ (Fraction.make n d = Fraction.make n' d' <-> n * d' = n' * d).
Proof.
  intros Hn Hd Hn' Hd'.
  rewrite !make_Reduce, !Reduce_lowest by lia.
  split; [reflexivity |]. split.
  - intros [= E1 E2].
    destruct (lowest_terms_form n d ltac:(lia) ltac:(lia))
      as (g & a & b & Hg & Ea & Eb & _ & _ & _ & Ha & Hb).
    destruct (lowest_terms_form n' d' ltac:(lia) ltac:(lia))
      as (g' & a' & b' & Hg' & Ea' & Eb' & _ & _ & _ & Ha' & Hb').
    rewrite Ha, Ha' in E1. rewrite Hb, Hb' in E2. subst a' b'.
    rewrite Ea, Eb, Ea', Eb'. ring.
  - intros Hcross.
    destruct (lowest_terms_unique n d n' d') as [-> ->]; try lia. reflexivity.
Qed.

Lemma make_lowest_terms_witness :
  Fraction.make 2 4 = Ok (mkFraction (2 / Z.gcd 2 4) (4 / Z.gcd 2 4))
  /\ (Fraction.make 2 4 = Fraction.make 3 6 <-> 2 * 6 = 3 * 4).
Proof. apply (make_lowest_terms 2 4 3 6); lia. Defined.

(** *** The operations *)

Lemma Reduce_value (n d : Z) :
  0 <= n < 2 ^ 64 -> 0 < d < 2 ^ 64 ->
  exists h, Fraction.Reduce (mkFraction n d) = Ok h
    /\ numerator_ h * d = n * denominator_ h
    /\ 0 <= numerator_ h /\ 0 < denominator_ h <= d
    /\ Z.gcd (numerator_ h) (denominator_ h) = 1.
Proof.
  intros Hn Hd. rewrite Reduce_lowest by assumption.
  destruct (lowest_terms_form n d ltac:(lia) ltac:(lia))
    as (g & a & b & Hg & Ea & Eb & Ha & Hb & Hab & Hqa & Hqb).
  eexists. split; [reflexivity |]. cbn [numerator_ denominator_].
  rewrite Hqa, Hqb. repeat split; try assumption; try nia.
Qed.

(** X4: when the least common multiple of the denominators and the sum
    of the scaled numerators fit in 64 bits, [operator+=] is the addition
    of rationals, and its result is in lowest terms. *)
Theorem add_exact (a b : Fraction) :
  0 <= numerator_ a -> 0 < denominator_ a < 2 ^ 64 ->
  0 <= numerator_ b -> 0 < denominator_ b < 2 ^ 64 ->
  Z.lcm (denominator_ a) (denominator_ b) < 2 ^ 64 ->
  numerator_ a * (Z.lcm (denominator_ a) (denominator_ b) / denominator_ a)
  + numerator_ b * (Z.lcm (denominator_ a) (denominator_ b) / denominator_ b)
    < 2 ^ 64 ->
  exists h, Fraction.add a b = Ok h
    /\ numerator_ h * (denominator_ a * denominator_ b)
       = (numerator_ a * denominator_ b + numerator_ b * denominator_ a)
         * denominator_ h
    /\ 0 < denominator_ h
    /\ Z.gcd (numerator_ h) (denominator_ h) = 1.
Proof.
  destruct a as [n1 d1], b as [n2 d2]. cbn [numerator_ denominator_].
  intros Hn1 Hd1 Hn2 Hd2 HL HN. unfold Fraction.add. cbn [numerator_ denominator_].
  rewrite Lcm_fits by (try lia; exact HL).
  set (L := Z.lcm d1 d2) in *. cbn [bind].
  rewrite !udiv_Ok by lia. cbn [bind].
  assert (HLpos : 0 < L).
  { pose proof (Z.lcm_nonneg d1 d2).
    assert (L <> 0) by (unfold L; rewrite Z.lcm_eq_0; lia). lia. }
  assert (Hq1 : 0 <= L / d1) by (apply Z.div_pos; lia).
  assert (Hq2 : 0 <= L / d2) by (apply Z.div_pos; lia).
  assert (Hm1 : 0 <= n1 * (L / d1)) by nia.
  assert (Hm2 : 0 <= n2 * (L / d2)) by nia.
  rewrite !wrap64_small by (rewrite ?wrap64_small by lia; lia).
  destruct (Reduce_value (n1 * (L / d1) + n2 * (L / d2)) L ltac:(lia) ltac:(lia))
    as (h & -> & Hval & Hnn & Hden & Hgcd).
  exists h. split; [reflexivity |]. split; [| split; [lia | exact Hgcd]].
  destruct (Z.divide_lcm_l d1 d2) as [q1 E1], (Z.divide_lcm_r d1 d2) as [q2 E2].
  fold L in E1, E2.
  assert (L / d1 = q1) as Hd1q by (rewrite E1; apply Z.div_mul; lia).
  assert (L / d2 = q2) as Hd2q by (rewrite E2; apply Z.div_mul; lia).
  rewrite Hd1q, Hd2q in Hval.
  clearbody L. apply (Z.mul_cancel_r _ _ L); [lia |].
  transitivity (numerator_ h * L * (d1 * d2)); [ring |].
  rewrite Hval.
  transitivity ((n1 * d2 * L + n2 * d1 * L) * denominator_ h); [| ring].
  replace (n1 * d2 * L) with (n1 * d2 * (q1 * d1)) by (now rewrite <- E1).
  replace (n2 * d1 * L) with (n2 * d1 * (q2 * d2)) by (now rewrite <- E2).
  ring.
Qed.

Lemma add_exact_witness :
  exists h, Fraction.add (mkFraction 1 4) (mkFraction 1 6) = Ok h
    /\ numerator_ h * (4 * 6) = (1 * 6 + 1 * 4) * denominator_ h
    /\ 0 < denominator_ h
    /\ Z.gcd (numerator_ h) (denominator_ h) = 1.
Proof.
  apply (add_exact (mkFraction 1 4) (mkFraction 1 6)); cbn; try lia; reflexivity.
Defined.

(** X5: when the products of the numerators and of the denominators fit
    in 64 bits, [operator*] is the multiplication of rationals, and its
    result is in lowest terms. *)
Theorem mul_exact (a b : Fraction) :
  0 <= numerator_ a -> 0 < denominator_ a ->
  0 <= numerator_ b -> 0 < denominator_ b ->
  numerator_ a * numerator_ b < 2 ^ 64 ->
  denominator_ a * denominator_ b < 2 ^ 64 ->
  exists h, Fraction.mul a b = Ok h
    /\ numerator_ h * (denominator_ a * denominator_ b)
       = numerator_ a * numerator_ b * denominator_ h
    /\ 0 < denominator_ h
    /\ Z.gcd (numerator_ h) (denominator_ h) = 1.
Proof.
  destruct a as [n1 d1], b as [n2 d2]. cbn [numerator_ denominator_].
  intros Hn1 Hd1 Hn2 Hd2 HN HD. unfold Fraction.mul. cbn [numerator_ denominator_].
  assert (0 <= n1 * n2) by nia. assert (0 < d1 * d2) by nia.
  rewrite !wrap64_small, make_Reduce by lia.
  destruct (Reduce_value (n1 * n2) (d1 * d2) ltac:(lia) ltac:(lia))
    as (h & -> & Hval & Hnn & Hden & Hgcd).
  exists h. repeat split; try assumption; lia.
Qed.

Lemma mul_exact_witness :
  exists h, Fraction.mul (mkFraction 2 3) (mkFraction 3 4) = Ok h
    /\ numerator_ h * (3 * 4) = 2 * 3 * denominator_ h
    /\ 0 < denominator_ h
    /\ Z.gcd (numerator_ h) (denominator_ h) = 1.
Proof.
  apply (mul_exact (mkFraction 2 3) (mkFraction 3 4)); cbn; lia.
Defined.

(** X6: a fraction built by the constructor compares equal to the
    integer [k] exactly when its numerator was [k] times its denominator;
    with [k = 1], when the numerator was the denominator. *)
Theorem make_eq_int (n d k : Z) (f : Fraction) :
  0 <= n < 2 ^ 64 -> 0 < d < 2 ^ 64 -> 0 <= k -> d * k < 2 ^ 64 ->
  Fraction.make n d = Ok f ->
  (Fraction.eq_int f k = true <-> n = d * k).
Proof.
  intros Hn Hd Hk Hdk Hmake.
  rewrite make_Reduce, Reduce_lowest in Hmake by lia.
  injection Hmake as <-. unfold Fraction.eq_int. cbn [numerator_ denominator_].
  destruct (lowest_terms_form n d ltac:(lia) ltac:(lia))
    as (g & a & b & Hg & Ea & Eb & Ha & Hb & Hab & -> & ->).
  rewrite wrap64_small by nia. rewrite Z.eqb_eq. subst n d. split; nia.
Qed.

Lemma make_eq_int_witness :
  Fraction.eq_int (mkFraction 1 1) 1 = true <-> 3 = 3 * 1.
Proof.
  apply (make_eq_int 3 3 1 (mkFraction 1 1)); try lia. reflexivity.
Defined.

(** *** Overflow *)

Lemma wrap64_range (z : Z) : 0 <= wrap64 z < 2 ^ 64.
Proof. unfold wrap64. apply Z.mod_pos_bound. lia. Qed.

Lemma add_returns (a b : Fraction) :
  fraction_ok a -> fraction_ok b -> returns (Fraction.add a b) fraction_ok.
Proof.
  intros [Ha1 Ha2] [Hb1 Hb2]. unfold Fraction.add, Lcm.
  assert (Hg : 0 < Gcd (denominator_ a) (denominator_ b))
    by (apply Gcd_pos; lia).
  set (L := if denominator_ a >? denominator_ b
            then wrap64 (denominator_ b * (denominator_ a / Gcd (denominator_ a) (denominator_ b)))
            else wrap64 (denominator_ a * (denominator_ b / Gcd (denominator_ a) (denominator_ b)))).
  assert (HL : (if denominator_ a >? denominator_ b
                then let* q := udiv (denominator_ a) (Gcd (denominator_ a) (denominator_ b)) in
                     Ok (wrap64 (denominator_ b * q))
                else let* q := udiv (denominator_ b) (Gcd (denominator_ a) (denominator_ b)) in
                     Ok (wrap64 (denominator_ a * q))) = Ok L).
  { unfold L. destruct (denominator_ a >? denominator_ b);
      rewrite udiv_Ok by lia; reflexivity. }
  rewrite HL. cbn [bind]. rewrite !udiv_Ok by lia. cbn [bind].
  assert (HLr : 0 <= L < 2 ^ 64) by (unfold L; destruct (_ >? _); apply wrap64_range).
  destruct (decide (L = 0)) as [HL0 | HLn].
  - rewrite HL0. rewrite !Z.div_0_l by lia. rewrite !Z.mul_0_r.
    replace (wrap64 (wrap64 0 + wrap64 0)) with 0 by reflexivity.
    cbn. unfold fraction_ok. cbn. lia.
  - match goal with |- context [mkFraction ?N L] =>
      destruct (Reduce_value N L (wrap64_range _) ltac:(lia))
        as (h & -> & _ & Hnn & Hden & _) end.
    cbn. split; lia.
Qed.

(** X7: however the 64-bit arithmetic overflows, [operator+=] on well
    formed fractions returns a well formed fraction (its denominator is
    positive), and the constructor and [operator*] either return one or
    stop on the denominator check; no operation divides by zero. *)
Theorem fractions_well_formed (a b : Fraction) (n d : Z) :
  fraction_ok a -> fraction_ok b -> 0 <= n ->
  returns (Fraction.add a b) fraction_ok
  /\ safe (Fraction.mul a b) fraction_ok
  /\ safe (Fraction.make n d) fraction_ok.
Proof.
  intros Ha Hb Hn. split; [now apply add_returns |].
  split; [apply mul_safe | now apply make_safe].
Qed.

Lemma fractions_well_formed_witness :
  returns (Fraction.add (mkFraction 1 2) (mkFraction 1 3)) fraction_ok
  /\ safe (Fraction.mul (mkFraction 1 2) (mkFraction 1 3)) fraction_ok
  /\ safe (Fraction.make 5 0) fraction_ok.
Proof.
  apply (fractions_well_formed (mkFraction 1 2) (mkFraction 1 3) 5 0);
    unfold fraction_ok; cbn; lia.
Defined.

(** ** The map from child components to owning nodes *)

(** The entry of [id] once [AddChild] has recorded a batch of [count]
    edges from the node [row]. *)
Lemma AddChild_entry (m : omap Z) (count id row : Z) :
  om_find id (AddChild m count id row)
  = Some (if count >? 1 then -1
          else match om_find id m with
               | None => row
               | Some node => if node =? row then node else -1
               end).
Proof.
  unfold AddChild. destruct (count >? 1); [apply om_find_set_eq |].
  destruct (om_find id m) as [node |] eqn:E; [| apply om_find_set_eq].
  destruct (node =? row); cbn [negb]; [exact E | apply om_find_set_eq].
Qed.

Lemma AddChildren_entry (id row : Z) (batches : list (Z * Z)) :
  row <> -1 ->
  forall m,
  om_find id (AddChildren m id batches) = Some row
  <-> (om_find id m = Some row \/ (om_find id m = None /\ batches <> []))
      /\ Forall (fun b => fst b <= 1 /\ snd b = row) batches.
Proof.
  intros Hrow. induction batches as [| [c r] l IH]; intros m; cbn.
  - split; [intros H; split; [now left | constructor] |].
    intros [[H | [_ H]] _]; [exact H | contradiction].
  - unfold AddChildren in IH. rewrite IH, AddChild_entry. cbn [fst snd].
    rewrite Forall_cons. cbn [fst snd].
    destruct (Z.gtb_spec c 1) as [Hc | Hc].
    + split.
      * intros [[[= E] | [[=] _]] _]. lia.
      * intros [_ [[Hle _] _]]. lia.
    + destruct (om_find id m) as [node |] eqn:E.
      * destruct (Z.eqb_spec node r) as [-> | Hne].
        -- split.
           ++ intros [[[= ->] | [[=] _]] Hall]. auto.
           ++ intros [[[= ->] | [[=] _]] [[_ _] Hall]]. auto.
        -- split.
           ++ intros [[[= E'] | [[=] _]] _]. lia.
           ++ intros [[[= ->] | [[=] _]] [[_ ->] _]]. contradiction.
      * split.
        -- intros [[[= ->] | [[=] _]] Hall].
           split; [right; split; [reflexivity | discriminate] | auto].
        -- intros [_ [[_ ->] Hall]]. auto.
Qed.

(** X8: the entry that [AddChild] keeps for a child component names a
    node exactly when every batch of edges recorded for that component
    was a single edge from that node; a batch of several edges, or two
    batches from different nodes, leave [-1]. *)
Theorem AddChild_names_single_owner (m : omap Z) (id row : Z)
    (batches : list (Z * Z)) :
  row <> -1 -> om_find id m = None -> batches <> [] ->
  (om_find id (AddChildren m id batches) = Some row
   <-> Forall (fun b => fst b <= 1 /\ snd b = row) batches)
  /\ (om_find id (AddChildren m id batches) <> None)
  /\ (forall k, k <> id -> om_find k (AddChildren m id batches) = om_find k m).
Proof.
  intros Hrow Hnone Hne. split; [| split].
  - rewrite (AddChildren_entry id row batches Hrow m). rewrite Hnone. split.
    + now intros [_ H].
    + intros H. split; [right; auto | exact H].
  - destruct batches as [| b l] using rev_ind; [contradiction |].
    unfold AddChildren. rewrite fold_left_app. cbn [fold_left].
    now rewrite AddChild_entry.
  - intros k Hk. clear Hnone Hne. revert m.
    induction batches as [| [c r] l IH]; intros m; cbn; [reflexivity |].
    unfold AddChildren in IH. rewrite IH. unfold AddChild.
    destruct (c >? 1); [now apply om_find_set_ne |].
    destruct (om_find id m) as [node |]; [| now apply om_find_set_ne].
    destruct (negb (node =? r)); [now apply om_find_set_ne | reflexivity].
Qed.

Lemma AddChild_names_single_owner_witness :
  (om_find 7 (AddChildren [] 7 [(1, 3); (1, 3)]) = Some 3
   <-> Forall (fun b => fst b <= 1 /\ snd b = 3) [(1, 3); (1, 3)])
  /\ (om_find 7 (AddChildren [] 7 [(1, 3); (1, 3)]) <> None)
  /\ (forall k, k <> 7 ->
        om_find k (AddChildren [] 7 [(1, 3); (1, 3)]) = om_find k (@nil (Z * Z))).
Proof.
  apply (AddChild_names_single_owner [] 7 3 [(1, 3); (1, 3)]);
    [lia | reflexivity | discriminate].
Defined.

(** X9: [IsUniqueOwner] asked about the batch that [AddChild] has just
    recorded answers yes exactly when the batch is a single edge and the
    component had no entry or the entry of the same node; the answer for
    a batch of several edges is no whatever the map holds. *)
Theorem IsUniqueOwner_after_AddChild (m : omap Z) (count id row : Z) :
  row <> -1 ->
  (IsUniqueOwner (AddChild m count id row) count id row = true
   <-> count <= 1 /\ (om_find id m = None \/ om_find id m = Some row))
  /\ (1 < count -> forall m', IsUniqueOwner m' count id row = false).
Proof.
  intros Hrow. split.
  - unfold IsUniqueOwner. rewrite AddChild_entry.
    destruct (Z.gtb_spec count 1) as [Hc | Hc]; [split; [discriminate | lia] |].
    destruct (om_find id m) as [node |].
    + destruct (Z.eqb_spec node row) as [-> | Hne].
      * rewrite Z.eqb_refl. split; auto.
      * destruct (Z.eqb_spec (-1) row); [lia |]. split; [discriminate |].
        intros [_ [[=] | [= ->]]]. contradiction.
    + rewrite Z.eqb_refl. split; auto.
  - intros Hc m'. unfold IsUniqueOwner.
    destruct (Z.gtb_spec count 1); [reflexivity | lia].
Qed.

Lemma IsUniqueOwner_after_AddChild_witness :
  (IsUniqueOwner (AddChild [] 1 7 3) 1 7 3 = true
   <-> 1 <= 1 /\ (om_find 7 (@nil (Z * Z)) = None \/ om_find 7 (@nil (Z * Z)) = Some 3))
  /\ (1 < 1 -> forall m', IsUniqueOwner m' 1 7 3 = false).
Proof. apply (IsUniqueOwner_after_AddChild [] 1 7 3). lia. Defined.

(** ** The graph store along a run *)

Lemma two_nodes_idle : idle two_nodes.
Proof.
  split; [| reflexivity]. split; cbn.
  - lia.
  - constructor.
  - intros i Hi. inversion Hi.
  - intros i n Hn. destruct i as [| [| i]]; cbn in Hn; [| | discriminate];
      injection Hn as <-; unfold node_ok; cbn; lia.
  - intros c Hc. cbn in Hc. lia.
Qed.

Lemma set_emplace_again (x : nat) (s : list nat) :
  set_emplace x (set_emplace x s) = set_emplace x s.
Proof.
  induction s as [| y s IH]; cbn [set_emplace].
  - now rewrite Nat.ltb_irrefl, Nat.eqb_refl.
  - destruct (Nat.ltb_spec x y) as [E1 | E1];
      [| destruct (Nat.eqb_spec x y) as [E2 | E2]]; cbn [set_emplace].
    + now rewrite Nat.ltb_irrefl, Nat.eqb_refl.
    + destruct (Nat.ltb_spec x y); [lia |].
      destruct (Nat.eqb_spec x y); [reflexivity | contradiction].
    + destruct (Nat.ltb_spec x y); [lia |].
      destruct (Nat.eqb_spec x y); [contradiction |]. now rewrite IH.
Qed.

Lemma set_children_same (n : Node) : set_children (children n) n = n.
Proof. now destruct n. Qed.

Lemma set_parents_same (n : Node) : set_parents (parents n) n = n.
Proof. now destruct n. Qed.

(** X10: adding an edge that is already there changes nothing: the
    second of two equal [AddEdge] calls returns the walker as it is. *)
Theorem AddEdge_idempotent (st st1 : Walker) (owner_row owned_row : Z) :
  AddEdge st owner_row owned_row = Ok st1 ->
  AddEdge st1 owner_row owned_row = Ok st1.
Proof.
  intros H.
  apply AddEdge_spec in H as (owner & owned & n & m & Ho & Ho' & Hn & Hm & ->).
  pose proof (lookup_lt_Some _ _ _ Hn) as Hlt.
  pose proof (lookup_lt_Some _ _ _ Hm) as Hlt'. rewrite length_insert in Hlt'.
  destruct (AddEdge_graph _ _ _ _ _ Hn Hm) as (Hlen & _ & Hch & Hp).
  cbv zeta in Hlen, Hch, Hp.
  set (nodes' := <[owned := _]> _) in *.
  unfold AddEdge, node_of_row in *. cbn [nodes_ set_nodes].
  rewrite Hlen.
  destruct (owner_row <? 0); [discriminate |].
  destruct (Z.to_nat owner_row <? length (nodes_ st))%nat; [| discriminate].
  destruct (owned_row <? 0); [discriminate |].
  destruct (Z.to_nat owned_row <? length (nodes_ st))%nat; [| discriminate].
  injection Ho as ->. injection Ho' as ->. cbn [bind].
  destruct (lookup_lt_is_Some_2 nodes' owner ltac:(lia)) as [n' Hn'].
  unfold get_node. rewrite Hn'. cbn [bind].
  assert (Hcn : set_emplace owned (children n') = children n').
  { specialize (Hch owner). unfold children_of in Hch. rewrite Hn', Hn in Hch.
    destruct (decide (owner = owner)); [| contradiction].
    rewrite Hch. apply set_emplace_again. }
  rewrite Hcn, set_children_same, (list_insert_id _ _ _ Hn').
  destruct (lookup_lt_is_Some_2 nodes' owned ltac:(lia)) as [m' Hm'].
  rewrite Hm'. cbn [bind].
  assert (Hpm : set_emplace owner (parents m') = parents m').
  { specialize (Hp owned). unfold parents_of in Hp. rewrite Hm' in Hp.
    destruct (decide (owned = owned)); [| contradiction].
    rewrite Hp. apply set_emplace_again. }
  rewrite Hpm, set_parents_same, (list_insert_id _ _ _ Hm').
  reflexivity.
Qed.

Lemma AddEdge_idempotent_witness :
  exists st1, AddEdge two_nodes 0 1 = Ok st1 /\ AddEdge st1 0 1 = Ok st1.
Proof.
  eexists. split; [reflexivity |].
  apply (AddEdge_idempotent two_nodes); reflexivity.
Defined.

Lemma edges_inv_same (E : nat -> nat -> Prop) (l l' : list Node) :
  (length l <= length l')%nat ->
  (forall i, children_of l' i = children_of l i) ->
  (forall i, parents_of l' i = parents_of l i) ->
  edges_inv E l -> edges_inv E l'.
Proof.
  intros Hlen Hc Hp [H1 H2 H3 H4 H5]. split.
  - intros i j. rewrite Hc. apply H1.
  - intros i j. rewrite Hp. apply H2.
  - intros i. rewrite Hc. apply H3.
  - intros j. rewrite Hp. apply H4.
  - intros i j Hij. destruct (H5 i j Hij). lia.
Qed.

Lemma do_call_edges (E : nat -> nat -> Prop) (st : Walker) (c : call)
    (st' : Walker) :
  idle st -> do_call st c = Ok st' ->
  edges_inv E (nodes_ st) ->
  edges_inv (fun i j => E i j \/ c = CallAddEdge (Z.of_nat i) (Z.of_nat j))
            (nodes_ st').
Proof.
  intros Hidle H Hinv.
  assert (Hsame : forall l,
            (length (nodes_ st) <= length l)%nat ->
            (forall i, children_of l i = children_of (nodes_ st) i) ->
            (forall i, parents_of l i = parents_of (nodes_ st) i) ->
            is_edge c = false ->
            edges_inv (fun i j => E i j \/ c = CallAddEdge (Z.of_nat i) (Z.of_nat j)) l).
  { intros l Hlen Hc Hp Hne.
    apply (edges_inv_same _ _ _ Hlen Hc Hp).
    destruct Hinv as [H1 H2 H3 H4 H5]. split; try assumption.
    - intros i j. rewrite H1. split; [auto |]. intros [? | ->]; [assumption | discriminate].
    - intros i j. rewrite H2. split; [auto |]. intros [? | ->]; [assumption | discriminate].
    - intros i j [? | ->]; [auto | discriminate]. }
  destruct c as [r size | owner_row owned_row | r |].
  - (* AddNode *)
    cbn in H. apply AddNode_spec in H as (k & n & _ & Hn & ->).
    destruct (extend_same_graph (nodes_ st) k) as (_ & E2 & E3).
    destruct (insert_same_graph _ (Z.to_nat r) n (set_size_row size r n) Hn
                eq_refl eq_refl eq_refl) as (_ & I2 & I3).
    apply Hsame; cbn; [| | | reflexivity].
    + rewrite length_insert, length_app. lia.
    + intros i. now rewrite I2, E2.
    + intros i. now rewrite I3, E3.
  - (* AddEdge *)
    cbn in H.
    apply AddEdge_spec in H as (owner & owned & n & m & Ho & Ho' & Hn & Hm & ->).
    apply node_of_row_Ok in Ho as (Ho0 & -> & Hlt), Ho' as (Ho0' & -> & Hlt').
    destruct (AddEdge_graph _ _ _ _ _ Hn Hm) as (Hlen & _ & Hch & Hp).
    cbn [nodes_ set_nodes]. destruct Hinv as [H1 H2 H3 H4 H5].
    assert (Hcall : forall i j,
              CallAddEdge owner_row owned_row = CallAddEdge (Z.of_nat i) (Z.of_nat j)
              <-> i = Z.to_nat owner_row /\ j = Z.to_nat owned_row).
    { intros i j. split; [intros [= -> ->]; lia | intros [-> ->]].
      now rewrite !Z2Nat.id by lia. }
    split.
    + intros i j. rewrite Hch, Hcall.
      destruct (decide (i = Z.to_nat owner_row)) as [-> |].
      * rewrite set_emplace_elem, H1. tauto.
      * rewrite H1. tauto.
    + intros i j. rewrite Hp, Hcall.
      destruct (decide (j = Z.to_nat owned_row)) as [-> |].
      * rewrite set_emplace_elem, H2. tauto.
      * rewrite H2. tauto.
    + intros i. rewrite Hch. destruct (decide _); [| apply H3].
      apply set_emplace_sorted, H3.
    + intros j. rewrite Hp. destruct (decide _); [| apply H4].
      apply set_emplace_sorted, H4.
    + intros i j. rewrite Hlen, Hcall. intros [Hij | [-> ->]]; auto.
  - (* MarkRoot *)
    pose proof (search_call_edges st (CallMarkRoot r) st' Hidle eq_refl H) as Hs.
    destruct (same_edges_of _ _ Hs) as [Hc Hp].
    apply Hsame; auto. now rewrite (Forall2_length _ _ _ Hs).
  - (* CalculateRetained *)
    pose proof (search_call_edges st CallCalculateRetained st' Hidle eq_refl H) as Hs.
    destruct (same_edges_of _ _ Hs) as [Hc Hp].
    apply Hsame; auto. now rewrite (Forall2_length _ _ _ Hs).
Qed.

Lemma edges_inv_iff (E E' : nat -> nat -> Prop) (nodes : list Node) :
  (forall i j, E i j <-> E' i j) -> edges_inv E nodes -> edges_inv E' nodes.
Proof.
  intros HE [H1 H2 H3 H4 H5]. split; try assumption.
  - intros i j. now rewrite H1.
  - intros i j. now rewrite H2.
  - intros i j Hij. apply H5, HE, Hij.
Qed.

Lemma calls_edges (calls : list call) :
  forall (E : nat -> nat -> Prop) st st',
    idle st -> foldM do_call calls st = Ok st' ->
    edges_inv E (nodes_ st) ->
    edges_inv (fun i j => E i j \/ added calls i j) (nodes_ st').
Proof.
  induction calls as [| c calls IH]; intros E st st' Hidle H Hinv; cbn in H.
  - injection H as <-. eapply edges_inv_iff; [| exact Hinv].
    intros i j. split; [auto |]. intros [? | Hin]; [assumption | inversion Hin].
  - inv_binds H. rename x into s1, Hx into Hcall.
    pose proof (do_call_idle _ _ _ Hidle Hcall) as [Hidle1 _].
    pose proof (do_call_edges E _ _ _ Hidle Hcall Hinv) as Hinv1.
    eapply edges_inv_iff; [| apply (IH _ _ _ Hidle1 H Hinv1)].
    intros i j. unfold added. cbn. rewrite elem_of_cons.
    split; [intros [[? | ->] | ?] | intros [? | [<- | ?]]]; auto.
Qed.

(** X11: after any run that returns, the edges stored are the edges
    given to [AddEdge]: [j] is among the children of [i] exactly when
    [AddEdge(i, j)] was called, exactly when [i] is among the parents of
    [j]; neither set holds an element twice, and every end of an edge is
    a node of the table.  The searches add and remove no edge. *)
Theorem edges_are_calls (calls : list call) (st : Walker) (i j : nat) :
  run calls = Ok st ->
  (j ∈ children_of (nodes_ st) i <-> added calls i j)
  /\ (i ∈ parents_of (nodes_ st) j <-> added calls i j)
  /\ NoDup (children_of (nodes_ st) i)
  /\ NoDup (parents_of (nodes_ st) j)
  /\ (added calls i j ->
      (i < length (nodes_ st))%nat /\ (j < length (nodes_ st))%nat).
Proof.
  intros H.
  assert (H0 : edges_inv (fun _ _ => False) (nodes_ empty_walker)).
  { split; cbn; unfold children_of, parents_of; intros *;
      rewrite ?lookup_nil; try constructor; try contradiction;
      intros Hin; inversion Hin. }
  pose proof (calls_edges calls _ _ _ empty_walker_idle H H0) as [H1 H2 H3 H4 H5].
  split; [rewrite H1; tauto |]. split; [rewrite H2; tauto |].
  split; [apply sorted_lt_NoDup, H3 |]. split; [apply sorted_lt_NoDup, H4 |].
  intros Hij. apply H5. now right.
Qed.

Lemma edges_are_calls_witness :
  exists st, run [CallAddNode 0 1; CallAddNode 1 1; CallAddEdge 0 1] = Ok st
    /\ (1%nat ∈ children_of (nodes_ st) 0
        <-> added [CallAddNode 0 1; CallAddNode 1 1; CallAddEdge 0 1] 0 1).
Proof.
  destruct (run [CallAddNode 0 1; CallAddNode 1 1; CallAddEdge 0 1])
    as [st |] eqn:E; [| vm_compute in E; discriminate E].
  exists st. split; [reflexivity |].
  apply (edges_are_calls [CallAddNode 0 1; CallAddNode 1 1; CallAddEdge 0 1] st 0 1 E).
Defined.

(** ** The size of the node table *)

Lemma AddNode_length (st : Walker) (r size : Z) (st' : Walker) :
  AddNode st r size = Ok st' ->
  0 <= r /\ length (nodes_ st') = Nat.max (length (nodes_ st)) (S (Z.to_nat r)).
Proof.
  unfold AddNode. intros H.
  apply bind_Ok in H as (u & Hr & H). apply check_Ok, Z.leb_le in Hr.
  apply bind_Ok in H as (nodes & Hnodes & H).
  apply bind_Ok in H as (n & Hn & H). injection H as <-.
  split; [exact Hr |]. cbn [nodes_ set_nodes]. rewrite length_insert.
  destruct (Nat.leb_spec (length (nodes_ st)) (Z.to_nat r)).
  - apply bind_Ok in Hnodes as (u' & _ & Hnodes). injection Hnodes as <-.
    rewrite length_app, length_replicate. lia.
  - injection Hnodes as <-. lia.
Qed.

Lemma do_call_length (st : Walker) (c : call) (st' : Walker) :
  idle st -> do_call st c = Ok st' ->
  length (nodes_ st') = table_size [c] (length (nodes_ st)).
Proof.
  intros Hidle H.
  assert (Hstep : forall l l' : list Node, Forall2 node_step l l' -> length l' = length l)
    by (intros l l' Hs; symmetry; eapply Forall2_length; eassumption).
  destruct c as [r size | owner_row owned_row | r |]; cbn [table_size]; cbn in H.
  - now apply AddNode_length in H as [_ H].
  - apply AddEdge_spec in H as (owner & owned & n & m & _ & _ & Hn & Hm & ->).
    cbn. now rewrite !length_insert.
  - unfold MarkRoot in H. inv_binds H.
    rename x0 into sa, Hx0 into Hreach, x1 into n, Hx1 into Hn.
    apply get_node_Ok in Hn.
    pose proof (ReachableNode_frame _ _ _ _ Hreach) as Hframe.
    assert (Hidle_a : idle sa).
    { destruct Hidle. split; [eapply reach_frame_ok; eassumption |].
      now rewrite (rf_stack _ _ Hframe). }
    apply (search_from_idle _ _ _ _ _ Hidle_a Hn) in H as (_ & Hs & _).
    rewrite (Hstep _ _ Hs). symmetry.
    apply (Forall2_length _ _ _ (rf_nodes _ _ Hframe)).
  - apply CalculateRetained_spec in H as [H _].
    apply (sweep_idle _ _ _ Hidle) in H as (_ & Hs & _). now apply Hstep.
Qed.

(** X12: after any run that returns, the node table has one entry more
    than the largest row given to [AddNode] (none when there was no
    [AddNode]), whatever the order of the calls: [AddNode] is the only
    call that resizes it. *)
Theorem table_size_is_largest_row (calls : list call) (st : Walker) :
  run calls = Ok st ->
  length (nodes_ st) = table_size calls 0
  /\ (forall r size, CallAddNode r size ∈ calls ->
        0 <= r < Z.of_nat (length (nodes_ st)))
  /\ (length (nodes_ st) <> 0%nat ->
      exists size, CallAddNode (Z.of_nat (length (nodes_ st)) - 1) size ∈ calls).
Proof.
  intros H.
  assert (Hgen : forall calls st st',
            idle st -> foldM do_call calls st = Ok st' ->
            length (nodes_ st') = table_size calls (length (nodes_ st))
            /\ (length (nodes_ st) <= length (nodes_ st'))%nat
            /\ (forall r size, CallAddNode r size ∈ calls ->
                  0 <= r < Z.of_nat (length (nodes_ st')))
            /\ (length (nodes_ st') = length (nodes_ st)
                \/ exists size,
                     CallAddNode (Z.of_nat (length (nodes_ st')) - 1) size ∈ calls)).
  { clear. induction calls as [| c calls IH]; intros st st' Hidle H; cbn in H.
    - injection H as <-. cbn. split; [reflexivity |]. split; [lia |].
      split; [| now left]. intros r size Hin. inversion Hin.
    - inv_binds H. rename x into s1, Hx into Hcall.
      pose proof (do_call_idle _ _ _ Hidle Hcall) as [Hidle1 _].
      pose proof (do_call_length _ _ _ Hidle Hcall) as Hlen1.
      destruct (IH _ _ Hidle1 H) as (Hlen & Hle & Hrows & Hlast).
      assert (Hle1 : (length (nodes_ st) <= length (nodes_ s1))%nat).
      { rewrite Hlen1. destruct c; cbn; lia. }
      split; [| split; [lia | split]].
      + rewrite Hlen, Hlen1. destruct c; reflexivity.
      + intros r size Hin. apply elem_of_cons in Hin as [<- | Hin]; [| eauto].
        cbn in Hcall. apply AddNode_length in Hcall as [Hr0 _].
        cbn in Hlen1. lia.
      + destruct Hlast as [Heq | [size Hin]]; [| right; exists size; now right].
        destruct c as [r size | | |]; cbn in Hlen1;
          [| left; lia | left; lia | left; lia].
        destruct (Nat.max_spec (length (nodes_ st)) (S (Z.to_nat r))) as [[_ E] | [_ E]].
        * right. exists size. apply elem_of_cons. left.
          cbn in Hcall. apply AddNode_length in Hcall as [Hr0 _].
          f_equal. lia.
        * left. lia. }
  destruct (Hgen calls _ _ empty_walker_idle H) as (Hlen & _ & Hrows & Hlast).
  split; [exact Hlen |]. split; [exact Hrows |].
  intros Hne. destruct Hlast as [Heq | Hlast]; [| exact Hlast].
  cbn in Heq. contradiction.
Qed.

Lemma table_size_is_largest_row_witness :
  exists st, run [CallAddNode 5 1; CallAddNode 2 1] = Ok st
    /\ length (nodes_ st) = 6%nat.
Proof.
  destruct (run [CallAddNode 5 1; CallAddNode 2 1]) as [st |] eqn:E;
    [| vm_compute in E; discriminate E].
  exists st. split; [reflexivity |].
  apply (table_size_is_largest_row [CallAddNode 5 1; CallAddNode 2 1] st E).
Defined.

(** ** Repeated searches *)

Lemma ReachableNode_flagged (fuel : nat) (st : Walker) (node : nat) (st' : Walker) :
  ReachableNode fuel st node = Ok st' -> flagged (nodes_ st') node.
Proof.
  destruct fuel as [| fuel]; intros H; cbn in H; [discriminate |].
  inv_binds H. rename x into n, Hx into Hn. apply get_node_Ok in Hn.
  destruct (reachable n) eqn:Er.
  - injection H as <-. exists n. auto.
  - apply ReachableNode_loop_frame in H.
    eapply only_reachable_flagged; [apply (rf_nodes _ _ H) |].
    cbn. exists (set_reachable true n). split; [| reflexivity].
    apply list_lookup_insert_eq. eapply lookup_lt_Some; eassumption.
Qed.

Lemma MarkRoot_again (st st' : Walker) (r : Z) :
  idle st -> MarkRoot st r = Ok st' -> MarkRoot st' r = Ok st'.
Proof.
  intros Hidle H. unfold MarkRoot in H. inv_binds H.
  rename x into node, Hx into Hnode, x0 into sa, Hx0 into Hreach,
         x1 into n, Hx1 into Hn.
  apply node_of_row_Ok in Hnode as (Hr0 & -> & Hlt). apply get_node_Ok in Hn.
  pose proof (ReachableNode_frame _ _ _ _ Hreach) as Hframe.
  pose proof (ReachableNode_flagged _ _ _ _ Hreach) as (n1 & Hn1 & Hr1).
  assert (n1 = n) as -> by congruence.
  assert (Hidle_a : idle sa).
  { destruct Hidle. split; [eapply reach_frame_ok; eassumption |].
    now rewrite (rf_stack _ _ Hframe). }
  apply (search_from_idle _ _ _ _ _ Hidle_a Hn) in H as (_ & Hs & Hvis & _).
  destruct (Forall2_lookup_l _ _ _ _ _ Hs Hn) as (n' & Hn' & (_ & _ & _ & _ & Hr') & _).
  pose proof (Forall2_length _ _ _ (rf_nodes _ _ Hframe)) as Hl1.
  pose proof (Forall2_length _ _ _ Hs) as Hl2.
  unfold MarkRoot, node_of_row, depth_bound.
  destruct (Z.ltb_spec r 0); [lia |].
  destruct (Nat.ltb_spec (Z.to_nat r) (length (nodes_ st'))); [| lia].
  cbn [bind ReachableNode]. unfold get_node. rewrite Hn'. cbn [bind].
  rewrite Hr', Hr1. cbn [bind]. rewrite Hn'. cbn [bind].
  rewrite (index_of_lookup _ _ _ Hn') in Hvis.
  destruct (Z.eqb_spec (node_index n') 0); [contradiction | reflexivity].
Qed.

Lemma run_snoc (calls : list call) (c : call) :
  run (calls ++ [c]) = let* st := run calls in do_call st c.
Proof.
  unfold run. rewrite foldM_app. destruct (foldM do_call calls empty_walker); cbn;
    [| reflexivity].
  now destruct (do_call a c).
Qed.

(** X13: marking a root twice is marking it once: the second of two
    successive equal [MarkRoot] calls returns the walker as it is (no
    node is marked, no component is made, the delegate is not called). *)
Theorem MarkRoot_idempotent (calls : list call) (r : Z) (st' : Walker) :
  run (calls ++ [CallMarkRoot r]) = Ok st' ->
  run ((calls ++ [CallMarkRoot r]) ++ [CallMarkRoot r]) = Ok st'.
Proof.
  intros H. rewrite run_snoc, H. cbn [bind do_call].
  rewrite run_snoc in H. destruct (run calls) as [st |] eqn:Hst; [| discriminate].
  cbn [bind do_call] in H.
  destruct (calls_idle _ _ _ empty_walker_idle Hst) as [Hidle _].
  eapply MarkRoot_again; eassumption.
Qed.

Lemma MarkRoot_idempotent_witness :
  exists st',
    run ([CallAddNode 0 1; CallAddNode 1 1; CallAddEdge 0 1] ++ [CallMarkRoot 0])
    = Ok st'
    /\ run (([CallAddNode 0 1; CallAddNode 1 1; CallAddEdge 0 1]
             ++ [CallMarkRoot 0]) ++ [CallMarkRoot 0]) = Ok st'.
Proof.
  destruct (run ([CallAddNode 0 1; CallAddNode 1 1; CallAddEdge 0 1]
                 ++ [CallMarkRoot 0])) as [st' |] eqn:E;
    [| vm_compute in E; discriminate E].
  exists st'. split; [reflexivity |].
  apply (MarkRoot_idempotent
           [CallAddNode 0 1; CallAddNode 1 1; CallAddEdge 0 1] 0 st' E).
Defined.

Lemma sweep_visited (l : list nat) (st : Walker) :
  (forall i, i ∈ l -> exists n, nodes_ st !! i = Some n /\ node_index n <> 0) ->
  foldM sweep_node l st = Ok st.
Proof.
  induction l as [| a l IH]; intros H; cbn [foldM]; [reflexivity |].
  destruct (H a ltac:(left)) as (n & Hn & Hv).
  unfold sweep_node at 1. unfold get_node. rewrite Hn. cbn [bind].
  destruct (Z.eqb_spec (node_index n) 0); [contradiction |]. cbn [bind].
  apply IH. intros i Hi. apply H. now right.
Qed.

Lemma CalculateRetained_again (st st' : Walker) :
  idle st -> CalculateRetained st = Ok st' -> CalculateRetained st' = Ok st'.
Proof.
  intros Hidle H. apply CalculateRetained_spec in H as [H Hzero].
  apply (sweep_idle _ _ _ Hidle) in H as (_ & Hs & Hvis & _).
  pose proof (Forall2_length _ _ _ Hs) as Hlen.
  unfold CalculateRetained. rewrite sweep_visited.
  - cbn [bind]. rewrite check_incoming_Ok; [reflexivity |].
    intros c Hc. rewrite Forall_forall in Hzero. now apply Hzero.
  - intros i Hi. apply elem_of_seq in Hi.
    destruct (lookup_lt_is_Some_2 (nodes_ st') i ltac:(lia)) as [n Hn].
    exists n. split; [exact Hn |]. rewrite <- (index_of_lookup _ _ _ Hn).
    apply Hvis. apply elem_of_seq. lia.
Qed.

(** X14: calculating twice is calculating once: a [CalculateRetained]
    that follows one that returned finds every node in a component and
    every counter at zero, and returns the walker as it is, without a
    call to the delegate. *)
Theorem CalculateRetained_idempotent (calls : list call) (st' : Walker) :
  run (calls ++ [CallCalculateRetained]) = Ok st' ->
  run ((calls ++ [CallCalculateRetained]) ++ [CallCalculateRetained]) = Ok st'.
Proof.
  intros H. rewrite run_snoc, H. cbn [bind do_call].
  rewrite run_snoc in H. destruct (run calls) as [st |] eqn:Hst; [| discriminate].
  cbn [bind do_call] in H.
  destruct (calls_idle _ _ _ empty_walker_idle Hst) as [Hidle _].
  eapply CalculateRetained_again; eassumption.
Qed.

Lemma CalculateRetained_idempotent_witness :
  exists st',
    run ([CallAddNode 0 1; CallAddNode 1 1; CallAddEdge 0 1; CallMarkRoot 0]
         ++ [CallCalculateRetained]) = Ok st'
    /\ run (([CallAddNode 0 1; CallAddNode 1 1; CallAddEdge 0 1; CallMarkRoot 0]
             ++ [CallCalculateRetained]) ++ [CallCalculateRetained]) = Ok st'.
Proof.
  destruct (run ([CallAddNode 0 1; CallAddNode 1 1; CallAddEdge 0 1; CallMarkRoot 0]
                 ++ [CallCalculateRetained])) as [st' |] eqn:E;
    [| vm_compute in E; discriminate E].
  exists st'. split; [reflexivity |].
  apply (CalculateRetained_idempotent
           [CallAddNode 0 1; CallAddNode 1 1; CallAddEdge 0 1; CallMarkRoot 0] st' E).
Defined.

(** ** What the delegate is told about the sizes *)

Lemma retained_calls_app (r : Z) (l1 l2 : list Event) :
  retained_calls r (l1 ++ l2) = retained_calls r l1 ++ retained_calls r l2.
Proof.
  induction l1 as [| [r' | r' v u] l1 IH]; cbn; [reflexivity | exact IH |].
  destruct (r' =? r); cbn; congruence.
Qed.

Lemma component_of_lookup (nodes : list Node) (i : nat) (n : Node) :
  nodes !! i = Some n -> component_of nodes i = component n.
Proof. unfold component_of. now intros ->. Qed.

Lemma report_inv_ext (nodes nodes' : list Node) (log log' : list Event) :
  (forall i, component_of nodes' i = component_of nodes i) ->
  (forall i n', nodes' !! i = Some n' -> component n' <> -1 ->
     row n' = Z.of_nat i) ->
  (forall r, retained_calls r log' = retained_calls r log) ->
  report_inv nodes log -> report_inv nodes' log'.
Proof.
  intros Hc Hrow Hlog [H1 H2 H3 H4]. split.
  - exact Hrow.
  - intros r Hr. rewrite Hlog. apply H2. intros i Hi. rewrite <- Hc. auto.
  - intros i Hi. rewrite Hlog. apply H3. now rewrite <- Hc.
  - intros i j Hi Hij. rewrite !Hlog. apply H4; now rewrite <- !Hc.
Qed.

Lemma report_inv_insert (nodes : list Node) (log : list Event) (i : nat)
    (n n' : Node) :
  nodes !! i = Some n -> component n' = component n ->
  (component n <> -1 -> row n' = Z.of_nat i) ->
  report_inv nodes log -> report_inv (<[i := n']> nodes) log.
Proof.
  intros Hn Hc Hr Hinv.
  pose proof (lookup_lt_Some _ _ _ Hn) as Hlt.
  eapply report_inv_ext; [| | reflexivity | exact Hinv].
  - intros j. unfold component_of.
    destruct (decide (j = i)) as [-> |].
    + now rewrite list_lookup_insert_eq, Hn by assumption.
    + now rewrite list_lookup_insert_ne by congruence.
  - intros j m Hm Hcm. destruct (decide (j = i)) as [-> |].
    + rewrite list_lookup_insert_eq in Hm by assumption. injection Hm as <-.
      apply Hr. congruence.
    + rewrite list_lookup_insert_ne in Hm by congruence.
      eapply rp_rows; eassumption.
Qed.

Lemma ReachableNode_retained (fuel : nat) :
  forall st node st',
    ReachableNode fuel st node = Ok st' ->
    forall r, retained_calls r (delegate_ st') = retained_calls r (delegate_ st).
Proof.
  induction fuel as [| fuel IH]; intros st node st' H; cbn in H; [discriminate |].
  inv_binds H. rename x into n, Hx into Hn.
  destruct (reachable n); [injection H as <-; reflexivity |].
  revert H.
  apply (foldM_Ok_inv _ (fun s => forall r,
           retained_calls r (delegate_ s) = retained_calls r (delegate_ st))).
  - intros s a s' _ Hs Hcall r. rewrite <- Hs. eapply IH; exact Hcall.
  - intros r. cbn. rewrite retained_calls_app. cbn. apply app_nil_r.
Qed.

(** The final loop of [FoundSCC] over the nodes [l], whose rows are
    their positions. *)
Lemma report_nodes_log retained ubn (l : list nat) :
  forall st st',
    NoDup l ->
    (forall m, m ∈ l -> exists e, nodes_ st !! m = Some e /\ row e = Z.of_nat m) ->
    foldM (report_node retained ubn) l st = Ok st' ->
    (forall r, (forall m, m ∈ l -> r <> Z.of_nat m) ->
       retained_calls r (delegate_ st') = retained_calls r (delegate_ st))
    /\ (forall m, m ∈ l -> exists u,
          retained_calls (Z.of_nat m) (delegate_ st')
          = retained_calls (Z.of_nat m) (delegate_ st) ++ [(retained, u)]).
Proof.
  induction l as [| a l IH]; intros st st' Hnd Hrows H; cbn in H.
  - injection H as <-. split; [reflexivity |]. intros m Hm. inversion Hm.
  - inv_bind H. rename x into s1, Hx into Hrep.
    apply NoDup_cons in Hnd as [Ha Hnd].
    destruct (Hrows a ltac:(left)) as (e & He & Hrow).
    unfold report_node, get_node in Hrep. rewrite He in Hrep. cbn [bind] in Hrep.
    injection Hrep as <-. rewrite Hrow in H.
    apply IH in H as [Hout Hin]; [| assumption |];
      [| intros m Hm; cbn; apply Hrows; now right].
    cbn [delegate_ emit] in Hout, Hin.
    assert (Hlog : forall r,
              retained_calls r (delegate_ st ++ [SetRetained (Z.of_nat a) retained
                (to_int64 (to_int64 (self_size e)
                           + default 0 (om_find (Z.of_nat a) ubn)))])
              = retained_calls r (delegate_ st)
                ++ (if Z.of_nat a =? r
                    then [(retained,
                           to_int64 (to_int64 (self_size e)
                                     + default 0 (om_find (Z.of_nat a) ubn)))]
                    else [])).
    { intros r. rewrite retained_calls_app. cbn. now destruct (Z.of_nat a =? r). }
    split.
    + intros r Hr. rewrite Hout by (intros m Hm; apply Hr; now right).
      rewrite Hlog. destruct (Z.eqb_spec (Z.of_nat a) r) as [E |];
        [| apply app_nil_r].
      exfalso. apply (Hr a); [left | congruence].
    + intros m Hm. apply elem_of_cons in Hm as [-> | Hm].
      * rewrite Hout by (intros m Hm ->%Nat2Z.inj; contradiction).
        rewrite Hlog, Z.eqb_refl. eauto.
      * destruct (Hin m Hm) as [u Hu]. exists u. rewrite Hu, Hlog.
        destruct (Z.eqb_spec (Z.of_nat a) (Z.of_nat m)) as [E%Nat2Z.inj |];
          [congruence | now rewrite app_nil_r].
Qed.

Lemma component_bound (st : Walker) (i : nat) :
  walker_ok st -> component_of (nodes_ st) i < Z.of_nat (length (components_ st)).
Proof.
  intros Hok. unfold component_of.
  destruct (nodes_ st !! i) as [n |] eqn:Hn; [| lia].
  pose proof (ok_node _ Hok _ _ Hn) as [_ H].
  destruct (on_stack n); [lia |]. destruct (node_index n =? 0); lia.
Qed.

(** [FoundSCC] reports the nodes it has put into the new component. *)
Lemma FoundSCC_report (st : Walker) (node : nat) (st' : Walker) :
  walker_ok st -> all_registered (nodes_ st) ->
  report_inv (nodes_ st) (delegate_ st) ->
  FoundSCC st node = Ok st' ->
  report_inv (nodes_ st') (delegate_ st').
Proof.
  intros Hok Hreg Hinv H.
  pose proof (component_bound st) as Hbound.
  unfold FoundSCC in H. inv_binds H.
  match goal with
  | H : pop_component _ _ _ _ _ _ = Ok _ |- _ =>
      apply pop_component_spec in H as (front & _ & -> & Hnd & Hlen & Hout & Hin);
        [| lia]
  end.
  cbn [app] in H.
  match goal with
  | Hlen : length ?l = length (nodes_ st) |- _ => rename l into nodes'
  end.
  set (cid := Z.of_nat (length (components_ st))) in *.
  set (M := front ++ [node]) in *.
  pose proof (report_nodes_frame _ _ _ _ _ H) as (Hn & _).
  apply report_nodes_log in H as [Hlout Hlin]; [| exact Hnd |].
  2: { intros m Hm. destruct (Hin m Hm) as (e & He & _ & He').
       cbn. rewrite He'. eexists. split; [reflexivity |]. cbn.
       eapply Hreg; eassumption. }
  cbn [nodes_ delegate_ set_components set_node_stack set_nodes] in Hn, Hlout, Hlin.
  rewrite Hn.
  assert (Hcin : forall i, i ∈ M -> component_of (nodes_ st) i = -1
                                    /\ component_of nodes' i = cid).
  { intros i Hi. destruct (Hin i Hi) as (e & He & Hc & He').
    unfold component_of. rewrite He, He'. auto. }
  assert (Hcout : forall i, i ∉ M -> component_of nodes' i = component_of (nodes_ st) i).
  { intros i Hi. unfold component_of. now rewrite (Hout i Hi). }
  destruct Hinv as [H1 H2 H3 H4]. split.
  - intros i n Hi Hc. destruct (decide (i ∈ M)) as [Him | Him].
    + destruct (Hin i Him) as (e & He & _ & He').
      assert (n = set_component cid (set_on_stack false e)) as -> by congruence.
      cbn. eapply Hreg; eassumption.
    + rewrite (Hout i Him) in Hi. eapply Hreg; eassumption.
  - intros r Hr. rewrite Hlout.
    + apply H2. intros i ->. destruct (decide (i ∈ M)) as [Him | Him].
      * destruct (Hcin i Him) as [_ Hc]. specialize (Hr i eq_refl).
        pose proof (Hbound i Hok). unfold cid in Hc. lia.
      * rewrite <- (Hcout i Him). now apply Hr.
    + intros m Hm ->. destruct (Hcin m Hm) as [_ Hc]. specialize (Hr m eq_refl).
      unfold cid in Hc. lia.
  - intros i Hi. destruct (decide (i ∈ M)) as [Him | Him].
    + destruct (Hlin i Him) as [u Hu]. rewrite Hu, H2; [eauto |].
      intros i' ->%Nat2Z.inj. now apply Hcin.
    + rewrite Hlout by (intros m Hm ->%Nat2Z.inj; contradiction).
      apply H3. now rewrite <- (Hcout i Him).
  - intros i j Hi Hij.
    destruct (decide (i ∈ M)) as [Him | Him], (decide (j ∈ M)) as [Hjm | Hjm].
    + destruct (Hlin i Him) as [u Hu]. destruct (Hlin j Hjm) as [u' Hu'].
      rewrite Hu, Hu', !H2; [reflexivity | |];
        intros i' ->%Nat2Z.inj; now apply Hcin.
    + exfalso. destruct (Hcin i Him) as [_ Hc]. rewrite (Hcout j Hjm), Hc in Hij.
      pose proof (Hbound j Hok). lia.
    + exfalso. destruct (Hcin j Hjm) as [_ Hc]. rewrite (Hcout i Him), Hc in Hij.
      pose proof (Hbound i Hok). lia.
    + rewrite !Hlout by (intros m Hm ->%Nat2Z.inj; contradiction).
      apply H4; now rewrite <- ?(Hcout i Him), <- ?(Hcout j Hjm).
Qed.

Lemma all_registered_step (l l' : list Node) :
  Forall2 node_step l l' -> all_registered l -> all_registered l'.
Proof.
  intros Hs Hreg i n' Hn'.
  destruct (Forall2_lookup_r _ _ _ _ _ Hs Hn') as (n & Hn & (_ & _ & _ & Hr & _) & _).
  rewrite Hr. eapply Hreg; eassumption.
Qed.

Lemma visit_child_report (find : Walker -> nat -> result Walker)
    (st0 : Walker) (node : nat) (st : Walker) (child : nat) (st' : Walker) :
  (forall s c s', walker_ok s ->
     (exists n, nodes_ s !! c = Some n /\ node_index n = 0) ->
     all_registered (nodes_ s) -> report_inv (nodes_ s) (delegate_ s) ->
     find s c = Ok s' -> report_inv (nodes_ s') (delegate_ s')) ->
  all_registered (nodes_ st0) ->
  loop_inv st0 node st ->
  report_inv (nodes_ st) (delegate_ st) ->
  visit_child find node st child = Ok st' ->
  report_inv (nodes_ st') (delegate_ st').
Proof.
  intros Hfind Hreg0 Hinv Hrep H.
  pose proof (all_registered_step _ _ (li_nodes _ _ _ Hinv) Hreg0) as Hreg.
  unfold visit_child in H. inv_binds H.
  rename x into c, Hx into Hc. apply get_node_Ok in Hc.
  destruct (node_index c =? 0) eqn:Ec.
  - apply Z.eqb_eq in Ec. inv_binds H.
    rename x into s1, Hx into Hcall, x0 into c1, Hx0 into Hc1,
           x1 into n1, Hx1 into Hn1.
    apply get_node_Ok in Hn1.
    apply Hfind in Hcall; [| apply (li_ok _ _ _ Hinv) | eauto | assumption ..].
    destruct (lowlink c1 <? lowlink n1); injection H as <-; [| assumption].
    cbn. eapply report_inv_insert; [exact Hn1 | reflexivity | | exact Hcall].
    intros Hcn. cbn. eapply rp_rows; eassumption.
  - destruct (on_stack c); [| injection H as <-; assumption].
    inv_binds H. rename x into n1, Hx into Hn1. apply get_node_Ok in Hn1.
    destruct (node_index c <? lowlink n1); injection H as <-; [| assumption].
    cbn. eapply report_inv_insert; [exact Hn1 | reflexivity | | exact Hrep].
    intros Hcn. cbn. eapply rp_rows; eassumption.
Qed.

Lemma FindSCC_report (fuel : nat) :
  forall st node st',
    walker_ok st ->
    (exists n, nodes_ st !! node = Some n /\ node_index n = 0) ->
    all_registered (nodes_ st) -> report_inv (nodes_ st) (delegate_ st) ->
    FindSCC fuel st node = Ok st' ->
    report_inv (nodes_ st') (delegate_ st').
Proof.
  induction fuel as [| fuel IH]; intros st node st' Hok (n0 & Hn0 & Hfresh) Hreg Hrep H;
    [discriminate |].
  pose proof (FindSCC_spec (S fuel) _ _ _ Hok ltac:(eauto) H) as Hpost.
  cbn in H. inv_binds H.
  rename x0 into st1, Hx0 into Henter, x1 into st2, Hx1 into Hloop,
         x2 into n2, Hx2 into Hn2.
  apply get_node_Ok in Hn2. clear Hx.
  apply enter_node_spec in Henter as (n0' & Hn0' & ->).
  assert (n0' = n0) as -> by congruence.
  pose proof (lookup_lt_Some _ _ _ Hn0) as Hlt.
  set (st1 := set_next_node_index _ _) in *.
  assert (Hinv1 : loop_inv st node st1).
  { split; cbn.
    - apply enter_node_ok; assumption.
    - eapply nodes_step_insert; [apply nodes_step_refl | eassumption ..|].
      repeat split.
    - now rewrite (index_of_lookup _ _ _ Hn0).
    - exists []. split; [reflexivity |]. intros m Hm. inversion Hm.
    - exists (entered_node (next_node_index_ st) n0).
      now rewrite list_lookup_insert_eq.
    - lia.
    - lia.
    - reflexivity. }
  assert (Hrep1 : report_inv (nodes_ st1) (delegate_ st1)).
  { cbn. eapply report_inv_insert; [exact Hn0 | reflexivity | | exact Hrep].
    intros _. cbn. eapply Hreg; eassumption. }
  assert (Hinv2 : loop_inv st node st2 /\ report_inv (nodes_ st2) (delegate_ st2)).
  { revert Hloop.
    apply (foldM_Ok_inv _ (fun s => loop_inv st node s
                                    /\ report_inv (nodes_ s) (delegate_ s)));
      [| split; assumption].
    intros s a s' _ [Hs Hr] Hcall. split.
    - eapply visit_child_inv; [apply FindSCC_spec | exact Hs | exact Hcall].
    - eapply visit_child_report; [exact IH | exact Hreg | exact Hs | exact Hr |
                                  exact Hcall]. }
  destruct Hinv2 as [Hinv2 Hrep2].
  destruct (lowlink n2 =? node_index n2); [| injection H as <-; exact Hrep2].
  eapply FoundSCC_report; [apply (li_ok _ _ _ Hinv2) | | exact Hrep2 | exact H].
  eapply all_registered_step; [apply (li_nodes _ _ _ Hinv2) | exact Hreg].
Qed.

Lemma search_report (fuel : nat) (st : Walker) (node : nat) (n : Node)
    (st' : Walker) :
  idle st -> nodes_ st !! node = Some n ->
  all_registered (nodes_ st) -> report_inv (nodes_ st) (delegate_ st) ->
  (if node_index n =? 0 then FindSCC fuel st node else Ok st) = Ok st' ->
  report_inv (nodes_ st') (delegate_ st')
  /\ idle st' /\ all_registered (nodes_ st').
Proof.
  intros Hidle Hn Hreg Hrep H.
  destruct (search_from_idle _ _ _ _ _ Hidle Hn H) as (Hidle' & Hstep & _).
  split; [| split; [exact Hidle' | eapply all_registered_step; eassumption]].
  destruct (node_index n =? 0) eqn:E; [| injection H as <-; exact Hrep].
  apply Z.eqb_eq in E. destruct Hidle as [Hok _].
  eapply FindSCC_report; eauto.
Qed.

Lemma sweep_report (l : list nat) :
  forall st st', idle st -> all_registered (nodes_ st) ->
    report_inv (nodes_ st) (delegate_ st) ->
    foldM sweep_node l st = Ok st' ->
    report_inv (nodes_ st') (delegate_ st').
Proof.
  induction l as [| a l IH]; intros st st' Hidle Hreg Hrep H; cbn in H.
  - now injection H as <-.
  - inv_binds H. rename x into s1, Hx into Hsweep.
    unfold sweep_node in Hsweep. inv_binds Hsweep.
    rename x into n, Hx into Hn. apply get_node_Ok in Hn.
    destruct (search_report _ _ _ _ _ Hidle Hn Hreg Hrep Hsweep)
      as (Hrep1 & Hidle1 & Hreg1).
    eapply IH; eassumption.
Qed.

Lemma seen_all_registered (seen : list Z) (st : Walker) :
  seen_ok seen st ->
  forallb (fun i => mem_row (Z.of_nat i) seen) (seq 0 (length (nodes_ st))) = true ->
  all_registered (nodes_ st).
Proof.
  intros Hseen Hall i n Hn. rewrite forallb_forall in Hall.
  assert (Hi : In i (seq 0 (length (nodes_ st)))).
  { apply in_seq. pose proof (lookup_lt_Some _ _ _ Hn). lia. }
  apply Hall, mem_row_elem, Hseen in Hi as [_ (n' & Hn' & Hr)].
  rewrite Nat2Z.id in Hn', Hr. congruence.
Qed.

Lemma do_call_report (seen : list Z) (st : Walker) (c : call) (st' : Walker) :
  report_state seen st ->
  (is_search c = true ->
   forallb (fun i => mem_row (Z.of_nat i) seen) (seq 0 (length (nodes_ st))) = true) ->
  do_call st c = Ok st' ->
  report_state (seen_after seen c) st'.
Proof.
  intros (Hidle & Hseen & Hrep) Hall H.
  pose proof (do_call_idle _ _ _ Hidle H) as [Hidle' _].
  split; [exact Hidle' |].
  destruct c as [r size | owner_row owned_row | r |]; cbn in H; cbn [seen_after].
  - (* AddNode *)
    apply AddNode_spec in H as (k & n & Hr & Hn & ->). cbn.
    pose proof (lookup_lt_Some _ _ _ Hn) as Hlt.
    destruct (extend_same_graph (nodes_ st) k) as (Ec & _ & _).
    split.
    + intros r' Hr'. apply elem_of_cons in Hr' as [-> | Hr'].
      * split; [assumption |]. unfold registered. cbn [nodes_ set_nodes].
        rewrite list_lookup_insert_eq by assumption.
        eexists; split; [reflexivity |]. cbn. lia.
      * destruct (Hseen _ Hr') as [Hr0 (m & Hm & Hrow)]. split; [assumption |].
        unfold registered. cbn [nodes_ set_nodes].
        destruct (decide (Z.to_nat r' = Z.to_nat r)) as [E |].
        -- rewrite E, list_lookup_insert_eq by assumption.
           eexists; split; [reflexivity |]. cbn. lia.
        -- rewrite list_lookup_insert_ne by congruence.
           exists m. split; [| exact Hrow]. now apply lookup_app_l_Some.
    + eapply report_inv_insert; [exact Hn | reflexivity | cbn; lia |].
      eapply report_inv_ext; [exact Ec | | reflexivity | exact Hrep].
      intros i m Hm Hcm.
      apply lookup_app_Some in Hm as [Hm' | [_ Hm']].
      * eapply rp_rows; eassumption.
      * apply lookup_replicate in Hm' as [-> _]. cbn in Hcm. contradiction.
  - (* AddEdge *)
    apply AddEdge_spec in H as (a & b & n & m & Hra & Hrb & Hn & Hm & ->). cbn.
    split.
    + eapply seen_ok_kept; [| exact Hseen]. cbn.
      intros j (x & Hx & Hrow). unfold registered. cbn [nodes_ set_nodes].
      destruct (decide (j = b)) as [-> |].
      * rewrite list_lookup_insert_eq by (eapply lookup_lt_Some; eassumption).
        eexists; split; [reflexivity |]. cbn.
        destruct (decide (b = a)) as [-> |].
        -- rewrite list_lookup_insert_eq in Hm
             by (eapply lookup_lt_Some; eassumption).
           injection Hm as <-. cbn. congruence.
        -- rewrite list_lookup_insert_ne in Hm by congruence. congruence.
      * rewrite list_lookup_insert_ne by congruence.
        destruct (decide (j = a)) as [-> |].
        -- rewrite list_lookup_insert_eq by (eapply lookup_lt_Some; eassumption).
           eexists; split; [reflexivity |]. cbn. congruence.
        -- rewrite list_lookup_insert_ne by congruence. eauto.
    + eapply report_inv_insert; [exact Hm | reflexivity | |].
      * intros Hcm. cbn.
        eapply (rp_rows (<[a := set_children
                                  (set_emplace b (children n)) n]> (nodes_ st)));
          [| exact Hm | exact Hcm].
        eapply report_inv_insert; [exact Hn | reflexivity | | exact Hrep].
        intros Hcn. cbn. eapply rp_rows; eassumption.
      * eapply report_inv_insert; [exact Hn | reflexivity | | exact Hrep].
        intros Hcn. cbn. eapply rp_rows; eassumption.
  - (* MarkRoot *)
    specialize (Hall eq_refl).
    pose proof (seen_all_registered _ _ Hseen Hall) as Hreg.
    unfold MarkRoot in H. inv_binds H.
    rename x into node, Hx into Hnode, x0 into sa, Hx0 into Hreach,
           x1 into n, Hx1 into Hn.
    apply get_node_Ok in Hn.
    pose proof (ReachableNode_frame _ _ _ _ Hreach) as Hframe.
    pose proof (ReachableNode_retained _ _ _ _ Hreach) as Hlog.
    assert (Hidle_a : idle sa).
    { destruct Hidle. split; [eapply reach_frame_ok; eassumption |].
      now rewrite (rf_stack _ _ Hframe). }
    assert (Hsame : forall i x', nodes_ sa !! i = Some x' ->
              exists x, nodes_ st !! i = Some x
                /\ component x' = component x /\ row x' = row x).
    { intros i x' Hx'.
      destruct (Forall2_lookup_r _ _ _ _ _ (rf_nodes _ _ Hframe) Hx')
        as (x & Hx & [-> | [_ ->]]); eauto. }
    assert (Hreg_a : all_registered (nodes_ sa)).
    { intros i x' Hx'. destruct (Hsame i x' Hx') as (x & Hx & _ & ->). eauto. }
    assert (Hrep_a : report_inv (nodes_ sa) (delegate_ sa)).
    { eapply report_inv_ext; [| | exact Hlog | exact Hrep].
      - intros i. unfold component_of.
        destruct (nodes_ sa !! i) as [x' |] eqn:Hx'.
        + destruct (Hsame i x' Hx') as (x & -> & -> & _). reflexivity.
        + apply lookup_ge_None in Hx'.
          rewrite <- (Forall2_length _ _ _ (rf_nodes _ _ Hframe)) in Hx'.
          apply lookup_ge_None in Hx'. now rewrite Hx'.
      - intros i x' Hx' _. now apply Hreg_a. }
    destruct (search_report _ _ _ _ _ Hidle_a Hn Hreg_a Hrep_a H)
      as (Hrep' & _ & Hreg').
    split; [| exact Hrep'].
    intros r' Hr'. destruct (Hseen _ Hr') as [Hr0 (m & Hm & _)].
    split; [assumption |].
    pose proof (lookup_lt_Some _ _ _ Hm) as Hlt.
    destruct (search_from_idle _ _ _ _ _ Hidle_a Hn H) as (_ & Hstep & _).
    rewrite (Forall2_length _ _ _ (rf_nodes _ _ Hframe)),
            (Forall2_length _ _ _ Hstep) in Hlt.
    destruct (lookup_lt_is_Some_2 _ _ Hlt) as [m' Hm'].
    exists m'. split; [exact Hm' |]. eapply Hreg'; exact Hm'.
  - (* CalculateRetained *)
    specialize (Hall eq_refl).
    pose proof (seen_all_registered _ _ Hseen Hall) as Hreg.
    apply CalculateRetained_spec in H as [H _].
    pose proof (sweep_idle _ _ _ Hidle H) as (_ & Hstep & _).
    split; [| exact (sweep_report _ _ _ Hidle Hreg Hrep H)].
    intros r' Hr'. destruct (Hseen _ Hr') as [Hr0 (m & Hm & _)].
    split; [assumption |].
    pose proof (lookup_lt_Some _ _ _ Hm) as Hlt.
    rewrite (Forall2_length _ _ _ Hstep) in Hlt.
    destruct (lookup_lt_is_Some_2 _ _ Hlt) as [m' Hm'].
    exists m'. split; [exact Hm' |].
    eapply all_registered_step; eassumption.
Qed.

Lemma calls_report (calls : list call) :
  forall seen st st',
    report_state seen st ->
    table_registered seen (length (nodes_ st)) calls = true ->
    foldM do_call calls st = Ok st' ->
    idle st' /\ report_inv (nodes_ st') (delegate_ st').
Proof.
  induction calls as [| c calls IH]; intros seen st st' Hst Hcalls H; cbn in H.
  - injection H as <-. destruct Hst as (? & _ & ?). auto.
  - inv_binds H. rename x into s1, Hx into Hcall.
    cbn [table_registered] in Hcalls. apply andb_prop in Hcalls as [Hc Hcalls].
    pose proof Hst as (Hidle & _).
    rewrite <- (do_call_length _ _ _ Hidle Hcall) in Hcalls.
    eapply IH; [| exact Hcalls | exact H].
    eapply do_call_report; [exact Hst | | exact Hcall].
    intros Hs. rewrite Hs in Hc. exact Hc.
Qed.

Lemma empty_walker_report : report_state [] empty_walker.
Proof.
  split; [apply empty_walker_idle |]. split.
  - intros r Hr. inversion Hr.
  - split; cbn.
    + intros i n Hn. inversion Hn.
    + reflexivity.
    + intros i Hi. now contradiction Hi.
    + reflexivity.
Qed.

(** X15: when every node of the table has been registered by [AddNode]
    before a search starts, the delegate receives [SetRetained] for a row
    at most once; it has received it for exactly the nodes that are in a
    component, with the same retained size for the nodes of one
    component; and once [CalculateRetained] has returned it has received
    it for every node of the table. *)
Theorem nodes_reported_once (calls : list call) (st : Walker) :
  table_registered [] 0 calls = true ->
  run calls = Ok st ->
  (forall r, length (retained_calls r (delegate_ st)) <= 1)%nat
  /\ (forall i, retained_calls (Z.of_nat i) (delegate_ st) <> []
        <-> component_of (nodes_ st) i <> -1)
  /\ (forall r, r < 0 -> retained_calls r (delegate_ st) = [])
  /\ (forall i j, component_of (nodes_ st) i <> -1 ->
        component_of (nodes_ st) i = component_of (nodes_ st) j ->
        (retained_calls (Z.of_nat i) (delegate_ st)).*1
        = (retained_calls (Z.of_nat j) (delegate_ st)).*1)
  /\ (forall calls', calls = calls' ++ [CallCalculateRetained] ->
        forall i, (i < length (nodes_ st))%nat ->
          exists v u, retained_calls (Z.of_nat i) (delegate_ st) = [(v, u)]).
Proof.
  intros Hcalls H.
  destruct (calls_report calls [] empty_walker st empty_walker_report Hcalls H)
    as [Hidle [H1 H2 H3 H4]].
  assert (Hcase : forall r, retained_calls r (delegate_ st) = []
                            \/ exists v u, retained_calls r (delegate_ st) = [(v, u)]).
  { intros r. destruct (decide (0 <= r)) as [Hr |].
    - destruct (decide (component_of (nodes_ st) (Z.to_nat r) = -1)) as [Hc | Hc].
      + left. apply H2. intros i ->. now rewrite Nat2Z.id in Hc.
      + right. apply H3 in Hc. now rewrite Z2Nat.id in Hc.
    - left. apply H2. intros i ->. lia. }
  split; [| split; [| split; [| split]]].
  - intros r. destruct (Hcase r) as [-> | (v & u & ->)]; cbn; lia.
  - intros i. split.
    + intros Hne Hc. apply Hne, H2. now intros i' ->%Nat2Z.inj.
    + intros Hc. destruct (H3 i Hc) as (v & u & ->). discriminate.
  - intros r Hr. apply H2. intros i ->. lia.
  - exact H4.
  - intros calls' -> i Hi. apply H3.
    rewrite run_snoc in H. destruct (run calls') as [s |] eqn:Hs; [| discriminate].
    cbn [bind do_call] in H.
    destruct (calls_idle _ _ _ empty_walker_idle Hs) as [Hidle_s _].
    apply CalculateRetained_spec in H as [H _].
    apply (sweep_idle _ _ _ Hidle_s) in H as (_ & Hstep & Hvis & _).
    rewrite <- (Forall2_length _ _ _ Hstep) in Hi.
    specialize (Hvis i ltac:(apply elem_of_seq; lia)).
    unfold index_of, component_of in *.
    destruct (nodes_ st !! i) as [n |] eqn:Hn; [| contradiction].
    destruct Hidle as [Hok Hempty].
    pose proof (ok_node _ Hok _ _ Hn) as [_ Hk].
    destruct (on_stack n) eqn:Hon.
    + destruct Hk as [Hin _]. rewrite Hempty in Hin. inversion Hin.
    + destruct (Z.eqb_spec (node_index n) 0); [contradiction | lia].
Qed.

Lemma nodes_reported_once_witness :
  exists st,
    run [CallAddNode 1 2; CallAddNode 0 1; CallAddEdge 0 1; CallAddEdge 1 0;
         CallMarkRoot 0; CallCalculateRetained] = Ok st
    /\ (forall r, length (retained_calls r (delegate_ st)) <= 1)%nat
    /\ retained_calls 0 (delegate_ st) = [(3, 1)]
    /\ retained_calls 1 (delegate_ st) = [(3, 2)].
Proof.
  destruct (run [CallAddNode 1 2; CallAddNode 0 1; CallAddEdge 0 1; CallAddEdge 1 0;
                 CallMarkRoot 0; CallCalculateRetained]) as [st |] eqn:E;
    [| vm_compute in E; discriminate E].
  exists st. split; [reflexivity |]. split.
  - apply (nodes_reported_once
             [CallAddNode 1 2; CallAddNode 0 1; CallAddEdge 0 1; CallAddEdge 1 0;
              CallMarkRoot 0; CallCalculateRetained] st eq_refl E).
  - vm_compute in E. injection E as <-. split; reflexivity.
Defined.

(** ** The components are the strongly connected components *)

Lemma reaches_ext (l l' : list Node) (a b : nat) :
  (forall i, children_of l' i = children_of l i) ->
  reaches l a b -> reaches l' a b.
Proof. intros H. apply reaches_mono. intros i j. now rewrite H. Qed.

Lemma reaches_edge (l : list Node) (i j : nat) :
  j ∈ children_of l i -> reaches l i j.
Proof. intros H. eapply reaches_child; [exact H | apply reaches_here]. Qed.

Lemma scc_inv_ext (l l' : list Node) :
  (forall i, component_of l' i = component_of l i) ->
  (forall i, children_of l' i = children_of l i) ->
  scc_inv l -> scc_inv l'.
Proof.
  intros Hc Hch [H1 H2]. split.
  - intros i j. rewrite !Hc, Hch. apply H1.
  - intros i j. rewrite !Hc. intros Hi Hij.
    apply (reaches_ext l); [exact Hch | now apply H2].
Qed.

Lemma scc_inv_fresh (l : list Node) :
  (forall i, component_of l i = -1) -> scc_inv l.
Proof. intros H. split; intros i j Hi; now contradiction Hi. Qed.

Lemma foldM_Ok_prefix {A S} (f : S -> A -> result S)
    (P : list A -> S -> Prop) (l : list A) :
  (forall pre a post s s', l = pre ++ a :: post -> P pre s ->
     f s a = Ok s' -> P (pre ++ [a]) s') ->
  forall s s', P [] s -> foldM f l s = Ok s' -> P l s'.
Proof.
  intros Hf.
  assert (H : forall post pre s s', l = pre ++ post -> P pre s ->
            foldM f post s = Ok s' -> P l s').
  { induction post as [| a post IH]; intros pre s s' Hl Hs H; cbn [foldM] in H.
    - rewrite app_nil_r in Hl. subst pre. now injection H as <-.
    - inv_bind H. apply (IH (pre ++ [a]) x s'); [| | exact H].
      + now rewrite <- app_assoc.
      + eapply Hf; eassumption. }
  intros s s' Hs. now apply (H l []).
Qed.

(** Lowering the low-link of [node] to [l], at least the index of a node
    [z] of the stack that [node] reaches. *)
Lemma scc_loop_lower (st0 : Walker) (node : nat) (st : Walker) (n : Node)
    (l : Z) (z : nat) :
  nodes_ st !! node = Some n ->
  scc_loop st0 node st ->
  z ∈ node_stack_ st -> index_of (nodes_ st) z <= l ->
  reaches (nodes_ st) node z ->
  scc_loop st0 node (set_nodes (<[node := set_lowlink l n]> (nodes_ st)) st).
Proof.
  intros Hn [Hsi Hup Hdown _] Hz Hzi Hzr.
  pose proof (lower_index st node n l Hn) as Hidx.
  pose proof (lower_children st node n l Hn) as Hch.
  pose proof (lower_lowlink_eq st node n l Hn) as Hlow.
  cbv zeta in Hidx, Hch, Hlow.
  assert (Hc : forall i,
            component_of (<[node := set_lowlink l n]> (nodes_ st)) i
            = component_of (nodes_ st) i).
  { intros i. now apply (insert_same_graph _ _ n). }
  cbn [nodes_ set_nodes] in *.
  split; cbn [nodes_ node_stack_ set_nodes].
  - eapply scc_inv_ext; [exact Hc | exact Hch | exact Hsi].
  - intros a Ha. eapply reaches_ext; [exact Hch | auto].
  - intros seg Hseg m Hm. eapply reaches_ext; [exact Hch | eauto].
  - exists z. rewrite Hidx, Hlow. split; [exact Hz |]. split; [exact Hzi |].
    eapply reaches_ext; [exact Hch | exact Hzr].
Qed.

Lemma visit_child_scc (find : Walker -> nat -> result Walker)
    (st0 : Walker) (node : nat) (pre : list nat) (st : Walker) (child : nat)
    (st' : Walker) :
  search_correct find ->
  (forall s c s', walker_ok s -> counts_ok s ->
     (exists n, nodes_ s !! c = Some n /\ node_index n = 0) ->
     unvisited (nodes_ s) < unvisited (nodes_ st0) ->
     scc_inv (nodes_ s) ->
     (forall a, a ∈ node_stack_ s -> reaches (nodes_ s) a c) ->
     find s c = Ok s' -> scc_post s c s') ->
  child ∈ children_of (nodes_ st) node ->
  loop_inv2 st0 node pre st ->
  scc_loop st0 node st ->
  visit_child find node st child = Ok st' ->
  scc_loop st0 node st'.
Proof.
  intros Hfind Hscc Hchild [Hinv Hco (seg & Hstack & Hseg) Hproc] Hloop H.
  pose proof Hloop as [Hsi Hup Hdown Hlow].
  pose proof (li_ok _ _ _ Hinv) as Hok.
  destruct (li_node _ _ _ Hinv) as (n & Hn & Hidx & Hon).
  pose proof (ok_node _ Hok _ _ Hn) as [Hnrange Hnk]. rewrite Hon in Hnk.
  destruct Hnk as (_ & Hnv & _ & Hnll & _).
  assert (Hnvis : index_of (nodes_ st) node <> 0)
    by now rewrite (index_of_lookup _ _ _ Hn).
  pose proof (go_children _ (co_graph _ Hco) _ _ Hchild) as Hlt.
  destruct (lookup_lt_is_Some_2 _ _ Hlt) as [c Hc].
  pose proof (reaches_edge _ _ _ Hchild) as Hedge.
  unfold visit_child in H. unfold get_node at 1 in H.
  rewrite Hc in H. cbn [bind] in H.
  destruct (Z.eqb_spec (node_index c) 0) as [Ec | Ec].
  - (* the child is discovered now *)
    inv_bind H. rename x into sta, Hx into Hcall.
    assert (Hless : unvisited (nodes_ st) < unvisited (nodes_ st0)).
    { eapply unvisited_step_lt;
        [apply (li_nodes _ _ _ Hinv) | apply (li_fresh _ _ _ Hinv) | exact Hnvis]. }
    pose proof (Hfind st child sta Hok (ex_intro _ c (conj Hc Ec)) Hcall) as Hpost.
    assert (Hq : scc_post st child sta).
    { apply Hscc; auto; [eauto |].
      intros a Ha. eapply reaches_trans; [apply Hup, Ha | exact Hedge]. }
    destruct Hpost as [Hoka Hnodes (new & Hstacka & Hnew & Hlast)
                         (c' & Hc' & Hidx' & Hll) _ _ _].
    destruct Hq as [Hqi Hqn Hql].
    assert (Hch : forall i, children_of (nodes_ sta) i = children_of (nodes_ st) i)
      by (intros i; apply nodes_step_children, Hnodes).
    pose proof (nodes_step_lookup _ _ _ Hnodes Hnvis) as Hna. rewrite Hn in Hna.
    assert (Hedge_a : reaches (nodes_ sta) node child)
      by (eapply reaches_ext; [exact Hch | exact Hedge]).
    assert (Hup_a : forall a, a ∈ node_stack_ st -> reaches (nodes_ sta) a node)
      by (intros a Ha; eapply reaches_ext; [exact Hch | auto]).
    (* the child is on the stack whenever something is left above *)
    assert (Hcin : new <> [] -> child ∈ node_stack_ sta).
    { intros Hne. destruct Hlast as [-> | Hlast]; [contradiction |].
      apply last_Some in Hlast as (front & ->).
      rewrite Hstacka. apply elem_of_app. left. apply elem_of_app. right. left. }
    assert (Hstack_a : node_stack_ sta = (new ++ seg) ++ node :: node_stack_ st0)
      by (now rewrite Hstacka, Hstack, <- app_assoc).
    assert (Hloop_a : scc_loop st0 node sta).
    { split.
      - exact Hqi.
      - intros a Ha. rewrite Hstacka in Ha.
        apply elem_of_app in Ha as [Ha | Ha]; [| auto].
        destruct (Hqn new Hstacka a Ha) as [_ Hac].
        destruct Hql as (z & Hz & _ & Hcz).
        { apply Hcin. intros ->. inversion Ha. }
        eapply reaches_trans; [exact Hac |].
        eapply reaches_trans; [exact Hcz | auto].
      - intros seg' Hseg' m Hm.
        assert (seg' = new ++ seg) as ->.
        { rewrite Hstack_a in Hseg'. now apply app_inv_tail in Hseg'. }
        apply elem_of_app in Hm as [Hm | Hm].
        + eapply reaches_trans; [exact Hedge_a | apply (Hqn new Hstacka m Hm)].
        + eapply reaches_ext; [exact Hch | eauto].
      - destruct Hlow as (z & Hz & Hzi & Hzr). exists z.
        destruct (node_ok_on_stack _ _ Hok Hz) as (e & He & _ & Hev & _).
        assert (Hzvis : index_of (nodes_ st) z <> 0)
          by now rewrite (index_of_lookup _ _ _ He).
        unfold index_of, lowlink_of in *.
        rewrite (nodes_step_lookup _ _ _ Hnodes Hzvis), Hna.
        rewrite Hn in Hzi.
        split; [rewrite Hstacka; apply elem_of_app; now right |].
        split; [exact Hzi |].
        eapply reaches_ext; [exact Hch | exact Hzr]. }
    unfold get_node in H. rewrite Hc', Hna in H. cbn [bind] in H.
    destruct (Z.ltb_spec (lowlink c') (lowlink n)) as [Elt | Ege];
      injection H as <-; [| exact Hloop_a].
    assert (Hcon : on_stack c' = true).
    { destruct (on_stack c'); [reflexivity | lia]. }
    assert (Hcs : child ∈ node_stack_ sta).
    { pose proof (ok_node _ Hoka _ _ Hc') as [_ Hk]. rewrite Hcon in Hk. tauto. }
    destruct (Hql Hcs) as (z & Hz & Hzi & Hzr).
    rewrite (lowlink_of_lookup _ _ _ Hc') in Hzi.
    apply (scc_loop_lower st0 node sta n (lowlink c') z Hna Hloop_a);
      [rewrite Hstacka; apply elem_of_app; now right | exact Hzi |].
    eapply reaches_trans; [exact Hedge_a | exact Hzr].
  - destruct (on_stack c) eqn:Hcon; [| injection H as <-; exact Hloop].
    (* the child is on the stack *)
    unfold get_node in H. rewrite Hn in H. cbn [bind] in H.
    destruct (Z.ltb_spec (node_index c) (lowlink n)) as [Elt | Ege];
      injection H as <-; [| exact Hloop].
    apply (scc_loop_lower st0 node st n (node_index c) child Hn Hloop);
      [| rewrite (index_of_lookup _ _ _ Hc); lia | exact Hedge].
    pose proof (ok_node _ Hok _ _ Hc) as [_ Hk]. rewrite Hcon in Hk. tauto.
Qed.

(** The nodes popped into a new component are on a cycle with its
    root. *)
Lemma FoundSCC_scc (st0 : Walker) (node : nat) (st : Walker) (seg : list nat)
    (st' : Walker) :
  walker_ok st -> walker_ok st' -> counts_ok st' ->
  node_stack_ st = seg ++ node :: node_stack_ st0 ->
  scc_loop st0 node st ->
  FoundSCC st node = Ok st' ->
  scc_inv (nodes_ st') /\ node_stack_ st' = node_stack_ st0.
Proof.
  intros Hok Hok' Hco' Hstack [Hsi Hup Hdown _] H.
  pose proof (component_bound st) as Hbound.
  pose proof (component_bound st') as Hbound'.
  apply FoundSCC_spec in H
    as (front & Hst & Hnd & Hlen & Hout & Hin & Hcomp & _).
  assert (front = seg /\ node_stack_ st' = node_stack_ st0) as [-> Hstack'].
  { apply (pivot_unique node); [| congruence].
    rewrite <- Hst. eapply stack_NoDup, (ok_sorted _ Hok). }
  split; [| exact Hstack'].
  set (cid := Z.of_nat (length (components_ st))) in *.
  set (M := seg ++ [node]) in *.
  assert (Hcin : forall i, i ∈ M -> component_of (nodes_ st) i = -1
                                    /\ component_of (nodes_ st') i = cid).
  { intros i Hi. destruct (Hin i Hi) as (e & He & Hc & He').
    unfold component_of. rewrite He, He'. auto. }
  assert (Hcout : forall i, i ∉ M ->
            component_of (nodes_ st') i = component_of (nodes_ st) i).
  { intros i Hi. unfold component_of. now rewrite (Hout i Hi). }
  assert (Hch : forall i, children_of (nodes_ st') i = children_of (nodes_ st) i).
  { intros i. unfold children_of. destruct (decide (i ∈ M)) as [Hi | Hi].
    - destruct (Hin i Hi) as (e & -> & _ & ->). reflexivity.
    - now rewrite (Hout i Hi). }
  assert (HM : forall i, i ∈ M ->
            reaches (nodes_ st) i node /\ reaches (nodes_ st) node i).
  { intros i Hi. apply elem_of_app in Hi as [Hi | Hi].
    - split; [| eauto]. apply Hup. rewrite Hstack. apply elem_of_app. now left.
    - apply list_elem_of_singleton in Hi as ->. split; apply reaches_here. }
  split.
  - intros i j Hi Hj.
    split; [eapply (co_assigned _ Hco'); eassumption |].
    destruct (decide (i ∈ M)) as [Him | Him].
    + destruct (Hcin i Him) as [_ ->]. specialize (Hbound' j Hok').
      rewrite Hcomp in Hbound'. unfold cid. lia.
    + rewrite (Hcout i Him) in *. rewrite Hch in Hj.
      destruct (sc_order _ Hsi i j Hi Hj) as [Hja Hle].
      destruct (decide (j ∈ M)) as [Hjm | Hjm].
      * now destruct (Hcin j Hjm).
      * now rewrite (Hcout j Hjm).
  - intros i j Hi Hij. apply (reaches_ext (nodes_ st)); [exact Hch |].
    destruct (decide (i ∈ M)) as [Him | Him], (decide (j ∈ M)) as [Hjm | Hjm].
    + eapply reaches_trans; [apply (HM i Him) | apply (HM j Hjm)].
    + exfalso. destruct (Hcin i Him) as [_ Hc]. rewrite (Hcout j Hjm), Hc in Hij.
      specialize (Hbound j Hok). unfold cid in Hij. lia.
    + exfalso. destruct (Hcin j Hjm) as [_ Hc]. rewrite (Hcout i Him), Hc in Hij.
      specialize (Hbound i Hok). unfold cid in Hij. lia.
    + rewrite (Hcout i Him) in *. rewrite (Hcout j Hjm) in Hij.
      now apply (sc_sound _ Hsi).
Qed.

Lemma FindSCC_scc (fuel : nat) :
  forall st node st',
    walker_ok st -> counts_ok st ->
    (exists n, nodes_ st !! node = Some n /\ node_index n = 0) ->
    unvisited (nodes_ st) <= Z.of_nat fuel ->
    scc_inv (nodes_ st) ->
    (forall a, a ∈ node_stack_ st -> reaches (nodes_ st) a node) ->
    FindSCC fuel st node = Ok st' ->
    scc_post st node st'.
Proof.
  induction fuel as [| fuel IH];
    intros st node st' Hok Hco (n0 & Hn0 & Hfresh) Hfuel Hsi Hpre H;
    [discriminate |].
  pose proof (safe_Ok_inv _ _ _
                (FindSCC_safe (S fuel) st node Hok Hco
                   (ex_intro _ n0 (conj Hn0 Hfresh)) Hfuel) H) as Hpost2.
  cbn in H. inv_binds H.
  rename x0 into st1, Hx0 into Henter, x1 into st2, Hx1 into Hloop,
         x2 into n2, Hx2 into Hn2.
  apply get_node_Ok in Hn2. apply get_node_Ok in Hx.
  assert (x = n0) as -> by congruence. clear Hx.
  apply enter_node_spec in Henter as (n0' & Hn0' & ->).
  assert (n0' = n0) as -> by congruence.
  pose proof (lookup_lt_Some _ _ _ Hn0) as Hlt.
  set (st1 := set_next_node_index _ _) in *.
  pose proof (enter_node_inv st node n0 Hok Hn0 Hfresh) as Hinv1. fold st1 in Hinv1.
  destruct (insert_same_graph (nodes_ st) node n0
              (entered_node (next_node_index_ st) n0) Hn0 eq_refl eq_refl eq_refl)
    as (Ec1 & Ech1 & _).
  assert (Hl1 : loop_inv2 st node [] st1).
  { split.
    - exact Hinv1.
    - eapply (counts_ok_insert st node n0 (entered_node (next_node_index_ st) n0));
        try reflexivity; assumption.
    - exists []. split; [reflexivity |]. intros m Hm. inversion Hm.
    - intros c Hc. inversion Hc. }
  assert (Hs1 : scc_loop st node st1).
  { split; cbn [nodes_ node_stack_ st1 set_next_node_index set_node_stack set_nodes].
    - eapply scc_inv_ext; [exact Ec1 | exact Ech1 | exact Hsi].
    - intros a Ha. apply elem_of_cons in Ha as [-> | Ha]; [apply reaches_here |].
      eapply reaches_ext; [exact Ech1 | auto].
    - intros seg Hseg m Hm.
      change (node :: node_stack_ st) with ([] ++ node :: node_stack_ st) in Hseg.
      apply (pivot_unique node) in Hseg as [<- _]; [inversion Hm |].
      cbn. apply (stack_NoDup _ _ (ok_sorted _ (li_ok _ _ _ Hinv1))).
    - exists node. split; [left |]. split; [| apply reaches_here].
      unfold index_of, lowlink_of. rewrite list_lookup_insert_eq by assumption.
      cbn. lia. }
  assert (Hboth : loop_inv2 st node (children n0) st2 /\ scc_loop st node st2).
  { revert Hloop.
    apply (foldM_Ok_prefix _ (fun pre s => loop_inv2 st node pre s
                                           /\ scc_loop st node s));
      [| split; assumption].
    intros pre a post s s' Hl [Hl2 Hsl] Hcall.
    assert (Hchild : a ∈ children_of (nodes_ s) node).
    { rewrite (nodes_step_children _ _ _ (li_nodes _ _ _ (l2_inv _ _ _ _ Hl2))).
      unfold children_of. rewrite Hn0, Hl. apply elem_of_app. right. left. }
    split.
    - eapply safe_Ok_inv; [| exact Hcall].
      apply visit_child_safe; [apply FindSCC_spec | | exact Hchild | exact Hl2].
      intros s0 c Hoks Hcos Hc Hless. apply FindSCC_safe; auto. lia.
    - eapply visit_child_scc;
        [apply FindSCC_spec | | exact Hchild | exact Hl2 | exact Hsl | exact Hcall].
      intros s0 c s0' Hoks Hcos Hc Hless Hsis Hpres Hcalls.
      eapply IH; eauto. lia. }
  destruct Hboth as [[Hinv2 Hco2 (seg & Hstack & Hseg) Hproc] Hsl2].
  pose proof (li_ok _ _ _ Hinv2) as Hok2.
  assert (Hfreshst : node ∉ node_stack_ st).
  { intros Hin. destruct (node_ok_on_stack _ _ Hok Hin) as (e & He & _ & Hv & _).
    congruence. }
  destruct (Z.eqb_spec (lowlink n2) (node_index n2)) as [Eroot | Eroot].
  - (* [node] is the root of a component *)
    destruct Hpost2 as [Hpost Hco' _].
    destruct (FoundSCC_scc st node st2 seg st' Hok2 (sp_ok _ _ _ Hpost) Hco'
                Hstack Hsl2 H) as [Hsi' Hstack'].
    split.
    + exact Hsi'.
    + intros new Hnew m Hm. rewrite Hstack' in Hnew.
      change (node_stack_ st) with ([] ++ node_stack_ st) in Hnew at 1.
      apply app_inv_tail in Hnew as <-. inversion Hm.
    + intros Hin. rewrite Hstack' in Hin. contradiction.
  - (* [node] stays on the stack *)
    injection H as <-.
    pose proof (ok_node _ Hok2 _ _ Hn2) as [_ Hk].
    destruct (li_node _ _ _ Hinv2) as (n2' & Hn2' & _ & Hon).
    assert (n2' = n2) as -> by congruence.
    rewrite Hon in Hk. destruct Hk as (_ & _ & _ & Hll & _).
    assert (Hstack2 : node_stack_ st2 = (seg ++ [node]) ++ node_stack_ st)
      by now rewrite Hstack, <- app_assoc.
    destruct Hsl2 as [Hsi2 Hup2 Hdown2 (z & Hz & Hzi & Hzr)].
    split.
    + exact Hsi2.
    + intros new Hnew m Hm. rewrite Hstack2 in Hnew.
      apply app_inv_tail in Hnew as <-.
      apply elem_of_app in Hm as [Hm | Hm].
      * split; [eauto |]. apply Hup2. rewrite Hstack. apply elem_of_app. now left.
      * apply list_elem_of_singleton in Hm as ->. split; apply reaches_here.
    + intros _. exists z. split; [| split; assumption].
      rewrite (lowlink_of_lookup _ _ _ Hn2) in Hzi.
      pose proof (ok_sorted _ Hok2) as Hsorted.
      rewrite Hstack in Hz, Hsorted.
      apply elem_of_app in Hz as [Hz | Hz].
      * exfalso. apply StronglySorted_app in Hsorted as (Hcross & _ & _).
        specialize (Hcross z node Hz ltac:(left)). unfold stack_order in Hcross.
        rewrite (index_of_lookup _ _ _ Hn2) in Hcross. lia.
      * apply elem_of_cons in Hz as [-> | Hz]; [exfalso | exact Hz].
        rewrite (index_of_lookup _ _ _ Hn2) in Hzi. lia.
Qed.

Lemma search_scc (st : Walker) (node : nat) (n : Node) (st' : Walker) :
  settled st -> nodes_ st !! node = Some n -> scc_inv (nodes_ st) ->
  (if node_index n =? 0 then FindSCC (depth_bound st) st node else Ok st) = Ok st' ->
  settled st' /\ scc_inv (nodes_ st').
Proof.
  intros Hst Hn Hsi H.
  pose proof (safe_Ok_inv _ _ _ (search_safe st node n Hst Hn) H) as [Hst' _].
  split; [exact Hst' |].
  destruct Hst as [[Hok Hempty] Hco].
  destruct (Z.eqb_spec (node_index n) 0) as [E | E]; [| injection H as <-; exact Hsi].
  apply (sq_inv st node). eapply FindSCC_scc; eauto.
  - unfold depth_bound. pose proof (unvisited_le_length (nodes_ st)). lia.
  - intros a Ha. rewrite Hempty in Ha. inversion Ha.
Qed.

Lemma sweep_scc (l : list nat) :
  forall st st', settled st -> scc_inv (nodes_ st) ->
    foldM sweep_node l st = Ok st' ->
    settled st' /\ scc_inv (nodes_ st').
Proof.
  induction l as [| a l IH]; intros st st' Hst Hsi H; cbn in H.
  - injection H as <-. auto.
  - inv_binds H. rename x into s1, Hx into Hsweep.
    unfold sweep_node in Hsweep. inv_binds Hsweep.
    rename x into n, Hx into Hn. apply get_node_Ok in Hn.
    destruct (search_scc _ _ _ _ Hst Hn Hsi Hsweep) as [Hst1 Hsi1].
    eapply IH; eassumption.
Qed.

Lemma do_call_scc (st : Walker) (c : call) (st' : Walker) :
  settled st -> scc_inv (nodes_ st) ->
  (is_edge c = true -> fresh st) ->
  do_call st c = Ok st' ->
  settled st' /\ scc_inv (nodes_ st')
  /\ (is_search c = false -> fresh st -> fresh st').
Proof.
  intros Hst Hsi Hedge H.
  destruct c as [r size | owner_row owned_row | r |]; cbn in H.
  - (* AddNode *)
    destruct (AddNode_length _ _ _ _ H) as [Hr Hlen].
    assert (Hpre : (Z.to_nat r < length (nodes_ st))%nat
                   \/ holds_pointers (nodes_ st) = false).
    { destruct (AddNode_no_dangling _ _ _ _ H) as [E | E]; [left; lia | now right]. }
    destruct (returns_Ok _ _ (AddNode_returns st r size Hst Hr Hpre))
      as (a & Ha & Hst' & _ & _ & Hfresh).
    assert (a = st') as -> by congruence.
    split; [exact Hst' |]. split; [| intros _; exact Hfresh].
    apply AddNode_spec in H as (k & n & _ & Hn & ->). cbn [nodes_ set_nodes].
    destruct (extend_same_graph (nodes_ st) k) as (Ec & Ech & _).
    destruct (insert_same_graph _ _ n (set_size_row size r n) Hn
                eq_refl eq_refl eq_refl) as (Ic & Ich & _).
    eapply scc_inv_ext; [| | exact Hsi].
    + intros i. now rewrite Ic, Ec.
    + intros i. now rewrite Ich, Ech.
  - (* AddEdge *)
    specialize (Hedge eq_refl).
    pose proof H as Hspec.
    apply AddEdge_spec in Hspec as (a & b & n & m & Hra & Hrb & _).
    apply node_of_row_Ok in Hra as (Ha0 & -> & Hlta).
    apply node_of_row_Ok in Hrb as (Hb0 & -> & Hltb).
    destruct (returns_Ok _ _
                (AddEdge_returns st owner_row owned_row (proj1 Hst) Hedge
                   (co_graph _ (proj2 Hst)) ltac:(lia) ltac:(lia)))
      as (s & Hs & Hidle & Hfresh & Hgraph & _).
    assert (s = st') as -> by congruence.
    split; [split; [exact Hidle | now apply fresh_counts_ok] |].
    split; [apply scc_inv_fresh, Hfresh | auto].
  - (* MarkRoot *)
    split; [| split; [| discriminate]].
    + pose proof H as H'. unfold MarkRoot in H'. inv_binds H'.
      apply node_of_row_Ok in Hx as (Hr0 & -> & Hlt).
      eapply safe_Ok_inv; [| exact H].
      eapply safe_mono; [| apply (MarkRoot_safe st r Hst); lia].
      now intros s [Hs _].
    + unfold MarkRoot in H. inv_binds H.
      rename x into node, Hx into Hnode, x0 into sa, Hx0 into Hreach,
             x1 into n, Hx1 into Hn.
      apply get_node_Ok in Hn.
      pose proof (ReachableNode_frame _ _ _ _ Hreach) as Hframe.
      assert (Hsa : settled sa).
      { destruct Hst as [[Hok Hempty] Hco]. split; [split |].
        - eapply reach_frame_ok; eassumption.
        - now rewrite (rf_stack _ _ Hframe).
        - eapply counts_ok_frame; eassumption. }
      assert (Hsame : Forall2 same_graph (nodes_ st) (nodes_ sa)).
      { eapply Forall2_impl; [apply (rf_nodes _ _ Hframe) |].
        intros x y [-> | [_ ->]]; repeat split. }
      destruct (same_graph_of _ _ Hsame) as (Ec & Ech & _).
      eapply search_scc; [exact Hsa | exact Hn | | exact H].
      eapply scc_inv_ext; [exact Ec | exact Ech | exact Hsi].
  - (* CalculateRetained *)
    apply CalculateRetained_spec in H as [H _].
    destruct (sweep_scc _ _ _ Hst Hsi H) as [Hst' Hsi'].
    split; [exact Hst' |]. split; [exact Hsi' | discriminate].
Qed.

Lemma calls_scc (calls : list call) :
  forall st st', settled st -> scc_inv (nodes_ st) ->
    (fresh st /\ edges_before_search calls = true) \/ no_edges calls = true ->
    foldM do_call calls st = Ok st' ->
    settled st' /\ scc_inv (nodes_ st').
Proof.
  induction calls as [| c calls IH]; intros st st' Hst Hsi Hphase H; cbn in H.
  - injection H as <-. auto.
  - inv_binds H. rename x into s1, Hx into Hcall.
    destruct (do_call_scc st c s1 Hst Hsi) as (Hst1 & Hsi1 & Hfresh1);
      [| exact Hcall |].
    { intros Hc. destruct Hphase as [[Hf _] | Hn]; [exact Hf |].
      cbn in Hn. rewrite Hc in Hn. discriminate. }
    apply (IH s1 st' Hst1 Hsi1); [| exact H].
    destruct Hphase as [[Hf He] | Hn].
    + cbn [edges_before_search] in He.
      destruct (is_search c) eqn:Es; [now right | left; auto].
    + right. cbn in Hn. now apply andb_prop in Hn as [_ Hn].
Qed.

(** What a node of a component reaches is in the same or in an older
    component. *)
Lemma scc_inv_reaches (l : list Node) (i j : nat) :
  scc_inv l -> reaches l i j -> component_of l i <> -1 ->
  component_of l j <> -1 /\ component_of l j <= component_of l i.
Proof.
  intros Hsi. induction 1 as [i | i j k Hij _ IH]; intros Hi; [split; [exact Hi | lia] |].
  destruct (sc_order _ Hsi i j Hi Hij) as [Hj Hle].
  destruct (IH Hj) as [Hk Hle']. split; [exact Hk | lia].
Qed.

(** X16: when no edge is added once a search has run, the components
    are the strongly connected components of the graph: at every point
    of a run, a node is in the component of [i] exactly when [i] reaches
    it and it reaches [i]; and the components are numbered in reverse
    topological order: whatever a node of a component reaches is in a
    component made no later. *)
Theorem components_are_strongly_connected (calls : list call) (st : Walker)
    (i j : nat) :
  edges_before_search calls = true ->
  run calls = Ok st ->
  component_of (nodes_ st) i <> -1 ->
  (component_of (nodes_ st) j = component_of (nodes_ st) i
   <-> reaches (nodes_ st) i j /\ reaches (nodes_ st) j i)
  /\ (reaches (nodes_ st) i j ->
      component_of (nodes_ st) j <> -1
      /\ component_of (nodes_ st) j <= component_of (nodes_ st) i).
Proof.
  intros He H Hi.
  destruct (calls_scc calls empty_walker st empty_walker_settled) as [_ Hsi];
    [apply scc_inv_fresh; reflexivity | left; split; [split |]; auto | exact H |].
  split; [split |].
  - intros Hij. split; apply (sc_sound _ Hsi); congruence.
  - intros [Hij Hji].
    destruct (scc_inv_reaches _ _ _ Hsi Hij Hi) as [Hj Hle].
    destruct (scc_inv_reaches _ _ _ Hsi Hji Hj) as [_ Hle']. lia.
  - intros Hij. now apply (scc_inv_reaches _ _ _ Hsi Hij).
Qed.

Lemma components_are_strongly_connected_witness :
  exists st,
    run [CallAddNode 0 1; CallAddNode 1 1; CallAddNode 2 1; CallAddEdge 0 1;
         CallAddEdge 1 0; CallAddEdge 1 2; CallMarkRoot 0] = Ok st
    /\ component_of (nodes_ st) 0 <> -1
    /\ (component_of (nodes_ st) 1 = component_of (nodes_ st) 0
        <-> reaches (nodes_ st) 0 1 /\ reaches (nodes_ st) 1 0)
    /\ (reaches (nodes_ st) 0 1 ->
        component_of (nodes_ st) 1 <> -1
        /\ component_of (nodes_ st) 1 <= component_of (nodes_ st) 0).
Proof.
  destruct (run [CallAddNode 0 1; CallAddNode 1 1; CallAddNode 2 1; CallAddEdge 0 1;
                 CallAddEdge 1 0; CallAddEdge 1 2; CallMarkRoot 0])
    as [st |] eqn:E; [| vm_compute in E; discriminate E].
  assert (Hc : component_of (nodes_ st) 0 <> -1).
  { vm_compute in E. injection E as <-. vm_compute. discriminate. }
  exists st. split; [reflexivity |]. split; [exact Hc |].
  exact (components_are_strongly_connected
           [CallAddNode 0 1; CallAddNode 1 1; CallAddNode 2 1; CallAddEdge 0 1;
            CallAddEdge 1 0; CallAddEdge 1 2; CallMarkRoot 0] st 0 1 eq_refl E Hc).
Defined.

(** ** Sizes in a forest *)

Lemma eqm_refl (a : Z) : eqm a a.
Proof. reflexivity. Qed.

Lemma eqm_sym (a b : Z) : eqm a b -> eqm b a.
Proof. unfold eqm. congruence. Qed.

Lemma eqm_trans (a b c : Z) : eqm a b -> eqm b c -> eqm a c.
Proof. unfold eqm. congruence. Qed.

Lemma eqm_add (a a' b b' : Z) : eqm a a' -> eqm b b' -> eqm (a + b) (a' + b').
Proof.
  unfold eqm. intros Ha Hb.
  rewrite (Z.add_mod a b), (Z.add_mod a' b'), Ha, Hb by lia. reflexivity.
Qed.

Lemma eqm_wrap64 (a : Z) : eqm (wrap64 a) a.
Proof. unfold eqm, wrap64. apply Z.mod_mod. lia. Qed.

Lemma eqm_to_int64 (a : Z) : eqm (to_int64 a) a.
Proof.
  unfold eqm, to_int64. rewrite Zminus_mod_idemp_l. f_equal. lia.
Qed.

Lemma to_int64_eqm (a b : Z) : eqm a b -> to_int64 a = to_int64 b.
Proof.
  unfold eqm, to_int64. intros H.
  rewrite <- (Zplus_mod_idemp_l a), <- (Zplus_mod_idemp_l b), H. reflexivity.
Qed.

Lemma wrap64_eqm (a b : Z) : eqm a b -> wrap64 a = wrap64 b.
Proof. intros H. exact H. Qed.

Lemma eqm_zsum (f g : nat -> Z) (l : list nat) :
  (forall i, i ∈ l -> eqm (f i) (g i)) -> eqm (zsum f l) (zsum g l).
Proof.
  induction l as [| a l IH]; intros H; cbn [zsum]; [apply eqm_refl |].
  apply eqm_add; [apply H; left | apply IH; intros i Hi; apply H; now right].
Qed.

Lemma zsum_Permutation (f : nat -> Z) (l l' : list nat) :
  l ≡ₚ l' -> zsum f l = zsum f l'.
Proof. induction 1; cbn [zsum]; lia. Qed.

Lemma zsum_fmap (f : nat -> Z) (g : nat -> nat) (l : list nat) :
  zsum f (g <$> l) = zsum (fun i => f (g i)) l.
Proof. induction l as [| a l IH]; cbn [zsum fmap list_fmap]; [reflexivity |]. now rewrite <- IH. Qed.

Lemma count_all {A} (p : A -> bool) (l : list A) :
  (forall a, a ∈ l -> p a = true) -> count p l = Z.of_nat (length l).
Proof.
  induction l as [| a l IH]; intros H; [reflexivity |].
  rewrite count_cons, (H a) by left. cbn [length].
  rewrite IH by (intros; apply H; now right). lia.
Qed.

(** The keys of a map that has received a new key. *)
Lemma om_set_keys {V} (k : Z) (v : V) (m : omap V) :
  om_find k m = None -> (om_set k v m).*1 ≡ₚ k :: m.*1.
Proof.
  induction m as [| [k' v'] m IH]; intros H; cbn in *; [reflexivity |].
  destruct (Z.eqb_spec k' k) as [-> | Hne]; [discriminate |].
  destruct (k <? k'); [reflexivity |].
  destruct (Z.eqb_spec k k'); [congruence |].
  cbn. rewrite (IH H). apply Permutation_swap.
Qed.

Lemma om_find_None {V} (k : Z) (m : omap V) :
  om_find k m = None <-> k ∉ m.*1.
Proof.
  induction m as [| [k' v'] m IH]; cbn.
  - split; [intros _ H; inversion H | reflexivity].
  - destruct (Z.eqb_spec k' k) as [-> | Hne].
    + split; [discriminate |]. intros H. exfalso. apply H. left.
    + rewrite IH. split.
      * intros H Hin. apply elem_of_cons in Hin as [-> | Hin]; [congruence | auto].
      * intros H Hin. apply H. now right.
Qed.

(** In a forest every child of the node that is popped is alone in its
    component: the loop over the children records one entry for each. *)
Lemma scan_children_tree (nodes : list Node) (cid owner_row : Z) (l : list nat) :
  forall dcr dcr',
    (forall child, child ∈ l ->
       exists c, nodes !! child = Some c /\ on_stack c = false
         /\ component c <> -1 /\ component c <> cid) ->
    NoDup (component_of nodes <$> l) ->
    (forall child, child ∈ l -> om_find (component_of nodes child) dcr = None) ->
    Forall (fun p => p.2 = mkDirectChild 1 owner_row) dcr ->
    scan_children nodes cid owner_row l dcr = Ok dcr' ->
    Forall (fun p => p.2 = mkDirectChild 1 owner_row) dcr'
    /\ dcr'.*1 ≡ₚ (component_of nodes <$> l) ++ dcr.*1.
Proof.
  induction l as [| child l IH]; intros dcr dcr' Hl Hnd Hfresh Hall H; cbn in H.
  - injection H as <-. auto.
  - destruct (Hl child ltac:(left)) as (c & Hc & Hon & Hc1 & Hc2).
    unfold get_node in H. rewrite Hc in H. cbn [bind] in H. rewrite Hon in H.
    destruct (Z.eqb_spec (component c) (-1)) as [? | _]; [contradiction |].
    cbn [negb check bind] in H.
    destruct (Z.eqb_spec (component c) cid) as [? | _]; [contradiction |].
    cbn [negb] in H.
    assert (Hcc : component_of nodes child = component c)
      by (unfold component_of; now rewrite Hc).
    pose proof (Hfresh child ltac:(left)) as Hnone. rewrite Hcc in Hnone.
    rewrite Hnone in H. cbn [default edges_from_current_component] in H.
    cbn [fmap list_fmap] in Hnd. apply NoDup_cons in Hnd as [Hnotin Hnd].
    apply IH in H as [Hall' Hperm]; [| | assumption | |].
    + split; [exact Hall' |]. rewrite Hperm, (om_set_keys _ _ _ Hnone).
      cbn [fmap list_fmap app]. rewrite Hcc. symmetry. apply Permutation_middle.
    + intros child' Hin. apply Hl. now right.
    + intros child' Hin. rewrite om_find_set_ne; [apply Hfresh; now right |].
      intros Heq. apply Hnotin. apply list_elem_of_fmap. exists child'.
      rewrite Hcc. auto.
    + apply Forall_forall. intros p Hp. apply om_set_elem in Hp as [-> | Hp].
      * reflexivity.
      * rewrite Forall_forall in Hall. auto.
Qed.

Lemma kept_refl (c : Component) : kept c c.
Proof. unfold kept. auto. Qed.

Lemma kept_trans (c0 c1 c2 : Component) : kept c0 c1 -> kept c1 c2 -> kept c0 c2.
Proof. unfold kept. intros (? & ? & ?) (? & ? & ?). repeat split; [congruence .. | auto]. Qed.

Lemma get_component_lookup (cs : list Component) (id : Z) (c : Component) :
  0 <= id -> cs !! Z.to_nat id = Some c -> get_component cs id = Ok c.
Proof.
  intros Hid Hc. unfold get_component.
  destruct (Z.ltb_spec id 0); [lia |]. now rewrite Hc.
Qed.

Lemma upd_component_lookup (cs : list Component) (id : Z)
    (f : Component -> Component) (c : Component) :
  0 <= id -> cs !! Z.to_nat id = Some c ->
  upd_component cs id f = Ok (<[Z.to_nat id := f c]> cs).
Proof.
  intros Hid Hc. unfold upd_component.
  now rewrite (get_component_lookup _ _ _ Hid Hc).
Qed.

(** The body of the loop over [direct_children_rows] for a child
    component that has one incoming edge, from this component, and an
    empty ledger. *)
Lemma resolve_child_tree (cid : Z) (cs : list Component) (c2n ubn : omap Z)
    (b owner_row : Z) (c cb : Component) (cs' : list Component)
    (c2n' ubn' : omap Z) :
  0 <= cid -> 0 <= b -> b <> cid ->
  cs !! Z.to_nat cid = Some c ->
  cs !! Z.to_nat b = Some cb ->
  children_components cb = [] -> orig_incoming_edges cb = 1 ->
  resolve_child cid (cs, c2n, ubn) (b, mkDirectChild 1 owner_row)
  = Ok (cs', c2n', ubn') ->
  length cs' = length cs
  /\ (forall k c0, cs !! k = Some c0 -> k <> Z.to_nat cid ->
        exists c1, cs' !! k = Some c1 /\ kept c0 c1)
  /\ cs' !! Z.to_nat cid
     = Some (set_unique_retained_size
               (wrap64 (unique_retained_size c + unique_retained_size cb)) c)
  /\ ubn' = om_add owner_row (unique_retained_size cb) ubn.
Proof.
  intros Hcid Hb Hne Hc Hcb Hledger Horig H.
  assert (Hnat : Z.to_nat b <> Z.to_nat cid) by lia.
  pose proof (lookup_lt_Some _ _ _ Hc) as Hltc.
  pose proof (lookup_lt_Some _ _ _ Hcb) as Hltb.
  unfold resolve_child in H.
  cbn [edges_from_current_component last_node_row] in H.
  destruct (Z.eqb_spec b cid) as [? | _]; [contradiction |].
  cbn [negb check bind] in H.
  rewrite (upd_component_lookup cs b _ cb Hb Hcb) in H. cbn [bind] in H.
  set (cb1 := set_incoming_edges (size_sub (incoming_edges cb) 1) cb) in *.
  set (cs1 := <[Z.to_nat b := cb1]> cs) in *.
  assert (Hb1 : cs1 !! Z.to_nat b = Some cb1)
    by (apply list_lookup_insert_eq; assumption).
  assert (Hc1 : cs1 !! Z.to_nat cid = Some c)
    by (unfold cs1; now rewrite list_lookup_insert_ne).
  rewrite (get_component_lookup cs1 b cb1 Hb Hb1) in H. cbn [bind] in H.
  change (children_components cb1) with (children_components cb) in H.
  rewrite Hledger in H. cbn [foldM bind] in H.
  rewrite (get_component_lookup cs1 b cb1 Hb Hb1) in H. cbn [bind] in H.
  change (orig_incoming_edges cb1) with (orig_incoming_edges cb) in H.
  rewrite Horig in H. cbn [Z.eqb Pos.eqb] in H.
  inv_bind H. inv_bind Hx. apply check_Ok, Z.eqb_eq in Hx0.
  unfold absorb in Hx.
  rewrite (get_component_lookup cs1 b cb1 Hb Hb1) in Hx. cbn [bind] in Hx.
  rewrite (upd_component_lookup cs1 cid _ c Hcid Hc1) in Hx. cbn [bind] in Hx.
  change (unique_retained_size cb1) with (unique_retained_size cb) in Hx.
  set (c' := set_unique_retained_size
               (wrap64 (unique_retained_size c + unique_retained_size cb)) c) in *.
  set (cs2 := <[Z.to_nat cid := c']> cs1) in *.
  assert (Hb2 : cs2 !! Z.to_nat b = Some cb1)
    by (unfold cs2; now rewrite list_lookup_insert_ne by congruence).
  unfold credit in Hx.
  rewrite (get_component_lookup cs2 b cb1 Hb Hb2) in Hx. cbn [bind] in Hx.
  change (unique_retained_size cb1) with (unique_retained_size cb) in Hx.
  injection Hx as <-.
  rewrite (get_component_lookup cs2 b cb1 Hb Hb2) in H. cbn [bind] in H.
  rewrite Hx0 in H. cbn [Z.eqb] in H.
  rewrite (upd_component_lookup cs2 b _ cb1 Hb Hb2) in H. cbn [bind] in H.
  injection H as <- <- <-.
  split; [| split; [| split]].
  - unfold cs2, cs1. now rewrite !length_insert.
  - intros k c0 Hk Hkc. destruct (decide (k = Z.to_nat b)) as [-> | Hkb].
    + rewrite list_lookup_insert_eq
        by (unfold cs2, cs1; rewrite !length_insert; assumption).
      assert (c0 = cb) as -> by congruence.
      eexists. split; [reflexivity |]. repeat split.
    + rewrite list_lookup_insert_ne by congruence.
      unfold cs2. rewrite list_lookup_insert_ne by congruence.
      unfold cs1. rewrite list_lookup_insert_ne by congruence.
      exists c0. split; [exact Hk | apply kept_refl].
  - rewrite list_lookup_insert_ne by assumption.
    unfold cs2. apply list_lookup_insert_eq. unfold cs1. now rewrite length_insert.
  - reflexivity.
Qed.

Lemma unique_sum_Permutation (cs : list Component) (l l' : list Z) :
  l ≡ₚ l' -> unique_sum cs l = unique_sum cs l'.
Proof. induction 1; cbn [unique_sum]; lia. Qed.

Lemma unique_sum_fmap (nodes : list Node) (cs : list Component) (l : list nat) :
  unique_sum cs (component_of nodes <$> l) = zsum (unique_of nodes cs) l.
Proof.
  induction l as [| a l IH]; cbn [unique_sum zsum fmap list_fmap]; [reflexivity |].
  now rewrite <- IH.
Qed.

Lemma unique_sum_ext (cs cs' : list Component) (l : list Z) :
  (forall k, k ∈ l -> unique_at cs' k = unique_at cs k) ->
  unique_sum cs' l = unique_sum cs l.
Proof.
  induction l as [| a l IH]; intros H; cbn [unique_sum]; [reflexivity |].
  rewrite (H a) by left. rewrite IH by (intros; apply H; now right). reflexivity.
Qed.

(** The loop over [direct_children_rows] when every child component has
    one incoming edge, from this component, and an empty ledger: the new
    component absorbs the unique retained size of each, and the node
    [owner_row] is credited with each. *)
Lemma resolve_children_tree (cid owner_row : Z) (dcr : omap DirectChild) :
  forall cs c2n ubn c cs' c2n' ubn',
    0 <= cid ->
    cs !! Z.to_nat cid = Some c ->
    Forall (fun p => p.2 = mkDirectChild 1 owner_row /\ 0 <= p.1 /\ p.1 <> cid
                     /\ exists cb, cs !! Z.to_nat p.1 = Some cb
                          /\ children_components cb = []
                          /\ orig_incoming_edges cb = 1) dcr ->
    foldM (resolve_child cid) dcr (cs, c2n, ubn) = Ok (cs', c2n', ubn') ->
    length cs' = length cs
    /\ (forall k c0, cs !! k = Some c0 -> k <> Z.to_nat cid ->
          exists c1, cs' !! k = Some c1 /\ kept c0 c1)
    /\ (exists c', cs' !! Z.to_nat cid = Some c'
          /\ children_components c' = children_components c
          /\ orig_incoming_edges c' = orig_incoming_edges c
          /\ eqm (unique_retained_size c')
                 (unique_retained_size c + unique_sum cs dcr.*1)
          /\ (wrap64 (unique_retained_size c) = unique_retained_size c ->
              wrap64 (unique_retained_size c') = unique_retained_size c'))
    /\ eqm (default 0 (om_find owner_row ubn'))
           (default 0 (om_find owner_row ubn) + unique_sum cs dcr.*1).
Proof.
  induction dcr as [| [b dc] dcr IH];
    intros cs c2n ubn c cs' c2n' ubn' Hcid Hc Hall H; cbn [foldM] in H.
  - injection H as <- <- <-. cbn [fmap list_fmap unique_sum].
    split; [reflexivity |]. split; [intros k c0 Hk _; exists c0; split;
                                    [exact Hk | apply kept_refl] |].
    split; [exists c; rewrite !Z.add_0_r; repeat split; auto; apply eqm_refl |].
    rewrite Z.add_0_r. apply eqm_refl.
  - apply Forall_cons in Hall as [(Hdc & Hb & Hne & cb & Hcb & Hledger & Horig) Hall].
    cbn [fst snd] in Hdc, Hb, Hne, Hcb. subst dc.
    inv_bind H. destruct x as [[cs1 c2n1] ubn1].
    destruct (resolve_child_tree _ _ _ _ _ _ _ _ _ _ _ Hcid Hb Hne Hc Hcb Hledger
                Horig Hx) as (Hlen1 & Hkept1 & Hc1 & ->).
    assert (Hall1 : Forall (fun p => p.2 = mkDirectChild 1 owner_row /\ 0 <= p.1
                       /\ p.1 <> cid
                       /\ exists cb, cs1 !! Z.to_nat p.1 = Some cb
                            /\ children_components cb = []
                            /\ orig_incoming_edges cb = 1) dcr).
    { eapply Forall_impl; [exact Hall |].
      intros [b' dc'] (Hdc' & Hb' & Hne' & cb' & Hcb' & Hl' & Ho'). cbn [fst snd] in *.
      destruct (Hkept1 _ _ Hcb' ltac:(lia)) as (cb1 & Hcb1 & Hu1 & Ho1 & Hl1).
      repeat split; try assumption. exists cb1. split; [assumption |].
      split; [auto | congruence]. }
    destruct (IH _ _ _ _ _ _ _ Hcid Hc1 Hall1 H)
      as (Hlen & Hkept & (c' & Hc' & Hl' & Ho' & Hu' & Hw') & Hubn).
    assert (Hsum : unique_sum cs1 dcr.*1 = unique_sum cs dcr.*1).
    { apply unique_sum_ext. intros k Hk.
      apply list_elem_of_fmap in Hk as ([b' dc'] & -> & Hin). cbn [fst].
      rewrite Forall_forall in Hall.
      destruct (Hall _ Hin) as (_ & Hb' & Hne' & cb' & Hcb' & _). cbn [fst] in *.
      destruct (Hkept1 _ _ Hcb' ltac:(lia)) as (cb1 & Hcb1 & Hu1 & _).
      unfold unique_at. now rewrite Hcb1, Hcb'. }
    rewrite Hsum in *.
    assert (Hub : unique_at cs b = unique_retained_size cb)
      by (unfold unique_at; now rewrite Hcb).
    cbn [fmap list_fmap fst unique_sum]. rewrite Hub.
    split; [congruence |]. split; [| split].
    + intros k c0 Hk Hkc. destruct (Hkept1 _ _ Hk Hkc) as (c1 & Hk1 & Hk01).
      destruct (Hkept _ _ Hk1 Hkc) as (c2 & Hk2 & Hk12).
      exists c2. split; [exact Hk2 | eapply kept_trans; eassumption].
    + exists c'. split; [exact Hc' |]. cbn in Hl', Ho', Hu', Hw'.
      split; [exact Hl' |]. split; [exact Ho' |]. split.
      * eapply eqm_trans; [exact Hu' |]. rewrite Z.add_assoc.
        apply eqm_add; [apply eqm_wrap64 | apply eqm_refl].
      * intros _. apply Hw'. unfold wrap64. apply Z.mod_mod. lia.
    + eapply eqm_trans; [exact Hubn |]. rewrite Z.add_assoc.
      apply eqm_add; [| apply eqm_refl].
      unfold om_add. rewrite om_find_set_eq. cbn [default]. apply eqm_to_int64.
Qed.

Lemma count_incoming_unique (nodes : list Node) (cid : Z) (l : list nat)
    (c c' : Component) :
  foldM (count_incoming nodes cid) l c = Ok c' ->
  unique_retained_size c' = unique_retained_size c.
Proof.
  apply (foldM_Ok_inv _ (fun s => unique_retained_size s = unique_retained_size c));
    [| reflexivity].
  intros s a s' _ Hs H. unfold count_incoming in H. inv_bind H.
  destruct (negb _); injection H as <-; exact Hs.
Qed.

(** The first loop over [component_nodes], for a component of one node
    whose parents are outside it. *)
Lemma account_node_tree (nodes : list Node) (cid : Z) (c0 : Component)
    (node : nat) (e : Node) (c : Component) :
  nodes !! node = Some e ->
  (forall p, p ∈ parents e -> (p < length nodes)%nat /\ component_of nodes p <> cid) ->
  foldM (account_node nodes cid) [node] c0 = Ok c ->
  unique_retained_size c = wrap64 (unique_retained_size c0 + self_size e)
  /\ orig_incoming_edges c = incoming_edges c0 + Z.of_nat (length (parents e))
  /\ children_components c = children_components c0.
Proof.
  intros He Hp H. cbn [foldM] in H. inv_bind H. injection H as <-.
  unfold account_node, get_node in Hx. rewrite He in Hx. cbn [bind] in Hx.
  inv_bind Hx. injection Hx as <-. rename x0 into c2, Hx0 into Hfold.
  pose proof (count_incoming_unique _ _ _ _ _ Hfold) as Hu.
  destruct (count_incoming_fold nodes cid (parents e)
              (set_unique_retained_size
                 (wrap64 (unique_retained_size c0 + self_size e)) c0))
    as (c2' & Hfold' & Hi & _ & Hl); [intros p Hin; now apply Hp |].
  assert (c2' = c2) as -> by congruence.
  cbn in Hu, Hi, Hl |- *. split; [exact Hu |]. split; [| exact Hl].
  rewrite Hi, count_all; [reflexivity |].
  intros p Hin. destruct (Hp p Hin) as [_ Hc].
  destruct (Z.eqb_spec (component_of nodes p) cid); [contradiction | reflexivity].
Qed.

Lemma reaches_up (nodes : list Node) (i j : nat) :
  forest_graph nodes -> reaches nodes i j -> (i <= j)%nat.
Proof.
  intros Hf. induction 1 as [i | i j k Hij _ IH]; [lia |].
  pose proof (fg_up _ Hf _ _ Hij). lia.
Qed.

(** In a forest every component is a single node. *)
Lemma forest_components_inj (nodes : list Node) (i j : nat) :
  forest_graph nodes -> scc_inv nodes ->
  component_of nodes i <> -1 -> component_of nodes i = component_of nodes j ->
  i = j.
Proof.
  intros Hf Hs Hi Hij.
  pose proof (reaches_up _ _ _ Hf (sc_sound _ Hs i j Hi (eq_sym Hij))).
  pose proof (reaches_up _ _ _ Hf
                (sc_sound _ Hs j i ltac:(congruence) Hij)).
  lia.
Qed.

Lemma lookup_snoc_length {A} (l : list A) (a : A) : (l ++ [a]) !! length l = Some a.
Proof. rewrite lookup_app_r by lia. now rewrite Nat.sub_diag. Qed.

(** [FoundSCC] in a forest. *)
Lemma FoundSCC_tree (st : Walker) (node : nat) (rest : list nat) (st' : Walker) :
  walker_ok st -> graph_ok (nodes_ st) -> forest_graph (nodes_ st) ->
  scc_inv (nodes_ st) ->
  tree_inv (nodes_ st) (components_ st) (delegate_ st) ->
  node_stack_ st = node :: rest ->
  (forall child, child ∈ children_of (nodes_ st) node ->
     component_of (nodes_ st) child <> -1) ->
  FoundSCC st node = Ok st' ->
  tree_inv (nodes_ st') (components_ st') (delegate_ st').
Proof.
  intros Hok Hgraph Hforest Hscc Htree Hstack Hchildren H.
  pose proof (component_bound st) as Hbound.
  destruct (node_ok_on_stack st node Hok ltac:(rewrite Hstack; left))
    as (e & He & Hon & _ & Hecomp).
  pose proof (lookup_lt_Some _ _ _ He) as Hlt.
  set (cid := Z.of_nat (length (components_ st))) in *.
  assert (Hcid : 0 <= cid) by (unfold cid; lia).
  assert (Hcidnat : Z.to_nat cid = length (components_ st))
    by (unfold cid; apply Nat2Z.id).
  unfold FoundSCC in H. fold cid in H.
  unfold get_node in H at 1. rewrite He in H. cbn [bind] in H.
  rewrite Hstack in H. cbn [pop_component] in H.
  unfold get_node in H at 1. rewrite He in H. cbn [bind] in H.
  rewrite Hecomp in H. cbn [Z.eqb Pos.eqb check] in H. rewrite Nat.eqb_refl in H.
  destruct (scan_children (nodes_ st) cid (row e) (children e) []) as [dcr |] eqn:Hscan;
    [| discriminate H].
  cbn [bind app] in H.
  set (c0 := mkComponent (lowlink e) 0 0 0 []) in *.
  set (nodes' := <[node := set_component cid (set_on_stack false e)]> (nodes_ st)) in *.
  assert (Hc0 : (components_ st ++ [c0]) !! Z.to_nat cid = Some c0)
    by (rewrite Hcidnat; apply lookup_snoc_length).
  rewrite (get_component_lookup _ cid c0 Hcid Hc0) in H. cbn [bind] in H.
  destruct (foldM (account_node nodes' cid) [node] c0) as [c1 |] eqn:Hacc;
    [| discriminate H].
  cbn [bind] in H.
  rewrite (upd_component_lookup _ cid _ c0 Hcid Hc0) in H. cbn [bind] in H.
  set (cs1 := <[Z.to_nat cid := c1]> (components_ st ++ [c0])) in *.
  destruct (foldM (resolve_child cid) dcr (cs1, [], [])) as [[[cs2 c2n] ubn] |] eqn:Hres;
    [| discriminate H].
  cbn [bind] in H.
  (* the children of the node *)
  assert (Hche : children_of (nodes_ st) node = children e)
    by (unfold children_of; now rewrite He).
  assert (Hpae : parents_of (nodes_ st) node = parents e)
    by (unfold parents_of; now rewrite He).
  assert (Hchild : forall child, child ∈ children e ->
            child <> node
            /\ 0 <= component_of (nodes_ st) child < cid
            /\ exists c, nodes_ st !! child = Some c /\ on_stack c = false
                 /\ component c = component_of (nodes_ st) child).
  { intros child Hin. rewrite <- Hche in Hin.
    pose proof (fg_up _ Hforest _ _ Hin) as Hup.
    pose proof (Hchildren child Hin) as Hassigned.
    pose proof (Hbound child Hok) as Hb.
    unfold component_of in *.
    destruct (nodes_ st !! child) as [c |] eqn:Hc; [| contradiction].
    pose proof (ok_node _ Hok _ _ Hc) as [_ Hk].
    split; [lia |].
    destruct (on_stack c) eqn:Hcon; [tauto |].
    destruct (node_index c =? 0); [contradiction |].
    split; [lia |]. exists c. auto. }
  assert (Hsingle : forall child, child ∈ children e ->
            length (parents_of (nodes_ st) child) = 1%nat).
  { intros child Hin. rewrite <- Hche in Hin.
    pose proof (proj1 (go_symmetric _ Hgraph _ _) Hin) as Hpar.
    pose proof (sorted_lt_NoDup _ (go_parents_sorted _ Hgraph child)) as Hnd.
    assert (Hall : forall p, p ∈ parents_of (nodes_ st) child -> p = node).
    { intros p Hp. apply (go_symmetric _ Hgraph) in Hp.
      eapply fg_single; eassumption. }
    destruct (parents_of (nodes_ st) child) as [| p [| q l]]; [inversion Hpar | reflexivity |].
    exfalso. pose proof (Hall p ltac:(left)). pose proof (Hall q ltac:(right; left)).
    subst p q. apply NoDup_cons in Hnd as [Hnd _]. apply Hnd. left. }
  (* the nodes once [node] is popped *)
  assert (Hnode' : nodes' !! node = Some (set_component cid (set_on_stack false e)))
    by (apply list_lookup_insert_eq; assumption).
  assert (Hother : forall i, i <> node -> nodes' !! i = nodes_ st !! i)
    by (intros i Hi; apply list_lookup_insert_ne; congruence).
  assert (Hcn : component_of nodes' node = cid)
    by (unfold component_of; now rewrite Hnode').
  assert (Hco : forall i, i <> node ->
            component_of nodes' i = component_of (nodes_ st) i)
    by (intros i Hi; unfold component_of; now rewrite Hother).
  assert (Hch' : forall i, children_of nodes' i = children_of (nodes_ st) i).
  { intros i. unfold children_of. destruct (decide (i = node)) as [-> | Hi].
    - now rewrite Hnode', He.
    - now rewrite Hother. }
  assert (Hpa' : forall i, parents_of nodes' i = parents_of (nodes_ st) i).
  { intros i. unfold parents_of. destruct (decide (i = node)) as [-> | Hi].
    - now rewrite Hnode', He.
    - now rewrite Hother. }
  assert (Hss' : forall i, self_size_of nodes' i = self_size_of (nodes_ st) i).
  { intros i. unfold self_size_of. destruct (decide (i = node)) as [-> | Hi].
    - now rewrite Hnode', He.
    - now rewrite Hother. }
  assert (Hunassigned : component_of (nodes_ st) node = -1)
    by (unfold component_of; now rewrite He).
  (* the direct children *)
  destruct (scan_children_tree (nodes_ st) cid (row e) (children e) [] dcr)
    as [Hdcr Hperm]; [| | reflexivity | constructor | exact Hscan |].
  { intros child Hin. destruct (Hchild child Hin) as (_ & Hrange & c & Hc & Hcon & Hcc).
    exists c. repeat split; try assumption; lia. }
  { apply NoDup_fmap_2_strong.
    - intros x y Hx Hy Hxy.
      destruct (Hchild x Hx) as (_ & Hrange & _).
      apply (forest_components_inj (nodes_ st)); auto. lia.
    - rewrite <- Hche. apply sorted_lt_NoDup, (go_children_sorted _ Hgraph). }
  rewrite app_nil_r in Hperm.
  (* the new component after the first loop *)
  destruct (account_node_tree nodes' cid c0 node _ c1 Hnode') as (Hu1 & Ho1 & Hl1);
    [| exact Hacc |].
  { intros p Hp. cbn in Hp. rewrite <- Hpae in Hp.
    pose proof (go_parents _ Hgraph _ _ Hp) as Hplt.
    apply (go_symmetric _ Hgraph) in Hp. apply (fg_up _ Hforest) in Hp.
    split; [unfold nodes'; now rewrite length_insert |].
    rewrite Hco by lia. specialize (Hbound p Hok). lia. }
  cbn in Hu1, Ho1, Hl1.
  (* the table of components *)
  assert (Hcs1_cid : cs1 !! Z.to_nat cid = Some c1).
  { apply list_lookup_insert_eq. rewrite length_app, Hcidnat. cbn. lia. }
  assert (Hcs1_old : forall k, (k < length (components_ st))%nat ->
            cs1 !! k = components_ st !! k).
  { intros k Hk. unfold cs1. rewrite list_lookup_insert_ne by lia.
    now apply lookup_app_l. }
  assert (Hkeys : forall b, b ∈ dcr.*1 ->
            exists child, child ∈ children e /\ b = component_of (nodes_ st) child).
  { intros b Hb. rewrite Hperm in Hb.
    apply list_elem_of_fmap in Hb as (child & -> & Hin). eauto. }
  destruct (resolve_children_tree cid (row e) dcr cs1 [] [] c1 cs2 c2n ubn Hcid
              Hcs1_cid) as (Hlen2 & Hkept2 & (c' & Hc' & Hl' & Ho' & Hu' & Hw') & Hubn);
    [| exact Hres |].
  { apply Forall_forall. intros [b dc] Hin.
    rewrite Forall_forall in Hdcr. specialize (Hdcr _ Hin). cbn [fst snd] in *.
    destruct (Hkeys b) as (child & Hcin & ->);
      [apply list_elem_of_fmap; exists (b, dc); auto |].
    destruct (Hchild child Hcin) as (_ & Hrange & _).
    destruct (tr_comp _ _ _ Htree child ltac:(lia)) as (cb & Hcb & Hlb & Hob & _).
    split; [exact Hdcr |]. split; [lia |]. split; [lia |].
    exists cb. rewrite Hcs1_old by lia. split; [exact Hcb |]. split; [exact Hlb |].
    rewrite Hob, (Hsingle child Hcin). reflexivity. }
  (* the rest of the function *)
  rewrite (get_component_lookup cs2 cid c' Hcid Hc') in H. cbn [bind] in H.
  unfold RetainedSize in H. rewrite Hl', Hl1 in H. cbn [foldM bind] in H.
  unfold report_node in H.
  cbn [nodes_ set_components set_node_stack set_nodes] in H.
  unfold get_node in H. rewrite Hnode' in H. cbn [bind] in H.
  injection H as <-.
  cbn [nodes_ components_ delegate_ emit set_components set_node_stack set_nodes].
  change (row (set_component cid (set_on_stack false e))) with (row e).
  change (self_size (set_component cid (set_on_stack false e))) with (self_size e).
  rewrite (fg_rows _ Hforest _ _ He).
  (* the unique retained sizes *)
  assert (Huat : forall k, 0 <= k < cid -> unique_at cs2 k = unique_at (components_ st) k).
  { intros k Hk. unfold unique_at.
    destruct (components_ st !! Z.to_nat k) as [ck |] eqn:Hck.
    - pose proof Hck as Hck1. rewrite <- Hcs1_old in Hck1 by lia.
      destruct (Hkept2 _ _ Hck1 ltac:(lia)) as (ck2 & -> & -> & _). reflexivity.
    - apply lookup_ge_None in Hck. lia. }
  assert (Huof : forall i, component_of (nodes_ st) i <> -1 ->
            unique_of nodes' cs2 i = unique_of (nodes_ st) (components_ st) i).
  { intros i Hi. unfold unique_of.
    assert (i <> node) by (intros ->; contradiction).
    rewrite Hco by assumption. apply Huat.
    pose proof (Hbound i Hok). unfold component_of in *.
    destruct (nodes_ st !! i) as [n |] eqn:Hn; [| contradiction].
    pose proof (ok_node _ Hok _ _ Hn) as [_ Hk].
    destruct (on_stack n); [tauto |]. destruct (node_index n =? 0); [contradiction | lia]. }
  set (S := zsum (unique_of (nodes_ st) (components_ st)) (children e)) in *.
  assert (Hsum : unique_sum cs1 dcr.*1 = S).
  { unfold S. rewrite <- unique_sum_fmap, <- (unique_sum_Permutation _ _ _ Hperm).
    apply unique_sum_ext. intros b Hb.
    destruct (Hkeys b Hb) as (child & Hcin & ->).
    destruct (Hchild child Hcin) as (_ & Hrange & _).
    unfold unique_at. now rewrite Hcs1_old by lia. }
  rewrite Hsum in Hu', Hubn. cbn [om_find default] in Hubn.
  rewrite (fg_rows _ Hforest _ _ He) in Hubn.
  assert (Huc' : unique_retained_size c' = wrap64 (self_size e + S)).
  { rewrite <- Hw' by (rewrite Hu1; unfold wrap64; apply Z.mod_mod; lia).
    apply wrap64_eqm. eapply eqm_trans; [exact Hu' |].
    apply eqm_add; [| apply eqm_refl]. rewrite Hu1.
    eapply eqm_trans; [apply eqm_wrap64 |]. apply eqm_refl. }
  assert (Hun : unique_of nodes' cs2 node = unique_retained_size c').
  { unfold unique_of, unique_at. now rewrite Hcn, Hc'. }
  assert (Hzs : zsum (unique_of nodes' cs2) (children e) = S).
  { apply zsum_ext. intros child Hin. apply Huof.
    destruct (Hchild child Hin) as (_ & Hrange & _). lia. }
  assert (Hev : forall r,
            retained_calls r
              (delegate_ st
               ++ [SetRetained (Z.of_nat node) (to_int64 (unique_retained_size c'))
                     (to_int64 (to_int64 (self_size e)
                                + default 0 (om_find (Z.of_nat node) ubn)))])
            = retained_calls r (delegate_ st)
              ++ (if Z.of_nat node =? r
                  then [(to_int64 (unique_retained_size c'),
                         to_int64 (unique_retained_size c'))]
                  else [])).
  { intros r. rewrite retained_calls_app. cbn [retained_calls].
    destruct (Z.of_nat node =? r); [| reflexivity].
    do 3 f_equal. apply to_int64_eqm.
    rewrite Huc'. eapply eqm_trans; [| apply eqm_sym, eqm_wrap64].
    apply eqm_add; [apply eqm_to_int64 |].
    eapply eqm_trans; [exact Hubn |]. apply eqm_refl. }
  split.
  - intros i Hi. assert (Hne : i <> node) by (intros ->; lia).
    rewrite Hco in Hi by assumption. rewrite Hev, (tr_none _ _ _ Htree i Hi).
    destruct (Z.eqb_spec (Z.of_nat node) (Z.of_nat i)); [lia | reflexivity].
  - intros i Hi. destruct (decide (i = node)) as [-> | Hne].
    + exists c'. rewrite Hcn, Hch', Hpa', Hss', Hche, Hpae, Hzs.
      split; [exact Hc' |]. split; [congruence |]. split; [lia |].
      unfold self_size_of. now rewrite He.
    + rewrite Hco in Hi |- * by assumption.
      destruct (tr_comp _ _ _ Htree i Hi) as (c & Hc & Hlc & Hoc & Huc).
      pose proof (Hbound i Hok) as Hbi.
      assert (Hrange : 0 <= component_of (nodes_ st) i).
      { unfold component_of in *.
        destruct (nodes_ st !! i) as [n |] eqn:Hn; [| contradiction].
        pose proof (ok_node _ Hok _ _ Hn) as [_ Hk].
        destruct (on_stack n); [tauto |].
        destruct (node_index n =? 0); [contradiction | lia]. }
      pose proof Hc as Hc1. rewrite <- Hcs1_old in Hc1 by lia.
      destruct (Hkept2 _ _ Hc1 ltac:(lia)) as (c2 & Hc2 & Hu2 & Ho2 & Hl2).
      exists c2. rewrite Hch', Hpa', Hss'.
      split; [exact Hc2 |]. split; [auto |]. split; [congruence |].
      rewrite Hu2, Huc. do 2 f_equal. symmetry. apply zsum_ext.
      intros j Hj. apply Huof. eapply (sc_order _ Hscc); eassumption.
  - intros i Hi. rewrite Hev. destruct (decide (i = node)) as [-> | Hne].
    + rewrite (tr_none _ _ _ Htree node Hunassigned), Z.eqb_refl, Hun. reflexivity.
    + rewrite Hco in Hi by assumption.
      rewrite (tr_log _ _ _ Htree i Hi), (Huof i Hi).
      destruct (Z.eqb_spec (Z.of_nat node) (Z.of_nat i)); [lia | reflexivity].
Qed.

Lemma same_sizes_of (l l' : list Node) :
  Forall2 same_sizes l l' ->
  (forall i, component_of l' i = component_of l i)
  /\ (forall i, children_of l' i = children_of l i)
  /\ (forall i, parents_of l' i = parents_of l i)
  /\ (forall i, self_size_of l' i = self_size_of l i).
Proof.
  intros H.
  assert (Hi : forall i,
            match l !! i, l' !! i with
            | Some n, Some n' => same_sizes n n'
            | None, None => True
            | _, _ => False
            end).
  { intros i. destruct (l !! i) as [n |] eqn:E.
    - destruct (Forall2_lookup_l _ _ _ _ _ H E) as (n' & -> & Hs). exact Hs.
    - apply lookup_ge_None in E. rewrite (Forall2_length _ _ _ H) in E.
      apply lookup_ge_None in E. now rewrite E. }
  unfold component_of, children_of, parents_of, self_size_of.
  refine (conj _ (conj _ (conj _ _))); intros i; specialize (Hi i);
    destruct (l !! i), (l' !! i); try contradiction; try reflexivity;
    destruct Hi as (? & ? & ? & ? & ?); assumption.
Qed.

Lemma same_sizes_insert (l : list Node) (i : nat) (n n' : Node) :
  l !! i = Some n -> same_sizes n n' -> Forall2 same_sizes l (<[i := n']> l).
Proof.
  intros Hn Hs. apply Forall2_same_length_lookup_2; [now rewrite length_insert |].
  intros j x y Hx Hy. destruct (decide (j = i)) as [-> | Hne].
  - rewrite list_lookup_insert_eq in Hy by (eapply lookup_lt_Some; eassumption).
    congruence.
  - rewrite list_lookup_insert_ne in Hy by congruence.
    assert (y = x) as -> by congruence. repeat split.
Qed.

Lemma unique_of_ext (l l' : list Node) (cs : list Component) (i : nat) :
  component_of l' i = component_of l i -> unique_of l' cs i = unique_of l cs i.
Proof. unfold unique_of. now intros ->. Qed.

Lemma tree_inv_ext (l l' : list Node) (cs : list Component) (log log' : list Event) :
  Forall2 same_sizes l l' ->
  (forall r, retained_calls r log' = retained_calls r log) ->
  tree_inv l cs log -> tree_inv l' cs log'.
Proof.
  intros Hs Hlog [H1 H2 H3].
  destruct (same_sizes_of _ _ Hs) as (Ec & Ech & Ep & Ess).
  assert (Eu : forall i, unique_of l' cs i = unique_of l cs i)
    by (intros i; apply unique_of_ext, Ec).
  split.
  - intros i. rewrite Ec, Hlog. apply H1.
  - intros i. rewrite Ec, Ech, Ep, Ess. intros Hi.
    destruct (H2 i Hi) as (c & Hc & Hl & Ho & Hu). exists c.
    repeat split; try assumption. rewrite Hu. do 2 f_equal.
    apply zsum_ext. intros j _. symmetry. apply Eu.
  - intros i. rewrite Ec, Hlog, Eu. apply H3.
Qed.

Lemma forest_graph_ext (l l' : list Node) :
  Forall2 (fun n n' => children n' = children n /\ row n' = row n) l l' ->
  forest_graph l -> forest_graph l'.
Proof.
  intros Hs [H1 H2 H3].
  assert (Ech : forall i, children_of l' i = children_of l i).
  { intros i. unfold children_of. destruct (l !! i) as [n |] eqn:E.
    - destruct (Forall2_lookup_l _ _ _ _ _ Hs E) as (n' & -> & Hch & _). exact Hch.
    - apply lookup_ge_None in E. rewrite (Forall2_length _ _ _ Hs) in E.
      apply lookup_ge_None in E. now rewrite E. }
  split.
  - intros i j. rewrite Ech. apply H1.
  - intros i i' j. rewrite !Ech. apply H2.
  - intros i n' Hn'.
    destruct (Forall2_lookup_r _ _ _ _ _ Hs Hn') as (n & Hn & _ & Hr).
    rewrite Hr. eapply H3; eassumption.
Qed.

Lemma forest_graph_step (l l' : list Node) :
  Forall2 node_step l l' -> forest_graph l -> forest_graph l'.
Proof.
  intros Hs. apply forest_graph_ext. eapply Forall2_impl; [exact Hs |].
  intros n n' [(? & _ & _ & ? & _) _]. auto.
Qed.

(** Lowering the low-link of a node changes none of the sizes. *)
Lemma tree_inv_lower (st : Walker) (node : nat) (n : Node) (l : Z) :
  nodes_ st !! node = Some n ->
  tree_inv (nodes_ st) (components_ st) (delegate_ st) ->
  tree_inv (<[node := set_lowlink l n]> (nodes_ st)) (components_ st) (delegate_ st).
Proof.
  intros Hn. apply tree_inv_ext; [| reflexivity].
  eapply same_sizes_insert; [exact Hn | repeat split].
Qed.

Lemma visit_child_tree (find : Walker -> nat -> result Walker)
    (st0 : Walker) (node : nat) (pre : list nat) (st : Walker) (child : nat)
    (st' : Walker) :
  search_correct find ->
  (forall s c s', walker_ok s -> counts_ok s ->
     (exists n, nodes_ s !! c = Some n /\ node_index n = 0) ->
     unvisited (nodes_ s) < unvisited (nodes_ st0) ->
     scc_inv (nodes_ s) ->
     (forall a, a ∈ node_stack_ s -> reaches (nodes_ s) a c) ->
     forest_graph (nodes_ s) ->
     tree_inv (nodes_ s) (components_ s) (delegate_ s) ->
     find s c = Ok s' ->
     tree_inv (nodes_ s') (components_ s') (delegate_ s')) ->
  child ∈ children_of (nodes_ st) node ->
  loop_inv2 st0 node pre st ->
  scc_loop st0 node st ->
  forest_graph (nodes_ st) ->
  tree_inv (nodes_ st) (components_ st) (delegate_ st) ->
  visit_child find node st child = Ok st' ->
  tree_inv (nodes_ st') (components_ st') (delegate_ st').
Proof.
  intros Hfind Htree Hchild [Hinv Hco _ _] [Hsi Hup _ _] Hforest Htr H.
  pose proof (li_ok _ _ _ Hinv) as Hok.
  destruct (li_node _ _ _ Hinv) as (n & Hn & Hidx & Hon).
  pose proof (ok_node _ Hok _ _ Hn) as [_ Hnk]. rewrite Hon in Hnk.
  destruct Hnk as (_ & Hnv & _).
  assert (Hnvis : index_of (nodes_ st) node <> 0)
    by now rewrite (index_of_lookup _ _ _ Hn).
  pose proof (go_children _ (co_graph _ Hco) _ _ Hchild) as Hlt.
  destruct (lookup_lt_is_Some_2 _ _ Hlt) as [c Hc].
  pose proof (reaches_edge _ _ _ Hchild) as Hedge.
  unfold visit_child in H. unfold get_node at 1 in H.
  rewrite Hc in H. cbn [bind] in H.
  destruct (Z.eqb_spec (node_index c) 0) as [Ec | Ec].
  - inv_bind H. rename x into sta, Hx into Hcall.
    assert (Hless : unvisited (nodes_ st) < unvisited (nodes_ st0)).
    { eapply unvisited_step_lt;
        [apply (li_nodes _ _ _ Hinv) | apply (li_fresh _ _ _ Hinv) | exact Hnvis]. }
    assert (Htra : tree_inv (nodes_ sta) (components_ sta) (delegate_ sta)).
    { eapply Htree; [exact Hok | exact Hco | eauto | exact Hless | exact Hsi | |
                     exact Hforest | exact Htr | exact Hcall].
      intros a Ha. eapply reaches_trans; [apply Hup, Ha | exact Hedge]. }
    inv_binds H. rename x0 into n1, Hx0 into Hn1. apply get_node_Ok in Hn1.
    destruct (lowlink x <? lowlink n1); injection H as <-; [| exact Htra].
    cbn [nodes_ components_ delegate_ set_nodes]. now apply tree_inv_lower.
  - destruct (on_stack c); [| injection H as <-; exact Htr].
    inv_binds H. rename x into n1, Hx into Hn1. apply get_node_Ok in Hn1.
    destruct (node_index c <? lowlink n1); injection H as <-; [| exact Htr].
    cbn [nodes_ components_ delegate_ set_nodes]. now apply tree_inv_lower.
Qed.

Lemma FindSCC_tree (fuel : nat) :
  forall st node st',
    walker_ok st -> counts_ok st ->
    (exists n, nodes_ st !! node = Some n /\ node_index n = 0) ->
    unvisited (nodes_ st) <= Z.of_nat fuel ->
    scc_inv (nodes_ st) ->
    (forall a, a ∈ node_stack_ st -> reaches (nodes_ st) a node) ->
    forest_graph (nodes_ st) ->
    tree_inv (nodes_ st) (components_ st) (delegate_ st) ->
    FindSCC fuel st node = Ok st' ->
    tree_inv (nodes_ st') (components_ st') (delegate_ st').
Proof.
  induction fuel as [| fuel IH];
    intros st node st' Hok Hco (n0 & Hn0 & Hfresh) Hfuel Hsi Hpre Hforest Htr H;
    [discriminate |].
  cbn in H. inv_binds H.
  rename x0 into st1, Hx0 into Henter, x1 into st2, Hx1 into Hloop,
         x2 into n2, Hx2 into Hn2.
  apply get_node_Ok in Hn2. apply get_node_Ok in Hx.
  assert (x = n0) as -> by congruence. clear Hx.
  apply enter_node_spec in Henter as (n0' & Hn0' & ->).
  assert (n0' = n0) as -> by congruence.
  pose proof (lookup_lt_Some _ _ _ Hn0) as Hlt.
  set (st1 := set_next_node_index _ _) in *.
  pose proof (enter_node_inv st node n0 Hok Hn0 Hfresh) as Hinv1. fold st1 in Hinv1.
  destruct (insert_same_graph (nodes_ st) node n0
              (entered_node (next_node_index_ st) n0) Hn0 eq_refl eq_refl eq_refl)
    as (Ec1 & Ech1 & _).
  assert (Hl1 : loop_inv2 st node [] st1).
  { split.
    - exact Hinv1.
    - eapply (counts_ok_insert st node n0 (entered_node (next_node_index_ st) n0));
        try reflexivity; assumption.
    - exists []. split; [reflexivity |]. intros m Hm. inversion Hm.
    - intros c Hc. inversion Hc. }
  assert (Hs1 : scc_loop st node st1).
  { split; cbn [nodes_ node_stack_ st1 set_next_node_index set_node_stack set_nodes].
    - eapply scc_inv_ext; [exact Ec1 | exact Ech1 | exact Hsi].
    - intros a Ha. apply elem_of_cons in Ha as [-> | Ha]; [apply reaches_here |].
      eapply reaches_ext; [exact Ech1 | auto].
    - intros seg Hseg m Hm.
      change (node :: node_stack_ st) with ([] ++ node :: node_stack_ st) in Hseg.
      apply (pivot_unique node) in Hseg as [<- _]; [inversion Hm |].
      cbn. apply (stack_NoDup _ _ (ok_sorted _ (li_ok _ _ _ Hinv1))).
    - exists node. split; [left |]. split; [| apply reaches_here].
      unfold index_of, lowlink_of. rewrite list_lookup_insert_eq by assumption.
      cbn. lia. }
  assert (Ht1 : tree_inv (nodes_ st1) (components_ st1) (delegate_ st1)).
  { cbn [nodes_ components_ delegate_ st1 set_next_node_index set_node_stack set_nodes].
    eapply tree_inv_ext; [| reflexivity | exact Htr].
    eapply same_sizes_insert; [exact Hn0 | repeat split]. }
  assert (Hfg : forall s, loop_inv st node s -> forest_graph (nodes_ s)).
  { intros s Hs. eapply forest_graph_step; [| exact Hforest].
    apply (li_nodes _ _ _ Hs). }
  assert (Hall : loop_inv2 st node (children n0) st2 /\ scc_loop st node st2
                 /\ tree_inv (nodes_ st2) (components_ st2) (delegate_ st2)).
  { revert Hloop.
    apply (foldM_Ok_prefix _ (fun pre s =>
             loop_inv2 st node pre s /\ scc_loop st node s
             /\ tree_inv (nodes_ s) (components_ s) (delegate_ s)));
      [| split; [exact Hl1 | split; [exact Hs1 | exact Ht1]]].
    intros pre a post s s' Hl (Hl2 & Hsl & Hts) Hcall.
    assert (Hchild : a ∈ children_of (nodes_ s) node).
    { rewrite (nodes_step_children _ _ _ (li_nodes _ _ _ (l2_inv _ _ _ _ Hl2))).
      unfold children_of. rewrite Hn0, Hl. apply elem_of_app. right. left. }
    split; [| split].
    - eapply safe_Ok_inv; [| exact Hcall].
      apply visit_child_safe; [apply FindSCC_spec | | exact Hchild | exact Hl2].
      intros s0 c Hoks Hcos Hc Hless. apply FindSCC_safe; auto. lia.
    - eapply visit_child_scc;
        [apply FindSCC_spec | | exact Hchild | exact Hl2 | exact Hsl | exact Hcall].
      intros s0 c s0' Hoks Hcos Hc Hless Hsis Hpres Hcalls.
      eapply FindSCC_scc; eauto. lia.
    - eapply visit_child_tree;
        [apply FindSCC_spec | | exact Hchild | exact Hl2 | exact Hsl |
         apply Hfg, (l2_inv _ _ _ _ Hl2) | exact Hts | exact Hcall].
      intros s0 c s0' Hoks Hcos Hc Hless Hsis Hpres Hfs Htrs Hcalls.
      eapply IH; eauto. lia. }
  destruct Hall as ([Hinv2 Hco2 (seg & Hstack & Hseg) Hproc] & Hsl2 & Ht2).
  pose proof (li_ok _ _ _ Hinv2) as Hok2.
  pose proof (Hfg _ Hinv2) as Hforest2.
  destruct (Z.eqb_spec (lowlink n2) (node_index n2)) as [Eroot | Eroot];
    [| injection H as <-; exact Ht2].
  (* [node] is the root of a component, and alone in it *)
  assert (Hch2 : children n2 = children n0).
  { pose proof (nodes_step_children _ _ node (li_nodes _ _ _ Hinv2)) as E.
    unfold children_of in E. now rewrite Hn2, Hn0 in E. }
  rewrite (lowlink_of_lookup _ _ _ Hn2), <- Hch2 in *.
  pose proof (root_closes st node st2 n2 seg Hok2 Hstack Hn2 Eroot Hseg Hproc)
    as Hcloses.
  assert (seg = []) as ->.
  { destruct seg as [| m seg]; [reflexivity | exfalso].
    pose proof (stack_NoDup _ _ (ok_sorted _ Hok2)) as Hnd. rewrite Hstack in Hnd.
    pose proof (sl_down _ _ _ Hsl2 _ Hstack m ltac:(left)) as Hdown.
    pose proof (sl_up _ _ _ Hsl2 m ltac:(rewrite Hstack; left)) as Hup.
    pose proof (reaches_up _ _ _ Hforest2 Hdown).
    pose proof (reaches_up _ _ _ Hforest2 Hup).
    assert (m = node) as -> by lia.
    cbn in Hnd. apply NoDup_cons in Hnd as [Hnd _]. apply Hnd.
    apply elem_of_app. right. left. }
  cbn [app] in Hstack, Hcloses.
  eapply (FoundSCC_tree st2 node (node_stack_ st));
    [exact Hok2 | apply (co_graph _ Hco2) | exact Hforest2 |
     apply (sl_inv _ _ _ Hsl2) | exact Ht2 | exact Hstack | | exact H].
  intros child Hchild.
  destruct (Hcloses node child ltac:(left) Hchild) as [Hvis Hin].
  assert (Hnotin : child ∉ node_stack_ st2).
  { intros Hc. apply Hin, list_elem_of_singleton in Hc. subst child.
    pose proof (fg_up _ Hforest2 _ _ Hchild). lia. }
  unfold index_of, component_of in *.
  destruct (nodes_ st2 !! child) as [c |] eqn:Hc; [| contradiction].
  pose proof (ok_node _ Hok2 _ _ Hc) as [_ Hk].
  destruct (on_stack c); [tauto |].
  destruct (Z.eqb_spec (node_index c) 0); [contradiction | lia].
Qed.

Lemma search_tree (st : Walker) (node : nat) (n : Node) (st' : Walker) :
  forest_state st -> nodes_ st !! node = Some n ->
  (if node_index n =? 0 then FindSCC (depth_bound st) st node else Ok st) = Ok st' ->
  forest_state st'.
Proof.
  intros [Hst Hsi Hfg Htr] Hn H.
  destruct (search_scc _ _ _ _ Hst Hn Hsi H) as [Hst' Hsi'].
  destruct (search_from_idle _ _ _ _ _ (proj1 Hst) Hn H) as (_ & Hstep & _).
  split; [exact Hst' | exact Hsi' | eapply forest_graph_step; eassumption |].
  destruct Hst as [[Hok Hempty] Hco].
  destruct (Z.eqb_spec (node_index n) 0) as [E | E]; [| injection H as <-; exact Htr].
  eapply FindSCC_tree; eauto.
  - unfold depth_bound. pose proof (unvisited_le_length (nodes_ st)). lia.
  - intros a Ha. rewrite Hempty in Ha. inversion Ha.
Qed.

Lemma sweep_tree (l : list nat) :
  forall st st', forest_state st -> foldM sweep_node l st = Ok st' ->
    forest_state st'.
Proof.
  induction l as [| a l IH]; intros st st' Hst H; cbn in H.
  - now injection H as <-.
  - inv_binds H. rename x into s1, Hx into Hsweep.
    unfold sweep_node in Hsweep. inv_binds Hsweep.
    rename x into n, Hx into Hn. apply get_node_Ok in Hn.
    eapply IH; [| exact H]. eapply search_tree; eassumption.
Qed.

Lemma searches_tree (searches : list call) :
  forall st st', forest_state st ->
    forallb is_search searches = true ->
    foldM do_call searches st = Ok st' ->
    forest_state st'.
Proof.
  induction searches as [| c searches IH]; intros st st' Hst Hall H; cbn in H.
  - now injection H as <-.
  - cbn [forallb] in Hall. apply andb_prop in Hall as [Hc Hall].
    inv_binds H. rename x into s1, Hx into Hcall.
    eapply IH; [| exact Hall | exact H].
    destruct c as [r size | owner_row owned_row | r |]; try discriminate Hc;
      cbn in Hcall.
    + (* MarkRoot *)
      unfold MarkRoot in Hcall. inv_binds Hcall.
      rename x into node, Hx into Hnode, x0 into sa, Hx0 into Hreach,
             x1 into n, Hx1 into Hn.
      apply get_node_Ok in Hn.
      pose proof (ReachableNode_frame _ _ _ _ Hreach) as Hframe.
      pose proof (ReachableNode_retained _ _ _ _ Hreach) as Hlog.
      destruct Hst as [Hset Hsi Hfg Htr].
      assert (Hsame : Forall2 same_sizes (nodes_ st) (nodes_ sa)).
      { eapply Forall2_impl; [apply (rf_nodes _ _ Hframe) |].
        intros x y [-> | [_ ->]]; repeat split. }
      destruct (same_sizes_of _ _ Hsame) as (Ec & Ech & _).
      eapply search_tree; [| exact Hn | exact Hcall]. split.
      * destruct Hset as [[Hok Hempty] Hco]. split; [split |].
        -- eapply reach_frame_ok; eassumption.
        -- now rewrite (rf_stack _ _ Hframe).
        -- eapply counts_ok_frame; eassumption.
      * eapply scc_inv_ext; [exact Ec | exact Ech | exact Hsi].
      * eapply forest_graph_ext; [| exact Hfg].
        eapply Forall2_impl; [exact Hsame |]. intros x y (? & _ & _ & ? & _). auto.
      * rewrite (rf_components _ _ Hframe).
        eapply tree_inv_ext; [exact Hsame | exact Hlog | exact Htr].
    + (* CalculateRetained *)
      apply CalculateRetained_spec in Hcall as [Hcall _].
      eapply sweep_tree; eassumption.
Qed.

Lemma forest_edges_added (calls : list call) :
  forest_edges calls = true ->
  (forall i j, added calls i j -> (i < j)%nat)
  /\ (forall i i' j, added calls i j -> added calls i' j -> i = i').
Proof.
  unfold forest_edges, added. rewrite forallb_forall. intros H. split.
  - intros i j Hin. apply list_elem_of_In, H in Hin. cbn in Hin.
    apply andb_prop in Hin as [Hlt _]. apply Z.ltb_lt in Hlt. lia.
  - intros i i' j Hin Hin'. apply list_elem_of_In, H in Hin. cbn in Hin.
    apply andb_prop in Hin as [_ Hall]. rewrite forallb_forall in Hall.
    apply list_elem_of_In, Hall in Hin'. cbn in Hin'.
    rewrite Z.eqb_refl in Hin'. cbn in Hin'. apply Z.eqb_eq in Hin'. lia.
Qed.

(** While the graph is built there is no component and the delegate is
    not called. *)
Lemma build_fresh (build : list call) :
  forall st st', settled st -> fresh st -> delegate_ st = [] ->
    forallb (fun c => negb (is_search c)) build = true ->
    foldM do_call build st = Ok st' ->
    settled st' /\ fresh st' /\ delegate_ st' = [].
Proof.
  induction build as [| c build IH]; intros st st' Hst Hfresh Hlog Hall H; cbn in H.
  - injection H as <-. auto.
  - cbn [forallb] in Hall. apply andb_prop in Hall as [Hc Hall].
    apply negb_true_iff in Hc.
    inv_binds H. rename x into s1, Hx into Hcall.
    destruct (do_call_scc st c s1 Hst (scc_inv_fresh _ (proj2 Hfresh))
                (fun _ => Hfresh) Hcall) as (Hst1 & _ & Hfresh1).
    apply (IH s1 st' Hst1 (Hfresh1 Hc Hfresh)); [| exact Hall | exact H].
    destruct c as [r size | owner_row owned_row | r |]; try discriminate Hc;
      cbn in Hcall.
    + apply AddNode_spec in Hcall as (k & n & _ & _ & ->). exact Hlog.
    + apply AddEdge_spec in Hcall as (a & b & n & m & _ & _ & _ & _ & ->). exact Hlog.
Qed.

(** The registrations of the build phase. *)
Lemma build_registered (build : list call) :
  forall seen st st' rest,
    report_state seen st ->
    forallb (fun c => negb (is_search c)) build = true ->
    table_registered seen (length (nodes_ st)) (build ++ rest) = true ->
    foldM do_call build st = Ok st' ->
    exists seen', report_state seen' st'
      /\ table_registered seen' (length (nodes_ st')) rest = true.
Proof.
  induction build as [| c build IH]; intros seen st st' rest Hst Hall Hreg H;
    cbn in H.
  - injection H as <-. eauto.
  - cbn [forallb] in Hall. apply andb_prop in Hall as [Hc Hall].
    apply negb_true_iff in Hc.
    inv_binds H. rename x into s1, Hx into Hcall.
    cbn [app table_registered] in Hreg. apply andb_prop in Hreg as [_ Hreg].
    pose proof Hst as (Hidle & _).
    rewrite <- (do_call_length _ _ _ Hidle Hcall) in Hreg.
    eapply IH; [| exact Hall | exact Hreg | exact H].
    eapply do_call_report; [exact Hst | | exact Hcall].
    intros Hs. congruence.
Qed.

(** X17: in a forest every node is reported with its subtree: when the
    graph is built first (no [AddNode] or [AddEdge] after a search),
    every edge leads from a row to a higher row, no row has two owners
    and every node of the table is registered, the delegate receives for
    every node that is in a component one [SetRetained] call, in which
    the retained size and the unique size are equal, and are the self
    size of the node plus the retained sizes reported for its children,
    in 64-bit arithmetic. *)
Theorem forest_retained_is_subtree (build searches : list call) (st : Walker)
    (i : nat) :
  forallb (fun c => negb (is_search c)) build = true ->
  forallb is_search searches = true ->
  forest_edges build = true ->
  table_registered [] 0 (build ++ searches) = true ->
  run (build ++ searches) = Ok st ->
  component_of (nodes_ st) i <> -1 ->
  exists v,
    retained_calls (Z.of_nat i) (delegate_ st) = [(v, v)]
    /\ v = to_int64 (self_size_of (nodes_ st) i
                     + zsum (reported (delegate_ st)) (children_of (nodes_ st) i)).
Proof.
  intros Hbuild Hsearch Hedges Hreg H Hi.
  apply run_split in H as (sb & Hb & Hs).
  destruct (build_fresh build empty_walker sb empty_walker_settled) as
    (Hset & Hfresh & Hlog); [split; reflexivity | reflexivity | exact Hbuild | exact Hb |].
  destruct searches as [| c searches].
  { cbn in Hs. injection Hs as <-. exfalso. apply Hi. apply (proj2 Hfresh). }
  destruct (build_registered build [] empty_walker sb (c :: searches)
              empty_walker_report Hbuild Hreg Hb) as (seen & (_ & Hseen & _) & Hreg').
  cbn [table_registered forallb] in Hreg', Hsearch.
  apply andb_prop in Hsearch as [Hc Hsearch']. rewrite Hc in Hreg'.
  cbn [negb orb] in Hreg'. apply andb_prop in Hreg' as [Hrows _].
  pose proof (seen_all_registered _ _ Hseen Hrows) as Hrowsb.
  assert (Hedges_b : edges_inv (fun i j => False \/ added build i j) (nodes_ sb)).
  { apply (calls_edges build (fun _ _ => False) empty_walker sb
             empty_walker_idle Hb).
    split; cbn; unfold children_of, parents_of; intros *;
      rewrite ?lookup_nil; try constructor; try contradiction;
      intros Hin; inversion Hin. }
  destruct (forest_edges_added _ Hedges) as [Hup Hone].
  assert (Hadded : forall a b, b ∈ children_of (nodes_ sb) a -> added build a b).
  { intros a b Hab. apply (ei_children _ _ Hedges_b) in Hab as [[] | Hab]. exact Hab. }
  assert (Hstate : forest_state sb).
  { split.
    - exact Hset.
    - apply scc_inv_fresh, (proj2 Hfresh).
    - split; [intros a b Hab; apply Hup, Hadded, Hab | | exact Hrowsb].
      intros a a' b Hab Hab'. eapply Hone; apply Hadded; eassumption.
    - split.
      + intros j _. now rewrite Hlog.
      + intros j Hj. contradiction Hj. apply (proj2 Hfresh).
      + intros j Hj. contradiction Hj. apply (proj2 Hfresh). }
  assert (Hall : forallb is_search (c :: searches) = true)
    by (cbn; now rewrite Hc).
  destruct (searches_tree _ _ _ Hstate Hall Hs) as [_ Hsi _ [_ Hcomp Hlogs]].
  exists (to_int64 (unique_of (nodes_ st) (components_ st) i)).
  split; [apply Hlogs, Hi |].
  destruct (Hcomp i Hi) as (ci & Hci & _ & _ & Hu).
  unfold unique_of at 1. unfold unique_at. rewrite Hci, Hu.
  apply to_int64_eqm. eapply eqm_trans; [apply eqm_wrap64 |].
  apply eqm_add; [apply eqm_refl |]. apply eqm_zsum.
  intros j Hj. destruct (sc_order _ Hsi i j Hi Hj) as [Hja _].
  unfold reported. rewrite (Hlogs j Hja). apply eqm_sym, eqm_to_int64.
Qed.

Lemma forest_retained_is_subtree_witness :
  exists st,
    run ([CallAddNode 0 1; CallAddNode 1 2; CallAddNode 2 4; CallAddNode 3 8;
          CallAddEdge 0 1; CallAddEdge 0 2; CallAddEdge 2 3]
         ++ [CallMarkRoot 0; CallCalculateRetained]) = Ok st
    /\ component_of (nodes_ st) 0 <> -1
    /\ retained_calls 0 (delegate_ st) = [(15, 15)]
    /\ exists v,
         retained_calls (Z.of_nat 0) (delegate_ st) = [(v, v)]
         /\ v = to_int64 (self_size_of (nodes_ st) 0
                          + zsum (reported (delegate_ st))
                                 (children_of (nodes_ st) 0)).
Proof.
  destruct (run ([CallAddNode 0 1; CallAddNode 1 2; CallAddNode 2 4; CallAddNode 3 8;
                  CallAddEdge 0 1; CallAddEdge 0 2; CallAddEdge 2 3]
                 ++ [CallMarkRoot 0; CallCalculateRetained]))
    as [st |] eqn:E; [| vm_compute in E; discriminate E].
  assert (Hc : component_of (nodes_ st) 0 <> -1
               /\ retained_calls 0 (delegate_ st) = [(15, 15)]).
  { vm_compute in E. injection E as <-. split; [vm_compute; discriminate | reflexivity]. }
  exists st. split; [reflexivity |]. split; [apply Hc |]. split; [apply Hc |].
  exact (forest_retained_is_subtree
           [CallAddNode 0 1; CallAddNode 1 2; CallAddNode 2 4; CallAddNode 3 8;
            CallAddEdge 0 1; CallAddEdge 0 2; CallAddEdge 2 3]
           [CallMarkRoot 0; CallCalculateRetained] st 0
           eq_refl eq_refl eq_refl eq_refl E (proj1 Hc)).
Defined.

(** ** What a root decides *)

(** The search from [node] discovers only nodes that [node] reaches. *)
Lemma FindSCC_visits (fuel : nat) :
  forall st node st',
    walker_ok st ->
    (exists n, nodes_ st !! node = Some n /\ node_index n = 0) ->
    FindSCC fuel st node = Ok st' ->
    forall i, index_of (nodes_ st) i = 0 -> index_of (nodes_ st') i <> 0 ->
      reaches (nodes_ st) node i.
Proof.
  induction fuel as [| fuel IH]; intros st node st' Hok (n0 & Hn0 & Hfresh) H;
    [discriminate |].
  cbn in H. inv_binds H.
  rename x0 into st1, Hx0 into Henter, x1 into st2, Hx1 into Hloop,
         x2 into n2, Hx2 into Hn2.
  apply get_node_Ok in Hn2. apply get_node_Ok in Hx.
  assert (x = n0) as -> by congruence. clear Hx.
  apply enter_node_spec in Henter as (n0' & Hn0' & ->).
  assert (n0' = n0) as -> by congruence.
  pose proof (lookup_lt_Some _ _ _ Hn0) as Hlt.
  set (st1 := set_next_node_index _ _) in *.
  pose proof (enter_node_inv st node n0 Hok Hn0 Hfresh) as Hinv1. fold st1 in Hinv1.
  assert (Hboth : loop_inv st node st2
                  /\ forall i, index_of (nodes_ st) i = 0 ->
                       index_of (nodes_ st2) i <> 0 -> reaches (nodes_ st) node i).
  { revert Hloop.
    apply (foldM_Ok_prefix _ (fun pre s =>
             loop_inv st node s
             /\ forall i, index_of (nodes_ st) i = 0 ->
                  index_of (nodes_ s) i <> 0 -> reaches (nodes_ st) node i)).
    - intros pre a post s s' Hl [Hinv Hvis] Hcall.
      split; [eapply visit_child_inv; [apply FindSCC_spec | exact Hinv | exact Hcall] |].
      assert (Hch : forall i, children_of (nodes_ s) i = children_of (nodes_ st) i)
        by (intros i; apply nodes_step_children, (li_nodes _ _ _ Hinv)).
      assert (Hchild : a ∈ children_of (nodes_ st) node).
      { unfold children_of. rewrite Hn0, Hl. apply elem_of_app. right. left. }
      destruct (li_node _ _ _ Hinv) as (n & Hn & _).
      unfold visit_child in Hcall. inv_binds Hcall.
      rename x into c, Hx into Hc. apply get_node_Ok in Hc.
      destruct (Z.eqb_spec (node_index c) 0) as [Ec | Ec].
      + inv_binds Hcall. rename x into sa, Hx into Hfind, x0 into c1, Hx0 into Hc1,
                                x1 into n1, Hx1 into Hn1.
        apply get_node_Ok in Hn1.
        pose proof (IH s a sa (li_ok _ _ _ Hinv) ltac:(eauto) Hfind) as Hnew.
        assert (Hsa : forall i, index_of (nodes_ st) i = 0 ->
                        index_of (nodes_ sa) i <> 0 -> reaches (nodes_ st) node i).
        { intros i Hi0 Hi.
          destruct (Z.eq_dec (index_of (nodes_ s) i) 0) as [E | E]; [| auto].
          eapply reaches_child; [exact Hchild |].
          eapply reaches_ext; [intros j; symmetry; apply Hch | auto]. }
        destruct (lowlink c1 <? lowlink n1); injection Hcall as <-; [| exact Hsa].
        intros i Hi0 Hi. apply Hsa; [exact Hi0 |].
        cbn [nodes_ set_nodes] in Hi.
        now rewrite (index_of_insert_same _ _ n1 (set_lowlink _ n1) Hn1 eq_refl) in Hi.
      + destruct (on_stack c); [| injection Hcall as <-; exact Hvis].
        inv_binds Hcall. rename x into n1, Hx into Hn1. apply get_node_Ok in Hn1.
        destruct (node_index c <? lowlink n1); injection Hcall as <-; [| exact Hvis].
        intros i Hi0 Hi. apply Hvis; [exact Hi0 |].
        cbn [nodes_ set_nodes] in Hi.
        now rewrite (index_of_insert_same _ _ n1 (set_lowlink _ n1) Hn1 eq_refl) in Hi.
    - split; [exact Hinv1 |]. intros i Hi0 Hi.
      destruct (decide (i = node)) as [-> | Hne]; [apply reaches_here |].
      exfalso. apply Hi. unfold index_of in *. cbn.
      now rewrite list_lookup_insert_ne by congruence. }
  destruct Hboth as [Hinv2 Hvis2].
  destruct (lowlink n2 =? node_index n2); [| injection H as <-; exact Hvis2].
  apply FoundSCC_spec in H as (front & _ & _ & _ & Hout & Hin & _).
  intros i Hi0 Hi. apply Hvis2; [exact Hi0 |].
  unfold index_of in *. destruct (decide (i ∈ front ++ [node])) as [Him | Him].
  - destruct (Hin i Him) as (e & He & _ & He'). rewrite He' in Hi. now rewrite He.
  - now rewrite (Hout i Him) in Hi.
Qed.

(** The rows that [AddNode] appends are undiscovered. *)
Lemma index_of_extend (l : list Node) (k : nat) (i : nat) :
  index_of (l ++ replicate k default_node) i = index_of l i.
Proof.
  unfold index_of. destruct (l !! i) as [n |] eqn:E.
  - now rewrite (lookup_app_l_Some _ _ _ _ E).
  - apply lookup_ge_None in E. rewrite lookup_app_r by assumption.
    destruct (replicate k default_node !! (i - length l)%nat) as [n |] eqn:E';
      [| reflexivity].
    apply lookup_replicate in E' as [-> _]. reflexivity.
Qed.

(** In a state between two calls the discovered nodes are the nodes
    that are in a component. *)
Lemma idle_visited (st : Walker) (i : nat) :
  idle st -> (index_of (nodes_ st) i <> 0 <-> component_of (nodes_ st) i <> -1).
Proof.
  intros [Hok Hempty]. unfold index_of, component_of.
  destruct (nodes_ st !! i) as [n |] eqn:Hn; [| split; intros H; contradiction].
  pose proof (ok_node _ Hok _ _ Hn) as [_ Hk].
  destruct (on_stack n).
  - destruct Hk as [Hin _]. rewrite Hempty in Hin. inversion Hin.
  - destruct (Z.eqb_spec (node_index n) 0); split; intros H; lia.
Qed.

(** What a call other than [CalculateRetained] discovers. *)
Lemma do_call_visits (st : Walker) (c : call) (st' : Walker) :
  idle st -> is_calculate c = false -> do_call st c = Ok st' ->
  forall i, index_of (nodes_ st') i <> 0 ->
    index_of (nodes_ st) i <> 0
    \/ exists r, c = CallMarkRoot r /\ reaches (nodes_ st') (Z.to_nat r) i.
Proof.
  intros Hidle Hc H.
  destruct c as [r size | owner_row owned_row | r |]; [| | | discriminate Hc].
  - cbn in H. apply AddNode_spec in H as (k & n & _ & Hn & ->). cbn.
    intros i Hi. left.
    rewrite (index_of_insert_same _ _ n (set_size_row size r n) Hn eq_refl) in Hi.
    now rewrite index_of_extend in Hi.
  - cbn in H.
    apply AddEdge_spec in H as (owner & owned & n & m & _ & _ & Hn & Hm & ->).
    cbn [nodes_ set_nodes]. intros i Hi. left.
    rewrite (index_of_insert_same _ _ m (set_parents (set_emplace owner (parents m)) m)
               Hm eq_refl) in Hi.
    now rewrite (index_of_insert_same _ _ n
                   (set_children (set_emplace owned (children n)) n) Hn eq_refl) in Hi.
  - pose proof (search_call_edges st (CallMarkRoot r) st' Hidle eq_refl H) as Hedges.
    destruct (same_edges_of _ _ Hedges) as [Hch _].
    cbn in H. unfold MarkRoot in H. inv_binds H.
    rename x into node, Hx into Hnode, x0 into sa, Hx0 into Hreach,
           x1 into n, Hx1 into Hn.
    apply node_of_row_Ok in Hnode as (_ & -> & _). apply get_node_Ok in Hn.
    pose proof (ReachableNode_frame _ _ _ _ Hreach) as Hframe.
    assert (Hidle_a : idle sa).
    { destruct Hidle. split; [eapply reach_frame_ok; eassumption |].
      now rewrite (rf_stack _ _ Hframe). }
    pose proof (same_search_index _ _
                  (only_reachable_same_search _ _ (rf_nodes _ _ Hframe))) as Hidx.
    intros i Hi.
    destruct (Z.eq_dec (index_of (nodes_ st) i) 0) as [E | E]; [right | now left].
    exists r. split; [reflexivity |].
    destruct (Z.eqb_spec (node_index n) 0) as [En | En].
    + pose proof (FindSCC_visits _ _ _ _ (proj1 Hidle_a) ltac:(eauto) H i
                    ltac:(now rewrite Hidx) Hi) as Hr.
      eapply reaches_mono; [| exact Hr]. intros x y Hy.
      rewrite Hch. now rewrite <- (only_reachable_children_of _ _ x (rf_nodes _ _ Hframe)).
    + injection H as <-. rewrite Hidx in Hi. contradiction.
Qed.

(** Every discovered node is reached by a root marked so far. *)
Lemma calls_visited (calls : list call) :
  forall (R : nat -> Prop) st st',
    idle st -> forallb (fun c => negb (is_calculate c)) calls = true ->
    foldM do_call calls st = Ok st' ->
    visited_rooted R (nodes_ st) ->
    visited_rooted (fun i => R i \/ marked_root calls i) (nodes_ st').
Proof.
  induction calls as [| c calls IH]; intros R st st' Hidle Hall H Hroot; cbn in H.
  - injection H as <-. intros i Hi. destruct (Hroot i Hi) as (r & Hr & Hreach).
    exists r. auto.
  - cbn [forallb] in Hall. apply andb_prop in Hall as [Hc Hall].
    apply negb_true_iff in Hc.
    inv_binds H. rename x into s1, Hx into Hcall.
    pose proof (do_call_idle _ _ _ Hidle Hcall) as [Hidle1 _].
    destruct (do_call_marks _ _ _ Hidle Hcall) as [Hmono _].
    pose proof (do_call_visits _ _ _ Hidle Hc Hcall) as Hvisits.
    assert (Hroot1 : visited_rooted (fun i => R i \/ marked_root [c] i) (nodes_ s1)).
    { intros i Hi. destruct (Hvisits i Hi) as [Hold | (r & -> & Hreach)].
      - destruct (Hroot i Hold) as (r & Hr & Hreach). exists r.
        split; [now left | eapply reaches_mono; eassumption].
      - exists (Z.to_nat r). split; [| exact Hreach].
        right. exists r. split; [left | reflexivity]. }
    intros i Hi. destruct (IH _ _ _ Hidle1 Hall H Hroot1 i Hi) as (r & Hr & Hreach).
    exists r. split; [| exact Hreach].
    destruct Hr as [[Hr | (r' & Hin & Heq)] | (r' & Hin & Heq)]; [now left | |];
      right; exists r'; (split; [| exact Heq]).
    + apply list_elem_of_singleton in Hin as ->. left.
    + now right.
Qed.

(** A marked root is in a component from then on. *)
Lemma root_assigned (calls : list call) (st : Walker) (r : Z) :
  run calls = Ok st -> CallMarkRoot r ∈ calls ->
  component_of (nodes_ st) (Z.to_nat r) <> -1.
Proof.
  intros H Hin. apply list_elem_of_split in Hin as (l1 & l2 & ->).
  apply run_split in H as (s1 & H1 & H).
  destruct (calls_idle _ _ _ empty_walker_idle H1) as [Hidle1 _].
  cbn [foldM] in H. inv_bind H. rename x into s2, Hx into Hmark.
  destruct (do_call_idle _ _ _ Hidle1 Hmark) as [Hidle2 _].
  destruct (calls_idle _ _ _ Hidle2 H) as [_ Hkept].
  assert (H2 : component_of (nodes_ s2) (Z.to_nat r) <> -1).
  { apply (idle_visited _ _ Hidle2).
    cbn in Hmark. unfold MarkRoot in Hmark. inv_binds Hmark.
    rename x into node, Hx into Hnode, x0 into sa, Hx0 into Hreach,
           x1 into n, Hx1 into Hn.
    apply node_of_row_Ok in Hnode as (_ & -> & _). apply get_node_Ok in Hn.
    pose proof (ReachableNode_frame _ _ _ _ Hreach) as Hframe.
    assert (Hidle_a : idle sa).
    { destruct Hidle1. split; [eapply reach_frame_ok; eassumption |].
      now rewrite (rf_stack _ _ Hframe). }
    now apply (search_from_idle _ _ _ _ _ Hidle_a Hn) in Hmark as (_ & _ & Hv & _). }
  unfold component_of in *.
  destruct (nodes_ s2 !! Z.to_nat r) as [n |] eqn:Hn; [| contradiction].
  destruct (Hkept _ _ Hn) as (n' & -> & Hc). rewrite (Hc H2). exact H2.
Qed.

(** X18: what [MarkRoot] decides: when no edge is added once a search
    has run, then as long as [CalculateRetained] has not been called the
    nodes that are in a component (those the delegate has been given
    sizes for) are exactly the nodes that one of the marked roots
    reaches. *)
Theorem roots_decide_components (calls : list call) (st : Walker) (i : nat) :
  edges_before_search calls = true ->
  forallb (fun c => negb (is_calculate c)) calls = true ->
  run calls = Ok st ->
  (component_of (nodes_ st) i <> -1
   <-> exists r, CallMarkRoot r ∈ calls /\ reaches (nodes_ st) (Z.to_nat r) i).
Proof.
  intros Hedges Hall H.
  destruct (calls_idle _ _ _ empty_walker_idle H) as [Hidle _].
  split.
  - intros Hi. apply (idle_visited _ _ Hidle) in Hi.
    destruct (calls_visited calls (fun _ => False) empty_walker st
                empty_walker_idle Hall H) with (i := i)
      as (r' & [[] | (r & Hin & <-)] & Hreach); [| exact Hi | eauto].
    intros j Hj. now contradiction Hj.
  - intros (r & Hin & Hreach).
    destruct (calls_scc calls empty_walker st empty_walker_settled) as [_ Hsi];
      [apply scc_inv_fresh; reflexivity | left; split; [split |]; auto | exact H |].
    apply (scc_inv_reaches _ _ _ Hsi Hreach).
    eapply root_assigned; eassumption.
Qed.

Lemma roots_decide_components_witness :
  exists st,
    run [CallAddNode 0 1; CallAddNode 1 1; CallAddNode 2 1; CallAddEdge 0 1;
         CallAddEdge 2 1; CallMarkRoot 0] = Ok st
    /\ (component_of (nodes_ st) 2 <> -1
        <-> exists r,
              CallMarkRoot r ∈ [CallAddNode 0 1; CallAddNode 1 1; CallAddNode 2 1;
                                CallAddEdge 0 1; CallAddEdge 2 1; CallMarkRoot 0]
              /\ reaches (nodes_ st) (Z.to_nat r) 2).
Proof.
  destruct (run [CallAddNode 0 1; CallAddNode 1 1; CallAddNode 2 1; CallAddEdge 0 1;
                 CallAddEdge 2 1; CallMarkRoot 0]) as [st |] eqn:E;
    [| vm_compute in E; discriminate E].
  exists st. split; [reflexivity |].
  exact (roots_decide_components
           [CallAddNode 0 1; CallAddNode 1 1; CallAddNode 2 1; CallAddEdge 0 1;
            CallAddEdge 2 1; CallMarkRoot 0] st 2 eq_refl eq_refl E).
Defined.
